(* ===== verification/_CoqProject ===== *)
-Q . S2P
Prelude.v
RustStr.v
Net.v
Dest.v
Proto.v
Limits.v
LimitsSpec.v
LimitsTyped.v
Metrics.v
Config.v
Registry.v
Auth.v
Connection.v
Lifetime.v
Timed.v
Server.v
Http.v
UnitTests.v
Scenarios.v
System.v
SystemState.v
SystemProps.v
SystemBytes.v
Process.v
Exit.v
