(* ===== verification/Prelude.v ===== *)
(** * A verified model of the WebSocket to TCP mail proxy

    The program ([src/src/*.rs]) lets a browser mail client reach IMAP and SMTP
    servers: it accepts a WebSocket on [/proxy?remote=host:port], decides
    whether the client may have that destination, dials it, and relays bytes in
    both directions.  It is an open relay for mail ports in its public mode, so
    what makes it correct is what it refuses: destinations that are not public
    mail servers, clients beyond their rate and connection limits, streams that
    are not the protocol of the port, and configurations that would open any of
    these up.

    ** How the program hangs together, and where it is modelled

    - [RustStr], [Net]: the parts of Rust's standard library the code uses on
      strings and addresses ([str::trim], [split_once], [parse::<u16>],
      [std::net] with its predicates, parser and printer).  A [&str] is the
      list of its UTF-8 bytes; an address is the number it stands for.
    - [Dest] ([dest.rs]): [parse_remote] turns the query into a [Remote];
      [check_policy] checks ports and literals; [resolve_filtered] keeps the
      globally routable addresses of the resolver's answer; [connect_addrs]
      dials them.  The resolver and the connect are parameters.
    - [Proto] ([proto.rs]): the TLS record and ClientHello parser, the IMAP and
      SMTP greeting checks, and the ClientHello builder of its tests.  Indexing
      that Rust would panic on is [Panic], a loop without fuel is [Diverge].
    - [Limits] ([limits.rs]): the state behind the mutex and the operations on
      it, [record_attempt], [acquire], the drop of a [ConnectionLease] and
      [add_bytes]; clock readings are arguments.  [LimitsSpec] holds their
      specification: the live leases, the history of accepted attempts and
      transfers, and the step relation of all interleavings ([limit_step]).
      [LimitsTyped] holds the ranges of the state: 64-bit counters, masked
      addresses as keys.
    - [Metrics] ([metrics.rs]): labels and increments, as a log of calls, and
      [Registry]: [Metrics::new] and the calls performed on the registered
      metrics.  The metric types and the registry of [prometheus_client] are
      the operations of two classes ([MetricTypes], [MetricRegistry]), with
      their documented behaviour as laws.
    - [Config] ([config.rs], [main.rs]): the configuration, its safety check,
      CIDR and list parsing, the environment, and [startup], which is [main] up
      to the bind of its listener, with [parse_log_level] and [init_logging]
      ([logging.rs]).
    - [Auth] ([server.rs]): the checks on headers, query and token, and
      [metrics_handler].  PASETO and date parsing are the operations of the
      class [TokenLibrary], and what their documentation says are the laws of
      [TokenLibraryLaws].
    - [Connection] ([connection.rs]): [Connection::run] as a machine that
      advances from one await to the next ([connection_step]); a trace takes an
      arbitrary state of the limits at each step, which stands for whatever
      other connections did in between.  [Lifetime] holds the measure that every
      event of a connection uses up; [Timed] adds the clock and what [tokio]'s timers may
      report, so that the deadline and the timeouts mean something.
    - [Server] ([server.rs]): [proxy_handler], which composes all of these: the
      gates, [record_attempt], the resolution, the dial, [acquire], and the
      [Connection] that the upgrade runs.
    - [Http] ([server.rs]): the routes, the extractors and the responses of the
      two listeners; [axum]'s query decoding and its tests of an upgrade are the
      class [Axum].
    - [System]: the running proxy, a pool of tasks over one [ServerState].  A
      task is a request that resolves and dials, a handshake, or a connection
      ([Task]); a step ([sys_step]) is the code of one task between two awaits,
      the same functions that [proxy_handler] and [connection_step] are made
      of, or the drop of a handler whose client went away.
      [SystemState] holds what every task of a reachable state satisfies and
      [SystemProps] the theorems of the whole proxy, with a sample run;
      [SystemBytes] compares what the relays of all connections write with what
      the limits charge.
    - [Process] ([main.rs], [server.rs]): [main], and the life of [run_proxy]:
      the metrics task, the public listener over the tasks of [System], and
      [shutdown_signal].  [Exit] is the end: what the tasks own is dropped with
      the runtime.
    - [UnitTests], [Scenarios]: the repository's tests.  A [#[test]] is a
      computation that panics where an assertion or an [unwrap] would; an
      integration test of [server.rs] is a run of [proxy_handler] and of the
      connection machine against an echo server, with an ideal token library.

    ** What the theorems show

    - The process ([Process]): a release build started without
      [MAILINER_UNSAFE], whatever its environment, only ever dials globally
      routable addresses on configured ports, and every connection it makes is
      one that the checks admit; the metrics are served on one listener, and
      what becomes of it does not touch the proxy.  [Exit]: when its tasks are
      dropped, in any order and at any await, nothing stays counted.
    - [Http]: what every request is answered; only the upgrade of [/proxy] on
      the public listener does anything, and the metrics are shown to the holder
      of their key and to nobody else.
    - The whole proxy ([SystemProps]): every reachable state refines a world of
      [LimitsSpec], so the caps and windows hold of the program and not only of
      the calls; with a configuration that [public_safety_errors] accepts,
      every address ever dialled is globally routable and on a configured port,
      and every connection is one that the checks admit, relays nothing before
      its probe has passed and drops its lease at most once; from every
      reachable state all tasks can end, and then nothing is counted; every
      value is in the range of its type; the exposed metrics are a census of
      the connections; one call of [proxy_handler] is a run of the system.
      [SystemBytes]: with a byte cap per address, the bytes relayed under an
      address, in both directions and by all its connections, are exactly those
      charged to it, within the cap in every window.
    - [Server]: no address is dialled before every gate has passed, and a
      refused request leaves no lease behind.
    - [Registry]: every exposed metric holds the count of the calls it stands
      for, under its own name.
    - [Dest]: the address classifier is the table of special-purpose blocks;
      what is dialled is what was filtered, in order, up to the first address
      that connects; parsing gives normalised names,
      and [parse_loose_ipv4] recognises exactly the numeric forms that
      [inet_aton] accepts.
    - [Proto]: no input makes the parsers panic or loop; [parse_sni] is the
      grammar of a ClientHello with a server_name; [tls_record_needed] drives
      an incremental reader exactly; builder and parser are a round trip.
    - [LimitsSpec]: in every interleaving the counters are the live leases and
      the caps hold; the pruned queues decide as a sliding window over the
      whole history; every window of the history respects its cap; collection
      is unobservable; the limit key is the client's network.
    - [Connection]: a session is torn down on both sides and its lease and
      gauge released exactly once, whatever completes when; the relay keeps
      order and loses nothing while it runs; its byte cap is exact; the probe
      is a gate, which lets pass a ClientHello that names the destination (if
      that is not an IP literal) or a greeting.  [Lifetime]: with a byte cap a
      connection takes a bounded number of events, so that only idleness keeps
      it going; and idleness alone never ends its relay.  [Timed]:
      no relay outlives its lifetime by more than a write, and where no TLS
      probe precedes it, the timeouts bound the whole session.
    - [Config], [Auth]: the exact conditions on the environment under which the
      process starts, and those under which a request is authenticated, a
      forwarded address is believed and which, an origin or host passes, the
      metrics are served.
    - [Scenarios]: a session with an echo server answers every message, ping and
      idle time of any client, in order.  The repository's test suite passes on
      the definitions, which validates them and proves nothing more.
    - Some theorems state deviations from what the code means to do: a trailing
      dot hides an IP literal from the policy ([Dest]), a CIDR written as an
      IPv4-mapped address is matched too narrowly ([Config]), the TLS probe
      refuses some legal ClientHellos by how they are split ([Connection]) and
      has no time limit ([Timed]), a release build starts with three caps disabled
      that the README says it insists on ([Config]), and a SIGTERM handler that cannot be
      installed shuts the proxy down ([Process]).

    ** Integers, bounds and fuel

    [usize] is 64 bits wide; gauges are 64 bits with a sign ([wrap_i64]) and an
    [f64] is a number of [SpecFloat].  Numbers are [N]; saturating and wrapping
    operations are written out ([sat_add64], [wrap_add64]).  The lease counters
    wrap at 2^64; the step relation assumes fewer live leases than that.  The
    byte counters saturate; the theorems on budgets assume a cap below
    [u64::MAX].  Instants and durations are nanoseconds in [N] without an upper
    bound, so that the panic of [Instant::now() + max_lifetime] for a lifetime
    near 2^64 seconds is not in the model; [Instant::duration_since] saturates
    at zero.  The loops of [Proto]
    take one more unit of fuel than the buffer has bytes and every iteration
    consumes at least three; [show_digits] takes the number's size in bits.
    Everything else is structural recursion.

    ** What is not modelled

    The slog drain of [logging.rs] and all log output, the text encoding of the
    metrics and the buckets of their histogram, command-line parsing, the
    sockets, the HTTP server of [axum] with its graceful shutdown, and the
    [Debug] output of a lease are I/O or third-party code.  The mutex of
    [limits.rs] is not modelled as such: its operations are atomic, and none of
    them panics short of 2^64 leases, so it is never poisoned.  Timers appear as inputs that say a
    timeout elapsed, with their times in [Timed] only.  How much of a failed
    write reached the peer is not visible to the code and not modelled: a chunk
    counts as written when its write is attempted.  The deployment files
    ([scripts], [Dockerfile]) are not part of the program. *)

From stdpp Require Export base gmap list fin_maps.
From Stdlib Require Export NArith Lia.
From Stdlib Require Export Init.Byte.
From Stdlib Require Strings.Byte Strings.String.
Export Strings.String.StringSyntax.

#[global] Open Scope N_scope.

(** ** Results of fallible code

    [result E A] is Rust's [Result<A, E>].  [outcome E A] adds the two ways in
    which code can fail to produce a value at all: a panic (an index out of
    bounds, an arithmetic underflow in a checked build) and a loop that does
    not finish within the fuel the model gives it.  Theorems on the parsers
    show that neither is reached. *)

Inductive result (E A : Type) : Type :=
| Ok (a : A)
| Err (e : E).
Arguments Ok {E A} a.
Arguments Err {E A} e.

Inductive outcome (E A : Type) : Type :=
| Ret (a : A)
| Throw (e : E)
| Panic
| Diverge.
Arguments Ret {E A} a.
Arguments Throw {E A} e.
Arguments Panic {E A}.
Arguments Diverge {E A}.

Definition result_bind {E A B} (m : result E A) (k : A → result E B) : result E B :=
  match m with Ok a => k a | Err e => Err e end.

Definition outcome_bind {E A B} (m : outcome E A) (k : A → outcome E B) : outcome E B :=
  match m with Ret a => k a | Throw e => Throw e | Panic => Panic | Diverge => Diverge end.

(** [Option::ok_or] *)
Definition ok_or {E A} (e : E) (o : option A) : result E A :=
  match o with Some a => Ok a | None => Err e end.

Definition throw_or {E A} (e : E) (o : option A) : outcome E A :=
  match o with Some a => Ret a | None => Throw e end.

(** An index or shift that panics when it is out of range. *)
Definition or_panic {E A} (o : option A) : outcome E A :=
  match o with Some a => Ret a | None => Panic end.

Definition is_ok {E A} (r : result E A) : bool :=
  match r with Ok _ => true | Err _ => false end.

(** The computation returns: a value or an error, not a panic, not a loop. *)
Definition returns {E A} (o : outcome E A) : Prop :=
  match o with Ret _ | Throw _ => True | Panic | Diverge => False end.

Declare Scope rust_scope.
Delimit Scope rust_scope with rust.
Notation "'let?' x ':=' m 'in' k" := (result_bind m (λ x, k))
  (at level 10, x pattern, m at level 100, k at level 200,
   format "'[v' 'let?'  x  ':='  m  'in' '/' k ']'") : rust_scope.
Notation "'let!' x ':=' m 'in' k" := (outcome_bind m (λ x, k))
  (at level 10, x pattern, m at level 100, k at level 200,
   format "'[v' 'let!'  x  ':='  m  'in' '/' k ']'") : rust_scope.
#[global] Open Scope rust_scope.

#[export] Instance result_eq_dec {E A} `{EqDecision E, EqDecision A} :
  EqDecision (result E A).
Proof. solve_decision. Defined.
#[export] Instance outcome_eq_dec {E A} `{EqDecision E, EqDecision A} :
  EqDecision (outcome E A).
Proof. solve_decision. Defined.

(** ** Bytes and byte strings

    A Rust [&[u8]] is a [list byte].  A Rust [&str] is the [list byte] of its
    UTF-8 encoding. *)

Abbreviation str := (list byte).

Definition lit (s : String.string) : str := String.list_byte_of_string s.
Arguments lit s%_string_scope.

Definition byte_val (b : byte) : N := Byte.to_N b.
Definition byte_of (n : N) : byte := default x00 (Byte.of_N (n mod 256)).

Definition all_bytes : list byte := (byte_of ∘ N.of_nat) <$> seq 0 256.

#[export] Instance byte_eq_dec : EqDecision byte := Byte.byte_eq_dec.

Lemma byte_val_lt b : byte_val b < 256.
Proof. pose proof (Byte.to_N_bounded b). unfold byte_val. lia. Qed.

Lemma byte_of_val b : byte_of (byte_val b) = b.
Proof.
  unfold byte_of. rewrite N.mod_small by apply byte_val_lt.
  unfold byte_val. by rewrite Byte.of_to_N.
Qed.

Lemma byte_val_of n : byte_val (byte_of n) = n mod 256.
Proof.
  unfold byte_of, byte_val.
  destruct (Byte.of_N (n mod 256)) eqn:E; simpl.
  - by apply Byte.to_of_N.
  - apply Byte.of_N_None_iff in E. pose proof (N.mod_lt n 256). lia.
Qed.

Lemma byte_val_inj a b : byte_val a = byte_val b → a = b.
Proof. intros H. by rewrite <- (byte_of_val a), <- (byte_of_val b), H. Qed.

#[export] Instance byte_val_inj' : Inj (=) (=) byte_val.
Proof. exact byte_val_inj. Qed.

#[export] Program Instance byte_countable : Countable byte :=
  inj_countable' byte_val byte_of _.
Next Obligation. intros b. apply byte_of_val. Qed.

(** A decidable property of bytes is checked on the 256 of them. *)
Lemma byte_forall (P : byte → bool) :
  forallb P all_bytes = true → ∀ b, P b = true.
Proof.
  intros H b. rewrite forallb_forall in H. apply H.
  unfold all_bytes. apply list_elem_of_In, list_elem_of_fmap.
  exists (N.to_nat (byte_val b)). split; [|apply elem_of_seq; pose proof (byte_val_lt b); lia].
  unfold compose. by rewrite N2Nat.id, byte_of_val.
Qed.

Lemma byte_forall_eq (f g : byte → byte) :
  forallb (λ b, byte_val (f b) =? byte_val (g b)) all_bytes = true → ∀ b, f b = g b.
Proof. intros H b. by apply byte_val_inj, N.eqb_eq, (byte_forall _ H b). Qed.

(** ** Lengths, indices and slices, with [usize] as [N] *)

Definition lenN {A} (l : list A) : N := N.of_nat (length l).

(** [buf[i]] *)
Definition idx {A} (l : list A) (i : N) : option A := l !! N.to_nat i.

(** [buf.get(i..j)] *)
Definition get_range {A} (l : list A) (i j : N) : option (list A) :=
  if (i <=? j) && (j <=? lenN l)
  then Some (take (N.to_nat (j - i)) (drop (N.to_nat i) l))
  else None.

Lemma lenN_nil {A} : lenN (@nil A) = 0.
Proof. done. Qed.
Lemma lenN_cons {A} (x : A) l : lenN (x :: l) = 1 + lenN l.
Proof. unfold lenN. simpl. lia. Qed.
Lemma lenN_app {A} (l k : list A) : lenN (l ++ k) = lenN l + lenN k.
Proof. unfold lenN. rewrite length_app. lia. Qed.
Lemma lenN_zero {A} (l : list A) : lenN l = 0 ↔ l = [].
Proof. unfold lenN. destruct l; simpl; split; intros; (done || lia). Qed.

Lemma idx_Some {A} (l : list A) i : i < lenN l → ∃ x, idx l i = Some x.
Proof.
  intros H. unfold idx. apply lookup_lt_is_Some_2. unfold lenN in H. lia.
Qed.

Lemma idx_lt {A} (l : list A) i x : idx l i = Some x → i < lenN l.
Proof. unfold idx, lenN. intros H%lookup_lt_Some. lia. Qed.

Lemma get_range_Some {A} (l : list A) i j r :
  get_range l i j = Some r → i <= j ∧ j <= lenN l ∧ lenN r = j - i.
Proof.
  unfold get_range. destruct (i <=? j) eqn:E1, (j <=? lenN l) eqn:E2; simpl; try done.
  apply N.leb_le in E1, E2. intros [= <-]. split; [done|]. split; [done|].
  unfold lenN in *. rewrite length_take, length_drop. lia.
Qed.

(** A slice of [p ++ m ++ s] that covers exactly [m]. *)
Lemma get_range_mid {A} (p m s : list A) i j :
  i = lenN p → j = i + lenN m → get_range (p ++ m ++ s) i j = Some m.
Proof.
  intros -> ->. unfold get_range. rewrite !lenN_app.
  rewrite (proj2 (N.leb_le _ _)) by lia. rewrite (proj2 (N.leb_le _ _)) by lia. simpl.
  replace (N.to_nat (lenN p + lenN m - lenN p)) with (length m) by (unfold lenN; lia).
  replace (N.to_nat (lenN p)) with (length p) by (unfold lenN; lia).
  by rewrite drop_app_length, take_app_length.
Qed.

Lemma idx_mid {A} (p s : list A) x i : i = lenN p → idx (p ++ x :: s) i = Some x.
Proof. intros ->. unfold idx, lenN. rewrite Nat2N.id. by apply list_lookup_middle. Qed.

Lemma get_range_app {A} (p l : list A) i j k m :
  k = lenN p + i → m = lenN p + j → get_range (p ++ l) k m = get_range l i j.
Proof.
  intros -> ->. unfold get_range. rewrite lenN_app.
  replace (lenN p + i <=? lenN p + j) with (i <=? j)
    by (destruct (N.leb_spec i j), (N.leb_spec (lenN p + i) (lenN p + j)); (done || lia)).
  replace (lenN p + j <=? lenN p + lenN l) with (j <=? lenN l)
    by (destruct (N.leb_spec j (lenN l)), (N.leb_spec (lenN p + j) (lenN p + lenN l));
        (done || lia)).
  replace (lenN p + j - (lenN p + i)) with (j - i) by lia.
  replace (N.to_nat (lenN p + i)) with (length p + N.to_nat i)%nat by (unfold lenN; lia).
  by rewrite drop_app_add.
Qed.

Lemma idx_app {A} (p l : list A) i k : k = lenN p + i → idx (p ++ l) k = idx l i.
Proof.
  intros ->. unfold idx. rewrite lookup_app_r by (unfold lenN; lia).
  f_equal. unfold lenN. lia.
Qed.

Lemma idx_split {A} (l : list A) i x :
  idx l i = Some x → ∃ a c, l = a ++ x :: c ∧ lenN a = i.
Proof.
  unfold idx. intros H. exists (take (N.to_nat i) l), (drop (S (N.to_nat i)) l).
  split; [by rewrite take_drop_middle|].
  apply lookup_lt_Some in H. unfold lenN. rewrite length_take. lia.
Qed.

Lemma get_range_split {A} (l : list A) i j r :
  get_range l i j = Some r → ∃ a c, l = a ++ r ++ c ∧ lenN a = i ∧ j = i + lenN r.
Proof.
  intros H. pose proof (get_range_Some _ _ _ _ H) as (Hij & Hj & Hl).
  unfold get_range in H.
  rewrite (proj2 (N.leb_le _ _) Hij), (proj2 (N.leb_le _ _) Hj) in H. injection H as <-.
  exists (take (N.to_nat i) l), (drop (N.to_nat (j - i)) (drop (N.to_nat i) l)).
  rewrite take_drop, take_drop. split; [done|]. split; [|lia].
  unfold lenN in *. rewrite length_take. lia.
Qed.

(** Reading the first elements of a list that shows them. *)
Lemma idx_0 {A} (a : A) l : idx (a :: l) 0 = Some a.
Proof. done. Qed.
Lemma idx_1 {A} (a b : A) l : idx (a :: b :: l) 1 = Some b.
Proof. done. Qed.
Lemma idx_2 {A} (a b c : A) l : idx (a :: b :: c :: l) 2 = Some c.
Proof. done. Qed.
Lemma idx_3 {A} (a b c d : A) l : idx (a :: b :: c :: d :: l) 3 = Some d.
Proof. done. Qed.
Lemma idx_4 {A} (a b c d e : A) l : idx (a :: b :: c :: d :: e :: l) 4 = Some e.
Proof. done. Qed.

Ltac idx_simpl :=
  rewrite ?idx_0, ?idx_1, ?idx_2, ?idx_3, ?idx_4; cbn [or_panic outcome_bind].

Lemma idx_cons {A} (x : A) l i k : k = 1 + i → idx (x :: l) k = idx l i.
Proof. exact (idx_app [x] l i k). Qed.
Lemma get_range_cons {A} (x : A) l i j k m :
  k = 1 + i → m = 1 + j → get_range (x :: l) k m = get_range l i j.
Proof. exact (get_range_app [x] l i j k m). Qed.

(** A slice from the start succeeds iff the bytes are there. *)
Lemma get_range_0 {A} (l : list A) n :
  (∃ d r, l = d ++ r ∧ lenN d = n ∧ get_range l 0 n = Some d)
  ∨ (lenN l < n ∧ get_range l 0 n = None).
Proof.
  unfold get_range. rewrite (proj2 (N.leb_le 0 n)) by lia. cbn [andb].
  destruct (N.leb_spec n (lenN l)) as [H|H].
  - left. exists (take (N.to_nat n) l), (drop (N.to_nat n) l).
    rewrite take_drop. split; [done|].
    change (N.to_nat 0) with 0%nat. rewrite drop_0, N.sub_0_r. split; [|done].
    unfold lenN in *. rewrite length_take. lia.
  - right. split; [done|done].
Qed.

Lemma get_range_0_app {A} (d r : list A) n : n = lenN d → get_range (d ++ r) 0 n = Some d.
Proof. intros ->. by apply (get_range_mid [] d r). Qed.

(** ** Machine integers *)

Definition U8_MAX : N := 2 ^ 8 - 1.
Definition U16_MAX : N := 2 ^ 16 - 1.
Definition U32_MAX : N := 2 ^ 32 - 1.
Definition U64_MAX : N := 2 ^ 64 - 1.

Definition sat_add64 (a b : N) : N := N.min (a + b) U64_MAX.
Definition sat_sub (a b : N) : N := a - b.
(** [usize] addition of a 64-bit target, wrapping as in a release build. *)
Definition wrap_add64 (a b : N) : N := (a + b) mod 2 ^ 64.

(** [!0 << (w - bits)] at width [w], for [1 <= bits <= w]. *)
Definition prefix_mask (w bits : N) : N := N.shiftl (N.ones w) (w - bits) mod 2 ^ w.

(** Keeping the top [bits] bits of a [w]-bit number clears the others. *)
Lemma land_prefix_mask w bits x :
  bits <= w → x < 2 ^ w →
  N.land x (prefix_mask w bits) = x / 2 ^ (w - bits) * 2 ^ (w - bits).
Proof.
  intros Hb Hx. unfold prefix_mask.
  rewrite <- N.shiftr_div_pow2, <- N.shiftl_mul_pow2, <- N.land_ones.
  apply N.bits_inj. intros n.
  rewrite !N.land_spec.
  destruct (N.lt_ge_cases n (w - bits)) as [Hn|Hn].
  - rewrite !N.shiftl_spec_low by done. by rewrite andb_false_l, andb_false_r.
  - rewrite !N.shiftl_spec_high' by done. rewrite N.shiftr_spec'.
    replace (n - (w - bits) + (w - bits)) with n by lia.
    destruct (N.lt_ge_cases n w) as [Hw|Hw].
    + rewrite !N.ones_spec_low by lia. by rewrite !andb_true_r.
    + rewrite (N.ones_spec_high w n) by lia. rewrite !andb_false_r.
      destruct (decide (x = 0)) as [->|Hz]; [by rewrite N.bits_0|].
      symmetry. apply N.bits_above_log2. apply N.log2_lt_pow2; [lia|].
      apply N.lt_le_trans with (2 ^ w); [done|]. by apply N.pow_le_mono_r.
Qed.

(** [|] of disjoint bit ranges is addition. *)
Lemma lor_shiftl a b k : b < 2 ^ k → N.lor (N.shiftl a k) b = a * 2 ^ k + b.
Proof.
  intros Hb. rewrite <- N.shiftl_mul_pow2.
  assert (N.land (N.shiftl a k) b = 0) as Hz.
  { apply N.bits_inj. intros n. rewrite N.land_spec, N.bits_0.
    destruct (N.lt_ge_cases n k) as [Hn|Hn]; [by rewrite N.shiftl_spec_low|].
    destruct (decide (b = 0)) as [->|Hb0]; [by rewrite N.bits_0, andb_false_r|].
    rewrite (N.bits_above_log2 b), andb_false_r; [done|].
    apply N.log2_lt_pow2; [lia|]. apply N.lt_le_trans with (2 ^ k); [done|].
    by apply N.pow_le_mono_r. }
  by rewrite N.add_nocarry_lxor, N.lxor_lor.
Qed.

(** Two numbers agree under the mask iff they lie in the same aligned block. *)
Lemma land_prefix_mask_eq w bits x p :
  bits <= w → x < 2 ^ w → p < 2 ^ w →
  N.land x (prefix_mask w bits) = N.land p (prefix_mask w bits) ↔
  x / 2 ^ (w - bits) = p / 2 ^ (w - bits).
Proof.
  intros Hb Hx Hp. rewrite !land_prefix_mask by done.
  pose proof (N.pow_nonzero 2 (w - bits) ltac:(lia)).
  split; [|by intros ->]. intros ?%N.mul_cancel_r; done.
Qed.

(** ... and for an aligned [p], iff [x] is in the interval that starts at [p]. *)
Lemma div_block k x p :
  p mod 2 ^ k = 0 → (x / 2 ^ k = p / 2 ^ k ↔ p <= x < p + 2 ^ k).
Proof.
  intros Hp. pose proof (N.pow_nonzero 2 k ltac:(lia)) as Hk.
  pose proof (N.div_mod' x (2 ^ k)) as Hx. pose proof (N.div_mod' p (2 ^ k)) as Hp'.
  rewrite Hp, N.add_0_r in Hp'.
  pose proof (N.mod_lt x (2 ^ k) Hk) as Hr. clear Hp. split.
  - intros Heq. rewrite Heq, <- Hp' in Hx. clear Heq Hp'.
    set (r := x mod 2 ^ k) in *. clearbody r. lia.
  - intros [??]. symmetry. apply N.div_unique with (x - p); [clear Hx Hp' Hr; lia|].
    rewrite <- Hp'. clear Hx Hp' Hr. lia.
Qed.

(** The numbers with a given quotient form a block. *)
Lemma div_eq_block k x q : x / 2 ^ k = q ↔ q * 2 ^ k <= x < q * 2 ^ k + 2 ^ k.
Proof.
  pose proof (N.pow_nonzero 2 k ltac:(lia)) as Hk.
  rewrite <- (N.div_mul q (2 ^ k) Hk) at 1. apply div_block. by apply N.Div0.mod_mul.
Qed.

(** ** Automation shared by the files *)

Create HintDb proxy.
Create Rewrite HintDb proxy.

(** Split on the tests of the goal or of a hypothesis, keeping the equations
    as comparisons that [lia] reads. *)
Ltac bool_to_prop :=
  repeat match goal with
  | H : (_ && _)%bool = true |- _ => apply andb_true_iff in H; destruct H
  | H : (_ || _)%bool = false |- _ => apply orb_false_iff in H; destruct H
  | H : negb _ = true |- _ => apply negb_true_iff in H
  | H : negb _ = false |- _ => apply negb_false_iff in H
  | H : bool_decide _ = true |- _ => apply bool_decide_eq_true in H
  | H : bool_decide _ = false |- _ => apply bool_decide_eq_false in H
  | H : (_ =? _) = true |- _ => apply N.eqb_eq in H
  | H : (_ =? _) = false |- _ => apply N.eqb_neq in H
  | H : (_ <=? _) = true |- _ => apply N.leb_le in H
  | H : (_ <=? _) = false |- _ => apply N.leb_gt in H
  | H : (_ <? _) = true |- _ => apply N.ltb_lt in H
  | H : (_ <? _) = false |- _ => apply N.ltb_ge in H
  end.

(** [lia] on goals with powers of constants. *)
Ltac pow_lia :=
  repeat match goal with
  | |- context [?b ^ ?k] => let v := eval vm_compute in (b ^ k) in change (b ^ k) with v
  end; lia.

(** Case analysis on the scrutinee of some [match] or [if] of the goal. *)
Ltac split_match :=
  match goal with
  | |- context [match ?x with _ => _ end] => destruct x eqn:?
  end.
Ltac split_match_in H :=
  match type of H with
  | context [match ?x with _ => _ end] => destruct x eqn:?
  end.

Lemma result_bind_Ok {E A B} (m : result E A) (k : A → result E B) b :
  result_bind m k = Ok b ↔ ∃ a, m = Ok a ∧ k a = Ok b.
Proof. destruct m; simpl; naive_solver. Qed.

Lemma outcome_bind_Ret {E A B} (m : outcome E A) (k : A → outcome E B) b :
  outcome_bind m k = Ret b ↔ ∃ a, m = Ret a ∧ k a = Ret b.
Proof. destruct m; simpl; naive_solver. Qed.

Lemma forallb_Forall {A} (p : A → bool) (P : A → Prop) (l : list A) :
  (∀ x, p x = true ↔ P x) → forallb p l = true ↔ Forall P l.
Proof.
  intros H. induction l as [|x l IH]; cbn; [by split; constructor|].
  by rewrite andb_true_iff, Forall_cons, IH, H.
Qed.

(** The sequential composition of computations that return, returns. *)
Lemma returns_bind {E A B} (m : outcome E A) (k : A → outcome E B) :
  returns m → (∀ a, m = Ret a → returns (k a)) → returns (outcome_bind m k).
Proof. destruct m; simpl; auto. Qed.

Lemma returns_throw_or {E A} (e : E) (o : option A) : returns (throw_or e o).
Proof. by destruct o. Qed.

Lemma throw_or_Ret {E A} (e : E) (o : option A) a : throw_or e o = Ret a ↔ o = Some a.
Proof. destruct o; simpl; naive_solver. Qed.

#[export] Hint Resolve returns_throw_or : proxy.
#[export] Hint Rewrite @lenN_nil @lenN_cons @lenN_app : proxy.
