(* ===== verification/RustStr.v ===== *)
(** * The string functions of the Rust standard library that the proxy uses

    A [&str] is the list of its UTF-8 bytes ([str], Prelude).  Each function
    works on bytes exactly as the library's function does on the string those
    bytes encode: a pattern that is an ASCII character can be searched byte
    by byte, and the white-space characters that [str::trim] removes are
    recognised by their encodings. *)

From S2P Require Import Prelude.

(** ** Definitions *)

(** *** Classes of bytes *)

Definition is_ascii_digit (b : byte) : bool :=
  (48 <=? byte_val b) && (byte_val b <=? 57).
Definition is_ascii_upper (b : byte) : bool :=
  (65 <=? byte_val b) && (byte_val b <=? 90).
Definition is_ascii_lower (b : byte) : bool :=
  (97 <=? byte_val b) && (byte_val b <=? 122).
Definition is_ascii_alphanumeric (b : byte) : bool :=
  is_ascii_digit b || is_ascii_upper b || is_ascii_lower b.
Definition is_ascii_hexdigit (b : byte) : bool :=
  is_ascii_digit b || ((65 <=? byte_val b) && (byte_val b <=? 70))
  || ((97 <=? byte_val b) && (byte_val b <=? 102)).

Definition to_ascii_lowercase_byte (b : byte) : byte :=
  if is_ascii_upper b then byte_of (byte_val b + 32) else b.
Definition to_ascii_lowercase (s : str) : str := to_ascii_lowercase_byte <$> s.
Definition eq_ignore_ascii_case (a b : str) : bool :=
  bool_decide (to_ascii_lowercase a = to_ascii_lowercase b).

(** *** [str::trim]: the characters with the Unicode property White_Space *)

(** U+0009..U+000D and U+0020 *)
Definition ws1 (b : byte) : bool :=
  ((9 <=? byte_val b) && (byte_val b <=? 13)) || (byte_val b =? 32).
(** U+0085 and U+00A0 *)
Definition ws2 (a b : byte) : bool :=
  (byte_val a =? 0xC2) && ((byte_val b =? 0x85) || (byte_val b =? 0xA0)).
(** U+1680, U+2000..U+200A, U+2028, U+2029, U+202F, U+205F and U+3000 *)
Definition ws3 (a b c : byte) : bool :=
  ((byte_val a =? 0xE1) && (byte_val b =? 0x9A) && (byte_val c =? 0x80))
  || ((byte_val a =? 0xE2) && (byte_val b =? 0x80)
      && (((0x80 <=? byte_val c) && (byte_val c <=? 0x8A))
          || (byte_val c =? 0xA8) || (byte_val c =? 0xA9) || (byte_val c =? 0xAF)))
  || ((byte_val a =? 0xE2) && (byte_val b =? 0x81) && (byte_val c =? 0x9F))
  || ((byte_val a =? 0xE3) && (byte_val b =? 0x80) && (byte_val c =? 0x80)).

Fixpoint trim_start (s : str) : str :=
  match s with
  | [] => []
  | a :: s1 =>
      if ws1 a then trim_start s1 else
      match s1 with
      | [] => s
      | b :: s2 =>
          if ws2 a b then trim_start s2 else
          match s2 with
          | [] => s
          | c :: s3 => if ws3 a b c then trim_start s3 else s
          end
      end
  end.

(** The same from the end, on the reversed string. *)
Fixpoint trim_start_rev (s : str) : str :=
  match s with
  | [] => []
  | a :: s1 =>
      if ws1 a then trim_start_rev s1 else
      match s1 with
      | [] => s
      | b :: s2 =>
          if ws2 b a then trim_start_rev s2 else
          match s2 with
          | [] => s
          | c :: s3 => if ws3 c b a then trim_start_rev s3 else s
          end
      end
  end.
Definition trim_end (s : str) : str := reverse (trim_start_rev (reverse s)).
Definition trim (s : str) : str := trim_end (trim_start s).

Fixpoint drop_while (p : byte → bool) (s : str) : str :=
  match s with
  | [] => []
  | a :: s' => if p a then drop_while p s' else s
  end.
(** [s.trim_end_matches(c)] for an ASCII character [c] *)
Definition trim_end_matches (c : byte) (s : str) : str :=
  reverse (drop_while (λ a, bool_decide (a = c)) (reverse s)).

(** *** Searching and splitting *)

(** [s.contains(c)] for an ASCII character *)
Definition contains_byte (c : byte) (s : str) : bool := bool_decide (c ∈ s).

Fixpoint starts_with (p s : str) : bool :=
  match p, s with
  | [], _ => true
  | a :: p', b :: s' => bool_decide (a = b) && starts_with p' s'
  | _ :: _, [] => false
  end.
(** [s.contains(p)] for a string [p] *)
Fixpoint contains_str (p s : str) : bool :=
  starts_with p s || match s with [] => false | _ :: s' => contains_str p s' end.

Fixpoint strip_prefix (p s : str) : option str :=
  match p, s with
  | [], _ => Some s
  | a :: p', b :: s' => if bool_decide (a = b) then strip_prefix p' s' else None
  | _ :: _, [] => None
  end.

(** [s.find(c)], a byte index *)
Fixpoint find_byte (c : byte) (s : str) : option nat :=
  match s with
  | [] => None
  | a :: s' => if bool_decide (a = c) then Some O else S <$> find_byte c s'
  end.

(** [s.split_once(c)]: at the first [c] *)
Fixpoint split_once (c : byte) (s : str) : option (str * str) :=
  match s with
  | [] => None
  | a :: s' =>
      if bool_decide (a = c) then Some ([], s')
      else '(x, y) ← split_once c s'; Some (a :: x, y)
  end.

(** [s.split_once(p)] for a string [p] *)
Fixpoint split_once_str (p s : str) : option (str * str) :=
  match strip_prefix p s with
  | Some rest => Some ([], rest)
  | None =>
      match s with
      | [] => None
      | a :: s' => '(x, y) ← split_once_str p s'; Some (a :: x, y)
      end
  end.

(** [s.rsplit_once(c)]: at the last [c] *)
Definition rsplit_once (c : byte) (s : str) : option (str * str) :=
  '(x, y) ← split_once c (reverse s); Some (reverse y, reverse x).

(** [s.split(c)]: never empty; a trailing separator gives a last empty part *)
Fixpoint split (c : byte) (s : str) : list str :=
  match s with
  | [] => [[]]
  | a :: s' =>
      if bool_decide (a = c) then [] :: split c s'
      else match split c s' with
           | [] => [[a]]
           | p :: ps => (a :: p) :: ps
           end
  end.

(** *** Integers: [FromStr], [from_str_radix] and [Display] *)

Definition digit_val (radix : N) (b : byte) : option N :=
  let n := byte_val b in
  let d := if is_ascii_digit b then Some (n - 48)
           else if is_ascii_lower b then Some (n - 87)
           else if is_ascii_upper b then Some (n - 55)
           else None in
  v ← d; if v <? radix then Some v else None.

(** Digit by digit, with [checked_mul] and [checked_add] against [max]. *)
Fixpoint parse_digits (radix max : N) (acc : N) (s : str) : option N :=
  match s with
  | [] => Some acc
  | b :: s' =>
      d ← digit_val radix b;
      if acc * radix <=? max
      then if acc * radix + d <=? max
           then parse_digits radix max (acc * radix + d) s'
           else None
      else None
  end.

(** [uN::from_str_radix]: a single leading [+] is accepted, an empty string or
    a lone sign is not.  [max] is the type's largest value. *)
Definition from_str_radix (radix max : N) (s : str) : option N :=
  match s with
  | [] => None
  | [b] => if bool_decide (b = "+"%byte) then None
           else if bool_decide (b = "-"%byte) then None
           else parse_digits radix max 0 s
  | b :: s' => if bool_decide (b = "+"%byte) then parse_digits radix max 0 s'
               else parse_digits radix max 0 s
  end.

Definition parse_u8 := from_str_radix 10 U8_MAX.
Definition parse_u16 := from_str_radix 10 U16_MAX.
Definition parse_u32 := from_str_radix 10 U32_MAX.
Definition parse_u64 := from_str_radix 10 U64_MAX.

Definition digit_char (d : N) : byte :=
  if d <? 10 then byte_of (48 + d) else byte_of (87 + d).

(** The digits of [n] in front of [acc]; [fuel] digits are enough when
    [n < radix ^ fuel]. *)
Fixpoint show_digits (radix : N) (fuel : nat) (n : N) (acc : str) : str :=
  match fuel with
  | O => acc
  | S fuel =>
      let acc := digit_char (n mod radix) :: acc in
      if n / radix =? 0 then acc else show_digits radix fuel (n / radix) acc
  end.
Definition show_radix (radix n : N) : str := show_digits radix (S (N.to_nat (N.size n))) n [].
(** [n.to_string()] of an unsigned integer *)
Definition show_dec : N → str := show_radix 10.

(** *** [std::str::from_utf8] *)

Definition utf8_cont (b : byte) : bool := (0x80 <=? byte_val b) && (byte_val b <=? 0xBF).
Definition utf8_lead3 (a b : byte) : bool :=
  ((byte_val a =? 0xE0) && (0xA0 <=? byte_val b) && (byte_val b <=? 0xBF))
  || ((0xE1 <=? byte_val a) && (byte_val a <=? 0xEC) && utf8_cont b)
  || ((byte_val a =? 0xED) && (0x80 <=? byte_val b) && (byte_val b <=? 0x9F))
  || ((0xEE <=? byte_val a) && (byte_val a <=? 0xEF) && utf8_cont b).
Definition utf8_lead4 (a b : byte) : bool :=
  ((byte_val a =? 0xF0) && (0x90 <=? byte_val b) && (byte_val b <=? 0xBF))
  || ((0xF1 <=? byte_val a) && (byte_val a <=? 0xF3) && utf8_cont b)
  || ((byte_val a =? 0xF4) && (0x80 <=? byte_val b) && (byte_val b <=? 0x8F)).

Fixpoint utf8_valid (s : list byte) : bool :=
  match s with
  | [] => true
  | a :: s1 =>
      if byte_val a <? 0x80 then utf8_valid s1 else
      match s1 with
      | [] => false
      | b :: s2 =>
          if (0xC2 <=? byte_val a) && (byte_val a <=? 0xDF)
          then utf8_cont b && utf8_valid s2 else
          match s2 with
          | [] => false
          | c :: s3 =>
              if utf8_lead3 a b then utf8_cont c && utf8_valid s3 else
              match s3 with
              | [] => false
              | d :: s4 => utf8_lead4 a b && utf8_cont c && utf8_cont d && utf8_valid s4
              end
          end
      end
  end.
Definition from_utf8 (s : list byte) : option str :=
  if utf8_valid s then Some s else None.

(** *** Reference notions used in the statements *)

(** The number a digit string denotes, with no bound. *)
Fixpoint digits_value (radix acc : N) (s : str) : option N :=
  match s with
  | [] => Some acc
  | b :: s' => d ← digit_val radix b; digits_value radix (acc * radix + d) s'
  end.

Fixpoint join (c : byte) (ps : list str) : str :=
  match ps with
  | [] => []
  | [p] => p
  | p :: ps => p ++ c :: join c ps
  end.

(** An ASCII byte that [trim] leaves alone wherever it stands. *)
Definition plain (b : byte) : bool := (byte_val b <? 0x80) && negb (ws1 b).

(** ** Lemmas *)

(** *** Classes of bytes *)

Lemma alnum_plain b : is_ascii_alphanumeric b = true → plain b = true.
Proof.
  intros H. pose proof (byte_forall (λ b, implb (is_ascii_alphanumeric b) (plain b))
    ltac:(vm_compute; reflexivity) b) as Hb. cbn in Hb. by rewrite H in Hb.
Qed.

Lemma digit_alnum b : is_ascii_digit b = true → is_ascii_alphanumeric b = true.
Proof. unfold is_ascii_alphanumeric. by intros ->. Qed.

Lemma to_lower_byte_idemp b :
  to_ascii_lowercase_byte (to_ascii_lowercase_byte b) = to_ascii_lowercase_byte b.
Proof.
  apply (byte_forall_eq (λ b, to_ascii_lowercase_byte (to_ascii_lowercase_byte b))).
  vm_compute. reflexivity.
Qed.

Lemma to_lower_idemp s : to_ascii_lowercase (to_ascii_lowercase s) = to_ascii_lowercase s.
Proof.
  unfold to_ascii_lowercase. rewrite <- list_fmap_compose.
  apply list_fmap_ext. intros _ b _. apply to_lower_byte_idemp.
Qed.

Lemma to_lower_id s : Forall (λ b, is_ascii_upper b = false) s → to_ascii_lowercase s = s.
Proof.
  unfold to_ascii_lowercase. induction 1 as [|b s Hb _ IH]; [done|]. cbn.
  unfold to_ascii_lowercase_byte at 1. by rewrite Hb, IH.
Qed.

Lemma to_lower_no_upper s : Forall (λ b, is_ascii_upper b = false) (to_ascii_lowercase s).
Proof.
  apply Forall_fmap, Forall_true. intros b. cbn.
  pose proof (byte_forall (λ b, negb (is_ascii_upper (to_ascii_lowercase_byte b)))
    ltac:(vm_compute; reflexivity) b) as H. by apply negb_true_iff in H.
Qed.

Lemma lenN_to_lower s : lenN (to_ascii_lowercase s) = lenN s.
Proof. unfold lenN, to_ascii_lowercase. by rewrite length_fmap. Qed.

(** *** [trim] *)

Lemma plain_not_ws a : plain a = true →
  ws1 a = false ∧ (∀ b, ws2 a b = false) ∧ (∀ b, ws2 b a = false)
  ∧ (∀ b c, ws3 a b c = false) ∧ (∀ b c, ws3 c b a = false).
Proof.
  unfold plain. intros H. bool_to_prop.
  unfold ws2, ws3. split_and!; [done|..]; intros;
    repeat match goal with |- context [byte_val ?x =? ?n] =>
      destruct (N.eqb_spec (byte_val x) n); try (exfalso; lia) end;
    repeat match goal with |- context [?n <=? byte_val ?x] =>
      destruct (N.leb_spec n (byte_val x)); try (exfalso; lia) end;
    rewrite ?andb_false_r; try done.
Qed.

Lemma trim_start_plain a s : plain a = true → trim_start (a :: s) = a :: s.
Proof.
  intros (H1 & H2 & _ & H3 & _)%plain_not_ws. cbn. rewrite H1.
  destruct s as [|b s]; [done|]. rewrite H2. destruct s as [|c s]; [done|]. by rewrite H3.
Qed.

Lemma trim_start_rev_plain a s : plain a = true → trim_start_rev (a :: s) = a :: s.
Proof.
  intros (H1 & _ & H2 & _ & H3)%plain_not_ws. cbn. rewrite H1.
  destruct s as [|b s]; [done|]. rewrite H2. destruct s as [|c s]; [done|]. by rewrite H3.
Qed.

Lemma trim_plain s :
  (∀ a, head s = Some a → plain a = true) → (∀ a, last s = Some a → plain a = true) →
  trim s = s.
Proof.
  intros Hh Hl. unfold trim.
  assert (trim_start s = s) as ->.
  { destruct s as [|a s]; [done|]. apply trim_start_plain. by apply Hh. }
  unfold trim_end. destruct s as [|a s _] using rev_ind; [done|].
  rewrite reverse_snoc, trim_start_rev_plain by (apply Hl; by rewrite last_snoc).
  by rewrite reverse_cons, reverse_involutive.
Qed.

(** *** [trim_end_matches] *)

Lemma trim_end_matches_snoc c s : trim_end_matches c (s ++ [c]) = trim_end_matches c s.
Proof. unfold trim_end_matches. rewrite reverse_snoc. cbn [drop_while].
  by rewrite bool_decide_true. Qed.

Lemma trim_end_matches_id c s : last s ≠ Some c → trim_end_matches c s = s.
Proof.
  unfold trim_end_matches. destruct s as [|a s _] using rev_ind; [done|].
  rewrite last_snoc, reverse_snoc. intros H. cbn [drop_while].
  rewrite bool_decide_false by congruence.
  by rewrite reverse_cons, reverse_involutive.
Qed.

Lemma trim_end_matches_last c s : last (trim_end_matches c s) ≠ Some c.
Proof.
  induction s as [|a s IH] using rev_ind; [done|].
  destruct (decide (a = c)) as [->|Hne].
  - by rewrite trim_end_matches_snoc.
  - rewrite trim_end_matches_id; rewrite last_snoc; congruence.
Qed.

Lemma trim_end_matches_suffix c s : ∃ k, s = trim_end_matches c s ++ replicate k c.
Proof.
  induction s as [|a s [k IH]] using rev_ind; [by exists O|].
  destruct (decide (a = c)) as [->|Hne].
  - rewrite trim_end_matches_snoc. exists (S k).
    rewrite replicate_S_end, app_assoc. by rewrite <- IH.
  - exists O. rewrite trim_end_matches_id by (rewrite last_snoc; congruence).
    by rewrite app_nil_r.
Qed.

(** *** Splitting *)

Lemma split_once_Some c s x y :
  split_once c s = Some (x, y) → s = x ++ c :: y ∧ c ∉ x.
Proof.
  revert x y. induction s as [|a s IH]; intros x y; cbn; [done|].
  case_bool_decide as Ha; [intros [= <- <-]; subst; split; [done|set_solver]|].
  destruct (split_once c s) as [[x' y']|] eqn:E; cbn; [|done].
  intros [= <- <-]. destruct (IH x' y' eq_refl) as [-> Hn]. set_solver.
Qed.

Lemma split_once_app c x y : c ∉ x → split_once c (x ++ c :: y) = Some (x, y).
Proof.
  induction x as [|a x IH]; intros Hn; cbn.
  - by rewrite bool_decide_true.
  - rewrite bool_decide_false by set_solver. rewrite IH by set_solver. done.
Qed.

Lemma split_once_None c s : split_once c s = None ↔ c ∉ s.
Proof.
  induction s as [|a s IH]; cbn; [set_solver|].
  case_bool_decide as Ha; [set_solver|].
  destruct (split_once c s) as [[x y]|]; cbn; set_solver.
Qed.

Lemma find_byte_Some c s n :
  find_byte c s = Some n → split_once c s = Some (take n s, drop (S n) s).
Proof.
  revert n. induction s as [|a s IH]; intros n; cbn; [done|].
  case_bool_decide as Ha; [by intros [= <-]|].
  intros (m & Hm & ->)%fmap_Some. by rewrite (IH _ Hm).
Qed.

Lemma rsplit_once_Some c s x y :
  rsplit_once c s = Some (x, y) → s = x ++ c :: y ∧ c ∉ y.
Proof.
  unfold rsplit_once. destruct (split_once c (reverse s)) as [[x' y']|] eqn:E; cbn; [|done].
  intros [= <- <-]. apply split_once_Some in E as [E Hn].
  split; [|by rewrite elem_of_reverse].
  by rewrite <- (reverse_involutive s), E, reverse_app, reverse_cons, <- app_assoc.
Qed.

Lemma rsplit_once_app c x y : c ∉ y → rsplit_once c (x ++ c :: y) = Some (x, y).
Proof.
  intros Hn. unfold rsplit_once. rewrite reverse_app, reverse_cons, <- app_assoc.
  cbn [app]. rewrite split_once_app by (by rewrite elem_of_reverse). cbn.
  by rewrite !reverse_involutive.
Qed.

Lemma split_nonempty c s : split c s ≠ [].
Proof. destruct s as [|a s]; cbn; [done|]. case_bool_decide; [done|]. by destruct (split c s). Qed.

Lemma split_no_sep c s : c ∉ s → split c s = [s].
Proof.
  induction s as [|a s IH]; intros Hn; cbn; [done|].
  rewrite bool_decide_false by set_solver. rewrite IH by set_solver. done.
Qed.

Lemma split_app_sep c p s : c ∉ p → split c (p ++ c :: s) = p :: split c s.
Proof.
  induction p as [|a p IH]; intros Hn; cbn.
  - by rewrite bool_decide_true.
  - rewrite bool_decide_false by set_solver. by rewrite IH by set_solver.
Qed.

Lemma split_app c x y : split c (x ++ c :: y) = split c x ++ split c y.
Proof.
  induction x as [|a x IH]; cbn [app split].
  - by rewrite bool_decide_true.
  - case_bool_decide; [by rewrite IH|].
    rewrite IH. pose proof (split_nonempty c x). by destruct (split c x).
Qed.

Lemma split_join c ps :
  ps ≠ [] → Forall (λ p, c ∉ p) ps → split c (join c ps) = ps.
Proof.
  intros Hne H. induction H as [|p ps Hp Hps IH]; [done|].
  destruct ps as [|q ps].
  - by apply split_no_sep.
  - change (join c (p :: q :: ps)) with (p ++ c :: join c (q :: ps)).
    rewrite split_app_sep by done. by rewrite IH.
Qed.

Lemma join_split c s : join c (split c s) = s.
Proof.
  induction s as [|a s IH]; cbn; [done|].
  pose proof (split_nonempty c s). case_bool_decide as Ha.
  - subst. destruct (split c s) as [|p ps]; [done|].
    change (join c ([] :: p :: ps)) with (c :: join c (p :: ps)). by rewrite IH.
  - destruct (split c s) as [|p ps]; [done|]. destruct ps; cbn in *; by rewrite IH.
Qed.

Lemma split_parts_no_sep c s : Forall (λ p, c ∉ p) (split c s).
Proof.
  induction s as [|a s IH]; cbn; [repeat constructor; set_solver|].
  case_bool_decide; [constructor; [set_solver|done]|].
  destruct (split c s) as [|p ps]; [repeat constructor; set_solver|].
  inversion IH; subst. constructor; [set_solver|done].
Qed.

Lemma strip_prefix_Some p s r : strip_prefix p s = Some r ↔ s = p ++ r.
Proof.
  revert s. induction p as [|a p IH]; intros [|b s]; cbn.
  - naive_solver.
  - naive_solver.
  - naive_solver.
  - case_bool_decide; [rewrite IH|]; naive_solver.
Qed.

Lemma starts_with_spec p s : starts_with p s = true ↔ ∃ r, s = p ++ r.
Proof.
  revert s. induction p as [|a p IH]; intros [|b s]; cbn.
  - naive_solver.
  - naive_solver.
  - naive_solver.
  - rewrite andb_true_iff, bool_decide_eq_true, IH. naive_solver.
Qed.

Lemma contains_str_spec p s :
  contains_str p s = true ↔ ∃ x y, s = x ++ p ++ y.
Proof.
  induction s as [|a s IH]; cbn [contains_str]; rewrite orb_true_iff, starts_with_spec.
  - split; [intros [[r Hr]|H]; [by exists [], r|done]|].
    intros (x & y & H). symmetry in H. apply app_nil in H as [-> H]. left. by exists y.
  - rewrite IH. split.
    + intros [[r Hr]|(x & y & ->)]; [by exists [], r|by exists (a :: x), y].
    + intros ([|b x] & y & H); [left; by exists y|]. simplify_eq/=. right. by exists x, y.
Qed.

(** *** Integers *)

Lemma parse_digits_value radix max acc s :
  acc <= max → parse_digits radix max acc s =
    (v ← digits_value radix acc s; if v <=? max then Some v else None).
Proof.
  revert acc. induction s as [|b s IH]; intros acc Hacc; cbn.
  { by rewrite (proj2 (N.leb_le _ _) Hacc). }
  destruct (digit_val radix b) as [d|] eqn:Ed; cbn; [|done].
  assert (Hge : ∀ s a v, digits_value radix a s = Some v → max < a → radix ≠ 0 → max < v).
  { clear. induction s as [|b s IH]; intros a v; cbn; [by intros [= <-]|].
    destruct (digit_val radix b); cbn; [|done]. intros H Ha Hr. apply (IH _ _ H); [nia|done]. }
  assert (Hr : radix ≠ 0).
  { intros ->. unfold digit_val in Ed.
    destruct (if is_ascii_digit b then _ else _) as [v|]; cbn in Ed; [|done].
    destruct (N.ltb_spec v 0); [lia|done]. }
  assert (Hover : max < acc * radix + d →
    (v ← digits_value radix (acc * radix + d) s; if v <=? max then Some v else None) = None).
  { intros Ho. destruct (digits_value _ _ s) as [v|] eqn:Ev; cbn; [|done].
    apply Hge in Ev; [|done..]. by rewrite (proj2 (N.leb_gt _ _)). }
  destruct (N.leb_spec (acc * radix) max); [|rewrite Hover; [done|lia]].
  destruct (N.leb_spec (acc * radix + d) max); [by apply IH|by rewrite Hover].
Qed.

Lemma parse_digits_le radix max acc s v :
  acc <= max → parse_digits radix max acc s = Some v → v <= max.
Proof.
  intros Hacc. rewrite parse_digits_value by done.
  destruct (digits_value _ _ _) as [w|]; cbn; [|done].
  destruct (N.leb_spec w max); [by intros [= <-]|done].
Qed.

Lemma from_str_radix_le radix max s v : from_str_radix radix max s = Some v → v <= max.
Proof.
  unfold from_str_radix. destruct s as [|b [|b' s]]; [done| |];
    repeat case_bool_decide; try done; apply parse_digits_le; lia.
Qed.

Lemma digit_val_char radix d : d < radix → radix <= 36 → digit_val radix (digit_char d) = Some d.
Proof.
  intros Hd Hr.
  assert (H : ∀ n : nat, (n < 36)%nat → digit_val 36 (digit_char (N.of_nat n)) = Some (N.of_nat n)).
  { intros n Hn. do 36 (destruct n as [|n]; [reflexivity|]). lia. }
  specialize (H (N.to_nat d) ltac:(lia)). rewrite N2Nat.id in H. revert H.
  unfold digit_val. destruct (if is_ascii_digit _ then _ else _) as [v|]; cbn; [|done].
  destruct (N.ltb_spec v 36); [|done]. intros [= ->]. by rewrite (proj2 (N.ltb_lt _ _)).
Qed.

Lemma parse_digits_char radix max acc d s :
  d < radix → radix <= 36 → acc * radix + d <= max →
  parse_digits radix max acc (digit_char d :: s) = parse_digits radix max (acc * radix + d) s.
Proof.
  intros Hd Hr Hm. cbn [parse_digits]. rewrite digit_val_char by done. cbn [mbind option_bind].
  rewrite !(proj2 (N.leb_le _ _)); [done|lia..].
Qed.

Lemma show_digits_S radix fuel n s :
  show_digits radix (S fuel) n s =
    if n / radix =? 0 then digit_char (n mod radix) :: s
    else show_digits radix fuel (n / radix) (digit_char (n mod radix) :: s).
Proof. done. Qed.

Lemma parse_show_digits radix max fuel n s :
  2 <= radix <= 36 → n <= max → n < radix ^ N.of_nat (S fuel) →
  parse_digits radix max 0 (show_digits radix (S fuel) n s) = parse_digits radix max n s.
Proof.
  intros Hr. revert n s. induction fuel as [|fuel IH]; intros n s Hn Hf;
    rewrite show_digits_S.
  - rewrite N.pow_1_r in Hf. rewrite N.div_small, N.eqb_refl, N.mod_small by done.
    by rewrite parse_digits_char by lia.
  - pose proof (N.div_mod' n radix) as Hdm. pose proof (N.mod_lt n radix ltac:(lia)) as Hlt.
    assert (Hq : n / radix <= max).
    { etransitivity; [|exact Hn]. apply N.Div0.div_le_upper_bound. clear Hdm Hlt Hf. nia. }
    rewrite N.mul_comm in Hdm.
    destruct (N.eqb_spec (n / radix) 0) as [E|E].
    + rewrite E in Hdm. rewrite parse_digits_char by (rewrite <- Hdm || lia; lia).
      by rewrite <- Hdm.
    + rewrite IH; [|done|].
      * rewrite parse_digits_char by (rewrite <- ?Hdm; lia). by rewrite <- Hdm.
      * rewrite Nat2N.inj_succ, N.pow_succ_r' in Hf. apply N.Div0.div_lt_upper_bound. lia.
Qed.

Lemma show_digits_chars (P : byte → Prop) radix fuel n s :
  radix ≠ 0 → (∀ d, d < radix → P (digit_char d)) → Forall P s →
  Forall P (show_digits radix fuel n s).
Proof.
  intros Hr HP. revert n s. induction fuel as [|fuel IH]; intros n s Hs; [done|].
  rewrite show_digits_S. assert (Forall P (digit_char (n mod radix) :: s)).
  { constructor; [|done]. apply HP. by apply N.mod_lt. }
  destruct (n / radix =? 0); auto.
Qed.

Lemma show_digits_ne radix fuel n s : s ≠ [] ∨ fuel ≠ O → show_digits radix fuel n s ≠ [].
Proof.
  revert n s. induction fuel as [|fuel IH]; intros n s H; [by destruct H|].
  rewrite show_digits_S. destruct (_ =? 0); [done|]. apply IH. by left.
Qed.

Lemma size_pow_radix radix n : 2 <= radix → n < radix ^ N.of_nat (S (N.to_nat (N.size n))).
Proof.
  intros Hr. rewrite Nat2N.inj_succ, N2Nat.id.
  apply N.lt_le_trans with (2 ^ N.size n); [apply N.size_gt|].
  apply N.le_trans with (2 ^ N.succ (N.size n)); [apply N.pow_le_mono_r; lia|].
  by apply N.pow_le_mono_l.
Qed.

Lemma digit_char_sign d : d < 36 → digit_char d ≠ "+"%byte ∧ digit_char d ≠ "-"%byte.
Proof.
  intros Hd. assert (H : digit_val 36 (digit_char d) = Some d) by (by apply digit_val_char).
  by split; intros E; rewrite E in H.
Qed.

Lemma from_str_radix_unsigned radix max s :
  s ≠ [] → head s ≠ Some "+"%byte → head s ≠ Some "-"%byte →
  from_str_radix radix max s = parse_digits radix max 0 s.
Proof.
  destruct s as [|b [|b' s]]; [done|..]; cbn; intros _ H1 H2;
    rewrite ?bool_decide_false by congruence; done.
Qed.

(** [u.to_string().parse() == Ok(u)], in every radix up to 36. *)
Lemma from_str_radix_show radix max n :
  2 <= radix <= 36 → n <= max → from_str_radix radix max (show_radix radix n) = Some n.
Proof.
  intros Hr Hn. unfold show_radix.
  assert (Hs : Forall (λ b, b ≠ "+"%byte ∧ b ≠ "-"%byte)
    (show_digits radix (S (N.to_nat (N.size n))) n [])).
  { apply show_digits_chars; [lia| |done]. intros d Hd. apply digit_char_sign. lia. }
  pose proof (show_digits_ne radix (S (N.to_nat (N.size n))) n  [] (or_intror (Nat.neq_succ_0 _))).
  rewrite from_str_radix_unsigned; [|done|..].
  - rewrite parse_show_digits; [done|done|done|]. apply size_pow_radix. lia.
  - destruct Hs; cbn; naive_solver.
  - destruct Hs; cbn; naive_solver.
Qed.

Lemma show_dec_digits n : Forall (λ b, is_ascii_digit b = true) (show_dec n).
Proof.
  apply show_digits_chars; [done| |done]. intros d Hd.
  assert (H : ∀ n : nat, (n < 10)%nat → is_ascii_digit (digit_char (N.of_nat n)) = true).
  { intros k Hk. do 10 (destruct k as [|k]; [reflexivity|]). lia. }
  specialize (H (N.to_nat d) ltac:(lia)). by rewrite N2Nat.id in H.
Qed.

Lemma show_dec_ne n : show_dec n ≠ [].
Proof. apply show_digits_ne. by right. Qed.

Lemma show_dec_inj a b : show_dec a = show_dec b → a = b.
Proof.
  intros H. assert (Some a = Some b) as [= ->]; [|done].
  rewrite <- (from_str_radix_show 10 (N.max a b) a), <- (from_str_radix_show 10 (N.max a b) b)
    by lia.
  unfold show_dec in H. by rewrite H.
Qed.

#[global] Arguments show_dec : simpl never.

#[export] Hint Resolve show_dec_ne show_dec_digits split_nonempty : proxy.
