(* ===== verification/Net.v ===== *)
(** * [std::net]: the IP address types the proxy works on

    An [Ipv4Addr] is the [u32] that [u32::from] gives for it and an [Ipv6Addr]
    the [u128]; octets and segments are read off the number.  The address
    predicates, [Display] and [FromStr] follow the standard library
    ([core::net]). *)

From S2P Require Import Prelude RustStr.

(** ** Definitions *)

Record Ipv4Addr := Ipv4 { v4_bits : N }.
Record Ipv6Addr := Ipv6 { v6_bits : N }.
Inductive IpAddr := V4 (a : Ipv4Addr) | V6 (a : Ipv6Addr).
Record SocketAddr := SockAddr { sa_ip : IpAddr; sa_port : N }.

#[export] Instance Ipv4Addr_eq_dec : EqDecision Ipv4Addr.
Proof. solve_decision. Defined.
#[export] Instance Ipv6Addr_eq_dec : EqDecision Ipv6Addr.
Proof. solve_decision. Defined.
#[export] Instance IpAddr_eq_dec : EqDecision IpAddr.
Proof. solve_decision. Defined.
#[export] Instance SocketAddr_eq_dec : EqDecision SocketAddr.
Proof. solve_decision. Defined.
#[export] Program Instance IpAddr_countable : Countable IpAddr :=
  inj_countable' (λ a, match a with V4 x => inl (v4_bits x) | V6 x => inr (v6_bits x) end)
                 (λ s, match s with inl n => V4 (Ipv4 n) | inr n => V6 (Ipv6 n) end) _.
Next Obligation. by intros [[]|[]]. Qed.

(** The numbers that stand for an address. *)
Definition wf4 (a : Ipv4Addr) : Prop := v4_bits a < 2 ^ 32.
Definition wf6 (a : Ipv6Addr) : Prop := v6_bits a < 2 ^ 128.
Definition wf_ip (a : IpAddr) : Prop :=
  match a with V4 x => wf4 x | V6 x => wf6 x end.

(** *** IPv4 *)

Definition v4_new (a b c d : N) : Ipv4Addr :=
  Ipv4 (a * 2 ^ 24 + b * 2 ^ 16 + c * 2 ^ 8 + d).
(** [ip.octets()[i]] *)
Definition octet (ip : Ipv4Addr) (i : N) : N := v4_bits ip / 2 ^ (8 * (3 - i)) mod 2 ^ 8.

Definition v4_is_unspecified (ip : Ipv4Addr) : bool := v4_bits ip =? 0.
Definition v4_is_loopback (ip : Ipv4Addr) : bool := octet ip 0 =? 127.
Definition v4_is_private (ip : Ipv4Addr) : bool :=
  (octet ip 0 =? 10)
  || ((octet ip 0 =? 172) && (16 <=? octet ip 1) && (octet ip 1 <=? 31))
  || ((octet ip 0 =? 192) && (octet ip 1 =? 168)).
Definition v4_is_link_local (ip : Ipv4Addr) : bool :=
  (octet ip 0 =? 169) && (octet ip 1 =? 254).
Definition v4_is_broadcast (ip : Ipv4Addr) : bool := v4_bits ip =? 2 ^ 32 - 1.
Definition v4_is_documentation (ip : Ipv4Addr) : bool :=
  ((octet ip 0 =? 192) && (octet ip 1 =? 0) && (octet ip 2 =? 2))
  || ((octet ip 0 =? 198) && (octet ip 1 =? 51) && (octet ip 2 =? 100))
  || ((octet ip 0 =? 203) && (octet ip 1 =? 0) && (octet ip 2 =? 113)).
Definition v4_is_multicast (ip : Ipv4Addr) : bool :=
  (224 <=? octet ip 0) && (octet ip 0 <=? 239).

(** *** IPv6 *)

Definition v6_new (a b c d e f g h : N) : Ipv6Addr :=
  Ipv6 (a * 2 ^ 112 + b * 2 ^ 96 + c * 2 ^ 80 + d * 2 ^ 64
        + e * 2 ^ 48 + f * 2 ^ 32 + g * 2 ^ 16 + h).
(** [ip.segments()[i]] *)
Definition segment (ip : Ipv6Addr) (i : N) : N := v6_bits ip / 2 ^ (16 * (7 - i)) mod 2 ^ 16.
Definition segments (ip : Ipv6Addr) : list N := segment ip <$> [0; 1; 2; 3; 4; 5; 6; 7].

Definition v6_is_unspecified (ip : Ipv6Addr) : bool := v6_bits ip =? 0.
Definition v6_is_loopback (ip : Ipv6Addr) : bool := v6_bits ip =? 1.
Definition v6_is_multicast (ip : Ipv6Addr) : bool := segment ip 0 / 2 ^ 8 =? 0xff.
Definition v6_is_unicast_link_local (ip : Ipv6Addr) : bool :=
  N.land (segment ip 0) 0xffc0 =? 0xfe80.
Definition v6_is_unique_local (ip : Ipv6Addr) : bool :=
  N.land (segment ip 0) 0xfe00 =? 0xfc00.

(** [::ffff:a.b.c.d] *)
Definition to_ipv4_mapped (ip : Ipv6Addr) : option Ipv4Addr :=
  if v6_bits ip / 2 ^ 32 =? 0xffff then Some (Ipv4 (v6_bits ip mod 2 ^ 32)) else None.
(** [::a.b.c.d] or [::ffff:a.b.c.d] *)
Definition to_ipv4 (ip : Ipv6Addr) : option Ipv4Addr :=
  if (v6_bits ip / 2 ^ 32 =? 0) || (v6_bits ip / 2 ^ 32 =? 0xffff)
  then Some (Ipv4 (v6_bits ip mod 2 ^ 32)) else None.

(** IPv4-mapped IPv6 addresses stand for their IPv4 address. *)
Definition canonical (ip : IpAddr) : IpAddr :=
  match ip with
  | V6 v6 => match to_ipv4_mapped v6 with Some v4 => V4 v4 | None => ip end
  | V4 _ => ip
  end.

Definition is_ipv4 (ip : IpAddr) : bool := match ip with V4 _ => true | V6 _ => false end.

(** *** [Display] *)

Definition show_v4 (ip : Ipv4Addr) : str :=
  join "."%byte ((λ i, show_dec (octet ip i)) <$> [0; 1; 2; 3]).

(** The first longest run of zero segments, as (start, length). *)
Fixpoint zero_span (i : N) (cur best : N * N) (l : list N) : N * N :=
  match l with
  | [] => best
  | s :: l =>
      if s =? 0 then
        let cur := (if cur.2 =? 0 then i else cur.1, cur.2 + 1) in
        zero_span (i + 1) cur (if best.2 <? cur.2 then cur else best) l
      else zero_span (i + 1) (0, 0) best l
  end.

Definition show_hex_groups (l : list N) : str := join ":"%byte (show_radix 16 <$> l).

Definition show_v6 (ip : Ipv6Addr) : str :=
  match to_ipv4_mapped ip with
  | Some v4 => lit "::ffff:" ++ show_v4 v4
  | None =>
      let s := segments ip in
      let '(start, len) := zero_span 0 (0, 0) (0, 0) s in
      if 1 <? len
      then show_hex_groups (take (N.to_nat start) s) ++ lit "::"
           ++ show_hex_groups (drop (N.to_nat (start + len)) s)
      else show_hex_groups s
  end.

Definition show_ip (ip : IpAddr) : str :=
  match ip with V4 a => show_v4 a | V6 a => show_v6 a end.

(** *** [FromStr]

    A reader consumes a prefix of the input; on failure the input is left as
    it was, so a reader is a partial function to the value and the rest. *)

Definition Reader (A : Type) : Type := str → option (A * str).

Definition read_given_char (c : byte) : Reader unit := λ s,
  match s with
  | a :: s' => if bool_decide (a = c) then Some (tt, s') else None
  | [] => None
  end.

Definition read_separator {A} (sep : byte) (index : nat) (inner : Reader A) : Reader A := λ s,
  match index with
  | O => inner s
  | S _ => '(_, s') ← read_given_char sep s; inner s'
  end.

Fixpoint read_digits (radix : N) (max_digits : nat) (acc : N) (count : nat) (s : str)
  : option (N * nat * str) :=
  match s with
  | b :: s' =>
      match digit_val radix b with
      | Some d =>
          if (max_digits <? S count)%nat then None
          else read_digits radix max_digits (acc * radix + d) (S count) s'
      | None => Some (acc, count, s)
      end
  | [] => Some (acc, count, s)
  end.

Definition read_number (radix : N) (max_digits : nat) (allow_zero_prefix : bool) (max : N)
  : Reader N := λ s,
  '(n, count, s') ← read_digits radix max_digits 0 0 s;
  if (count =? 0)%nat then None
  else if negb allow_zero_prefix && bool_decide (head s = Some "0"%byte) && (1 <? count)%nat
  then None
  else if n <=? max then Some (n, s') else None.

(** The [index]-th of the dotted numbers, up to the fourth. *)
Definition read_octet (index : nat) : Reader N :=
  read_separator "."%byte index (read_number 10 3 false U8_MAX).

Definition read_ipv4_addr : Reader Ipv4Addr := λ s,
  '(a, s) ← read_octet 0 s;
  '(b, s) ← read_octet 1 s;
  '(c, s) ← read_octet 2 s;
  '(d, s) ← read_octet 3 s;
  Some (v4_new a b c d, s).

(** [read_groups]: groups read so far are [acc]; [left] slots remain.  The
    result says whether a trailing dotted IPv4 address was read. *)
Fixpoint read_groups (index left : nat) (acc : list N) (s : str) : list N * bool * str :=
  match left with
  | O => (acc, false, s)
  | S left' =>
      let v4 := if (1 <? left)%nat then read_separator ":"%byte index read_ipv4_addr s else None in
      match v4 with
      | Some (a, s') =>
          (acc ++ [v4_bits a / 2 ^ 16; v4_bits a mod 2 ^ 16], true, s')
      | None =>
          match read_separator ":"%byte index (read_number 16 4 true U16_MAX) s with
          | Some (g, s') => read_groups (S index) left' (acc ++ [g]) s'
          | None => (acc, false, s)
          end
      end
  end.

Definition v6_of_segments (l : list N) : Ipv6Addr :=
  Ipv6 (foldl (λ acc s, acc * 2 ^ 16 + s) 0 l).

Definition read_ipv6_addr : Reader Ipv6Addr := λ s,
  let '(hd, hd_v4, s) := read_groups 0 8 [] s in
  if (length hd =? 8)%nat then Some (v6_of_segments hd, s)
  else if hd_v4 then None
  else
    '(_, s) ← read_given_char ":"%byte s;
    '(_, s) ← read_given_char ":"%byte s;
    let '(tl, _, s) := read_groups 0 (8 - (length hd + 1)) [] s in
    Some (v6_of_segments (hd ++ replicate (8 - length hd - length tl) 0 ++ tl), s).

Definition read_ip_addr : Reader IpAddr := λ s,
  match read_ipv4_addr s with
  | Some (a, s') => Some (V4 a, s')
  | None => '(a, s') ← read_ipv6_addr s; Some (V6 a, s')
  end.

(** [s.parse::<IpAddr>().ok()]: the whole string must be consumed. *)
Definition parse_ip_addr (s : str) : option IpAddr :=
  '(a, rest) ← read_ip_addr s;
  match rest with [] => Some a | _ => None end.

(** ** Lemmas *)

(** [lia] with division and remainder by constants. *)
Ltac div_lia :=
  repeat match goal with
  | H : context [2 ^ ?k] |- _ => let v := eval vm_compute in (2 ^ k) in change (2 ^ k) with v in H
  | |- context [2 ^ ?k] => let v := eval vm_compute in (2 ^ k) in change (2 ^ k) with v
  end;
  zify; Z.to_euclidean_division_equations; lia.

Lemma octet_lt ip i : octet ip i < 256.
Proof. unfold octet. by apply N.mod_lt. Qed.

Lemma segment_lt ip i : segment ip i < 2 ^ 16.
Proof. unfold segment. by apply N.mod_lt. Qed.

(** [ip.octets()], each as the quotient it is. *)
Lemma octet_eqs ip : wf4 ip →
  octet ip 0 = v4_bits ip / 16777216 ∧ octet ip 1 = v4_bits ip / 65536 mod 256
  ∧ octet ip 2 = v4_bits ip / 256 mod 256 ∧ octet ip 3 = v4_bits ip mod 256.
Proof.
  unfold wf4, octet. intros H. split_and!; try done.
  - apply N.mod_small. change (8 * (3 - 0)) with 24. div_lia.
  - change (2 ^ (8 * (3 - 3))) with 1. by rewrite N.div_1_r.
Qed.

Lemma v4_new_octets ip : wf4 ip →
  v4_new (octet ip 0) (octet ip 1) (octet ip 2) (octet ip 3) = ip.
Proof.
  intros H. destruct (octet_eqs ip H) as (-> & -> & -> & ->).
  destruct ip as [n]. unfold v4_new, wf4 in *. cbn in *. f_equal. div_lia.
Qed.

Lemma v4_new_wf a b c d : a < 256 → b < 256 → c < 256 → d < 256 → wf4 (v4_new a b c d).
Proof. unfold wf4, v4_new. cbn. lia. Qed.

Lemma to_ipv4_mapped_wf ip a : to_ipv4_mapped ip = Some a → wf4 a.
Proof. unfold to_ipv4_mapped. case_match; intros [= <-]. by apply N.mod_lt. Qed.

Lemma to_ipv4_wf ip a : to_ipv4 ip = Some a → wf4 a.
Proof. unfold to_ipv4. case_match; intros [= <-]. by apply N.mod_lt. Qed.

(** *** Reading back a printed IPv4 address *)

(** What the 256 possible octets look like in decimal. *)
Lemma show_octet_shape n : n < 256 →
  digits_value 10 0 (show_dec n) = Some n ∧ (1 <= length (show_dec n) <= 3)%nat
  ∧ (head (show_dec n) = Some "0"%byte → length (show_dec n) = 1%nat).
Proof.
  intros Hn.
  assert (H : forallb (λ k, let n := N.of_nat k in let s := show_dec n in
      bool_decide (digits_value 10 0 s = Some n)
      && (1 <=? length s)%nat && (length s <=? 3)%nat
      && implb (bool_decide (head s = Some "0"%byte)) (length s =? 1)%nat) (seq 0 256) = true)
    by (vm_compute; reflexivity).
  rewrite forallb_forall in H. specialize (H (N.to_nat n)).
  rewrite N2Nat.id in H. cbv zeta in H.
  assert (Hin : In (N.to_nat n) (seq 0 256)) by (apply in_seq; lia).
  specialize (H Hin). apply andb_true_iff in H as [H Hz]. bool_to_prop.
  split; [done|]. split.
  - split; by apply Nat.leb_le.
  - intros Hh. rewrite (bool_decide_true _ Hh) in Hz. by apply Nat.eqb_eq.
Qed.

Definition no_digit_head (radix : N) (s : str) : Prop :=
  match s with [] => True | b :: _ => digit_val radix b = None end.

Lemma read_digits_app radix m acc count ds rest v :
  digits_value radix acc ds = Some v → (count + length ds <= m)%nat →
  no_digit_head radix rest →
  read_digits radix m acc count (ds ++ rest) = Some (v, (count + length ds)%nat, rest).
Proof.
  revert acc count. induction ds as [|b ds IH]; intros acc count; cbn [digits_value app length].
  - intros [= ->] _ Hr. rewrite Nat.add_0_r. destruct rest as [|c rest]; [done|].
    cbn in *. by rewrite Hr.
  - destruct (digit_val radix b) as [d|] eqn:Ed; cbn; [|done].
    intros Hv Hl Hr. rewrite Ed.
    destruct (Nat.leb_spec m count); [lia|].
    rewrite (IH _ _ Hv); [|lia|done]. do 3 f_equal. lia.
Qed.

Lemma read_octet_number n rest :
  n < 256 → no_digit_head 10 rest →
  read_number 10 3 false U8_MAX (show_dec n ++ rest) = Some (n, rest).
Proof.
  intros Hn Hr. destruct (show_octet_shape n Hn) as (Hv & [Hl1 Hl2] & Hz).
  unfold read_number. rewrite (read_digits_app _ _ _ _ _ _ _ Hv); [|lia|done].
  cbn [mbind option_bind]. rewrite Nat.add_0_l.
  destruct (Nat.eqb_spec (length (show_dec n)) 0); [lia|].
  assert (head (show_dec n ++ rest) = head (show_dec n)) as ->.
  { destruct (show_dec n); [cbn in *; lia|done]. }
  assert (bool_decide (head (show_dec n) = Some "0"%byte) && (1 <? length (show_dec n))%nat
    = false) as E.
  { case_bool_decide as Hh; [|done]. rewrite (Hz Hh). done. }
  cbn [negb]. rewrite andb_true_l, E.
  rewrite (proj2 (N.leb_le _ _)); [done|]. unfold U8_MAX. cbn. lia.
Qed.

Lemma read_ipv4_show ip rest :
  wf4 ip → no_digit_head 10 rest → read_ipv4_addr (show_v4 ip ++ rest) = Some (ip, rest).
Proof.
  intros Hip Hr. unfold read_ipv4_addr, show_v4, read_octet.
  cbn [fmap list_fmap join].
  repeat (rewrite <- app_assoc; cbn [app]).
  cbn [read_separator]. rewrite read_octet_number by (done || apply octet_lt).
  cbn [mbind option_bind]. cbn [read_given_char]. rewrite bool_decide_true by done.
  cbn [mbind option_bind]. rewrite read_octet_number by (done || apply octet_lt).
  cbn [mbind option_bind read_given_char]. rewrite bool_decide_true by done.
  cbn [mbind option_bind]. rewrite read_octet_number by (done || apply octet_lt).
  cbn [mbind option_bind read_given_char]. rewrite bool_decide_true by done.
  cbn [mbind option_bind]. rewrite read_octet_number by (done || apply octet_lt).
  cbn [mbind option_bind]. by rewrite v4_new_octets.
Qed.

(** [ip.to_string().parse::<IpAddr>() == Ok(ip)] for IPv4. *)
Lemma parse_show_v4 ip : wf4 ip → parse_ip_addr (show_v4 ip) = Some (V4 ip).
Proof.
  intros H. unfold parse_ip_addr, read_ip_addr.
  rewrite <- (app_nil_r (show_v4 ip)), read_ipv4_show by done. done.
Qed.

Lemma show_v4_inj a b : wf4 a → wf4 b → show_v4 a = show_v4 b → a = b.
Proof.
  intros Ha Hb H. pose proof (parse_show_v4 a Ha) as E. rewrite H in E.
  rewrite parse_show_v4 in E by done. congruence.
Qed.

(** A printed IPv4 address has no colon. *)
Lemma show_v4_no_colon ip : ":"%byte ∉ show_v4 ip.
Proof.
  assert (H : ∀ n, ":"%byte ∉ show_dec n).
  { intros n Hin. pose proof (show_dec_digits n) as Hd. rewrite Forall_forall in Hd.
    by specialize (Hd _ Hin). }
  unfold show_v4. cbn [fmap list_fmap join].
  repeat (rewrite not_elem_of_app || rewrite not_elem_of_cons || split); try done; apply H.
Qed.

(** Every address the parser returns is an address. *)
Lemma read_number_le radix m z max s n s' :
  read_number radix m z max s = Some (n, s') → n <= max.
Proof.
  unfold read_number. destruct (read_digits _ _ _ _ _) as [[[v c] s1]|]; cbn; [|done].
  destruct (c =? 0)%nat; [done|]. destruct (_ && _ && _); [done|].
  destruct (N.leb_spec v max); [|done]. by intros [= <- <-].
Qed.

Lemma read_separator_inv {A} sep i (r : Reader A) s x :
  read_separator sep i r s = Some x → ∃ s', r s' = Some x.
Proof.
  destruct i; cbn; [eauto|]. destruct (read_given_char sep s) as [[[] s']|]; cbn; [eauto|done].
Qed.

Lemma read_octet_lt i s n s' : read_octet i s = Some (n, s') → n < 256.
Proof.
  intros (s1 & H)%read_separator_inv. apply read_number_le in H. unfold U8_MAX in H.
  cbn in H. lia.
Qed.

Lemma read_ipv4_wf s a s' : read_ipv4_addr s = Some (a, s') → wf4 a.
Proof.
  unfold read_ipv4_addr.
  intros ([n0 s0] & E0 & H)%bind_Some.
  apply bind_Some in H as ([n1 s1] & E1 & H).
  apply bind_Some in H as ([n2 s2] & E2 & H).
  apply bind_Some in H as ([n3 s3] & E3 & H).
  injection H as <- <-. apply v4_new_wf; eauto using read_octet_lt.
Qed.

Lemma v6_of_segments_wf l :
  (length l <= 8)%nat → Forall (λ s, s < 2 ^ 16) l → wf6 (v6_of_segments l).
Proof.
  intros Hl Hf. unfold wf6, v6_of_segments. cbn [v6_bits].
  assert (H : ∀ k acc, acc < 2 ^ (16 * k) →
    foldl (λ acc s, acc * 2 ^ 16 + s) acc l < 2 ^ (16 * (k + lenN l))).
  { clear Hl. induction Hf as [|s l Hs Hf IH]; intros k acc Hacc.
    - cbn. by rewrite N.add_0_r.
    - cbn [foldl]. rewrite lenN_cons, N.add_assoc. apply IH.
      rewrite N.mul_add_distr_l, N.pow_add_r. change (2 ^ (16 * 1)) with (2 ^ 16).
      revert Hacc Hs. generalize (2 ^ (16 * k)) (2 ^ 16). intros; nia. }
  eapply N.lt_le_trans; [apply (H 0 0); cbn; lia|].
  apply N.pow_le_mono_r; [done|]. unfold lenN. lia.
Qed.

Lemma read_groups_inv index left acc s l b s' :
  read_groups index left acc s = (l, b, s') → (index = length acc)%nat →
  Forall (λ s, s < 2 ^ 16) acc →
  Forall (λ s, s < 2 ^ 16) l ∧ (length l <= length acc + left)%nat.
Proof.
  revert index acc s. induction left as [|left IH]; intros index acc s; cbn [read_groups].
  { intros [= <- <- <-] _ Ha. split; [done|lia]. }
  destruct (if (1 <? S left)%nat then _ else _) as [[a s1]|] eqn:E4.
  - intros [= <- <- <-] _ Ha. destruct (Nat.ltb_spec 1 (S left)); [|done].
    apply read_separator_inv in E4 as (s2 & E4%read_ipv4_wf). unfold wf4 in E4.
    rewrite length_app. cbn [length]. split; [|lia].
    apply Forall_app. split; [done|]. repeat constructor; div_lia.
  - destruct (read_separator ":"%byte index (read_number 16 4 true U16_MAX) s)
      as [[g s1]|] eqn:Eg.
    + intros H Hi Ha. apply read_separator_inv in Eg as (s2 & Eg%read_number_le).
      apply IH in H; [|rewrite length_app; cbn; lia|].
      * rewrite length_app in H. cbn in H. destruct H. split; [done|lia].
      * apply Forall_app. split; [done|]. constructor; [|done]. unfold U16_MAX in Eg. div_lia.
    + intros [= <- <- <-] _ Ha. split; [done|lia].
Qed.

Lemma read_ipv6_wf s a s' : read_ipv6_addr s = Some (a, s') → wf6 a.
Proof.
  unfold read_ipv6_addr.
  destruct (read_groups 0 8 [] s) as [[hd hv] s1] eqn:Eh.
  apply read_groups_inv in Eh as [Hh Hlh]; [|done|done]. cbn in Hlh.
  destruct (Nat.eqb_spec (length hd) 8) as [E8|E8].
  { intros [= <- <-]. apply v6_of_segments_wf; [lia|done]. }
  destruct hv; [done|].
  intros ([_ s2] & _ & H)%bind_Some. apply bind_Some in H as ([_ s3] & _ & H).
  destruct (read_groups 0 (8 - (length hd + 1)) [] s3) as [[tl tv] s4] eqn:Et.
  apply read_groups_inv in Et as [Ht Hlt]; [|done|done]. cbn [length] in Hlt.
  injection H as <- <-. apply v6_of_segments_wf.
  - rewrite !length_app, length_replicate. lia.
  - rewrite !Forall_app. split; [done|]. split; [|done].
    apply Forall_replicate. done.
Qed.

Lemma parse_ip_addr_wf s ip : parse_ip_addr s = Some ip → wf_ip ip.
Proof.
  unfold parse_ip_addr, read_ip_addr. intros ([a rest] & H & Hr)%bind_Some.
  destruct rest; [|done]. injection Hr as <-.
  destruct (read_ipv4_addr s) as [[b s']|] eqn:E4.
  - injection H as <- ->. exact (read_ipv4_wf _ _ _ E4).
  - apply bind_Some in H as ([b s'] & E6 & H). injection H as <- ->.
    exact (read_ipv6_wf _ _ _ E6).
Qed.

#[export] Hint Resolve octet_lt segment_lt to_ipv4_mapped_wf to_ipv4_wf parse_ip_addr_wf : proxy.
