(* ===== verification/Dest.v ===== *)
(** * Destination policy ([src/dest.rs])

    Parsing of [remote=host:port], the port and address policy, the
    classification of globally routable addresses, and the resolve-then-dial
    step that connects to the filtered socket addresses.

    DNS resolution and the TCP connect are parameters of [resolve_filtered]
    and [connect_addrs]; [None] is an elapsed [tokio::time::timeout]. *)

From S2P Require Import Prelude RustStr Net.

(** ** Data *)

Inductive DestError :=
| InvalidRemote | BadPort | IpLiteral | PrivateIp | Dns | Connect.

#[export] Instance DestError_eq_dec : EqDecision DestError.
Proof. solve_decision. Defined.

Definition DEFAULT_ALLOWED_PORTS : list N := [143; 993; 465; 587].

Record DestPolicy := {
  allowed_ports : option (gset N);
  allow_private_destinations : bool;
  allow_ip_literals : bool;
}.

Definition DestPolicy_default : DestPolicy := {|
  allowed_ports := Some (list_to_set DEFAULT_ALLOWED_PORTS);
  allow_private_destinations := false;
  allow_ip_literals := false;
|}.

Definition DestPolicy_unrestricted : DestPolicy := {|
  allowed_ports := None;
  allow_private_destinations := true;
  allow_ip_literals := true;
|}.

Definition port_allowed (self : DestPolicy) (port : N) : bool :=
  match allowed_ports self with
  | None => true
  | Some set => bool_decide (port ∈ set)
  end.

Record Remote := {
  host : str;
  port : N;
  ip_literal : option IpAddr;
}.

#[export] Instance Remote_eq_dec : EqDecision Remote.
Proof. solve_decision. Defined.

Definition dest_key (self : Remote) : str :=
  host self ++ lit ":" ++ show_dec (port self).

(** ** Host names *)

Definition normalize_hostname (host : str) : str :=
  to_ascii_lowercase (trim_end_matches "."%byte (trim host)).

Definition MAX_HOSTNAME_LEN : N := 253.
Definition MAX_DNS_LABEL_LEN : N := 63.

Definition is_valid_dns_label (label : str) : bool :=
  let len := lenN label in
  if (len =? 0) || (MAX_DNS_LABEL_LEN <? len) then false else
  if negb (from_option is_ascii_alphanumeric false (head label))
     || negb (from_option is_ascii_alphanumeric false (last label)) then false else
  forallb (λ b, is_ascii_alphanumeric b || bool_decide (b = "-"%byte)) label.

Definition is_valid_dns_hostname (host : str) : bool :=
  if bool_decide (host = []) || (MAX_HOSTNAME_LEN <? lenN host) then false else
  if starts_with (lit ".") host || contains_str (lit "..") host then false else
  forallb is_valid_dns_label (split "."%byte host).

(** ** The numeric IPv4 forms that [getaddrinfo] accepts *)

Definition is_octal_digit (b : byte) : bool := (48 <=? byte_val b) && (byte_val b <=? 55).

Definition parse_ipv4_component (s : str) : option N :=
  if bool_decide (s = []) then None else
  let hex := match strip_prefix (lit "0x") s with
             | Some h => Some h
             | None => strip_prefix (lit "0X") s
             end in
  match hex with
  | Some hex =>
      if bool_decide (hex = []) || negb (forallb is_ascii_hexdigit hex) then None
      else from_str_radix 16 U32_MAX hex
  | None =>
      if (1 <? lenN s) && starts_with (lit "0") s then
        if negb (forallb is_octal_digit s) then None else from_str_radix 8 U32_MAX s
      else
        if negb (forallb is_ascii_digit s) then None else parse_u32 s
  end.

(** [<<] on [u32] *)
Definition shl32 (x k : N) : N := N.shiftl x k mod 2 ^ 32.

(** The [match parts.len()] that packs the components; [nums] has as many
    elements as there are parts. *)
Definition loose_ipv4_addr (nums : list N) : option N :=
  match nums with
  | [n0] => Some n0
  | [n0; n1] =>
      if (0xff <? n0) || (0xffffff <? n1) then None
      else Some (N.lor (shl32 n0 24) n1)
  | [n0; n1; n2] =>
      if (0xff <? n0) || (0xff <? n1) || (0xffff <? n2) then None
      else Some (N.lor (N.lor (shl32 n0 24) (shl32 n1 16)) n2)
  | [n0; n1; n2; n3] =>
      if existsb (λ n, 0xff <? n) nums then None
      else Some (N.lor (N.lor (N.lor (shl32 n0 24) (shl32 n1 16)) (shl32 n2 8)) n3)
  | _ => None
  end.

Definition parse_loose_ipv4 (s : str) : option Ipv4Addr :=
  if bool_decide (s = []) || (32 <? lenN s) then None else
  let parts := split "."%byte s in
  if negb ((1 <=? lenN parts) && (lenN parts <=? 4))
     || existsb (λ p, bool_decide (p = [])) parts then None else
  nums ← mapM parse_ipv4_component parts;
  addr ← loose_ipv4_addr nums;
  Some (Ipv4 addr).

Definition ip_canonical (ip : IpAddr) : str :=
  match ip with
  | V6 v6 => match to_ipv4_mapped v6 with
             | Some v4 => show_v4 v4
             | None => show_v6 v6
             end
  | V4 v4 => show_v4 v4
  end.

(** ** Parsing [remote] *)

(** The host and port parts of [host:port] or [[ipv6]:port]. *)
Definition split_remote (raw : str) : result DestError (str * str) :=
  match strip_prefix (lit "[") raw with
  | Some rest =>
      let? close := ok_or InvalidRemote (find_byte "]"%byte rest) in
      let host := take close rest in
      let after := drop (close + 1) rest in
      let? port := ok_or InvalidRemote (strip_prefix (lit ":") after) in
      Ok (host, port)
  | None =>
      let? hp := ok_or InvalidRemote (rsplit_once ":"%byte raw) in
      let '(host, port) := hp in
      if bool_decide (host = []) || contains_byte ":"%byte host
      then Err InvalidRemote
      else Ok (host, port)
  end.

Definition parse_remote (raw : str) : result DestError Remote :=
  let raw := trim raw in
  if bool_decide (raw = []) then Err InvalidRemote else
  let? hp := split_remote raw in
  let '(host_raw, port_str) := hp in
  if bool_decide (host_raw = []) then Err InvalidRemote else
  let? p := ok_or InvalidRemote (parse_u16 port_str) in
  if p =? 0 then Err InvalidRemote else
  match parse_ip_addr host_raw with
  | Some ip => Ok {| host := ip_canonical ip; port := p; ip_literal := Some ip |}
  | None =>
      match parse_loose_ipv4 host_raw with
      | Some v4 =>
          let ip := V4 v4 in
          Ok {| host := ip_canonical ip; port := p; ip_literal := Some ip |}
      | None =>
          let h := normalize_hostname host_raw in
          if negb (is_valid_dns_hostname h) then Err InvalidRemote
          else Ok {| host := h; port := p; ip_literal := None |}
      end
  end.

(** ** Globally routable unicast addresses *)

Definition ipv4_in (ip prefix : Ipv4Addr) (bits : N) : bool :=
  if bits =? 0 then true else
  let mask := prefix_mask 32 bits in
  N.land (v4_bits ip) mask =? N.land (v4_bits prefix) mask.

Definition ipv6_in (ip prefix : Ipv6Addr) (bits : N) : bool :=
  if bits =? 0 then true else
  let mask := prefix_mask 128 bits in
  N.land (v6_bits ip) mask =? N.land (v6_bits prefix) mask.

Definition is_global_v4 (ip : Ipv4Addr) : bool :=
  if v4_is_unspecified ip || v4_is_loopback ip || v4_is_private ip
     || v4_is_link_local ip || v4_is_broadcast ip || v4_is_documentation ip
     || v4_is_multicast ip then false else
  if ipv4_in ip (v4_new 0 0 0 0) 8 then false else
  if ipv4_in ip (v4_new 100 64 0 0) 10 then false else
  if ipv4_in ip (v4_new 192 0 0 0) 24 then false else
  if ipv4_in ip (v4_new 198 18 0 0) 15 then false else
  if ipv4_in ip (v4_new 240 0 0 0) 4 then false else
  true.

(** [s[i] as u8] and [(s[i] >> 8) as u8] of the embedded address *)
Definition v4_of_segments (hi lo : N) : Ipv4Addr :=
  v4_new (N.shiftr hi 8) (hi mod 2 ^ 8) (N.shiftr lo 8) (lo mod 2 ^ 8).

Definition embedded_ipv4 (ip : Ipv6Addr) : option Ipv4Addr :=
  match to_ipv4_mapped ip with
  | Some v4 => Some v4
  | None =>
      let s := segment ip in
      if (s 0 =? 0) && (s 1 =? 0) && (s 2 =? 0) && (s 3 =? 0) && (s 4 =? 0) && (s 5 =? 0)
      then to_ipv4 ip
      else if (s 0 =? 0x64) && (s 1 =? 0xff9b) && (s 2 =? 0) && (s 3 =? 0) && (s 4 =? 0)
              && (s 5 =? 0)
      then Some (v4_of_segments (s 6) (s 7))
      else if s 0 =? 0x2002
      then Some (v4_of_segments (s 1) (s 2))
      else None
  end.

Definition is_global_v6 (ip : Ipv6Addr) : bool :=
  match embedded_ipv4 ip with
  | Some v4 => is_global_v4 v4
  | None =>
      if v6_is_unspecified ip || v6_is_loopback ip || v6_is_multicast ip
         || v6_is_unicast_link_local ip || v6_is_unique_local ip then false else
      if ipv6_in ip (v6_new 0x2001 0 0 0 0 0 0 0) 23 then false else
      if ipv6_in ip (v6_new 0x2001 0x0db8 0 0 0 0 0 0) 32 then false else
      if ipv6_in ip (v6_new 0x0100 0 0 0 0 0 0 0) 64 then false else
      if ipv6_in ip (v6_new 0x64 0xff9b 1 0 0 0 0 0) 48 then false else
      true
  end.

Definition is_global_unicast (ip : IpAddr) : bool :=
  match ip with V4 v4 => is_global_v4 v4 | V6 v6 => is_global_v6 v6 end.

(** ** Policy, resolution and dialling *)

Definition check_policy (remote : Remote) (policy : DestPolicy) : result DestError unit :=
  if negb (port_allowed policy (port remote)) then Err BadPort else
  if bool_decide (is_Some (ip_literal remote)) && negb (allow_ip_literals policy)
  then Err IpLiteral else
  match ip_literal remote with
  | Some ip =>
      if negb (allow_private_destinations policy) && negb (is_global_unicast ip)
      then Err PrivateIp else Ok tt
  | None => Ok tt
  end.

(** [lookup_host host port]: [None] when the DNS timeout elapses, else the
    resolver's error or its answer. *)
Definition Resolver : Type := str → N → option (result unit (list SocketAddr)).

(** What [tokio] documents of a resolver: it answers with socket addresses, of
    32 and 128 bits, on the port it was asked for. *)
Definition resolver_ok (lookup : Resolver) : Prop :=
  ∀ h p answer, lookup h p = Some (Ok answer) →
    Forall (λ a, wf_ip (sa_ip a) ∧ sa_port a = p) answer.

Definition resolve_filtered (lookup_host : Resolver) (remote : Remote) (policy : DestPolicy)
  : result DestError (list SocketAddr) :=
  match ip_literal remote with
  | Some ip =>
      if negb (allow_private_destinations policy) && negb (is_global_unicast ip)
      then Err PrivateIp
      else Ok [SockAddr ip (port remote)]
  | None =>
      match lookup_host (host remote) (port remote) with
      | None => Err Dns
      | Some (Err _) => Err Dns
      | Some (Ok looked_up) =>
          let addrs := filter (λ a, allow_private_destinations policy
                                    || is_global_unicast (sa_ip a)) looked_up in
          if bool_decide (addrs = []) then Err PrivateIp else Ok addrs
      end
  end.

Section Dial.
(** [TcpStream::connect] under its timeout: the outcome of the [n]-th attempt,
    which may differ on an address that is tried again. *)
Context {TcpStream : Type}.
Context (connect : nat → SocketAddr → option (result unit TcpStream)).

(** The loop, from its [n]-th attempt on: the addresses dialled, in order, and
    the result. *)
Fixpoint connect_from (n : nat) (addrs : list SocketAddr)
  : list SocketAddr * result DestError TcpStream :=
  match addrs with
  | [] => ([], Err Connect)
  | addr :: rest =>
      match connect n addr with
      | Some (Ok stream) => ([addr], Ok stream)
      | Some (Err _) | None =>
          let '(dialled, r) := connect_from (S n) rest in (addr :: dialled, r)
      end
  end.

Definition connect_addrs (addrs : list SocketAddr)
  : list SocketAddr * result DestError TcpStream := connect_from 0 addrs.
End Dial.

(** ** What the definitions are compared with *)

(** The special-purpose IPv4 blocks, as (first address, prefix length). *)
Definition special_v4 : list (N * N) :=
  [ (0, 8); (10 * 2 ^ 24, 8); (100 * 2 ^ 24 + 64 * 2 ^ 16, 10); (127 * 2 ^ 24, 8);
    (169 * 2 ^ 24 + 254 * 2 ^ 16, 16); (172 * 2 ^ 24 + 16 * 2 ^ 16, 12);
    (192 * 2 ^ 24, 24); (192 * 2 ^ 24 + 2 * 2 ^ 8, 24); (192 * 2 ^ 24 + 168 * 2 ^ 16, 16);
    (198 * 2 ^ 24 + 18 * 2 ^ 16, 15); (198 * 2 ^ 24 + 51 * 2 ^ 16 + 100 * 2 ^ 8, 24);
    (203 * 2 ^ 24 + 113 * 2 ^ 8, 24); (224 * 2 ^ 24, 4); (240 * 2 ^ 24, 4) ].

(** The special-purpose IPv6 blocks that embed no IPv4 address. *)
Definition special_v6 : list (N * N) :=
  [ (0xff00 * 2 ^ 112, 8); (0xfe80 * 2 ^ 112, 10); (0xfc00 * 2 ^ 112, 7);
    (0x2001 * 2 ^ 112, 23); (0x20010db8 * 2 ^ 96, 32); (0x0100 * 2 ^ 112, 64);
    (0x64ff9b0001 * 2 ^ 80, 48) ].

(** [x] is one of the [2 ^ (w - len)] addresses from [base] on. *)
Definition in_block (w : N) (x : N) (block : N * N) : Prop :=
  block.1 <= x < block.1 + 2 ^ (w - block.2).

Definition global_v4_spec (x : N) : Prop := Forall (λ b, ¬ in_block 32 x b) special_v4.

(** The IPv4 address inside [::/96], [::ffff:0:0/96], [64:ff9b::/96] and
    [2002::/16]. *)
Definition embedded_spec (x : N) : option N :=
  if bool_decide (x / 2 ^ 32 ∈ [0; 0xffff; 0x64ff9b * 2 ^ 64]) then Some (x mod 2 ^ 32)
  else if x / 2 ^ 112 =? 0x2002 then Some (x / 2 ^ 80 mod 2 ^ 32)
  else None.

Definition global_v6_spec (x : N) : Prop :=
  match embedded_spec x with
  | Some y => global_v4_spec y
  | None => Forall (λ b, ¬ in_block 128 x b) special_v6
  end.

Definition global_spec (ip : IpAddr) : Prop :=
  match ip with V4 a => global_v4_spec (v4_bits a) | V6 a => global_v6_spec (v6_bits a) end.

(** Letter-digit-hyphen label of 1 to 63 bytes that neither starts nor ends
    with a hyphen. *)
Definition ldh_label (l : str) : Prop :=
  (1 <= length l <= 63)%nat
  ∧ Forall (λ b, is_ascii_alphanumeric b = true ∨ b = "-"%byte) l
  ∧ head l ≠ Some "-"%byte ∧ last l ≠ Some "-"%byte.

(** The value of [inet_aton] components: all but the last are one byte each,
    the last fills the bytes that remain. *)
Fixpoint aton_value (left : N) (nums : list N) : option N :=
  match nums with
  | [] => None
  | [n] => if (0 <? left) && (n <? 256 ^ left) then Some n else None
  | n :: nums =>
      if n <? 256 then (v ← aton_value (left - 1) nums; Some (n * 256 ^ (left - 1) + v))
      else None
  end.

(** A component in C notation: hexadecimal after [0x], octal after [0]. *)
Definition c_number (s : str) : option N :=
  match s with
  | [] => None
  | [b] => digits_value 10 0 s
  | b0 :: b1 :: h =>
      if bool_decide (b0 = "0"%byte) then
        if bool_decide (b1 = "x"%byte) || bool_decide (b1 = "X"%byte)
        then if bool_decide (h = []) then None else digits_value 16 0 h
        else digits_value 8 0 s
      else digits_value 10 0 s
  end.

(** ** Global addresses *)

Lemma in_block_v4 ip p bits :
  wf4 ip → v4_bits p < 2 ^ 32 → bits ≠ 0 → bits <= 32 →
  v4_bits p mod 2 ^ (32 - bits) = 0 →
  ipv4_in ip p bits = true ↔ in_block 32 (v4_bits ip) (v4_bits p, bits).
Proof.
  intros Hip Hp Hb0 Hb Hal. unfold ipv4_in, in_block.
  rewrite (proj2 (N.eqb_neq _ _) Hb0), N.eqb_eq.
  rewrite land_prefix_mask_eq by done. by apply div_block.
Qed.

Lemma in_block_v6 ip p bits :
  wf6 ip → v6_bits p < 2 ^ 128 → bits ≠ 0 → bits <= 128 →
  v6_bits p mod 2 ^ (128 - bits) = 0 →
  ipv6_in ip p bits = true ↔ in_block 128 (v6_bits ip) (v6_bits p, bits).
Proof.
  intros Hip Hp Hb0 Hb Hal. unfold ipv6_in, in_block.
  rewrite (proj2 (N.eqb_neq _ _) Hb0), N.eqb_eq.
  rewrite land_prefix_mask_eq by done. by apply div_block.
Qed.

Lemma not_or (P Q : Prop) : ¬ (P ∨ Q) ↔ ¬ P ∧ ¬ Q.
Proof. tauto. Qed.

(** [if b then false else rest] is a conjunct. *)
Lemma if_false_then (b c : bool) : (if b then false else c) = (negb b && c)%bool.
Proof. by destruct b. Qed.

Lemma not_true_neg (b : bool) (P : Prop) : (b = true ↔ P) → (negb b = true ↔ ¬ P).
Proof. destruct b; cbn; naive_solver. Qed.

Lemma not_in_block_v4 ip p bits :
  wf4 ip → v4_bits p < 2 ^ 32 → bits ≠ 0 → bits <= 32 →
  v4_bits p mod 2 ^ (32 - bits) = 0 →
  negb (ipv4_in ip p bits) = true ↔ ¬ in_block 32 (v4_bits ip) (v4_bits p, bits).
Proof. intros. by apply not_true_neg, in_block_v4. Qed.

Lemma not_in_block_v6 ip p bits :
  wf6 ip → v6_bits p < 2 ^ 128 → bits ≠ 0 → bits <= 128 →
  v6_bits p mod 2 ^ (128 - bits) = 0 →
  negb (ipv6_in ip p bits) = true ↔ ¬ in_block 128 (v6_bits ip) (v6_bits p, bits).
Proof. intros. by apply not_true_neg, in_block_v6. Qed.

(** An address is in a block of 8, 16 or 24 bits iff its first octets are the
    block's. *)
Lemma octets1_block n a : n / 16777216 = a ↔ in_block 32 n (a * 2 ^ 24, 8).
Proof. unfold in_block. cbn [fst snd]. split; intros; div_lia. Qed.

(** Two digits in base 256 determine the number. *)
Lemma two_digits m q r : r < 256 → (m / 256 = q ∧ m mod 256 = r) ↔ m = q * 256 + r.
Proof. intros Hr. split; intros; div_lia. Qed.

Lemma octets2_block n a b : b < 256 →
  (n / 16777216 = a ∧ n / 65536 mod 256 = b) ↔ in_block 32 n (a * 2 ^ 24 + b * 2 ^ 16, 16).
Proof.
  intros Hb. change 16777216 with (65536 * 256).
  rewrite <- (N.Div0.div_div n 65536 256), two_digits by done.
  change 65536 with (2 ^ 16). rewrite div_eq_block.
  unfold in_block. cbn [fst snd]. change (2 ^ (32 - 16)) with (2 ^ 16).
  replace ((a * 256 + b) * 2 ^ 16) with (a * 2 ^ 24 + b * 2 ^ 16) by lia. done.
Qed.

Lemma octets3_block n a b c : b < 256 → c < 256 →
  ((n / 16777216 = a ∧ n / 65536 mod 256 = b) ∧ n / 256 mod 256 = c) ↔
  in_block 32 n (a * 2 ^ 24 + b * 2 ^ 16 + c * 2 ^ 8, 24).
Proof.
  intros Hb Hc. change 16777216 with (65536 * 256).
  rewrite <- (N.Div0.div_div n 65536 256), two_digits by done.
  change 65536 with (256 * 256).
  rewrite <- (N.Div0.div_div n 256 256), two_digits by done.
  change 256 with (2 ^ 8) at 1. rewrite div_eq_block.
  unfold in_block. cbn [fst snd]. change (2 ^ (32 - 24)) with (2 ^ 8).
  replace (((a * 256 + b) * 256 + c) * 2 ^ 8) with (a * 2 ^ 24 + b * 2 ^ 16 + c * 2 ^ 8) by lia.
  done.
Qed.

(** The seven library predicates cover these blocks. *)
Lemma std_special_v4 ip : wf4 ip →
  (v4_is_unspecified ip || v4_is_loopback ip || v4_is_private ip
   || v4_is_link_local ip || v4_is_broadcast ip || v4_is_documentation ip
   || v4_is_multicast ip) = true ↔
  v4_bits ip = 0 ∨ v4_bits ip = 2 ^ 32 - 1 ∨
  Exists (in_block 32 (v4_bits ip))
    [ (127 * 2 ^ 24, 8); (10 * 2 ^ 24, 8); (172 * 2 ^ 24 + 16 * 2 ^ 16, 12);
      (192 * 2 ^ 24 + 168 * 2 ^ 16, 16); (169 * 2 ^ 24 + 254 * 2 ^ 16, 16);
      (192 * 2 ^ 24 + 0 * 2 ^ 16 + 2 * 2 ^ 8, 24);
      (198 * 2 ^ 24 + 51 * 2 ^ 16 + 100 * 2 ^ 8, 24);
      (203 * 2 ^ 24 + 0 * 2 ^ 16 + 113 * 2 ^ 8, 24); (224 * 2 ^ 24, 4) ].
Proof.
  intros H. destruct (octet_eqs ip H) as (E0 & E1 & E2 & _).
  rewrite !Exists_cons, Exists_nil.
  unfold v4_is_unspecified, v4_is_loopback, v4_is_private, v4_is_link_local,
    v4_is_broadcast, v4_is_documentation, v4_is_multicast.
  rewrite E0, E1, E2. set (n := v4_bits ip) in *. clearbody n. clear E0 E1 E2 H.
  rewrite <- !octets1_block, <- !octets2_block, <- !octets3_block by done.
  rewrite !orb_true_iff, !andb_true_iff, !N.eqb_eq, !N.leb_le.
  assert ((n / 16777216 = 172 ∧ 16 <= n / 65536 mod 256) ∧ n / 65536 mod 256 <= 31 ↔
          in_block 32 n (172 * 2 ^ 24 + 16 * 2 ^ 16, 12)) as ->.
  { unfold in_block. cbn [fst snd]. split; intros; div_lia. }
  assert (224 <= n / 16777216 ∧ n / 16777216 <= 239 ↔ in_block 32 n (224 * 2 ^ 24, 4)) as ->.
  { unfold in_block. cbn [fst snd]. split; intros; div_lia. }
  tauto.
Qed.

Lemma is_global_v4_spec ip : wf4 ip → is_global_v4 ip = true ↔ global_v4_spec (v4_bits ip).
Proof.
  intros H. unfold is_global_v4. rewrite !if_false_then, !andb_true_iff.
  rewrite (not_true_neg _ _ (std_special_v4 ip H)).
  rewrite !not_in_block_v4 by done.
  unfold global_v4_spec, special_v4. rewrite !Forall_cons, Forall_nil.
  rewrite !Exists_cons, Exists_nil.
  unfold wf4 in H. set (n := v4_bits ip) in *. clearbody n.
  assert (n = 0 → in_block 32 n (0, 8)) by (intros ->; by vm_compute).
  assert (n = 2 ^ 32 - 1 → in_block 32 n (240 * 2 ^ 24, 4)) by (intros ->; by vm_compute).
  change (v4_bits (v4_new 0 0 0 0)) with 0.
  change (v4_bits (v4_new 240 0 0 0)) with (240 * 2 ^ 24).
  change (v4_bits (v4_new 100 64 0 0)) with (100 * 2 ^ 24 + 64 * 2 ^ 16).
  change (v4_bits (v4_new 192 0 0 0)) with (192 * 2 ^ 24).
  change (v4_bits (v4_new 198 18 0 0)) with (198 * 2 ^ 24 + 18 * 2 ^ 16).
  rewrite ?N.mul_0_l, ?N.add_0_r, !not_or.
  split; intros Hc; destruct_and! Hc; split_and!; auto.
Qed.

(** Split a number into quotient and remainder by 2^16. *)
Ltac peel n q r :=
  pose proof (N.div_mod' n 65536);
  set (q := n / 65536) in *; set (r := n mod 65536) in *; clearbody q r.

(** The eight segments are the digits of the address in base 2^16. *)
Lemma segment_eqs ip : wf6 ip → ∃ s0 s1 s2 s3 s4 s5 s6 s7,
  (segment ip 0 = s0 ∧ segment ip 1 = s1 ∧ segment ip 2 = s2 ∧ segment ip 3 = s3
   ∧ segment ip 4 = s4 ∧ segment ip 5 = s5 ∧ segment ip 6 = s6 ∧ segment ip 7 = s7)
  ∧ Forall (λ s, s < 65536) [s0; s1; s2; s3; s4; s5; s6; s7]
  ∧ v6_bits ip = v6_bits (v6_new s0 s1 s2 s3 s4 s5 s6 s7).
Proof.
  intros H. eexists _, _, _, _, _, _, _, _. split; [split_and!; reflexivity|].
  split; [repeat constructor; apply segment_lt|].
  unfold wf6 in H. unfold segment, v6_new. cbn [v6_bits]. set (n := v6_bits ip) in *.
  clearbody n.
  change (16 * (7 - 0)) with (16 + (16 + (16 + (16 + (16 + (16 + 16)))))).
  change (16 * (7 - 1)) with (16 + (16 + (16 + (16 + (16 + 16))))).
  change (16 * (7 - 2)) with (16 + (16 + (16 + (16 + 16)))).
  change (16 * (7 - 3)) with (16 + (16 + (16 + 16))).
  change (16 * (7 - 4)) with (16 + (16 + 16)).
  change (16 * (7 - 5)) with (16 + 16).
  change (16 * (7 - 6)) with 16. change (16 * (7 - 7)) with 0.
  assert (H7 : n / 2 ^ (16 + (16 + (16 + (16 + (16 + (16 + 16)))))) < 2 ^ 16)
    by (apply N.Div0.div_lt_upper_bound; exact H).
  rewrite !(N.pow_add_r 2 16), <- !N.Div0.div_div, N.div_1_r in *.
  change (2 ^ 16) with 65536 in *.
  rewrite (N.mod_small _ _ H7). clear H H7.
  peel n q1 r1. peel q1 q2 r2. peel q2 q3 r3. peel q3 q4 r4. peel q4 q5 r5.
  peel q5 q6 r6. peel q6 q7 r7. lia.
Qed.

Lemma v4_of_segments_bits hi lo :
  hi < 65536 → lo < 65536 → v4_of_segments hi lo = Ipv4 (hi * 65536 + lo).
Proof.
  intros H1 H2. unfold v4_of_segments, v4_new. rewrite !N.shiftr_div_pow2.
  pose proof (N.div_mod' hi (2 ^ 8)). pose proof (N.div_mod' lo (2 ^ 8)).
  f_equal. change (2 ^ 8) with 256 in *. lia.
Qed.

(** The parts of an address that the embedded-address tests look at. *)
Lemma v6_new_parts s0 s1 s2 s3 s4 s5 s6 s7 :
  Forall (λ s, s < 65536) [s0; s1; s2; s3; s4; s5; s6; s7] →
  let x := v6_bits (v6_new s0 s1 s2 s3 s4 s5 s6 s7) in
  x / 2 ^ 32 = s0 * 2 ^ 80 + s1 * 2 ^ 64 + s2 * 2 ^ 48 + s3 * 2 ^ 32 + s4 * 2 ^ 16 + s5
  ∧ x mod 2 ^ 32 = s6 * 65536 + s7
  ∧ x / 2 ^ 112 = s0 ∧ x / 2 ^ 80 mod 2 ^ 32 = s1 * 65536 + s2.
Proof.
  intros H. rewrite !Forall_cons in H. destruct H as (?&?&?&?&?&?&?&?&_).
  unfold v6_new. cbn [v6_bits]. split_and!; symmetry.
  - apply N.div_unique with (s6 * 65536 + s7); lia.
  - apply N.mod_unique with (s0 * 2 ^ 80 + s1 * 2 ^ 64 + s2 * 2 ^ 48 + s3 * 2 ^ 32
      + s4 * 2 ^ 16 + s5); lia.
  - apply N.div_unique with (s1 * 2 ^ 96 + s2 * 2 ^ 80 + s3 * 2 ^ 64 + s4 * 2 ^ 48
      + s5 * 2 ^ 32 + s6 * 2 ^ 16 + s7); lia.
  - apply N.mod_unique with s0; [lia|]. symmetry.
    apply N.div_unique with (s3 * 2 ^ 64 + s4 * 2 ^ 48 + s5 * 2 ^ 32 + s6 * 2 ^ 16 + s7); lia.
Qed.

Lemma embedded_ipv4_eq ip : wf6 ip → embedded_ipv4 ip = Ipv4 <$> embedded_spec (v6_bits ip).
Proof.
  intros (s0&s1&s2&s3&s4&s5&s6&s7&(E0&E1&E2&E3&E4&E5&E6&E7)&Hs&Hx)%segment_eqs.
  unfold embedded_ipv4, embedded_spec, to_ipv4_mapped, to_ipv4.
  rewrite E0, E1, E2, E3, E4, E5, E6, E7, Hx.
  destruct (v6_new_parts _ _ _ _ _ _ _ _ Hs) as (-> & -> & -> & ->).
  rewrite !Forall_cons in Hs. destruct Hs as (?&?&?&?&?&?&?&?&_).
  rewrite !v4_of_segments_bits by done.
  set (hi := s0 * 2 ^ 80 + _ + _ + _ + _ + _).
  assert (((s0 =? 0) && (s1 =? 0) && (s2 =? 0) && (s3 =? 0) && (s4 =? 0) && (s5 =? 0))%bool
    = (hi =? 0)) as ->.
  { apply eq_true_iff_eq. rewrite !andb_true_iff, !N.eqb_eq. unfold hi. lia. }
  assert (((s0 =? 0x64) && (s1 =? 0xff9b) && (s2 =? 0) && (s3 =? 0) && (s4 =? 0)
    && (s5 =? 0))%bool = (hi =? 0x64ff9b * 2 ^ 64)) as ->.
  { apply eq_true_iff_eq. rewrite !andb_true_iff, !N.eqb_eq. unfold hi. lia. }
  clearbody hi.
  destruct (N.eqb_spec hi 0xffff) as [->|]; [by rewrite bool_decide_true by set_solver|].
  destruct (N.eqb_spec hi 0) as [->|]; [by rewrite bool_decide_true by set_solver|].
  destruct (N.eqb_spec hi (0x64ff9b * 2 ^ 64)) as [->|];
    [by rewrite bool_decide_true by set_solver|].
  rewrite bool_decide_false by set_solver. by destruct (s0 =? 0x2002).
Qed.

Lemma embedded_spec_lt x y : embedded_spec x = Some y → y < 2 ^ 32.
Proof.
  unfold embedded_spec. case_bool_decide; [intros [= <-]; by apply N.mod_lt|].
  destruct (_ =? _); [|done]. intros [= <-]. by apply N.mod_lt.
Qed.

(** The library predicates on the first segment are blocks. *)
Lemma std_special_v6 ip : wf6 ip →
  (v6_is_unspecified ip || v6_is_loopback ip || v6_is_multicast ip
   || v6_is_unicast_link_local ip || v6_is_unique_local ip) = true ↔
  v6_bits ip = 0 ∨ v6_bits ip = 1 ∨
  Exists (in_block 128 (v6_bits ip))
    [ (0xff00 * 2 ^ 112, 8); (0xfe80 * 2 ^ 112, 10); (0xfc00 * 2 ^ 112, 7) ].
Proof.
  intros H. rewrite !Exists_cons, Exists_nil.
  unfold v6_is_unspecified, v6_is_loopback, v6_is_multicast, v6_is_unicast_link_local,
    v6_is_unique_local.
  assert (E : segment ip 0 = v6_bits ip / 2 ^ 112).
  { unfold segment. apply N.mod_small, N.Div0.div_lt_upper_bound. exact H. }
  assert (Hs : segment ip 0 < 2 ^ 16) by apply segment_lt.
  assert (Hm : ∀ b p, b <= 16 → p < 2 ^ 16 → p mod 2 ^ (16 - b) = 0 →
    N.land (segment ip 0) (prefix_mask 16 b) = p ↔
    in_block 128 (v6_bits ip) (p * 2 ^ 112, b)).
  { intros b p Hb Hp Hal. rewrite land_prefix_mask by done.
    unfold in_block. cbn [fst snd].
    assert (p = p / 2 ^ (16 - b) * 2 ^ (16 - b)) as Hq.
    { pose proof (N.div_mod' p (2 ^ (16 - b))) as Hd. rewrite Hal in Hd. lia. }
    set (q := p / 2 ^ (16 - b)) in *. clearbody q.
    replace (128 - b) with (112 + (16 - b)) by lia.
    rewrite N.pow_add_r, E, N.Div0.div_div, <- N.pow_add_r, Hq.
    rewrite N.mul_cancel_r by (apply N.pow_nonzero; lia).
    rewrite div_eq_block, N.pow_add_r.
    replace (q * 2 ^ (16 - b) * 2 ^ 112) with (q * (2 ^ 112 * 2 ^ (16 - b))) by lia. done. }
  rewrite !orb_true_iff, !N.eqb_eq.
  rewrite <- !Hm by (done || lia). change (prefix_mask 16 8) with 0xff00.
  assert (segment ip 0 / 2 ^ 8 = 255 ↔ N.land (segment ip 0) 65280 = 65280) as ->.
  { change 65280 with (prefix_mask 16 8) at 1. rewrite land_prefix_mask by done.
    change (16 - 8) with 8. change 65280 with (255 * 2 ^ 8).
    by rewrite N.mul_cancel_r by done. }
  change (prefix_mask 16 10) with 0xffc0. change (prefix_mask 16 7) with 0xfe00. tauto.
Qed.

Lemma is_global_v6_spec ip : wf6 ip → is_global_v6 ip = true ↔ global_v6_spec (v6_bits ip).
Proof.
  intros H. unfold is_global_v6, global_v6_spec. rewrite embedded_ipv4_eq by done.
  destruct (embedded_spec (v6_bits ip)) as [y|] eqn:Ey; cbn [fmap option_fmap option_map].
  { apply is_global_v4_spec. exact (embedded_spec_lt _ _ Ey). }
  rewrite !if_false_then, !andb_true_iff.
  rewrite (not_true_neg _ _ (std_special_v6 ip H)).
  rewrite !not_in_block_v6 by done.
  unfold special_v6. rewrite !Forall_cons, Forall_nil, !Exists_cons, Exists_nil, !not_or.
  change (v6_bits (v6_new 0x2001 0 0 0 0 0 0 0)) with (0x2001 * 2 ^ 112).
  change (v6_bits (v6_new 0x2001 0xdb8 0 0 0 0 0 0)) with (0x20010db8 * 2 ^ 96).
  change (v6_bits (v6_new 0x100 0 0 0 0 0 0 0)) with (0x0100 * 2 ^ 112).
  change (v6_bits (v6_new 0x64 0xff9b 1 0 0 0 0 0)) with (0x64ff9b0001 * 2 ^ 80).
  assert (v6_bits ip ≠ 0) by (intros E; by rewrite E in Ey).
  assert (v6_bits ip ≠ 1) by (intros E; by rewrite E in Ey).
  split; intros Hc; destruct_and! Hc; split_and!; auto.
Qed.

Lemma is_global_unicast_iff ip : wf_ip ip → is_global_unicast ip = true ↔ global_spec ip.
Proof.
  destruct ip as [a|a]; [apply is_global_v4_spec|apply is_global_v6_spec].
Qed.

(** ** Host names *)

Lemma is_valid_dns_label_iff l : is_valid_dns_label l = true ↔ ldh_label l.
Proof.
  unfold is_valid_dns_label, ldh_label.
  assert (Hall : forallb (λ b, is_ascii_alphanumeric b || bool_decide (b = "-"%byte)) l = true
    ↔ Forall (λ b, is_ascii_alphanumeric b = true ∨ b = "-"%byte) l).
  { apply forallb_Forall. intros b. by rewrite orb_true_iff, bool_decide_eq_true. }
  assert (Hlen : (lenN l =? 0) || (MAX_DNS_LABEL_LEN <? lenN l) = false
    ↔ (1 <= length l <= 63)%nat).
  { rewrite orb_false_iff, N.eqb_neq, N.ltb_ge. unfold lenN, MAX_DNS_LABEL_LEN. lia. }
  assert (Hedge : ∀ o : option byte, (∀ b, o = Some b → b ∈ l) → is_Some o →
    Forall (λ b, is_ascii_alphanumeric b = true ∨ b = "-"%byte) l →
    negb (from_option is_ascii_alphanumeric false o) = false ↔ o ≠ Some "-"%byte).
  { intros o Hin [b ->] Hf. cbn. rewrite negb_false_iff.
    rewrite Forall_forall in Hf. specialize (Hf b (Hin b eq_refl)).
    split; [|intros; destruct Hf; congruence].
    intros Hb [= ->]. done. }
  destruct ((lenN l =? 0) || (MAX_DNS_LABEL_LEN <? lenN l)) eqn:El.
  { split; [done|]. intros [Hl _]. by apply Hlen in Hl. }
  assert (Hl : (1 <= length l <= 63)%nat) by (by apply Hlen).
  assert (Hh : is_Some (head l)) by (destruct l; cbn in *; [lia|eauto]).
  assert (Hla : is_Some (last l)) by (apply last_is_Some; intros ->; cbn in Hl; lia).
  assert (Hh' : ∀ b, head l = Some b → b ∈ l) by (intros b; apply head_Some_elem_of).
  assert (Hl' : ∀ b, last l = Some b → b ∈ l) by (intros b; apply last_Some_elem_of).
  rewrite <- Hall.
  destruct (forallb _ l) eqn:Ef.
  - clear Ef. pose proof (proj1 Hall eq_refl) as Hf.
    pose proof (Hedge _ Hh' Hh Hf) as [A1 A2]. pose proof (Hedge _ Hl' Hla Hf) as [B1 B2].
    destruct (negb (from_option _ _ (head l))), (negb (from_option _ _ (last l))); cbn;
      intuition congruence.
  - rewrite if_false_then, andb_false_r. split; [done|]. by intros (_ & ? & _).
Qed.

(** The dot tests are implied by non-empty labels. *)
Lemma is_valid_dns_hostname_iff h :
  is_valid_dns_hostname h = true ↔
  (1 <= length h <= 253)%nat ∧ Forall ldh_label (split "."%byte h).
Proof.
  unfold is_valid_dns_hostname.
  assert (Hlab : forallb is_valid_dns_label (split "."%byte h) = true
    ↔ Forall ldh_label (split "."%byte h)).
  { apply forallb_Forall, is_valid_dns_label_iff. }
  assert (Hlen : bool_decide (h = []) || (MAX_HOSTNAME_LEN <? lenN h) = false
    ↔ (1 <= length h <= 253)%nat).
  { rewrite orb_false_iff, bool_decide_eq_false, N.ltb_ge. unfold lenN, MAX_HOSTNAME_LEN.
    destruct h; cbn; [naive_solver lia|]. split; [lia|]. split; [done|lia]. }
  destruct (bool_decide (h = []) || _) eqn:El.
  { split; [done|]. intros [Hl _]. by apply Hlen in Hl. }
  assert (Hl : (1 <= length h <= 253)%nat) by (by apply Hlen).
  rewrite <- Hlab. clear Hlen El.
  destruct (starts_with (lit ".") h || contains_str (lit "..") h) eqn:Ed; [|naive_solver].
  split; [done|]. intros [_ Hf]. apply Hlab in Hf. exfalso.
  assert (Hne : [] ∉ split "."%byte h).
  { intros Hin. rewrite Forall_forall in Hf. destruct (Hf _ Hin) as [? _]. cbn in *. lia. }
  apply orb_true_iff in Ed as [Hd|Hd].
  - apply starts_with_spec in Hd as [r ->]. apply Hne. cbn. set_solver.
  - apply contains_str_spec in Hd as (x & y & ->). apply Hne. clear.
    change (x ++ lit ".." ++ y) with (x ++ "."%byte :: ([] ++ "."%byte :: y)).
    rewrite !split_app. cbn [split]. set_solver.
Qed.

Definition host_char (b : byte) : Prop :=
  is_ascii_alphanumeric b = true ∨ b = "-"%byte ∨ b = "."%byte.

Lemma host_char_lower b : host_char b → host_char (to_ascii_lowercase_byte b).
Proof.
  intros [H|[->| ->]]; [|by right; left|by right; right]. left.
  pose proof (byte_forall (λ b, implb (is_ascii_alphanumeric b)
    (is_ascii_alphanumeric (to_ascii_lowercase_byte b))) ltac:(vm_compute; reflexivity) b) as Hb.
  cbn in Hb. by rewrite H in Hb.
Qed.

Lemma join_Forall (P : byte → Prop) c ps :
  P c → Forall (Forall P) ps → Forall P (join c ps).
Proof.
  intros Hc H. induction H as [|p ps Hp Hps IH]; [constructor|].
  destruct ps as [|q ps]; [done|].
  change (join c (p :: q :: ps)) with (p ++ c :: join c (q :: ps)).
  apply Forall_app. split; [done|]. by constructor.
Qed.

Lemma valid_host_chars h : is_valid_dns_hostname h = true → Forall host_char h.
Proof.
  intros [_ Hf]%is_valid_dns_hostname_iff. rewrite <- (join_split "."%byte h).
  apply join_Forall; [by right; right|].
  apply (Forall_impl _ _ _ Hf). intros l (_ & Hl & _).
  apply (Forall_impl _ _ _ Hl). unfold host_char. tauto.
Qed.

Lemma last_join c ps p : last ps = Some p → p ≠ [] → last (join c ps) = last p.
Proof.
  induction ps as [|q ps IH]; [done|]. intros Hl Hp. destruct ps as [|q' ps].
  - cbn in *. congruence.
  - change (join c (q :: q' :: ps)) with (q ++ c :: join c (q' :: ps)).
    rewrite last_app, last_cons. rewrite (IH Hl Hp).
    destruct p as [|b p _] using rev_ind; [done|]. by rewrite last_snoc.
Qed.

(** A label starts and ends with a letter or digit. *)
Lemma ldh_edges l : ldh_label l →
  l ≠ [] ∧ (∀ b, head l = Some b ∨ last l = Some b → is_ascii_alphanumeric b = true).
Proof.
  intros (Hl & Hf & Hh & Hla). split; [intros ->; cbn in Hl; lia|].
  intros b Hb. assert (Hin : b ∈ l).
  { destruct Hb; [by apply head_Some_elem_of|by apply last_Some_elem_of]. }
  rewrite Forall_forall in Hf. destruct (Hf _ Hin) as [|E]; [done|].
  subst b. destruct Hb; contradiction.
Qed.

Lemma valid_host_edges h : is_valid_dns_hostname h = true →
  h ≠ [] ∧ (∀ b, head h = Some b ∨ last h = Some b → is_ascii_alphanumeric b = true).
Proof.
  intros [Hl Hf]%is_valid_dns_hostname_iff. split; [intros ->; cbn in Hl; lia|].
  intros b [Hb|Hb].
  - destruct (split "."%byte h) as [|l ls] eqn:E; [by apply split_nonempty in E|].
    inversion Hf as [|? ? H1 H2]; subst. apply ldh_edges in H1 as [Hne H1].
    apply (H1 b). left. rewrite <- (join_split "."%byte h), E in Hb.
    destruct l as [|a l]; [done|]. by destruct ls.
  - destruct (last (split "."%byte h)) as [l|] eqn:E;
      [|by apply last_None in E; apply split_nonempty in E].
    assert (Hll : ldh_label l).
    { rewrite Forall_forall in Hf. apply Hf. by apply last_Some_elem_of. }
    apply ldh_edges in Hll as [Hne H1]. apply (H1 b). right.
    by rewrite <- (last_join "."%byte _ _ E Hne), join_split.
Qed.

Lemma alnum_not_dot b : is_ascii_alphanumeric b = true → b ≠ "."%byte.
Proof. by intros H ->. Qed.

(** Normalizing a valid host name only changes its case. *)
Lemma normalize_valid h :
  is_valid_dns_hostname h = true → normalize_hostname h = to_ascii_lowercase h.
Proof.
  intros [Hne He]%valid_host_edges. unfold normalize_hostname.
  rewrite trim_plain; [|by intros a Ha; apply alnum_plain, He; left
                        |by intros a Ha; apply alnum_plain, He; right].
  rewrite trim_end_matches_id; [done|]. intros Hl.
  by apply (alnum_not_dot "."%byte); [apply He; right|].
Qed.

Lemma normalize_no_upper h :
  Forall (λ b, is_ascii_upper b = false) (normalize_hostname h).
Proof. apply to_lower_no_upper. Qed.

Lemma normalize_valid_idemp raw :
  is_valid_dns_hostname (normalize_hostname raw) = true →
  normalize_hostname (normalize_hostname raw) = normalize_hostname raw.
Proof.
  intros H. rewrite (normalize_valid _ H). unfold normalize_hostname at 1. apply to_lower_idemp.
Qed.

Lemma host_char_no_colon h : Forall host_char h → ":"%byte ∉ h.
Proof.
  rewrite Forall_forall. intros H Hin. destruct (H _ Hin) as [?|[?|?]]; done.
Qed.

(** ** Reading back [dest_key] *)

Lemma show_dec_edge n b :
  head (show_dec n) = Some b ∨ last (show_dec n) = Some b → is_ascii_digit b = true.
Proof.
  pose proof (show_dec_digits n) as Hf. rewrite Forall_forall in Hf.
  intros [?%head_Some_elem_of|?%last_Some_elem_of]; auto.
Qed.

Lemma digits_no_colon n : ":"%byte ∉ show_dec n.
Proof.
  intros Hin. pose proof (show_dec_digits n) as Hf. rewrite Forall_forall in Hf.
  by specialize (Hf _ Hin).
Qed.

Lemma parse_u16_show p : p < 2 ^ 16 → parse_u16 (show_dec p) = Some p.
Proof. intros H. apply from_str_radix_show; unfold U16_MAX; lia. Qed.

(** The part of [parse_remote] before the host is looked at. *)
Lemma parse_remote_host h p :
  (∀ b, head h = Some b → is_ascii_alphanumeric b = true) → h ≠ [] → ":"%byte ∉ h →
  1 <= p < 2 ^ 16 →
  parse_remote (h ++ lit ":" ++ show_dec p) =
    match parse_ip_addr h with
    | Some ip => Ok {| host := ip_canonical ip; port := p; ip_literal := Some ip |}
    | None =>
        match parse_loose_ipv4 h with
        | Some v4 => Ok {| host := ip_canonical (V4 v4); port := p; ip_literal := Some (V4 v4) |}
        | None =>
            if negb (is_valid_dns_hostname (normalize_hostname h)) then Err InvalidRemote
            else Ok {| host := normalize_hostname h; port := p; ip_literal := None |}
        end
    end.
Proof.
  intros Hh Hne Hc Hp.
  destruct h as [|a h]; [done|]. clear Hne. specialize (Hh a eq_refl).
  unfold parse_remote.
  rewrite trim_plain.
  2: { cbn. intros ? [= <-]. by apply alnum_plain. }
  2: { intros b Hb. rewrite !last_app in Hb.
       destruct (last (show_dec p)) as [b'|] eqn:E;
         [|apply last_None in E; by apply show_dec_ne in E].
       injection Hb as <-. apply alnum_plain, digit_alnum, (show_dec_edge p). by right. }
  rewrite bool_decide_false by done.
  unfold split_remote.
  assert (strip_prefix (lit "[") ((a :: h) ++ lit ":" ++ show_dec p) = None) as ->.
  { cbn. rewrite bool_decide_false; [done|]. by intros <-. }
  change (lit ":" ++ show_dec p) with (":"%byte :: show_dec p).
  rewrite rsplit_once_app by apply digits_no_colon.
  cbn [ok_or result_bind]. unfold contains_byte.
  rewrite bool_decide_false by done. rewrite bool_decide_false by done.
  cbn [orb result_bind]. rewrite bool_decide_false by done.
  rewrite parse_u16_show by lia. cbn [ok_or result_bind].
  destruct (N.eqb_spec p 0); [lia|]. done.
Qed.

(** A printed IPv4 address, as a host name. *)
Lemma show_v4_chars ip : Forall (λ b, is_ascii_digit b = true ∨ b = "."%byte) (show_v4 ip).
Proof.
  unfold show_v4. apply join_Forall; [by right|].
  apply Forall_fmap, Forall_true. intros i. cbn.
  apply (Forall_impl _ _ _ (show_dec_digits _)). auto.
Qed.

Lemma show_v4_split ip :
  split "."%byte (show_v4 ip) = (λ i, show_dec (octet ip i)) <$> [0; 1; 2; 3].
Proof.
  unfold show_v4. apply split_join; [done|]. apply Forall_fmap, Forall_true. intros i Hin.
  pose proof (show_dec_digits (octet ip i)) as Hf. rewrite Forall_forall in Hf.
  by specialize (Hf _ Hin).
Qed.

Lemma show_octet_label ip i : ldh_label (show_dec (octet ip i)).
Proof.
  destruct (show_octet_shape (octet ip i) (octet_lt ip i)) as (_ & [Hl1 Hl2] & _).
  split; [lia|]. split.
  { apply (Forall_impl _ _ _ (show_dec_digits _)). intros b Hb. left. by apply digit_alnum. }
  assert (H : ∀ b, head (show_dec (octet ip i)) = Some b ∨ last (show_dec (octet ip i)) = Some b
    → is_ascii_digit b = true) by (intros b; apply show_dec_edge).
  split; intros E; [specialize (H _ (or_introl E))|specialize (H _ (or_intror E))]; done.
Qed.

Lemma show_v4_valid_host ip : is_valid_dns_hostname (show_v4 ip) = true.
Proof.
  apply is_valid_dns_hostname_iff. rewrite show_v4_split. split.
  - unfold show_v4. cbn [fmap list_fmap join]. rewrite !length_app. cbn [length].
    rewrite !length_app. cbn [length]. rewrite !length_app. cbn [length].
    pose proof (λ i, proj1 (proj2 (show_octet_shape (octet ip i) (octet_lt ip i)))) as H.
    pose proof (H 0). pose proof (H 1). pose proof (H 2). pose proof (H 3). lia.
  - apply Forall_fmap, Forall_true. intros i. apply show_octet_label.
Qed.

Lemma show_v4_normalized ip : normalize_hostname (show_v4 ip) = show_v4 ip.
Proof.
  rewrite normalize_valid by apply show_v4_valid_host. apply to_lower_id.
  apply (Forall_impl _ _ _ (show_v4_chars ip)). intros b [Hb| ->]; [|done].
  pose proof (byte_forall (λ b, implb (is_ascii_digit b) (negb (is_ascii_upper b)))
    ltac:(vm_compute; reflexivity) b) as H. cbn in H. rewrite Hb in H.
  by apply negb_true_iff in H.
Qed.

(** ** The numeric IPv4 forms *)

Lemma digits_value_class radix (p : byte → bool) acc s :
  (∀ b, p b = false → digit_val radix b = None) →
  forallb p s = false → digits_value radix acc s = None.
Proof.
  intros Hp. revert acc. induction s as [|b s IH]; intros acc; [done|].
  cbn [forallb digits_value]. intros [H|H]%andb_false_iff.
  - by rewrite Hp.
  - destruct (digit_val radix b); cbn; [by apply IH|done].
Qed.

(** The three digit classes of the component parser are the digits of its
    three radices. *)
Lemma digit_classes b :
  (is_ascii_hexdigit b = false → digit_val 16 b = None)
  ∧ (is_octal_digit b = false → digit_val 8 b = None)
  ∧ (is_ascii_digit b = false → digit_val 10 b = None).
Proof.
  pose proof (byte_forall (λ b, let none o := match o : option N with None => true | _ => false end in
      (is_ascii_hexdigit b || none (digit_val 16 b))
      && (is_octal_digit b || none (digit_val 8 b))
      && (is_ascii_digit b || none (digit_val 10 b))) ltac:(vm_compute; reflexivity) b) as H.
  cbn beta zeta in H. apply andb_true_iff in H as [[H1 H2]%andb_true_iff H3].
  split_and!; intros E.
  - rewrite E in H1. by destruct (digit_val 16 b).
  - rewrite E in H2. by destruct (digit_val 8 b).
  - rewrite E in H3. by destruct (digit_val 10 b).
Qed.

Lemma hex_octal_unsigned b :
  is_ascii_hexdigit b || is_octal_digit b || is_ascii_digit b = true →
  b ≠ "+"%byte ∧ b ≠ "-"%byte.
Proof. intros H. split; intros E; by rewrite E in H. Qed.

Definition bounded (max : N) (o : option N) : option N :=
  v ← o; if v <=? max then Some v else None.

(** A digit-class test before [from_str_radix] rules out the sign. *)
Lemma from_str_radix_class radix max (p : byte → bool) s :
  (∀ b, p b = false → digit_val radix b = None) →
  (∀ b, p b = true → b ≠ "+"%byte ∧ b ≠ "-"%byte) → s ≠ [] →
  (if negb (forallb p s) then None else from_str_radix radix max s)
  = bounded max (digits_value radix 0 s).
Proof.
  intros H1 H2 Hne. destruct (forallb p s) eqn:E; cbn [negb].
  - assert (Hs : Forall (λ b, b ≠ "+"%byte ∧ b ≠ "-"%byte) s).
    { apply (forallb_Forall p (λ b, p b = true)) in E; [|done].
      by apply (Forall_impl _ _ _ E). }
    rewrite from_str_radix_unsigned; [|done|destruct Hs; cbn; naive_solver
                                          |destruct Hs; cbn; naive_solver].
    by apply parse_digits_value, N.le_0_l.
  - by rewrite (digits_value_class _ p).
Qed.

Lemma parse_ipv4_component_eq s : parse_ipv4_component s = bounded U32_MAX (c_number s).
Proof.
  unfold parse_ipv4_component, parse_u32.
  destruct s as [|b0 s]; [done|]. rewrite bool_decide_false by done.
  assert (Hdec : (if negb (forallb is_ascii_digit (b0 :: s)) then None
      else from_str_radix 10 U32_MAX (b0 :: s)) = bounded U32_MAX (digits_value 10 0 (b0 :: s))).
  { apply from_str_radix_class; [|by intros b Hb; apply hex_octal_unsigned; rewrite Hb, orb_true_r|done].
    intros b. apply digit_classes. }
  assert (Hoct : (if negb (forallb is_octal_digit (b0 :: s)) then None
      else from_str_radix 8 U32_MAX (b0 :: s)) = bounded U32_MAX (digits_value 8 0 (b0 :: s))).
  { apply from_str_radix_class;
      [|by intros b Hb; apply hex_octal_unsigned; rewrite Hb, orb_true_r|done].
    intros b. apply digit_classes. }
  assert (Hhex : ∀ h, h ≠ [] → (if negb (forallb is_ascii_hexdigit h) then None
      else from_str_radix 16 U32_MAX h) = bounded U32_MAX (digits_value 16 0 h)).
  { intros h Hh. apply from_str_radix_class;
      [|by intros b Hb; apply hex_octal_unsigned; rewrite Hb|done].
    intros b. apply digit_classes. }
  destruct s as [|b1 h].
  - cbn [lenN length]. change (1 <? lenN [b0]) with false. cbn [andb].
    assert ((match strip_prefix (lit "0x") [b0] with Some h => Some h
             | None => strip_prefix (lit "0X") [b0] end) = None) as ->.
    { cbn. by repeat case_bool_decide. }
    exact Hdec.
  - cbn [lit String.list_byte_of_string strip_prefix c_number].
    rewrite (proj2 (N.ltb_lt _ _)) by (unfold lenN; cbn; lia). cbn [andb].
    cbn. rewrite (bool_decide_ext ("0"%byte = b0) (b0 = "0"%byte)) by naive_solver.
    rewrite (bool_decide_ext ("x"%byte = b1) (b1 = "x"%byte)) by naive_solver.
    rewrite (bool_decide_ext ("X"%byte = b1) (b1 = "X"%byte)) by naive_solver.
    destruct (bool_decide (b0 = "0"%byte)); [|exact Hdec].
    destruct (bool_decide (b1 = "x"%byte)); cbn [orb andb].
    { case_bool_decide; [done|]. by apply Hhex. }
    destruct (bool_decide (b1 = "X"%byte)); [|exact Hoct].
    case_bool_decide; [done|]. by apply Hhex.
Qed.

Lemma aton_value_lt left nums v : aton_value left nums = Some v → 0 < left ∧ v < 256 ^ left.
Proof.
  revert left v. induction nums as [|n nums IH]; intros left v; [done|].
  destruct nums as [|n' nums].
  { cbn [aton_value]. destruct (N.ltb_spec 0 left), (N.ltb_spec n (256 ^ left));
      cbn; try done. by intros [= <-]. }
  change (aton_value left (n :: n' :: nums)) with
    (if n <? 256 then (w ← aton_value (left - 1) (n' :: nums); Some (n * 256 ^ (left - 1) + w))
     else None).
  destruct (N.ltb_spec n 256) as [Hn|]; [|done].
  intros (w & Hw & [= <-])%bind_Some. apply IH in Hw as [Hl Hw].
  assert (256 ^ left = 256 * 256 ^ (left - 1)) as ->.
  { rewrite <- N.pow_succ_r'. f_equal. lia. }
  split; [lia|]. set (P := 256 ^ (left - 1)) in *. clearbody P.
  assert (n * P <= 255 * P) by (apply N.mul_le_mono_r; lia). lia.
Qed.

Lemma aton_value_length left nums v :
  aton_value left nums = Some v → 1 <= lenN nums <= left.
Proof.
  revert left v. induction nums as [|n nums IH]; intros left v; [done|].
  destruct nums as [|n' nums].
  { intros [H _]%aton_value_lt. change (lenN [n]) with 1. lia. }
  change (aton_value left (n :: n' :: nums)) with
    (if n <? 256 then (w ← aton_value (left - 1) (n' :: nums); Some (n * 256 ^ (left - 1) + w))
     else None).
  destruct (n <? 256); [|done]. intros (w & Hw%IH & _)%bind_Some.
  rewrite (lenN_cons n). lia.
Qed.

Lemma aton_value_bounded left nums v :
  left <= 4 → aton_value left nums = Some v → Forall (λ n, n <= U32_MAX) nums.
Proof.
  revert left v. induction nums as [|n nums IH]; intros left v Hl; [done|].
  destruct nums as [|n' nums].
  { cbn [aton_value]. destruct (N.ltb_spec 0 left), (N.ltb_spec n (256 ^ left)) as [Hn|];
      cbn; try done. intros _. repeat constructor.
    assert (256 ^ left <= 256 ^ 4) by (by apply N.pow_le_mono_r).
    change (256 ^ 4) with 4294967296 in *. change U32_MAX with 4294967295. lia. }
  change (aton_value left (n :: n' :: nums)) with
    (if n <? 256 then (w ← aton_value (left - 1) (n' :: nums); Some (n * 256 ^ (left - 1) + w))
     else None).
  destruct (N.ltb_spec n 256) as [Hn|]; [|done]. intros (w & Hw & _)%bind_Some.
  constructor; [change U32_MAX with 4294967295; lia|]. eapply IH; [|exact Hw]. lia.
Qed.

Lemma shl32_small n k : n < 2 ^ (32 - k) → k <= 32 → shl32 n k = N.shiftl n k.
Proof.
  intros H Hk. unfold shl32. apply N.mod_small. rewrite N.shiftl_mul_pow2.
  replace (2 ^ 32) with (2 ^ (32 - k) * 2 ^ k) by (rewrite <- N.pow_add_r; f_equal; lia).
  apply N.mul_lt_mono_pos_r; [|done]. apply N.neq_0_lt_0, N.pow_nonzero. lia.
Qed.

(** Shifting and or-ing packs the components in base 256. *)
Lemma loose_ipv4_addr_eq nums :
  Forall (λ n, n <= U32_MAX) nums → loose_ipv4_addr nums = aton_value 4 nums.
Proof.
  intros Hf. unfold loose_ipv4_addr. rewrite Forall_forall in Hf.
  assert (Hlt : ∀ a b, (a <? b) = negb (b <=? a)) by (intros; apply N.ltb_antisym).
  destruct nums as [|n0 [|n1 [|n2 [|n3 [|n4 l]]]]].
  - done.
  - cbn [aton_value]. change (0 <? 4) with true. cbn [andb].
    rewrite (proj2 (N.ltb_lt _ _)); [done|].
    specialize (Hf n0 ltac:(set_solver)). change U32_MAX with 4294967295 in Hf.
    change (256 ^ 4) with 4294967296. lia.
  - cbn [aton_value]. change (0 <? 4 - 1) with true. cbn [andb].
    change (4 - 1) with 3.
    destruct (N.ltb_spec 255 n0), (N.ltb_spec n0 256); try lia; cbn [orb]; [done|].
    change (256 ^ 3) with (2 ^ 24).
    destruct (N.ltb_spec 16777215 n1), (N.ltb_spec n1 (2 ^ 24)); try lia; [done|].
    rewrite shl32_small by pow_lia. by rewrite lor_shiftl by done.
  - cbn [aton_value]. change (0 <? 4 - 1 - 1) with true. cbn [andb].
    change (4 - 1 - 1) with 2. change (4 - 1) with 3.
    destruct (N.ltb_spec 255 n0), (N.ltb_spec n0 256); try lia; cbn [orb]; [done|].
    destruct (N.ltb_spec 255 n1), (N.ltb_spec n1 256); try lia; cbn [orb]; [done|].
    change (256 ^ 2) with (2 ^ 16).
    destruct (N.ltb_spec 65535 n2), (N.ltb_spec n2 (2 ^ 16)); try lia; [done|].
    rewrite !shl32_small by pow_lia.
    rewrite <- N.lor_assoc, (lor_shiftl n1 n2 16) by done.
    rewrite lor_shiftl by pow_lia. done.
  - cbn [aton_value existsb]. change (0 <? 4 - 1 - 1 - 1) with true. cbn [andb].
    change (4 - 1 - 1 - 1) with 1. change (4 - 1 - 1) with 2. change (4 - 1) with 3.
    destruct (N.ltb_spec 255 n0), (N.ltb_spec n0 256); try lia; cbn [orb]; [done|].
    destruct (N.ltb_spec 255 n1), (N.ltb_spec n1 256); try lia; cbn [orb]; [done|].
    destruct (N.ltb_spec 255 n2), (N.ltb_spec n2 256); try lia; cbn [orb]; [done|].
    change (256 ^ 1) with 256.
    destruct (N.ltb_spec 255 n3), (N.ltb_spec n3 256); try lia; cbn [orb]; [done|].
    rewrite !shl32_small by pow_lia.
    rewrite <- !N.lor_assoc, (lor_shiftl n2 n3 8) by done.
    rewrite (lor_shiftl n1) by pow_lia. rewrite lor_shiftl by pow_lia. done.
  - destruct (aton_value 4 _) as [v|] eqn:E; [|done].
    apply aton_value_length in E. rewrite !lenN_cons in E. lia.
Qed.

Lemma mapM_bounded max (f : str → option N) l :
  mapM (λ s, bounded max (f s)) l =
    (nums ← mapM f l; if forallb (λ n, n <=? max) nums then Some nums else None).
Proof.
  induction l as [|s l IH]; [done|]. cbn [mapM]. rewrite IH. unfold bounded at 1.
  destruct (f s) as [v|]; cbn; [|done].
  destruct (mapM f l) as [nums|]; cbn; [|by destruct (v <=? max)].
  destruct (v <=? max); cbn; [|done]. by destruct (forallb _ nums).
Qed.

Lemma c_number_empty_part parts :
  existsb (λ p : str, bool_decide (p = [])) parts = true → mapM c_number parts = None.
Proof.
  induction parts as [|p parts IH]; [done|]. cbn [existsb mapM].
  intros [H|H]%orb_true_iff.
  - apply bool_decide_eq_true in H as ->. done.
  - rewrite (IH H). by destruct (c_number p).
Qed.

Lemma parse_loose_ipv4_eq s :
  parse_loose_ipv4 s =
    if lenN s <=? 32
    then nums ← mapM c_number (split "."%byte s); Ipv4 <$> aton_value 4 nums
    else None.
Proof.
  unfold parse_loose_ipv4. rewrite N.ltb_antisym.
  destruct (lenN s <=? 32) eqn:El; [|by rewrite orb_true_r]. cbn [negb]. rewrite orb_false_r.
  case_bool_decide as Hs; [by subst s|].
  destruct (existsb _ (split "."%byte s)) eqn:Ee.
  { rewrite orb_true_r. by rewrite c_number_empty_part. }
  rewrite orb_false_r.
  rewrite (mapM_ext _ (λ p, bounded U32_MAX (c_number p))) by
    (intros; apply parse_ipv4_component_eq).
  rewrite mapM_bounded.
  destruct (mapM c_number (split "."%byte s)) as [nums|] eqn:Em; cbn [mbind option_bind];
    [|by destruct (negb _)].
  assert (Hl : lenN (split "."%byte s) = lenN nums).
  { unfold lenN. by rewrite (Forall2_length _ _ _ (mapM_Some_1 _ _ _ Em)). }
  rewrite Hl.
  destruct (forallb (λ n, n <=? U32_MAX) nums) eqn:Ef; cbn [mbind option_bind].
  - apply (forallb_Forall _ (λ n, n <= U32_MAX)) in Ef; [|intros; apply N.leb_le].
    rewrite loose_ipv4_addr_eq by done.
    destruct (aton_value 4 nums) as [v|] eqn:Ev; cbn; [|by destruct (negb _)].
    apply aton_value_length in Ev.
    rewrite !(proj2 (N.leb_le _ _)) by lia. done.
  - destruct (aton_value 4 nums) as [v|] eqn:Ev; cbn; [|by destruct (negb _)].
    apply aton_value_bounded in Ev; [|done].
    apply (forallb_Forall (λ n, n <=? U32_MAX)) in Ev; [|intros; apply N.leb_le]. congruence.
Qed.

Lemma parse_loose_ipv4_wf s a : parse_loose_ipv4 s = Some a → wf4 a.
Proof.
  rewrite parse_loose_ipv4_eq. destruct (lenN s <=? 32); [|done].
  intros (nums & _ & (v & Hv & ->)%fmap_Some)%bind_Some.
  by apply aton_value_lt in Hv as [_ Hv].
Qed.

(** ** [parse_remote], inverted *)

Lemma parse_remote_inv raw r :
  parse_remote raw = Ok r →
  1 <= port r < 2 ^ 16 ∧
  ((∃ ip, wf_ip ip ∧ ip_literal r = Some ip ∧ host r = ip_canonical ip) ∨
   (ip_literal r = None ∧ is_valid_dns_hostname (host r) = true ∧
    ∃ h, host r = normalize_hostname h)).
Proof.
  unfold parse_remote. case_bool_decide; [done|].
  destruct (split_remote (trim raw)) as [[h ps]|]; cbn [result_bind]; [|done].
  case_bool_decide; [done|].
  destruct (parse_u16 ps) as [p|] eqn:Ep; cbn [ok_or result_bind]; [|done].
  apply from_str_radix_le in Ep. change U16_MAX with 65535 in Ep.
  destruct (N.eqb_spec p 0) as [|Hp0]; [done|].
  destruct (parse_ip_addr h) as [ip|] eqn:Eip.
  { intros [= <-]. cbn. split; [lia|]. left. exists ip.
    split; [by eapply parse_ip_addr_wf|done]. }
  destruct (parse_loose_ipv4 h) as [v4|] eqn:El.
  { intros [= <-]. cbn. split; [lia|]. left. exists (V4 v4).
    split; [by eapply parse_loose_ipv4_wf|done]. }
  destruct (is_valid_dns_hostname (normalize_hostname h)) eqn:Ev; cbn [negb]; [|done].
  intros [= <-]. cbn. split; [lia|]. right. eauto.
Qed.

Lemma parse_remote_literal_wf raw r ip :
  parse_remote raw = Ok r → ip_literal r = Some ip → wf_ip ip.
Proof.
  intros (_ & [(ip' & Hw & -> & _)|[-> _]])%parse_remote_inv; [by intros [= <-]|done].
Qed.

(** ** Dialling *)

(** [connect] gave no stream. *)
(** The attempts from the [n]-th on failed on these addresses. *)
Definition connects_failed {TcpStream : Type}
  (connect : nat → SocketAddr → option (result unit TcpStream)) (n : nat)
  (addrs : list SocketAddr) : Prop :=
  ∀ i a s, addrs !! i = Some a → connect (n + i)%nat a ≠ Some (Ok s).

Lemma connects_failed_cons {TcpStream : Type}
  (connect : nat → SocketAddr → option (result unit TcpStream)) n a addrs :
  (∀ s, connect n a ≠ Some (Ok s)) → connects_failed connect (S n) addrs →
  connects_failed connect n (a :: addrs).
Proof.
  intros Ha H [|i] b s; cbn [lookup list_lookup].
  - intros [= <-]. rewrite Nat.add_0_r. apply Ha.
  - intros Hb. rewrite Nat.add_succ_r. by apply (H i).
Qed.

Lemma connect_from_inv {TcpStream : Type}
  (connect : nat → SocketAddr → option (result unit TcpStream)) n addrs :
  match connect_from connect n addrs with
  | (dialled, Ok stream) =>
      ∃ pre a post, addrs = pre ++ a :: post ∧ dialled = pre ++ [a]
        ∧ connect (n + length pre)%nat a = Some (Ok stream) ∧ connects_failed connect n pre
  | (dialled, Err e) =>
      dialled = addrs ∧ e = Connect ∧ connects_failed connect n addrs
  end.
Proof.
  revert n. induction addrs as [|a addrs IH]; intros n; cbn [connect_from]; [done|].
  specialize (IH (S n)). destruct (connect n a) as [[s|e]|] eqn:Ea.
  { exists [], a, addrs. cbn [length]. by rewrite Nat.add_0_r. }
  all: assert (Hf : ∀ s, connect n a ≠ Some (Ok s)) by congruence.
  all: destruct (connect_from connect (S n) addrs) as [d [s|e']].
  all: try (destruct IH as (-> & -> & Hall); split_and!; [done..|by apply connects_failed_cons]).
  all: destruct IH as (pre & b & post & -> & -> & Hb & Hpre); exists (a :: pre), b, post.
  all: cbn [length]; rewrite Nat.add_succ_r; split_and!; [done..|by apply connects_failed_cons].
Qed.

Lemma connect_addrs_inv {TcpStream : Type}
  (connect : nat → SocketAddr → option (result unit TcpStream)) addrs :
  match connect_addrs connect addrs with
  | (dialled, Ok stream) =>
      ∃ pre a post, addrs = pre ++ a :: post ∧ dialled = pre ++ [a]
        ∧ connect (length pre) a = Some (Ok stream) ∧ connects_failed connect 0 pre
  | (dialled, Err e) =>
      dialled = addrs ∧ e = Connect ∧ connects_failed connect 0 addrs
  end.
Proof. apply (connect_from_inv connect 0). Qed.

Lemma dialled_subset {TcpStream : Type}
  (connect : nat → SocketAddr → option (result unit TcpStream)) addrs a :
  a ∈ (connect_addrs connect addrs).1 → a ∈ addrs.
Proof.
  pose proof (connect_addrs_inv connect addrs) as H.
  destruct (connect_addrs connect addrs) as [d [s|e]]; cbn.
  - destruct H as (pre & b & post & -> & -> & _). set_solver.
  - destruct H as (-> & _). done.
Qed.

(** The addresses that [resolve_filtered] keeps. *)
Lemma resolve_filtered_inv lookup remote policy addrs :
  resolve_filtered lookup remote policy = Ok addrs →
  addrs ≠ [] ∧
  Forall (λ a, allow_private_destinations policy = true ∨ is_global_unicast (sa_ip a) = true) addrs
  ∧ match ip_literal remote with
    | Some ip => addrs = [SockAddr ip (port remote)]
    | None => ∃ answer, lookup (host remote) (port remote) = Some (Ok answer)
                        ∧ addrs `sublist_of` answer
    end.
Proof.
  unfold resolve_filtered. destruct (ip_literal remote) as [ip|].
  - destruct (allow_private_destinations policy) eqn:Ea; cbn [negb andb].
    { intros [= <-]. split; [done|]. split; [|done]. repeat constructor. }
    destruct (is_global_unicast ip) eqn:Eg; cbn [negb]; [|done].
    intros [= <-]. split; [done|]. split; [|done]. constructor; [by right|constructor].
  - destruct (lookup (host remote) (port remote)) as [[answer|]|]; [|done..].
    case_bool_decide as He; [done|]. intros [= <-]. split; [done|]. split.
    + apply Forall_forall. intros a [Ha _]%list_elem_of_filter.
      destruct (allow_private_destinations policy), (is_global_unicast (sa_ip a)); auto.
    + exists answer. split; [done|]. apply sublist_filter.
Qed.

(** It keeps every routable address of the answer. *)
Lemma resolve_filtered_complete lookup remote policy addrs :
  resolver_ok lookup → resolve_filtered lookup remote policy = Ok addrs →
  ∀ answer a, ip_literal remote = None →
    lookup (host remote) (port remote) = Some (Ok answer) → a ∈ answer →
    global_spec (sa_ip a) → a ∈ addrs.
Proof.
  intros Hdns Hres answer a Hlit Hl Ha Hg. unfold resolve_filtered in Hres.
  rewrite Hlit, Hl in Hres. cbv zeta in Hres.
  destruct (bool_decide _); [done|]. injection Hres as <-.
  apply list_elem_of_filter. split; [|done].
  apply Hdns in Hl. rewrite Forall_forall in Hl. destruct (Hl a Ha) as [Hw _].
  rewrite (proj2 (is_global_unicast_iff _ Hw) Hg), orb_true_r. done.
Qed.

Lemma resolved_ok lookup remote policy addrs :
  resolver_ok lookup → (∀ ip, ip_literal remote = Some ip → wf_ip ip) →
  resolve_filtered lookup remote policy = Ok addrs →
  Forall (λ a, wf_ip (sa_ip a) ∧ sa_port a = port remote
    ∧ (allow_private_destinations policy = true ∨ global_spec (sa_ip a))) addrs.
Proof.
  intros Hdns Hlit (_ & Hg & Hs)%resolve_filtered_inv.
  assert (Hw : Forall (λ a, wf_ip (sa_ip a) ∧ sa_port a = port remote) addrs).
  { destruct (ip_literal remote) as [ip|].
    - subst addrs. repeat constructor. by apply Hlit.
    - destruct Hs as (answer & Hans & Hsub). apply Hdns in Hans. rewrite Forall_forall in Hans.
      apply Forall_forall. intros a Ha. apply Hans. by eapply elem_of_sublist. }
  rewrite Forall_forall in Hg, Hw. apply Forall_forall. intros a Ha.
  destruct (Hw a Ha) as [Hwf Hp]. split_and!; [done..|].
  destruct (Hg a Ha) as [?|Hga]; [by left|right]. by apply is_global_unicast_iff.
Qed.

Lemma check_policy_port remote policy :
  check_policy remote policy = Ok tt → port_allowed policy (port remote) = true.
Proof. unfold check_policy. by destruct (port_allowed _ _). Qed.

(** ** Properties *)

(** C7: the address classifier accepts exactly the addresses outside the
    special-purpose blocks: for IPv4 the fourteen blocks of [special_v4], for
    IPv6 the blocks of [special_v6], with an address that embeds an IPv4
    address (mapped, compatible, NAT64, 6to4) judged by that IPv4 address.
    The mask arithmetic of [ipv4_in]/[ipv6_in] and the octet and segment tests
    of the standard library are compared with plain intervals. *)
Theorem is_global_unicast_correct (ip : IpAddr) (Hwf : wf_ip ip) :
  is_global_unicast ip = true ↔ global_spec ip.
Proof. by apply is_global_unicast_iff. Qed.

Lemma is_global_unicast_correct_witness :
  wf_ip (V4 (v4_new 8 8 8 8)) ∧
  (is_global_unicast (V4 (v4_new 8 8 8 8)) = true ↔ global_spec (V4 (v4_new 8 8 8 8))).
Proof.
  assert (H : wf_ip (V4 (v4_new 8 8 8 8))) by (vm_compute; reflexivity).
  exact (conj H (is_global_unicast_correct _ H)).
Defined.

(** C25: what [parse_remote] returns is a destination: a non-zero 16-bit port
    and either an address with its canonical text or a lower-case DNS host name
    of at most 253 bytes made of letter-digit-hyphen labels, already
    normalized. *)
Theorem parse_remote_sound (raw : str) (r : Remote) (H : parse_remote raw = Ok r) :
  1 <= port r < 2 ^ 16 ∧
  match ip_literal r with
  | Some ip => wf_ip ip ∧ host r = ip_canonical ip
  | None => (1 <= length (host r) <= 253)%nat ∧ Forall ldh_label (split "."%byte (host r))
            ∧ Forall (λ b, is_ascii_upper b = false) (host r)
            ∧ normalize_hostname (host r) = host r
  end.
Proof.
  apply parse_remote_inv in H as [Hp [(ip & Hw & -> & Hh)|(-> & Hv & h & Hh)]]; [done|].
  split; [done|]. pose proof Hv as [Hl Hf]%is_valid_dns_hostname_iff.
  rewrite Hh in *. split_and!; [apply Hl..|done|apply normalize_no_upper|].
  by apply normalize_valid_idemp.
Qed.

Lemma parse_remote_sound_witness :
  parse_remote (lit "IMAP.Gmail.COM.:993")
    = Ok {| host := lit "imap.gmail.com"; port := 993; ip_literal := None |} ∧ (1 <= 993 < 2 ^ 16).
Proof.
  assert (H : parse_remote (lit "IMAP.Gmail.COM.:993")
    = Ok {| host := lit "imap.gmail.com"; port := 993; ip_literal := None |})
    by (vm_compute; reflexivity).
  exact (conj H (proj1 (parse_remote_sound _ _ H))).
Defined.

(** round trip.  The limiter key [host:port] of a parsed destination parses
    back to the same destination, for IPv4 literals and for host names that are
    not themselves numeric. *)
Theorem parse_remote_dest_key (raw : str) (r : Remote) (H : parse_remote raw = Ok r)
  (Hr : match ip_literal r with
        | Some (V4 _) => True
        | Some (V6 _) => False
        | None => parse_ip_addr (host r) = None ∧ parse_loose_ipv4 (host r) = None
        end) :
  parse_remote (dest_key r) = Ok r.
Proof.
  apply parse_remote_inv in H as [Hp [(ip & Hw & Hi & Hh)|(Hi & Hv & h & Hh)]];
    rewrite Hi in Hr; unfold dest_key.
  - destruct ip as [a|a]; [|done]. change (host r = show_v4 a) in Hh.
    pose proof (valid_host_edges _ (show_v4_valid_host a)) as [Hne He].
    rewrite Hh, parse_remote_host; [|by auto|done|apply show_v4_no_colon|done].
    rewrite parse_show_v4 by done. cbn [ip_canonical]. rewrite <- Hh, <- Hi. by destruct r.
  - destruct Hr as [H1 H2]. pose proof (valid_host_edges _ Hv) as [Hne He].
    rewrite parse_remote_host; [|by auto|done
      |apply host_char_no_colon, valid_host_chars; done|done].
    rewrite H1, H2. rewrite Hh in *. rewrite normalize_valid_idemp, Hv by done.
    cbn [negb]. rewrite <- Hh, <- Hi. by destruct r.
Qed.

Lemma parse_remote_dest_key_witness :
  ∃ r, parse_remote (lit "0x7f.1:143") = Ok r ∧ parse_remote (dest_key r) = Ok r.
Proof.
  exists {| host := lit "127.0.0.1"; port := 143; ip_literal := Some (V4 (v4_new 127 0 0 1)) |}.
  assert (H : parse_remote (lit "0x7f.1:143") = Ok {| host := lit "127.0.0.1"; port := 143;
    ip_literal := Some (V4 (v4_new 127 0 0 1)) |}) by (vm_compute; reflexivity).
  exact (conj H (parse_remote_dest_key _ _ H I)).
Defined.

(** C38: the IP-literal rule can be sidestepped.  Every IPv4 address followed by
    a dot is parsed as a host name whose text is that address, so the default
    policy, which refuses IP literals, lets it through on a mail port. *)
Theorem trailing_dot_hides_literal (ip : Ipv4Addr) (p : N) (Hip : wf4 ip)
  (Hp : p ∈ DEFAULT_ALLOWED_PORTS) :
  let r := {| host := show_v4 ip; port := p; ip_literal := None |} in
  parse_remote (show_v4 ip ++ lit ".:" ++ show_dec p) = Ok r
  ∧ check_policy r DestPolicy_default = Ok tt
  ∧ parse_ip_addr (host r) = Some (V4 ip).
Proof.
  assert (Hpr : 1 <= p < 2 ^ 16).
  { unfold DEFAULT_ALLOWED_PORTS in Hp. rewrite !elem_of_cons in Hp.
    destruct Hp as [->|[->|[->|[->|Hp]]]]; try done. by apply not_elem_of_nil in Hp. }
  cbv zeta. split; [|split].
  - change (show_v4 ip ++ lit ".:" ++ show_dec p)
      with (show_v4 ip ++ "."%byte :: lit ":" ++ show_dec p).
    rewrite cons_middle, app_assoc.
    pose proof (valid_host_edges _ (show_v4_valid_host ip)) as [Hne He].
    rewrite parse_remote_host; [|..|done].
    + assert (parse_ip_addr (show_v4 ip ++ ["."%byte]) = None) as ->.
      { unfold parse_ip_addr, read_ip_addr. by rewrite read_ipv4_show. }
      assert (parse_loose_ipv4 (show_v4 ip ++ ["."%byte]) = None) as ->.
      { rewrite parse_loose_ipv4_eq. destruct (_ <=? 32); [|done].
        rewrite split_app. rewrite c_number_empty_part; [done|].
        rewrite existsb_app. cbn. by rewrite orb_true_r. }
      assert (normalize_hostname (show_v4 ip ++ ["."%byte]) = show_v4 ip) as ->.
      { rewrite <- (show_v4_normalized ip) at 2. unfold normalize_hostname.
        rewrite (trim_plain (show_v4 ip)) by (intros a Ha; apply alnum_plain, He; auto).
        rewrite trim_plain, trim_end_matches_snoc; [done| |].
        - intros a Ha. apply alnum_plain, He. left. by destruct (show_v4 ip).
        - rewrite last_snoc. by intros a [= <-]. }
      by rewrite show_v4_valid_host.
    + intros b Hb. apply He. left. by destruct (show_v4 ip).
    + by destruct (show_v4 ip).
    + rewrite not_elem_of_app. split; [apply show_v4_no_colon|set_solver].
  - unfold check_policy, port_allowed. cbn [allowed_ports DestPolicy_default port ip_literal].
    rewrite bool_decide_true by (by apply elem_of_list_to_set). done.
  - by apply parse_show_v4.
Qed.

Lemma trailing_dot_hides_literal_witness :
  wf4 (v4_new 8 8 8 8) ∧
  parse_remote (lit "8.8.8.8.:993")
    = Ok {| host := lit "8.8.8.8"; port := 993; ip_literal := None |}.
Proof.
  assert (H : wf4 (v4_new 8 8 8 8)) by (vm_compute; reflexivity).
  assert (Hp : 993 ∈ DEFAULT_ALLOWED_PORTS) by (apply list_elem_of_In; vm_compute; tauto).
  exact (conj H (proj1 (trailing_dot_hides_literal _ 993 H Hp))).
Defined.

(** C32: the numeric-host parser computes what [inet_aton] does.  On at most 32
    bytes the dotted components are read in C notation (hexadecimal, octal,
    decimal) and packed with all but the last as single bytes and the last
    filling the rest; the shifts, masks and [u32] overflow checks of the code
    agree with this arithmetic on every string. *)
Theorem parse_loose_ipv4_inet_aton (s : str) :
  parse_loose_ipv4 s =
    if lenN s <=? 32
    then nums ← mapM c_number (split "."%byte s); Ipv4 <$> aton_value 4 nums
    else None.
Proof. apply parse_loose_ipv4_eq. Qed.

(** C8: no address outside the policy is ever dialled.  Whatever the resolver
    answers and however the connects turn out, with private destinations
    disallowed each address that [connect_addrs] dials is globally routable
    and is one the resolver returned for the parsed host (or the literal
    itself).  No routable address of the answer is withheld; they are dialled in
    order up to the first that connects, whose stream is the result, and the
    dial fails only when each of them has failed. *)
Theorem dialled_addresses_global {TcpStream : Type}
  (lookup : Resolver) (connect : nat → SocketAddr → option (result unit TcpStream))
  (remote : Remote) (policy : DestPolicy) (addrs : list SocketAddr)
  (Hpriv : allow_private_destinations policy = false)
  (Hdns : resolver_ok lookup)
  (Hlit : ∀ ip, ip_literal remote = Some ip → wf_ip ip)
  (Hres : resolve_filtered lookup remote policy = Ok addrs) :
  addrs ≠ [] ∧
  Forall (λ a, global_spec (sa_ip a) ∧ sa_port a = port remote ∧
    match ip_literal remote with
    | Some ip => a = SockAddr ip (port remote)
    | None => ∃ answer, lookup (host remote) (port remote) = Some (Ok answer) ∧ a ∈ answer
    end) (connect_addrs connect addrs).1 ∧
  (∀ answer a, ip_literal remote = None →
     lookup (host remote) (port remote) = Some (Ok answer) → a ∈ answer →
     global_spec (sa_ip a) → a ∈ addrs) ∧
  match connect_addrs connect addrs with
  | (dialled, Ok stream) => ∃ pre a post, addrs = pre ++ a :: post ∧ dialled = pre ++ [a]
      ∧ connect (length pre) a = Some (Ok stream) ∧ connects_failed connect 0 pre
  | (dialled, Err e) => dialled = addrs ∧ e = Connect ∧ connects_failed connect 0 addrs
  end.
Proof.
  pose proof (resolved_ok _ _ _ _ Hdns Hlit Hres) as Hok.
  pose proof (resolve_filtered_complete _ _ _ _ Hdns Hres) as Hall.
  apply resolve_filtered_inv in Hres as (Hne & _ & Hs).
  split_and!; [done| |exact Hall|apply connect_addrs_inv].
  rewrite Forall_forall in Hok. apply Forall_forall. intros a Ha%dialled_subset.
  destruct (Hok a Ha) as (_ & Hp & [?|Hg]); [congruence|]. split_and!; [done..|].
  destruct (ip_literal remote) as [ip|]; [subst addrs; by apply list_elem_of_singleton in Ha|].
  destruct Hs as (answer & Hl & Hsub). exists answer. split; [done|]. by eapply elem_of_sublist.
Qed.

Lemma dialled_addresses_global_witness :
  let a := SockAddr (V4 (v4_new 10 0 0 1)) 993 in
  let b := SockAddr (V4 (v4_new 8 8 8 8)) 993 in
  let r := {| host := lit "imap.example.com"; port := 993; ip_literal := None |} in
  let lookup : Resolver := λ _ p, Some (Ok [SockAddr (sa_ip a) p; SockAddr (sa_ip b) p]) in
  resolve_filtered lookup r DestPolicy_default = Ok [b] ∧
  Forall (λ x, global_spec (sa_ip x)) (connect_addrs (λ _ _, Some (Ok tt)) [b]).1.
Proof.
  intros a b r lookup.
  assert (H : resolve_filtered lookup r DestPolicy_default = Ok [b]) by (vm_compute; reflexivity).
  split; [exact H|].
  refine (Forall_impl _ _ _ (proj1 (proj2 (dialled_addresses_global lookup (λ _ _, Some (Ok tt)) r
    DestPolicy_default [b] eq_refl _ _ H))) (λ x Hx, proj1 Hx)).
  - intros h p answer [= <-]. repeat constructor.
  - intros ip [=].
Defined.

