(* ===== verification/Proto.v ===== *)
(** * First-hop protocol probes ([src/proto.rs])

    The TLS record length, the ClientHello parser that extracts the SNI host
    name, the IMAP and SMTP greeting checks, and the ClientHello builder of
    the file's tests.

    The parser indexes attacker-controlled bytes, so it is written in
    [outcome]: an index or slice that Rust would panic on is [Panic], and the
    two [while] loops take fuel (one more than the length of the buffer they
    walk; each iteration advances by at least three bytes) and give [Diverge]
    without it. *)

From S2P Require Import Prelude RustStr Dest.

(** ** Definitions *)

Definition MAX_TLS_RECORD : N := 16 * 1024.
Definition MAX_GREETING : N := 512.

Inductive ProbeKind := TlsSni | ImapGreeting | SmtpGreeting.
Inductive ProtoError := NotTls | Malformed | SniMismatch | MissingSni | BadGreeting.

#[export] Instance ProbeKind_eq_dec : EqDecision ProbeKind.
Proof. solve_decision. Defined.
#[export] Instance ProtoError_eq_dec : EqDecision ProtoError.
Proof. solve_decision. Defined.

Definition as_str (self : ProtoError) : str :=
  match self with
  | NotTls => lit "not_tls"
  | Malformed => lit "malformed"
  | SniMismatch => lit "sni_mismatch"
  | MissingSni => lit "missing_sni"
  | BadGreeting => lit "bad_greeting"
  end.

Definition probe_for_port (port : N) : option ProbeKind :=
  if (port =? 993) || (port =? 465) then Some TlsSni
  else if port =? 143 then Some ImapGreeting
  else if port =? 587 then Some SmtpGreeting
  else None.

(** [u16::from_be_bytes([a, b])] *)
Definition from_be16 (a b : byte) : N := byte_val a * 256 + byte_val b.

Definition tls_record_needed (buf : list byte) : outcome ProtoError N :=
  if bool_decide (buf = []) then Ret 5 else
  let! b0 := or_panic (idx buf 0) in
  if negb (byte_val b0 =? 0x16) then Throw NotTls else
  if lenN buf <? 5 then Ret (5 - lenN buf) else
  let! b1 := or_panic (idx buf 1) in
  if negb (byte_val b1 =? 0x03) then Throw NotTls else
  let! b3 := or_panic (idx buf 3) in
  let! b4 := or_panic (idx buf 4) in
  let record_len := from_be16 b3 b4 in
  if (record_len =? 0) || (MAX_TLS_RECORD <? record_len) then Throw Malformed else
  let total := 5 + record_len in
  if total <=? lenN buf then Ret 0 else Ret (total - lenN buf).

Definition u24 (b : list byte) : outcome ProtoError N :=
  if lenN b <? 3 then Throw Malformed else
  let! b0 := or_panic (idx b 0) in
  let! b1 := or_panic (idx b 1) in
  let! b2 := or_panic (idx b 2) in
  Ret (N.lor (N.lor (N.shiftl (byte_val b0) 16) (N.shiftl (byte_val b1) 8)) (byte_val b2)).

Definition u16_at (buf : list byte) (i : N) : outcome ProtoError N :=
  let! s := throw_or Malformed (get_range buf i (i + 2)) in
  let! a := or_panic (idx s 0) in
  let! b := or_panic (idx s 1) in
  Ret (from_be16 a b).

(** The loop of [parse_sni_extension] over the server name list. *)
Fixpoint sni_list_loop (fuel : nat) (list : list byte) (i : N) : outcome ProtoError (option str) :=
  match fuel with
  | O => Diverge
  | S fuel =>
      if i + 3 <=? lenN list then
        let! name_type := or_panic (idx list i) in
        let! n1 := or_panic (idx list (i + 1)) in
        let! n2 := or_panic (idx list (i + 2)) in
        let name_len := from_be16 n1 n2 in
        let i := i + 3 in
        let! name := throw_or Malformed (get_range list i (i + name_len)) in
        let i := i + name_len in
        if byte_val name_type =? 0 then
          let! s := throw_or Malformed (from_utf8 name) in
          if bool_decide (s = []) then Throw Malformed else Ret (Some s)
        else sni_list_loop fuel list i
      else Ret None
  end.

Definition parse_sni_extension (data : list byte) : outcome ProtoError (option str) :=
  if lenN data <? 2 then Throw Malformed else
  let! d0 := or_panic (idx data 0) in
  let! d1 := or_panic (idx data 1) in
  let list_len := from_be16 d0 d1 in
  let! list := throw_or Malformed (get_range data 2 (2 + list_len)) in
  sni_list_loop (S (length list)) list 0.

(** The loop of [parse_sni] over the extensions. *)
Fixpoint exts_loop (fuel : nat) (exts : list byte) (j : N) : outcome ProtoError (option str) :=
  match fuel with
  | O => Diverge
  | S fuel =>
      if j + 4 <=? lenN exts then
        let! t0 := or_panic (idx exts j) in
        let! t1 := or_panic (idx exts (j + 1)) in
        let typ := from_be16 t0 t1 in
        let! l0 := or_panic (idx exts (j + 2)) in
        let! l1 := or_panic (idx exts (j + 3)) in
        let len := from_be16 l0 l1 in
        let j := j + 4 in
        let! data := throw_or Malformed (get_range exts j (j + len)) in
        let j := j + len in
        if typ =? 0 then parse_sni_extension data else exts_loop fuel exts j
      else Ret None
  end.

(** The part of [parse_sni] after the handshake header. *)
Definition hello_sni (hello : list byte) : outcome ProtoError (option str) :=
  let i := 2 + 32 in
  let! sid_len := throw_or Malformed (idx hello i) in
  let i := i + (1 + byte_val sid_len) in
  let! cs_len := u16_at hello i in
  let i := i + (2 + cs_len) in
  let! comp_len := throw_or Malformed (idx hello i) in
  let i := i + (1 + byte_val comp_len) in
  if i =? lenN hello then Ret None else
  let! ext_len := u16_at hello i in
  let i := i + 2 in
  let! exts := throw_or Malformed (get_range hello i (i + ext_len)) in
  exts_loop (S (length exts)) exts 0.

Definition parse_sni (record : list byte) : outcome ProtoError (option str) :=
  if lenN record <? 5 then Throw NotTls else
  let! b0 := or_panic (idx record 0) in
  if negb (byte_val b0 =? 0x16) then Throw NotTls else
  let! b3 := or_panic (idx record 3) in
  let! b4 := or_panic (idx record 4) in
  let record_len := from_be16 b3 b4 in
  let! body := throw_or Malformed (get_range record 5 (5 + record_len)) in
  if lenN body <? 4 then Throw NotTls else
  let! h0 := or_panic (idx body 0) in
  if negb (byte_val h0 =? 0x01) then Throw NotTls else
  let! len3 := or_panic (get_range body 1 4) in
  let! hs_len := u24 len3 in
  let! hello := throw_or Malformed (get_range body 4 (4 + hs_len)) in
  hello_sni hello.

Definition validate_tls_client_hello (buf : list byte) (expected_host : str)
  (dest_is_ip_literal : bool) : outcome ProtoError unit :=
  let! needed := tls_record_needed buf in
  if negb (needed =? 0) then Throw Malformed else
  let! sni := parse_sni buf in
  if dest_is_ip_literal then Ret tt else
  match sni with
  | None => Throw MissingSni
  | Some name =>
      let got := normalize_hostname name in
      let want := normalize_hostname expected_host in
      if bool_decide (got = want) then Ret tt else Throw SniMismatch
  end.

Definition greeting_blank (b : byte) : bool :=
  (byte_val b =? 13) || (byte_val b =? 10) || (byte_val b =? 32) || (byte_val b =? 9).

(** [buf.iter().position(..).unwrap_or(buf.len())] *)
Fixpoint first_not_blank (buf : list byte) : nat :=
  match buf with
  | [] => O
  | b :: buf => if greeting_blank b then S (first_not_blank buf) else O
  end.

Definition validate_greeting (buf : list byte) (kind : ProbeKind) : result ProtoError unit :=
  let start := first_not_blank buf in
  let line := drop start buf in
  if bool_decide (line = []) then Err BadGreeting else
  match kind with
  | ImapGreeting => if starts_with (lit "* ") line then Ok tt else Err BadGreeting
  | SmtpGreeting =>
      if starts_with (lit "220 ") line || starts_with (lit "220-") line
      then Ok tt else Err BadGreeting
  | TlsSni => Err BadGreeting
  end.

Definition greeting_complete (buf : list byte) : bool :=
  contains_byte "010"%byte buf || (MAX_GREETING <=? lenN buf).

Definition max_greeting_bytes : N := MAX_GREETING.

(** *** The ClientHello builder of the tests *)

(** [(n as u16).to_be_bytes()] *)
Definition to_be16 (n : N) : list byte := [byte_of (n / 256); byte_of n].
(** The three bytes [(n >> 16) & 0xff], [(n >> 8) & 0xff], [n & 0xff] *)
Definition to_be24 (n : N) : list byte := [byte_of (n / 65536); byte_of (n / 256); byte_of n].

Definition client_hello_with_sni (name : str) : list byte :=
  let list_len := 1 + 2 + lenN name in
  let sni_body := to_be16 list_len ++ ["000"%byte] ++ to_be16 (lenN name) ++ name in
  let ext := to_be16 0 ++ to_be16 (lenN sni_body) ++ sni_body in
  let hello := ["003"%byte; "003"%byte] ++ replicate 32 "000"%byte ++ ["000"%byte]
    ++ to_be16 2 ++ ["000"%byte; "047"%byte] ++ ["001"%byte] ++ ["000"%byte]
    ++ to_be16 (lenN ext) ++ ext in
  let hs := ["001"%byte] ++ to_be24 (lenN hello) ++ hello in
  ["022"%byte] ++ ["003"%byte; "001"%byte] ++ to_be16 (lenN hs) ++ hs.

(** ** The grammar the parser is compared with *)

(** In a block of extensions, the data of the first of type 0 (server_name). *)
Inductive first_sni_ext : list byte → list byte → Prop :=
| first_sni_here data rest :
    lenN data < 2 ^ 16 →
    first_sni_ext (to_be16 0 ++ to_be16 (lenN data) ++ data ++ rest) data
| first_sni_skip typ other rest data :
    typ ≠ 0 → typ < 2 ^ 16 → lenN other < 2 ^ 16 → first_sni_ext rest data →
    first_sni_ext (to_be16 typ ++ to_be16 (lenN other) ++ other ++ rest) data.

(** In a server name list, the first name of type 0 (host_name). *)
Inductive first_host_name : list byte → str → Prop :=
| first_host_here name rest :
    lenN name < 2 ^ 16 →
    first_host_name ("000"%byte :: to_be16 (lenN name) ++ name ++ rest) name
| first_host_skip typ other rest name :
    typ ≠ "000"%byte → lenN other < 2 ^ 16 → first_host_name rest name →
    first_host_name (typ :: to_be16 (lenN other) ++ other ++ rest) name.

(** A ClientHello body (version, random, session id, cipher suites,
    compression methods, extensions) whose extensions are [exts]. *)
Inductive hello_exts : list byte → list byte → Prop :=
| hello_exts_intro version_random sid cs comp exts rest :
    lenN version_random = 34 → lenN sid < 2 ^ 8 → lenN cs < 2 ^ 16 → lenN comp < 2 ^ 8 →
    lenN exts < 2 ^ 16 →
    hello_exts (version_random ++ byte_of (lenN sid) :: sid ++ to_be16 (lenN cs) ++ cs
                ++ byte_of (lenN comp) :: comp ++ to_be16 (lenN exts) ++ exts ++ rest) exts.

(** A handshake record that carries a ClientHello with that body. *)
Inductive record_hello : list byte → list byte → Prop :=
| record_hello_intro v0 v1 hello body_rest rest :
    lenN hello < 2 ^ 24 → 4 + lenN hello + lenN body_rest < 2 ^ 16 →
    record_hello ("022"%byte :: v0 :: v1 :: to_be16 (4 + lenN hello + lenN body_rest)
                  ++ ("001"%byte :: to_be24 (lenN hello) ++ hello ++ body_rest) ++ rest) hello.

(** The record names [name] in its first server_name extension. *)
Inductive names_host : list byte → str → Prop :=
| names_host_intro record hello exts list list_rest name :
    record_hello record hello → hello_exts hello exts →
    lenN list < 2 ^ 16 →
    first_sni_ext exts (to_be16 (lenN list) ++ list ++ list_rest) →
    first_host_name list name → name ≠ [] → utf8_valid name = true →
    names_host record name.

(** ** Lemmas *)

(** *** Big-endian integers *)

Lemma from_be16_lt a b : from_be16 a b < 2 ^ 16.
Proof. unfold from_be16. pose proof (byte_val_lt a). pose proof (byte_val_lt b). pow_lia. Qed.

Lemma from_to_be16 n : n < 2 ^ 16 → from_be16 (byte_of (n / 256)) (byte_of n) = n.
Proof.
  intros H. unfold from_be16. rewrite !byte_val_of.
  rewrite (N.mod_small (n / 256)) by (apply N.Div0.div_lt_upper_bound; exact H).
  pose proof (N.div_mod' n 256). lia.
Qed.

Lemma to_from_be16 a b : to_be16 (from_be16 a b) = [a; b].
Proof.
  unfold to_be16, from_be16. pose proof (byte_val_lt a). pose proof (byte_val_lt b).
  assert ((byte_val a * 256 + byte_val b) / 256 = byte_val a) as ->.
  { symmetry. apply N.div_unique with (byte_val b); lia. }
  assert (byte_of (byte_val a * 256 + byte_val b) = b) as ->.
  { apply byte_val_inj. rewrite byte_val_of. symmetry.
    apply N.mod_unique with (byte_val a); lia. }
  by rewrite byte_of_val.
Qed.

Lemma u24_bytes a b c :
  u24 [a; b; c] =
    Ret (N.lor (N.lor (N.shiftl (byte_val a) 16) (N.shiftl (byte_val b) 8)) (byte_val c)).
Proof. done. Qed.

Lemma u24_be24 n : n < 2 ^ 24 → u24 (to_be24 n) = Ret n.
Proof.
  intros H. unfold to_be24. rewrite u24_bytes, !byte_val_of. f_equal.
  rewrite <- N.lor_assoc, (lor_shiftl _ _ 8) by (by apply N.mod_lt).
  pose proof (N.div_mod' n 65536) as H1. pose proof (N.div_mod' n 256) as H2.
  change 65536 with (256 * 256) in *. rewrite <- N.Div0.div_div in *.
  pose proof (N.div_mod' (n / 256) 256) as H3.
  pose proof (N.mod_lt n 256 ltac:(done)). pose proof (N.mod_lt (n / 256) 256 ltac:(done)).
  rewrite (N.mod_small (n / 256 / 256)).
  2: { rewrite N.Div0.div_div. apply N.Div0.div_lt_upper_bound. exact H. }
  rewrite lor_shiftl by pow_lia. pow_lia.
Qed.

Lemma u24_inv b n : length b = 3%nat → u24 b = Ret n → b = to_be24 n ∧ n < 2 ^ 24.
Proof.
  intros Hl. destruct b as [|a [|b [|c [|]]]]; try done. clear Hl.
  rewrite u24_bytes. intros [= <-].
  pose proof (byte_val_lt a). pose proof (byte_val_lt b). pose proof (byte_val_lt c).
  rewrite <- N.lor_assoc, (lor_shiftl _ _ 8) by done.
  rewrite lor_shiftl by pow_lia.
  change (2 ^ 16) with 65536. change (2 ^ 8) with 256. split; [|pow_lia].
  set (x := byte_val a) in *. set (y := byte_val b) in *. set (z := byte_val c) in *.
  unfold to_be24.
  assert ((x * 65536 + (y * 256 + z)) / 65536 = x) as ->.
  { symmetry. apply N.div_unique with (y * 256 + z); lia. }
  assert ((x * 65536 + (y * 256 + z)) / 256 = x * 256 + y) as ->.
  { symmetry. apply N.div_unique with z; lia. }
  assert (byte_of (x * 256 + y) = b) as ->.
  { apply byte_val_inj. rewrite byte_val_of. symmetry. apply N.mod_unique with x; lia. }
  assert (byte_of (x * 65536 + (y * 256 + z)) = c) as ->.
  { apply byte_val_inj. rewrite byte_val_of. symmetry.
    apply N.mod_unique with (x * 256 + y); lia. }
  unfold x. by rewrite byte_of_val.
Qed.

(** *** The extension loop, one iteration at a time *)

Lemma exts_loop_short fuel pre rest :
  lenN rest < 4 → exts_loop (S fuel) (pre ++ rest) (lenN pre) = Ret None.
Proof.
  intros H. cbn [exts_loop]. rewrite lenN_app, (proj2 (N.leb_gt _ _)) by lia. done.
Qed.

Lemma exts_loop_head fuel pre t0 t1 l0 l1 rest :
  exts_loop (S fuel) (pre ++ t0 :: t1 :: l0 :: l1 :: rest) (lenN pre) =
    let! data := throw_or Malformed (get_range rest 0 (from_be16 l0 l1)) in
    if from_be16 t0 t1 =? 0 then parse_sni_extension data
    else exts_loop fuel (pre ++ t0 :: t1 :: l0 :: l1 :: rest)
           (lenN pre + 4 + from_be16 l0 l1).
Proof.
  cbn [exts_loop]. rewrite lenN_app, !lenN_cons, (proj2 (N.leb_le _ _)) by lia.
  rewrite (idx_app _ _ 0), (idx_app _ _ 1), (idx_app _ _ 2), (idx_app _ _ 3) by lia.
  idx_simpl.
  rewrite (get_range_app pre _ 4 (4 + from_be16 l0 l1)) by lia.
  by rewrite (get_range_app [t0; t1; l0; l1] rest 0 (from_be16 l0 l1)) by done.
Qed.

Lemma header4 (rest : list byte) :
  lenN rest < 4 ∨ ∃ t0 t1 l0 l1 r, rest = t0 :: t1 :: l0 :: l1 :: r.
Proof.
  destruct rest as [|a [|b [|c [|d r]]]]; [left; done..|]. right. by exists a, b, c, d, r.
Qed.

Lemma header3 (rest : list byte) :
  lenN rest < 3 ∨ ∃ t l0 l1 r, rest = t :: l0 :: l1 :: r.
Proof.
  destruct rest as [|a [|b [|c r]]]; [left; done..|]. right. by exists a, b, c, r.
Qed.

Lemma sni_list_short fuel pre rest :
  lenN rest < 3 → sni_list_loop (S fuel) (pre ++ rest) (lenN pre) = Ret None.
Proof.
  intros H. cbn [sni_list_loop]. rewrite lenN_app, (proj2 (N.leb_gt _ _)) by lia. done.
Qed.

Lemma sni_list_head fuel pre t l0 l1 rest :
  sni_list_loop (S fuel) (pre ++ t :: l0 :: l1 :: rest) (lenN pre) =
    let! name := throw_or Malformed (get_range rest 0 (from_be16 l0 l1)) in
    if byte_val t =? 0 then
      let! s := throw_or Malformed (from_utf8 name) in
      if bool_decide (s = []) then Throw Malformed else Ret (Some s)
    else sni_list_loop fuel (pre ++ t :: l0 :: l1 :: rest) (lenN pre + 3 + from_be16 l0 l1).
Proof.
  cbn [sni_list_loop]. rewrite lenN_app, !lenN_cons, (proj2 (N.leb_le _ _)) by lia.
  rewrite (idx_app _ _ 0), (idx_app _ _ 1), (idx_app _ _ 2) by lia.
  idx_simpl.
  rewrite (get_range_app pre _ 3 (3 + from_be16 l0 l1)) by lia.
  by rewrite (get_range_app [t; l0; l1] rest 0 (from_be16 l0 l1)) by done.
Qed.

(** The rest of the list after an entry, as a new split of the same list. *)
Lemma resplit (pre h d r : list byte) n :
  n = lenN pre + lenN h + lenN d →
  pre ++ h ++ d ++ r = (pre ++ h ++ d) ++ r ∧ n = lenN (pre ++ h ++ d).
Proof. intros ->. rewrite !lenN_app, <- !app_assoc. split; [done|lia]. Qed.

(** *** Neither loop panics or runs out of fuel *)

Lemma sni_list_loop_returns fuel pre rest :
  (length rest < fuel)%nat → returns (sni_list_loop fuel (pre ++ rest) (lenN pre)).
Proof.
  revert pre rest. induction fuel as [|fuel IH]; intros pre rest Hl; [lia|].
  destruct (header3 rest) as [H|(t & l0 & l1 & r & ->)]; [by rewrite sni_list_short|].
  rewrite sni_list_head.
  destruct (get_range_0 r (from_be16 l0 l1)) as [(d & r' & -> & Hd & ->)|[_ ->]]; [|done].
  cbn [throw_or outcome_bind]. destruct (byte_val t =? 0).
  { unfold from_utf8. destruct (utf8_valid d); cbn; [|done]. by case_bool_decide. }
  destruct (resplit pre [t; l0; l1] d r' (lenN pre + 3 + from_be16 l0 l1)) as [E1 E2];
    [by rewrite Hd|].
  change (pre ++ t :: l0 :: l1 :: d ++ r') with (pre ++ [t; l0; l1] ++ d ++ r').
  rewrite E1, E2. apply IH. cbn [length] in Hl. rewrite length_app in Hl. lia.
Qed.

Lemma parse_sni_extension_returns data : returns (parse_sni_extension data).
Proof.
  unfold parse_sni_extension.
  destruct data as [|d0 [|d1 data]]; [done..|].
  rewrite (proj2 (N.ltb_ge _ _)) by (rewrite !lenN_cons; lia).
  idx_simpl.
  apply returns_bind; [auto with proxy|]. intros list _.
  apply (sni_list_loop_returns _ []). lia.
Qed.

Lemma exts_loop_returns fuel pre rest :
  (length rest < fuel)%nat → returns (exts_loop fuel (pre ++ rest) (lenN pre)).
Proof.
  revert pre rest. induction fuel as [|fuel IH]; intros pre rest Hl; [lia|].
  destruct (header4 rest) as [H|(t0 & t1 & l0 & l1 & r & ->)]; [by rewrite exts_loop_short|].
  rewrite exts_loop_head.
  destruct (get_range_0 r (from_be16 l0 l1)) as [(d & r' & -> & Hd & ->)|[_ ->]]; [|done].
  cbn [throw_or outcome_bind].
  destruct (from_be16 t0 t1 =? 0); [apply parse_sni_extension_returns|].
  destruct (resplit pre [t0; t1; l0; l1] d r' (lenN pre + 4 + from_be16 l0 l1)) as [E1 E2];
    [by rewrite Hd|].
  change (pre ++ t0 :: t1 :: l0 :: l1 :: d ++ r') with (pre ++ [t0; t1; l0; l1] ++ d ++ r').
  rewrite E1, E2. apply IH. cbn [length] in Hl. rewrite length_app in Hl. lia.
Qed.

Lemma u16_at_eq buf i :
  u16_at buf i = match get_range buf i (i + 2) with
                 | Some [a; b] => Ret (from_be16 a b)
                 | _ => Throw Malformed
                 end.
Proof.
  unfold u16_at. destruct (get_range buf i (i + 2)) as [s|] eqn:E; cbn; [|done].
  apply get_range_Some in E as (_ & _ & Hl). unfold lenN in Hl.
  destruct s as [|a [|b [|c s]]]; cbn in Hl; try lia. done.
Qed.

Lemma u16_at_returns buf i : returns (u16_at buf i).
Proof. rewrite u16_at_eq. by destruct (get_range _ _ _) as [[|? [|? [|]]]|]. Qed.

#[export] Hint Resolve parse_sni_extension_returns u16_at_returns : proxy.

Lemma hello_sni_returns hello : returns (hello_sni hello).
Proof.
  unfold hello_sni. cbv zeta.
  repeat (apply returns_bind; [auto with proxy|]; intros ? _).
  destruct (_ =? lenN hello); [done|].
  repeat (apply returns_bind; [auto with proxy|]; intros ? _).
  apply (exts_loop_returns _ []). lia.
Qed.

Lemma parse_sni_returns record : returns (parse_sni record).
Proof.
  unfold parse_sni.
  destruct record as [|b0 [|b1 [|b2 [|b3 [|b4 record]]]]]; [done..|].
  rewrite (proj2 (N.ltb_ge _ _)) by (rewrite !lenN_cons; lia).
  idx_simpl.
  destruct (negb _); [done|].
  apply returns_bind; [auto with proxy|]. intros body _.
  destruct (N.ltb_spec (lenN body) 4) as [|Hb]; [done|].
  destruct (header4 body) as [|(h0 & h1 & h2 & h3 & r & ->)]; [lia|].
  idx_simpl.
  destruct (negb _); [done|].
  assert (get_range (h0 :: h1 :: h2 :: h3 :: r) 1 4 = Some [h1; h2; h3]) as ->
    by (by apply (get_range_mid [h0] [h1; h2; h3] r)).
  cbn [or_panic outcome_bind]. unfold u24. change (lenN [h1; h2; h3] <? 3) with false.
  idx_simpl.
  apply returns_bind; [auto with proxy|]. intros hello _. apply hello_sni_returns.
Qed.

(** *** The parser and the grammar *)

Lemma byte_val_22 b : (byte_val b =? 0x16) = true ↔ b = "022"%byte.
Proof. rewrite N.eqb_eq. split; [|by intros ->]. intros H. by apply byte_val_inj. Qed.

Lemma byte_val_1 b : (byte_val b =? 0x01) = true ↔ b = "001"%byte.
Proof. rewrite N.eqb_eq. split; [|by intros ->]. intros H. by apply byte_val_inj. Qed.

Lemma byte_val_0 b : (byte_val b =? 0) = true ↔ b = "000"%byte.
Proof. rewrite N.eqb_eq. split; [|by intros ->]. intros H. by apply byte_val_inj. Qed.

(** The bytes [t0 t1 l0 l1 ..data] as the encoder writes them. *)
Lemma ext_bytes t0 t1 l0 l1 (data rest : list byte) :
  lenN data = from_be16 l0 l1 →
  t0 :: t1 :: l0 :: l1 :: data ++ rest
    = to_be16 (from_be16 t0 t1) ++ to_be16 (lenN data) ++ data ++ rest.
Proof. intros ->. by rewrite !to_from_be16. Qed.

Lemma exts_loop_sound fuel pre rest name :
  exts_loop fuel (pre ++ rest) (lenN pre) = Ret (Some name) →
  ∃ data, first_sni_ext rest data ∧ parse_sni_extension data = Ret (Some name).
Proof.
  revert pre rest. induction fuel as [|fuel IH]; intros pre rest; [done|].
  destruct (header4 rest) as [H|(t0 & t1 & l0 & l1 & r & ->)]; [by rewrite exts_loop_short|].
  rewrite exts_loop_head.
  destruct (get_range_0 r (from_be16 l0 l1)) as [(d & r' & -> & Hd & ->)|[_ ->]]; [|done].
  cbn [throw_or outcome_bind].
  pose proof (from_be16_lt l0 l1).
  destruct (N.eqb_spec (from_be16 t0 t1) 0) as [E0|E0].
  - intros H'. exists d. split; [|done]. rewrite ext_bytes, E0 by done. constructor. by rewrite Hd.
  - destruct (resplit pre [t0; t1; l0; l1] d r' (lenN pre + 4 + from_be16 l0 l1)) as [E1 E2];
      [by rewrite Hd|].
    change (pre ++ t0 :: t1 :: l0 :: l1 :: d ++ r') with (pre ++ [t0; t1; l0; l1] ++ d ++ r').
    rewrite E1, E2. intros (data & Hf & Hp)%IH. exists data. split; [|done].
    rewrite ext_bytes by done.
    apply first_sni_skip; [done|apply from_be16_lt|by rewrite Hd|done].
Qed.

Lemma exts_loop_complete rest data :
  first_sni_ext rest data → ∀ fuel pre, (length rest < fuel)%nat →
  exts_loop fuel (pre ++ rest) (lenN pre) = parse_sni_extension data.
Proof.
  induction 1 as [data rest Hd|typ other rest data Ht0 Ht Ho _ IH]; intros fuel pre Hl;
    (destruct fuel as [|fuel]; [lia|]); unfold to_be16; cbn [app];
    rewrite exts_loop_head, !from_to_be16 by done.
  - by rewrite get_range_0_app by done.
  - rewrite get_range_0_app by done. cbn [throw_or outcome_bind].
    rewrite (proj2 (N.eqb_neq _ _) Ht0).
    set (h := [byte_of (typ / 256); byte_of typ; byte_of (lenN other / 256);
               byte_of (lenN other)]).
    destruct (resplit pre h other rest (lenN pre + 4 + lenN other)) as [E1 E2]; [done|].
    match goal with |- exts_loop _ ?l _ = _ => change l with (pre ++ h ++ other ++ rest) end.
    rewrite E1, E2. apply IH. rewrite !length_app in Hl. cbn in Hl. lia.
Qed.

Lemma sni_list_sound fuel pre rest name :
  sni_list_loop fuel (pre ++ rest) (lenN pre) = Ret (Some name) →
  first_host_name rest name ∧ name ≠ [] ∧ utf8_valid name = true.
Proof.
  revert pre rest. induction fuel as [|fuel IH]; intros pre rest; [done|].
  destruct (header3 rest) as [H|(t & l0 & l1 & r & ->)]; [by rewrite sni_list_short|].
  rewrite sni_list_head.
  destruct (get_range_0 r (from_be16 l0 l1)) as [(d & r' & -> & Hd & ->)|[_ ->]]; [|done].
  cbn [throw_or outcome_bind].
  assert (Hb : l0 :: l1 :: d ++ r' = to_be16 (lenN d) ++ d ++ r').
  { by rewrite Hd, to_from_be16. }
  pose proof (from_be16_lt l0 l1).
  destruct (byte_val t =? 0) eqn:E0.
  - apply byte_val_0 in E0 as ->. unfold from_utf8.
    destruct (utf8_valid d) eqn:Eu; cbn; [|done].
    case_bool_decide; [done|]. intros [= <-]. split_and!; [|done..].
    rewrite Hb. constructor. by rewrite Hd.
  - destruct (resplit pre [t; l0; l1] d r' (lenN pre + 3 + from_be16 l0 l1)) as [E1 E2];
      [by rewrite Hd|].
    change (pre ++ t :: l0 :: l1 :: d ++ r') with (pre ++ [t; l0; l1] ++ d ++ r').
    rewrite E1, E2. intros (Hf & Hn)%IH. split; [|done].
    rewrite Hb. apply first_host_skip; [|by rewrite Hd|done].
    intros ->. done.
Qed.

Lemma sni_list_complete rest name :
  first_host_name rest name → name ≠ [] → utf8_valid name = true →
  ∀ fuel pre, (length rest < fuel)%nat →
  sni_list_loop fuel (pre ++ rest) (lenN pre) = Ret (Some name).
Proof.
  intros H Hne Hu. induction H as [name rest Hd|typ other rest name Ht Ho _ IH];
    intros fuel pre Hl; (destruct fuel as [|fuel]; [lia|]); unfold to_be16; cbn [app];
    rewrite sni_list_head, !from_to_be16 by done.
  - rewrite get_range_0_app by done. cbn [throw_or outcome_bind].
    change (byte_val "000"%byte =? 0) with true. cbn iota.
    unfold from_utf8. rewrite Hu. cbn. by rewrite bool_decide_false.
  - rewrite get_range_0_app by done. cbn [throw_or outcome_bind].
    destruct (byte_val typ =? 0) eqn:E0; [by apply byte_val_0 in E0|].
    set (h := [typ; byte_of (lenN other / 256); byte_of (lenN other)]).
    destruct (resplit pre h other rest (lenN pre + 3 + lenN other)) as [E1 E2]; [done|].
    match goal with |- sni_list_loop _ ?l _ = _ => change l with (pre ++ h ++ other ++ rest) end.
    rewrite E1, E2. apply IH; [done..|]. cbn in Hl. rewrite !length_app in Hl. cbn in Hl. lia.
Qed.

Lemma parse_sni_extension_iff data name :
  parse_sni_extension data = Ret (Some name) ↔
  ∃ list rest, data = to_be16 (lenN list) ++ list ++ rest ∧ lenN list < 2 ^ 16
    ∧ first_host_name list name ∧ name ≠ [] ∧ utf8_valid name = true.
Proof.
  unfold parse_sni_extension. split.
  - destruct data as [|d0 [|d1 data]]; [done..|].
    rewrite (proj2 (N.ltb_ge _ _)) by (rewrite !lenN_cons; lia). idx_simpl.
    rewrite (get_range_app [d0; d1] data 0 (from_be16 d0 d1)) by done.
    destruct (get_range_0 data (from_be16 d0 d1)) as [(l & r & -> & Hl & ->)|[_ ->]]; [|done].
    cbn [throw_or outcome_bind]. intros H%(sni_list_sound _ []).
    exists l, r. rewrite Hl, to_from_be16. split; [done|]. split; [apply from_be16_lt|done].
  - intros (l & r & -> & Hl & Hf & Hn & Hu). unfold to_be16. cbn [app].
    rewrite (proj2 (N.ltb_ge _ _)) by (rewrite !lenN_cons; lia). idx_simpl.
    rewrite from_to_be16 by done.
    rewrite (get_range_app [byte_of (lenN l / 256); byte_of (lenN l)] (l ++ r) 0 (lenN l)) by done.
    rewrite get_range_0_app by done. cbn [throw_or outcome_bind].
    apply (sni_list_complete _ _ Hf Hn Hu _ []). lia.
Qed.

(** [hello_sni], cut at its length fields. *)
(** A ClientHello as its bytes, with the length fields that hold it together. *)
Lemma hello_exts_bytes vr sid_len sid c0 c1 cs comp_len comp e0 e1 exts rest :
  lenN vr = 34 → lenN sid = byte_val sid_len → lenN cs = from_be16 c0 c1 →
  lenN comp = byte_val comp_len → lenN exts = from_be16 e0 e1 →
  hello_exts (vr ++ sid_len :: sid ++ c0 :: c1 :: cs ++ comp_len :: comp ++ e0 :: e1 :: exts ++ rest)
    exts.
Proof.
  intros Hvr Hsid Hcs Hcl Hlen%eq_sym.
  rewrite <- (byte_of_val sid_len), <- (byte_of_val comp_len), <- Hsid, <- Hcl.
  change (c0 :: c1 :: ?x) with ([c0; c1] ++ x). rewrite <- (to_from_be16 c0 c1), <- Hcs.
  pose proof (byte_val_lt sid_len). pose proof (byte_val_lt comp_len).
  pose proof (from_be16_lt c0 c1). pose proof (from_be16_lt e0 e1).
  assert (Ee : e0 :: e1 :: exts ++ rest = to_be16 (lenN exts) ++ exts ++ rest)
    by (by rewrite <- Hlen, to_from_be16).
  rewrite Ee.
  apply (hello_exts_intro vr sid cs comp exts rest);
    [done|rewrite Hsid; done|rewrite Hcs; done|rewrite Hcl; done|rewrite <- Hlen; done].
Qed.

Lemma hello_sni_sound hello name :
  hello_sni hello = Ret (Some name) →
  ∃ exts, hello_exts hello exts ∧ exts_loop (S (length exts)) exts 0 = Ret (Some name).
Proof.
  unfold hello_sni. cbv zeta.
  intros (sid_len & Hsid & H)%outcome_bind_Ret.
  apply throw_or_Ret, idx_split in Hsid as (vr & r1 & -> & Hvr).
  apply outcome_bind_Ret in H as (cs_len & Hcs & H).
  rewrite u16_at_eq, (get_range_app vr _ (1 + byte_val sid_len) (1 + byte_val sid_len + 2)) in Hcs
    by lia.
  rewrite (get_range_cons sid_len r1 (byte_val sid_len) (byte_val sid_len + 2)) in Hcs by lia.
  destruct (get_range r1 _ _) as [[|c0 [|c1 [|]]]|] eqn:Ec; try done.
  injection Hcs as <-. apply get_range_split in Ec as (sid & r2 & -> & Hsid & _).
  apply outcome_bind_Ret in H as (comp_len & Hcomp & H). apply throw_or_Ret in Hcomp.
  rewrite (idx_app vr _ (3 + byte_val sid_len + from_be16 c0 c1)) in Hcomp by lia.
  rewrite (idx_cons sid_len _ (2 + byte_val sid_len + from_be16 c0 c1)) in Hcomp by lia.
  rewrite (idx_app sid _ (2 + from_be16 c0 c1)) in Hcomp by lia.
  rewrite (idx_app [c0; c1] r2 (from_be16 c0 c1)) in Hcomp by done.
  apply idx_split in Hcomp as (cs & r3 & -> & Hcs).
  match type of H with (if ?b then _ else _) = _ => destruct b; [done|] end.
  apply outcome_bind_Ret in H as (ext_len & Hel & H).
  set (front := vr ++ sid_len :: sid ++ [c0; c1] ++ cs ++ [comp_len]).
  assert (Hfront : lenN front = 34 + (1 + byte_val sid_len) + (2 + from_be16 c0 c1) + 1).
  { unfold front. rewrite !lenN_app, lenN_cons, !lenN_app.
    change (lenN [c0; c1]) with 2. change (lenN [comp_len]) with 1. lia. }
  assert (Hhello : vr ++ sid_len :: sid ++ [c0; c1] ++ cs ++ comp_len :: r3 = front ++ r3).
  { unfold front. by repeat (rewrite <- app_assoc; cbn [app]). }
  rewrite Hhello in *. clear Hhello.
  rewrite u16_at_eq, (get_range_app front r3 (byte_val comp_len) (byte_val comp_len + 2)) in Hel
    by lia.
  destruct (get_range r3 _ _) as [[|e0 [|e1 [|]]]|] eqn:Ee; try done.
  injection Hel as <-. apply get_range_split in Ee as (comp & r4 & -> & Hcl & _).
  apply outcome_bind_Ret in H as (exts & Hexts & H). apply throw_or_Ret in Hexts.
  rewrite (get_range_app front _ (byte_val comp_len + 2) (byte_val comp_len + 2 + from_be16 e0 e1))
    in Hexts by lia.
  rewrite (get_range_app comp _ 2 (2 + from_be16 e0 e1)) in Hexts by lia.
  rewrite (get_range_app [e0; e1] r4 0 (from_be16 e0 e1)) in Hexts by done.
  apply get_range_split in Hexts as (nil' & rest & -> & Hnil & Hlen).
  apply lenN_zero in Hnil as ->. rewrite N.add_0_l in Hlen.
  exists exts. split; [|exact H]. unfold front.
  repeat (rewrite <- app_assoc; cbn [app]). by apply hello_exts_bytes.
Qed.

Lemma u16_at_mid p n s i : i = lenN p → n < 2 ^ 16 → u16_at (p ++ to_be16 n ++ s) i = Ret n.
Proof.
  intros -> Hn. rewrite u16_at_eq, (get_range_mid p (to_be16 n) s) by done.
  unfold to_be16. by rewrite from_to_be16.
Qed.

Lemma hello_sni_complete hello exts :
  hello_exts hello exts → hello_sni hello = exts_loop (S (length exts)) exts 0.
Proof.
  intros [vr sid cs comp exts' rest Hvr Hsid Hcs Hcomp Hexts]. unfold hello_sni. cbv zeta.
  set (sl := byte_of (lenN sid)). set (cl := byte_of (lenN comp)).
  assert (Hsl : byte_val sl = lenN sid)
    by (unfold sl; rewrite byte_val_of; by apply N.mod_small).
  assert (Hcl : byte_val cl = lenN comp)
    by (unfold cl; rewrite byte_val_of; by apply N.mod_small).
  set (hl := vr ++ sl :: sid ++ to_be16 (lenN cs) ++ cs ++ cl :: comp
                ++ to_be16 (lenN exts') ++ exts' ++ rest).
  assert (E1 : idx hl (2 + 32) = Some sl) by (by apply idx_mid).
  assert (H1 : hl = (vr ++ sl :: sid) ++ to_be16 (lenN cs) ++ cs ++ cl :: comp
    ++ to_be16 (lenN exts') ++ exts' ++ rest) by (unfold hl; by rewrite <- app_assoc).
  assert (E2 : u16_at hl (2 + 32 + (1 + byte_val sl)) = Ret (lenN cs)).
  { rewrite H1. apply u16_at_mid; [|done]. rewrite lenN_app, lenN_cons. lia. }
  assert (H2 : hl = (vr ++ sl :: sid ++ to_be16 (lenN cs) ++ cs) ++ cl :: comp
    ++ to_be16 (lenN exts') ++ exts' ++ rest).
  { unfold hl. by repeat (rewrite <- app_assoc; cbn [app]). }
  assert (Hlen : lenN (vr ++ sl :: sid ++ to_be16 (lenN cs) ++ cs)
    = 2 + 32 + (1 + byte_val sl) + (2 + lenN cs)).
  { rewrite lenN_app, lenN_cons, !lenN_app. change (lenN (to_be16 _)) with 2. lia. }
  assert (E3 : idx hl (2 + 32 + (1 + byte_val sl) + (2 + lenN cs)) = Some cl).
  { rewrite H2. by apply idx_mid. }
  rewrite E1. cbn [throw_or outcome_bind]. rewrite E2. cbn [outcome_bind]. rewrite E3.
  cbn [throw_or outcome_bind]. rewrite <- Hlen in *.
  set (front := vr ++ sl :: sid ++ to_be16 (lenN cs) ++ cs) in *.
  assert (H3 : hl = (front ++ cl :: comp) ++ to_be16 (lenN exts') ++ exts' ++ rest).
  { rewrite H2. by rewrite <- app_assoc. }
  assert (Hlen3 : lenN (front ++ cl :: comp) = lenN front + (1 + byte_val cl)).
  { rewrite lenN_app, lenN_cons. lia. }
  assert (Hne : lenN (front ++ cl :: comp) ≠ lenN hl).
  { rewrite H3, (lenN_app (front ++ cl :: comp)), (lenN_app (to_be16 _)).
    change (lenN (to_be16 _)) with 2. lia. }
  rewrite <- Hlen3, (proj2 (N.eqb_neq _ _) Hne), H3, u16_at_mid by done. cbn [outcome_bind].
  rewrite (get_range_app (front ++ cl :: comp) _ 2 (2 + lenN exts')) by lia.
  rewrite (get_range_app (to_be16 (lenN exts')) _ 0 (lenN exts')) by done.
  by rewrite get_range_0_app by done.
Qed.

(** The record header, likewise. *)
Lemma parse_sni_record_inv record name :
  parse_sni record = Ret (Some name) →
  ∃ hello, record_hello record hello ∧ hello_sni hello = Ret (Some name).
Proof.
  unfold parse_sni.
  destruct record as [|b0 [|b1 [|b2 [|b3 [|b4 r]]]]]; [done..|].
  rewrite (proj2 (N.ltb_ge _ _)) by (rewrite !lenN_cons; lia). idx_simpl.
  destruct (byte_val b0 =? 0x16) eqn:E0; [|done]. apply byte_val_22 in E0 as ->. cbn [negb].
  rewrite (get_range_app ["022"%byte; b1; b2; b3; b4] r 0 (from_be16 b3 b4)) by done.
  destruct (get_range_0 r (from_be16 b3 b4)) as [(body & rest & -> & Hb & ->)|[_ ->]]; [|done].
  cbn [throw_or outcome_bind]. pose proof (from_be16_lt b3 b4) as Hlt.
  destruct (N.ltb_spec (lenN body) 4) as [|Hb4]; [done|].
  destruct (header4 body) as [|(h0 & h1 & h2 & h3 & r' & ->)]; [lia|]. idx_simpl.
  destruct (byte_val h0 =? 0x01) eqn:E1; [|done]. apply byte_val_1 in E1 as ->. cbn [negb].
  assert (get_range ("001"%byte :: h1 :: h2 :: h3 :: r') 1 4 = Some [h1; h2; h3]) as ->
    by (by apply (get_range_mid ["001"%byte] [h1; h2; h3] r')).
  cbn [or_panic outcome_bind].
  intros (hs_len & Hu & H)%outcome_bind_Ret.
  apply u24_inv in Hu as [Hbe Hhl]; [|done].
  rewrite (get_range_app ["001"%byte; h1; h2; h3] r' 0 hs_len) in H by done.
  destruct (get_range_0 r' hs_len) as [(hello & br & -> & Hl & E)|[_ E]]; rewrite E in H; [|done].
  cbn [throw_or outcome_bind] in H. exists hello. split; [|exact H].
  rewrite !lenN_cons, lenN_app in Hb.
  change (h1 :: h2 :: h3 :: hello ++ br) with ([h1; h2; h3] ++ hello ++ br).
  change (b3 :: b4 :: ?x) with ([b3; b4] ++ x).
  rewrite Hbe, <- Hl, <- to_from_be16, <- Hb in *.
  replace (1 + (1 + (1 + (1 + (lenN hello + lenN br))))) with (4 + lenN hello + lenN br)
    in * by lia.
  by apply (record_hello_intro b1 b2 hello br rest).
Qed.

Lemma parse_sni_record record hello :
  record_hello record hello → parse_sni record = hello_sni hello.
Proof.
  unfold parse_sni. intros [v0 v1 hello' br rest Hh Hl].
  change (to_be16 (4 + ?a + ?b) ++ ?l)
    with (byte_of ((4 + a + b) / 256) :: byte_of (4 + a + b) :: l).
  rewrite (proj2 (N.ltb_ge _ _)) by (rewrite !lenN_cons; lia). idx_simpl.
  change (negb (byte_val "022"%byte =? 22)) with false. cbn iota.
  rewrite from_to_be16 by done.
  set (body := "001"%byte :: to_be24 (lenN hello') ++ hello' ++ br).
  set (n := 4 + lenN hello' + lenN br) in *.
  match goal with |- context [get_range ?l 5 _] =>
    change l with (["022"%byte; v0; v1; byte_of (n / 256); byte_of n] ++ body ++ rest) end.
  rewrite (get_range_app ["022"%byte; v0; v1; byte_of (n / 256); byte_of n] (body ++ rest) 0 n)
    by done.
  assert (Hbl : lenN body = n).
  { unfold body, n. rewrite lenN_cons, !lenN_app. change (lenN (to_be24 _)) with 3. lia. }
  rewrite get_range_0_app by done. cbn [throw_or outcome_bind].
  rewrite (proj2 (N.ltb_ge _ _)) by lia. unfold body at 1. idx_simpl.
  change (negb (byte_val "001"%byte =? 1)) with false. cbn iota.
  assert (get_range body 1 4 = Some (to_be24 (lenN hello'))) as ->
    by (by apply (get_range_mid ["001"%byte] (to_be24 (lenN hello')) (hello' ++ br))).
  cbn [or_panic outcome_bind]. rewrite u24_be24 by done. cbn [outcome_bind].
  unfold body. rewrite (get_range_cons _ _ 3 (3 + lenN hello')) by lia.
  rewrite (get_range_app (to_be24 (lenN hello')) _ 0 (lenN hello')) by done.
  by rewrite get_range_0_app by done.
Qed.

Lemma parse_sni_hello record name :
  parse_sni record = Ret (Some name) ↔
  ∃ hello, record_hello record hello ∧ hello_sni hello = Ret (Some name).
Proof.
  split; [apply parse_sni_record_inv|]. intros (hello & Hr & H). by rewrite (parse_sni_record _ hello).
Qed.

Lemma parse_sni_names record name :
  parse_sni record = Ret (Some name) ↔ names_host record name.
Proof.
  rewrite parse_sni_hello. split.
  - intros (hello & Hr & H). apply hello_sni_sound in H as (exts & He & H).
    apply (exts_loop_sound _ []) in H as (data & Hf & H).
    apply parse_sni_extension_iff in H as (l & r & -> & Hl & Hn & Hne & Hu).
    by eapply names_host_intro.
  - intros [? hello exts l r n Hr He Hl Hf Hn Hne Hu]. exists hello. split; [done|].
    rewrite (hello_sni_complete _ _ He).
    rewrite (exts_loop_complete _ _ Hf _ []) by lia.
    apply parse_sni_extension_iff. eauto 10.
Qed.

(** *** The record length *)

(** [buf] begins with a complete TLS handshake record, of protocol version 3.x
    and with a body of 1 to 16384 bytes. *)
Definition has_record (buf : list byte) : Prop :=
  ∃ minor body rest, buf = "022"%byte :: "003"%byte :: minor :: to_be16 (lenN body) ++ body ++ rest
    ∧ 1 <= lenN body <= MAX_TLS_RECORD.

Lemma byte_val_3 b : (byte_val b =? 0x03) = true ↔ b = "003"%byte.
Proof. rewrite N.eqb_eq. split; [|by intros ->]. intros H. by apply byte_val_inj. Qed.

Lemma tls_record_needed_short buf :
  lenN buf < 5 →
  tls_record_needed buf =
    match buf with
    | [] => Ret 5
    | b :: _ => if byte_val b =? 0x16 then Ret (5 - lenN buf) else Throw NotTls
    end.
Proof.
  intros Hl. unfold tls_record_needed. destruct buf as [|b buf]; [done|].
  rewrite bool_decide_false by done. idx_simpl.
  destruct (byte_val b =? 0x16); [|done]. cbn [negb]. by rewrite (proj2 (N.ltb_lt _ _) Hl).
Qed.

Lemma tls_record_needed_long b0 b1 b2 b3 b4 rest :
  tls_record_needed (b0 :: b1 :: b2 :: b3 :: b4 :: rest) =
    let n := from_be16 b3 b4 in
    if negb (byte_val b0 =? 0x16) || negb (byte_val b1 =? 0x03) then Throw NotTls
    else if (n =? 0) || (MAX_TLS_RECORD <? n) then Throw Malformed
    else if n <=? lenN rest then Ret 0 else Ret (n - lenN rest).
Proof.
  unfold tls_record_needed. rewrite bool_decide_false by done. idx_simpl.
  destruct (byte_val b0 =? 0x16); [|done]. cbn [negb orb].
  rewrite (proj2 (N.ltb_ge _ _)) by (rewrite !lenN_cons; lia). idx_simpl.
  destruct (byte_val b1 =? 0x03); [|done]. cbn [negb]. cbv zeta.
  destruct (_ || _); [done|]. rewrite !lenN_cons.
  destruct (N.leb_spec (from_be16 b3 b4) (lenN rest)), (N.leb_spec (5 + from_be16 b3 b4)
    (1 + (1 + (1 + (1 + (1 + lenN rest)))))); (done || lia || (f_equal; lia)).
Qed.

Lemma header5 (buf : list byte) :
  lenN buf < 5 ∨ ∃ b0 b1 b2 b3 b4 r, buf = b0 :: b1 :: b2 :: b3 :: b4 :: r.
Proof.
  destruct buf as [|a [|b [|c [|d [|e r]]]]]; [left; done..|]. right. by exists a, b, c, d, e, r.
Qed.

(** The header of a record, seen through whatever has arrived of it. *)
Lemma has_record_long b0 b1 b2 b3 b4 r :
  has_record (b0 :: b1 :: b2 :: b3 :: b4 :: r) ↔
  b0 = "022"%byte ∧ b1 = "003"%byte ∧ 1 <= from_be16 b3 b4 <= MAX_TLS_RECORD
  ∧ from_be16 b3 b4 <= lenN r.
Proof.
  split.
  - intros (minor & body & rest & [= -> -> -> -> -> ->] & Hb).
    rewrite from_to_be16 by (unfold MAX_TLS_RECORD in Hb; pow_lia).
    rewrite lenN_app. split_and!; (done || lia).
  - intros (-> & -> & Hn & Hl).
    destruct (get_range_0 r (from_be16 b3 b4)) as [(d & r' & -> & Hd & _)|[? _]]; [|lia].
    exists b2, d, r'. rewrite Hd. split; [|lia]. by rewrite to_from_be16.
Qed.

Lemma has_record_first b buf : has_record (b :: buf) → b = "022"%byte.
Proof. by intros (? & ? & ? & [= -> _] & _). Qed.

Lemma has_record_5 buf : has_record buf → 5 < lenN buf.
Proof.
  intros (? & body & ? & -> & Hb). rewrite !lenN_cons, !lenN_app.
  change (lenN (to_be16 _)) with 2. lia.
Qed.

Lemma tls_record_needed_returns buf : returns (tls_record_needed buf).
Proof.
  destruct (header5 buf) as [H|(b0 & b1 & b2 & b3 & b4 & r & ->)].
  - rewrite tls_record_needed_short by done. destruct buf; [done|]. by destruct (_ =? _).
  - rewrite tls_record_needed_long. cbv zeta. by repeat destruct (_ : bool).
Qed.

Lemma tls_record_needed_0 buf : tls_record_needed buf = Ret 0 ↔ has_record buf.
Proof.
  destruct (header5 buf) as [H|(b0 & b1 & b2 & b3 & b4 & r & ->)].
  - rewrite tls_record_needed_short by done. split; [|intros ?%has_record_5; lia].
    destruct buf as [|b buf]; [done|]. destruct (_ =? _); [|done]. intros [= ?]. lia.
  - rewrite tls_record_needed_long, has_record_long. cbv zeta.
    rewrite <- byte_val_22, <- byte_val_3.
    destruct (byte_val b0 =? 0x16), (byte_val b1 =? 0x03); cbn [negb orb]; try naive_solver.
    destruct (N.eqb_spec (from_be16 b3 b4) 0), (N.ltb_spec MAX_TLS_RECORD (from_be16 b3 b4));
      cbn [orb]; try (split; [done|lia]).
    destruct (N.leb_spec (from_be16 b3 b4) (lenN r)).
    + split; [intros _; split_and!; (done || lia)|done].
    + split; [intros [= ?]; lia|lia].
Qed.

(** *** Greetings *)

Lemma greeting_blank_iff b : greeting_blank b = true ↔
  b = "013"%byte ∨ b = "010"%byte ∨ b = " "%byte ∨ b = "009"%byte.
Proof.
  unfold greeting_blank. rewrite !orb_true_iff, !N.eqb_eq. split.
  - intros [[[H|H]|H]|H]; [left|right; left|do 2 right; left|do 3 right]; by apply byte_val_inj.
  - intros [->|[->|[->| ->]]]; auto.
Qed.

(** What a line of each protocol starts with. *)
Definition greeting_prefixes (kind : ProbeKind) : list str :=
  match kind with
  | ImapGreeting => [lit "* "]
  | SmtpGreeting => [lit "220 "; lit "220-"]
  | TlsSni => []
  end.

Lemma first_not_blank_split buf :
  ∃ bl line, buf = bl ++ line ∧ first_not_blank buf = length bl
    ∧ Forall (λ b, greeting_blank b = true) bl
    ∧ ∀ b r, line = b :: r → greeting_blank b = false.
Proof.
  induction buf as [|b buf (bl & line & -> & Hf & Hb & Hl)]; [by exists [], []|].
  cbn [first_not_blank]. destruct (greeting_blank b) eqn:E.
  - exists (b :: bl), line. cbn. rewrite Hf. split_and!; auto.
  - exists [], (b :: bl ++ line). split_and!; auto. by intros ? ? [= <- <-].
Qed.

(** Two ways to cut the blanks off a buffer give the same line. *)
Lemma blank_split_unique (bl bl' line line' : list byte) :
  bl ++ line = bl' ++ line' →
  Forall (λ b, greeting_blank b = true) bl → Forall (λ b, greeting_blank b = true) bl' →
  (∀ b r, line = b :: r → greeting_blank b = false) →
  (∀ b r, line' = b :: r → greeting_blank b = false) → line = line'.
Proof.
  revert bl'. induction bl as [|b bl IH]; intros [|b' bl'] E Hb Hb' Hl Hl'; cbn in E; subst.
  - done.
  - specialize (Hl _ _ eq_refl). apply Forall_cons in Hb' as [? _]. congruence.
  - specialize (Hl' _ _ eq_refl). apply Forall_cons in Hb as [? _]. congruence.
  - injection E as -> E. apply Forall_cons in Hb as [_ ?], Hb' as [_ ?]. by eapply IH.
Qed.

Lemma greeting_prefix_solid kind p line :
  p ∈ greeting_prefixes kind → ∀ b r, p ++ line = b :: r → greeting_blank b = false.
Proof.
  intros Hp b r E. destruct kind; cbn in Hp; repeat (apply elem_of_cons in Hp as [->|Hp]);
    (by injection E as <- _) || by apply elem_of_nil in Hp.
Qed.

Lemma validate_greeting_line bl line kind :
  Forall (λ b, greeting_blank b = true) bl →
  (∀ b r, line = b :: r → greeting_blank b = false) →
  validate_greeting (bl ++ line) kind =
    if existsb (λ p, starts_with p line) (greeting_prefixes kind) then Ok tt else Err BadGreeting.
Proof.
  intros Hb Hl. unfold validate_greeting.
  destruct (first_not_blank_split (bl ++ line)) as (bl' & line' & E & -> & Hb' & Hl').
  rewrite E, drop_app_length, <- (blank_split_unique _ _ _ _ E Hb Hb' Hl Hl').
  case_bool_decide as Hn; [subst; by destruct kind|].
  destruct kind; cbn [greeting_prefixes existsb]; rewrite ?orb_false_r; done.
Qed.

(** *** The test encoder *)

(** The length of a concatenation of encoded fields. *)
Ltac len_lia :=
  rewrite ?lenN_app;
  repeat match goal with
  | |- context [lenN (to_be16 ?x)] => change (lenN (to_be16 x)) with 2
  | |- context [lenN (to_be24 ?x)] => change (lenN (to_be24 x)) with 3
  | |- context [lenN (replicate 32 ?x)] => change (lenN (replicate 32 x)) with 32
  | |- context [lenN (?x :: ?y)] => rewrite (lenN_cons x y)
  end; rewrite ?lenN_nil; lia.

Lemma client_hello_has_record name :
  lenN name <= 16328 → has_record (client_hello_with_sni name).
Proof.
  intros Hn. eexists _, _, []. rewrite app_nil_r. split; [reflexivity|].
  unfold MAX_TLS_RECORD. len_lia.
Qed.

Lemma client_hello_names name :
  name ≠ [] → utf8_valid name = true → lenN name <= 16328 →
  names_host (client_hello_with_sni name) name.
Proof.
  intros Hne Hu Hn. unfold client_hello_with_sni.
  set (list := ["000"%byte] ++ to_be16 (lenN name) ++ name).
  assert (Hlist : lenN list = 1 + 2 + lenN name).
  { unfold list. len_lia. }
  cbv zeta. rewrite <- Hlist.
  set (data := to_be16 (lenN list) ++ list).
  assert (Hdata : lenN data = 5 + lenN name).
  { unfold data. len_lia. }
  change (to_be16 (lenN list) ++ ["000"%byte] ++ to_be16 (lenN name) ++ name) with data.
  set (ext := to_be16 0 ++ to_be16 (lenN data) ++ data).
  assert (Hext : lenN ext = 9 + lenN name).
  { unfold ext. len_lia. }
  match goal with |- context [to_be24 (lenN ?h)] => set (hello := h) end.
  assert (Hhello : lenN hello = 52 + lenN name).
  { unfold hello. len_lia. }
  apply (names_host_intro _ hello ext list []).
  - pose proof (record_hello_intro "003" "001" hello [] []) as H.
    rewrite !app_nil_r, lenN_nil, N.add_0_r in H.
    assert (Hhs : lenN (["001"%byte] ++ to_be24 (lenN hello) ++ hello) = 4 + lenN hello).
    { len_lia. }
    rewrite Hhs. apply H; pow_lia.
  - pose proof (hello_exts_intro (["003"%byte; "003"%byte] ++ replicate 32 "000"%byte) []
      ["000"%byte; "047"%byte] ["000"%byte] ext []) as H.
    rewrite app_nil_r in H. apply H; (done || pow_lia).
  - pow_lia.
  - rewrite app_nil_r. fold data. unfold ext.
    pose proof (first_sni_here data []) as H. rewrite app_nil_r in H. apply H. pow_lia.
  - unfold list. pose proof (first_host_here name []) as H. rewrite app_nil_r in H.
    apply H. pow_lia.
  - done.
  - done.
Qed.

(** ** Properties *)

(** C30: The probe parsers never index out of bounds, never loop and never
    trip a slice assertion, whatever bytes the client sends: each returns a
    value or a [ProtoError]. *)
Theorem probe_parsers_return buf host is_literal :
  returns (tls_record_needed buf) ∧ returns (parse_sni buf)
  ∧ returns (validate_tls_client_hello buf host is_literal).
Proof.
  split; [apply tls_record_needed_returns|]. split; [apply parse_sni_returns|].
  unfold validate_tls_client_hello.
  apply returns_bind; [apply tls_record_needed_returns|]. intros n _.
  destruct (negb _); [done|].
  apply returns_bind; [apply parse_sni_returns|]. intros sni _.
  destruct is_literal; [done|]. destruct sni; [|done]. by case_bool_decide.
Qed.

(** C16: [parse_sni] extracts exactly the host names of the grammar: it
    returns [Some name] iff the bytes begin with a handshake record carrying a
    ClientHello whose first server_name extension has [name] as its first
    host_name entry, non-empty and valid UTF-8. *)
Theorem parse_sni_correct record name :
  parse_sni record = Ret (Some name) ↔ names_host record name.
Proof. apply parse_sni_names. Qed.

(** C27: [tls_record_needed] drives an incremental reader correctly.  It
    returns 0 iff a complete record (version 3.x, body of 1 to 16384 bytes) is
    buffered.  A positive answer is a lower bound on what any completion still
    lacks, and once the five header bytes are there it is exact: reading that
    many more bytes, whatever they are, completes the record.  An error is
    final: no continuation of the stream would have become a record. *)
Theorem tls_record_needed_correct buf :
  (tls_record_needed buf = Ret 0 ↔ has_record buf)
  ∧ (∀ n ext, tls_record_needed buf = Ret n → has_record (buf ++ ext) → n <= lenN ext)
  ∧ (∀ n ext, tls_record_needed buf = Ret n → 5 <= lenN buf →
       n <= lenN ext → has_record (buf ++ ext))
  ∧ (∀ e ext, tls_record_needed buf = Throw e → ¬ has_record (buf ++ ext)).
Proof.
  split; [apply tls_record_needed_0|].
  destruct (header5 buf) as [H|(b0 & b1 & b2 & b3 & b4 & r & ->)].
  - rewrite tls_record_needed_short by done. split_and!.
    + intros n ext E Hr%has_record_5. rewrite lenN_app in Hr.
      destruct buf; [by injection E as <-; rewrite lenN_nil in Hr; lia|].
      destruct (_ =? _); [|done]. injection E as <-. lia.
    + intros. lia.
    + intros e ext E Hr. destruct buf as [|b buf]; [done|].
      cbn in Hr. apply has_record_first in Hr as ->. done.
  - rewrite tls_record_needed_long. cbv zeta. cbn [app].
    split_and!; [intros n ext E|intros n ext E _|intros e ext E]; rewrite has_record_long;
      revert E; rewrite <- byte_val_22, <- byte_val_3; rewrite ?lenN_app;
      (destruct (byte_val b0 =? 0x16), (byte_val b1 =? 0x03); cbn [negb orb]; try naive_solver);
      (destruct (N.eqb_spec (from_be16 b3 b4) 0), (N.ltb_spec MAX_TLS_RECORD (from_be16 b3 b4));
       cbn [orb]; try done; try lia);
      destruct (N.leb_spec (from_be16 b3 b4) (lenN r)); intros [= <-]; try lia;
      intros; split_and!; (done || lia).
Qed.

Lemma tls_record_needed_correct_witness :
  let buf := take 40 (client_hello_with_sni (lit "a.example")) in
  tls_record_needed buf = Ret 30 ∧ has_record (buf ++ replicate 30 "000"%byte)
  ∧ ¬ has_record (lit "GET / HTTP/1.1").
Proof.
  set (buf := take 40 (client_hello_with_sni (lit "a.example"))).
  pose proof (tls_record_needed_correct buf) as (_ & _ & H & _).
  pose proof (tls_record_needed_correct (lit "GET")) as (_ & _ & _ & H').
  split; [by vm_compute|]. split; [apply (H 30); by vm_compute|].
  by apply (H' NotTls (lit " / HTTP/1.1")).
Defined.

(** A buffered ClientHello is accepted for a named destination iff it is
    a complete record that names the destination (up to ASCII case, outer
    white space and trailing dots), and for an IP-literal destination iff it
    is a complete record whose ClientHello parses, with or without a name. *)
Theorem validate_tls_client_hello_correct buf host is_literal :
  validate_tls_client_hello buf host is_literal = Ret tt ↔
  has_record buf ∧
  if is_literal then ∃ sni, parse_sni buf = Ret sni
  else ∃ name, names_host buf name ∧ normalize_hostname name = normalize_hostname host.
Proof.
  unfold validate_tls_client_hello. rewrite outcome_bind_Ret, <- tls_record_needed_0. split.
  - intros (n & Hn & H). destruct (N.eqb_spec n 0) as [->|]; [|done]. split; [done|].
    cbn [negb] in H. apply outcome_bind_Ret in H as (sni & Hs & H).
    destruct is_literal; [by exists sni|]. destruct sni as [name|]; [|done].
    exists name. split; [by apply parse_sni_names|]. by case_bool_decide.
  - intros [Hn H]. exists 0. split; [done|]. change (negb (0 =? 0)) with false. cbn iota.
    rewrite outcome_bind_Ret. destruct is_literal.
    + destruct H as [sni H]. by exists sni.
    + destruct H as (name & H & E). exists (Some name). split; [by apply parse_sni_names|].
      by rewrite E, bool_decide_true.
Qed.

(** C31: The ClientHello built by [client_hello_with_sni] for a name of at
    most 16328 bytes is one complete record, and parsing it gives the name
    back; it is therefore accepted for a destination of that name. *)
Theorem client_hello_roundtrip name :
  name ≠ [] → utf8_valid name = true → lenN name <= 16328 →
  tls_record_needed (client_hello_with_sni name) = Ret 0
  ∧ parse_sni (client_hello_with_sni name) = Ret (Some name)
  ∧ validate_tls_client_hello (client_hello_with_sni name) name false = Ret tt.
Proof.
  intros Hne Hu Hn.
  assert (Hr : tls_record_needed (client_hello_with_sni name) = Ret 0)
    by (by apply tls_record_needed_0, client_hello_has_record).
  assert (Hp : parse_sni (client_hello_with_sni name) = Ret (Some name))
    by (by apply parse_sni_names, client_hello_names).
  split_and!; [done..|]. unfold validate_tls_client_hello. rewrite Hr. cbn [outcome_bind].
  change (negb (0 =? 0)) with false. rewrite Hp. cbn [outcome_bind].
  by rewrite bool_decide_true.
Qed.

Lemma client_hello_roundtrip_witness :
  validate_tls_client_hello (client_hello_with_sni (lit "imap.example.com"))
    (lit "imap.example.com") false = Ret tt.
Proof. by apply (client_hello_roundtrip (lit "imap.example.com")). Defined.

(** A greeting is accepted iff, after leading CR, LF, space and tab
    bytes, the rest starts with ["* "] (IMAP), respectively ["220 "] or
    ["220-"] (SMTP); every other buffer is [BadGreeting]. *)
Theorem validate_greeting_correct buf kind :
  (validate_greeting buf kind = Ok tt ↔
   ∃ blanks p rest, buf = blanks ++ p ++ rest ∧ p ∈ greeting_prefixes kind
     ∧ Forall (λ b, b = "013"%byte ∨ b = "010"%byte ∨ b = " "%byte ∨ b = "009"%byte) blanks)
  ∧ (validate_greeting buf kind = Ok tt ∨ validate_greeting buf kind = Err BadGreeting).
Proof.
  setoid_rewrite <- greeting_blank_iff.
  destruct (first_not_blank_split buf) as (bl & line & -> & _ & Hb & Hl).
  rewrite validate_greeting_line by done.
  destruct (existsb _ _) eqn:E; (split; [|auto]).
  - split; [intros _|done]. apply existsb_exists in E as (p & Hp & (rest & ->)%starts_with_spec).
    exists bl, p, rest. split; [done|]. split; [by apply list_elem_of_In|done].
  - split; [done|]. intros (bl' & p & rest & Hs & Hp & Hb').
    assert (line = p ++ rest) as ->.
    { eapply blank_split_unique; [exact Hs|done..|]. by eapply greeting_prefix_solid. }
    apply not_true_iff_false in E. destruct E. apply existsb_exists. exists p.
    split; [by apply list_elem_of_In|]. apply starts_with_spec. by exists rest.
Qed.
