(* ===== verification/Limits.v ===== *)
(** * In-process limits ([src/limits.rs])

    The state behind the mutex ([Inner]) with the operations that lock it, as
    functions from a state to a result and a new state.  The clock is read
    inside the critical section; here the readings are arguments ([now]).
    Instants and durations are nanoseconds in [N]; [Instant::duration_since]
    saturates at zero, as subtraction in [N] does.

    The properties are in [LimitsSpec]. *)

From S2P Require Import Prelude Net.

Abbreviation Instant := N.
Abbreviation Duration := N.

Definition from_secs (n : N) : Duration := n * 1000000000.
Definition duration_since (now earlier : Instant) : Duration := sat_sub now earlier.

Inductive LimitError :=
| GlobalFull | PerIpFull | PerDestFull | ConnectRate | GlobalConnectRate | DistinctDests | ByteCap.

#[export] Instance LimitError_eq_dec : EqDecision LimitError.
Proof. solve_decision. Defined.

Record LimitsConfig := {
  max_global_connections : N;
  max_conns_per_ip : N;
  max_conns_per_dest : N;
  connects_per_ip : N;
  connects_per_ip_window : Duration;
  distinct_dests_per_ip : N;
  distinct_dests_window : Duration;
  global_connects : N;
  global_connects_window : Duration;
  max_bytes_per_ip : N;
  bytes_window : Duration;
  ipv4_prefix : N;
  ipv6_prefix : N;
  max_tracked_ips : N;
}.

Definition LimitsConfig_default : LimitsConfig := {|
  max_global_connections := 5000;
  max_conns_per_ip := 16;
  max_conns_per_dest := 200;
  connects_per_ip := 10;
  connects_per_ip_window := from_secs 60;
  distinct_dests_per_ip := 10;
  distinct_dests_window := from_secs 60;
  global_connects := 20;
  global_connects_window := from_secs 1;
  max_bytes_per_ip := 1024 * 1024 * 1024;
  bytes_window := from_secs 3600;
  ipv4_prefix := 32;
  ipv6_prefix := 64;
  max_tracked_ips := 50000;
|}.

Definition LimitsConfig_unlimited : LimitsConfig := {|
  max_global_connections := 0;
  max_conns_per_ip := 0;
  max_conns_per_dest := 0;
  connects_per_ip := 0;
  connects_per_ip_window := from_secs 60;
  distinct_dests_per_ip := 0;
  distinct_dests_window := from_secs 60;
  global_connects := 0;
  global_connects_window := from_secs 1;
  max_bytes_per_ip := 0;
  bytes_window := from_secs 3600;
  ipv4_prefix := 32;
  ipv6_prefix := 64;
  max_tracked_ips := 0;
|}.

(** ** The limit key *)

(** [limit_key(IpAddr::V4(v4), v4_bits, _)]; the code's recursive call on an
    IPv4-mapped address is this case. *)
Definition limit_key_v4 (v4 : Ipv4Addr) (v4b : N) : IpAddr :=
  let bits := N.min v4b 32 in
  if bits =? 32 then V4 v4 else
  let mask := if bits =? 0 then 0 else prefix_mask 32 bits in
  V4 (Ipv4 (N.land (v4_bits v4) mask)).

Definition limit_key (ip : IpAddr) (v4b v6b : N) : IpAddr :=
  match ip with
  | V4 v4 => limit_key_v4 v4 v4b
  | V6 v6 =>
      match to_ipv4_mapped v6 with
      | Some v4 => limit_key_v4 v4 v4b
      | None =>
          let bits := N.min v6b 128 in
          if bits =? 128 then ip else
          let mask := if bits =? 0 then 0 else prefix_mask 128 bits in
          V6 (Ipv6 (N.land (v6_bits v6) mask))
      end
  end.

Definition capped (limit used : N) : bool := negb (limit =? 0) && (limit <=? used).

(** ** Queues of timestamped entries *)

(** [while q.front().is_some_and(|t| now.duration_since(t) > window) { q.pop_front(); }] *)
Fixpoint pop_expired {A} (time : A → Instant) (now : Instant) (window : Duration) (q : list A)
  : list A :=
  match q with
  | [] => []
  | x :: q' =>
      if window <? duration_since now (time x) then pop_expired time now window q' else q
  end.

Definition prune_instants (q : list Instant) (now : Instant) (window : Duration) : list Instant :=
  pop_expired id now window q.

(** The third loop of [IpState::prune], which also keeps the running sum. *)
Fixpoint prune_bytes (q : list (Instant * N)) (sum : N) (now : Instant) (window : Duration)
  : list (Instant * N) * N :=
  match q with
  | [] => ([], sum)
  | (t, n) :: q' =>
      if window <? duration_since now t
      then prune_bytes q' (sat_sub sum n) now window
      else (q, sum)
  end.

Record IpState := {
  st_connections : N;
  st_connects : list Instant;
  st_dests : list (Instant * str);
  st_bytes : list (Instant * N);
  st_bytes_sum : N;
}.

#[export] Instance IpState_eq_dec : EqDecision IpState.
Proof. solve_decision. Defined.

Definition IpState_default : IpState := {|
  st_connections := 0; st_connects := []; st_dests := []; st_bytes := []; st_bytes_sum := 0;
|}.

(** [IpState::prune] *)
Definition prune (self : IpState) (now : Instant) (cfg : LimitsConfig) : IpState :=
  let '(bytes, sum) := prune_bytes (st_bytes self) (st_bytes_sum self) now (bytes_window cfg) in
  {| st_connections := st_connections self;
     st_connects := prune_instants (st_connects self) now (connects_per_ip_window cfg);
     st_dests := pop_expired fst now (distinct_dests_window cfg) (st_dests self);
     st_bytes := bytes;
     st_bytes_sum := sum |}.

Definition is_idle (self : IpState) : bool :=
  (st_connections self =? 0)
  && bool_decide (st_connects self = [])
  && bool_decide (st_dests self = [])
  && bool_decide (st_bytes self = []).

(** ** The shared state *)

Record Inner := {
  g_cfg : LimitsConfig;
  g_global_connections : N;
  g_global_connects : list Instant;
  g_per_ip : gmap IpAddr IpState;
  g_per_dest : gmap str N;
  g_last_gc : Instant;
}.

Definition LimitState_new (cfg : LimitsConfig) (now : Instant) : Inner := {|
  g_cfg := cfg;
  g_global_connections := 0;
  g_global_connects := [];
  g_per_ip := ∅;
  g_per_dest := ∅;
  g_last_gc := now;
|}.

(** Assignments to one field. *)
Definition set_global_connections (g : Inner) (n : N) : Inner := {|
  g_cfg := g_cfg g; g_global_connections := n; g_global_connects := g_global_connects g;
  g_per_ip := g_per_ip g; g_per_dest := g_per_dest g; g_last_gc := g_last_gc g |}.
Definition set_global_connects (g : Inner) (q : list Instant) : Inner := {|
  g_cfg := g_cfg g; g_global_connections := g_global_connections g; g_global_connects := q;
  g_per_ip := g_per_ip g; g_per_dest := g_per_dest g; g_last_gc := g_last_gc g |}.
Definition set_per_ip (g : Inner) (m : gmap IpAddr IpState) : Inner := {|
  g_cfg := g_cfg g; g_global_connections := g_global_connections g;
  g_global_connects := g_global_connects g;
  g_per_ip := m; g_per_dest := g_per_dest g; g_last_gc := g_last_gc g |}.
Definition set_per_dest (g : Inner) (m : gmap str N) : Inner := {|
  g_cfg := g_cfg g; g_global_connections := g_global_connections g;
  g_global_connects := g_global_connects g;
  g_per_ip := g_per_ip g; g_per_dest := m; g_last_gc := g_last_gc g |}.
Definition set_last_gc (g : Inner) (t : Instant) : Inner := {|
  g_cfg := g_cfg g; g_global_connections := g_global_connections g;
  g_global_connects := g_global_connects g;
  g_per_ip := g_per_ip g; g_per_dest := g_per_dest g; g_last_gc := t |}.
Definition set_st_connections (st : IpState) (n : N) : IpState := {|
  st_connections := n; st_connects := st_connects st; st_dests := st_dests st;
  st_bytes := st_bytes st; st_bytes_sum := st_bytes_sum st |}.

(** [g.per_ip.entry(ip).or_default()] *)
Definition row (g : Inner) (ip : IpAddr) : IpState := default IpState_default (g_per_ip g !! ip).
Definition or_default (g : Inner) (ip : IpAddr) : Inner :=
  set_per_ip g (<[ip := row g ip]> (g_per_ip g)).

Definition prune_global (self : Inner) (now : Instant) : Inner :=
  set_global_connects self
    (prune_instants (g_global_connects self) now (global_connects_window (g_cfg self))).

(** The closure of [per_ip.retain]. *)
Definition retain_row (now : Instant) (cfg : LimitsConfig) (st : IpState) : option IpState :=
  let st := prune st now cfg in if negb (is_idle st) then Some st else None.

Definition gc_idle (self : Inner) (now : Instant) : Inner :=
  let self := prune_global self now in
  let self := set_per_ip self (omap (retain_row now (g_cfg self)) (g_per_ip self)) in
  set_last_gc self now.

Definition maybe_gc (self : Inner) (now : Instant) : Inner :=
  let overdue := from_secs 30 <=? duration_since now (g_last_gc self) in
  let large := 10000 <=? N.of_nat (size (g_per_ip self)) in
  if overdue || large then gc_idle self now else self.

Definition contains_key (self : Inner) (ip : IpAddr) : bool :=
  match g_per_ip self !! ip with Some _ => true | None => false end.

(** The test that a new row would exceed [max_tracked_ips]. *)
Definition tracked_full (g : Inner) (ip : IpAddr) : bool :=
  capped (max_tracked_ips (g_cfg g)) (N.of_nat (size (g_per_ip g))) && negb (contains_key g ip).

(** The distinct-destination test, on [st.dests] and the new destination. *)
Definition too_many_dests (limit : N) (dests : list (Instant * str)) (dest : str) : bool :=
  negb (limit =? 0) &&
  let unique : gset str := list_to_set dests.*2 in
  negb (bool_decide (dest ∈ unique)) && (limit <=? N.of_nat (size unique)).

Definition record_attempt (g : Inner) (ip : IpAddr) (dest : str) (now : Instant)
  : result LimitError unit * Inner :=
  let cfg := g_cfg g in
  let ip := limit_key ip (ipv4_prefix cfg) (ipv6_prefix cfg) in
  let g := maybe_gc g now in
  let g := prune_global g now in
  let g' := gc_idle g now in
  if tracked_full g ip && tracked_full g' ip then (Err GlobalConnectRate, g') else
  let g := if tracked_full g ip then g' else g in
  if capped (global_connects cfg) (lenN (g_global_connects g))
  then (Err GlobalConnectRate, g) else
  let st := prune (row g ip) now cfg in
  let g := set_per_ip g (<[ip := st]> (g_per_ip g)) in
  if capped (connects_per_ip cfg) (lenN (st_connects st)) then (Err ConnectRate, g) else
  if too_many_dests (distinct_dests_per_ip cfg) (st_dests st) dest
  then (Err DistinctDests, g) else
  let st := {| st_connections := st_connections st;
               st_connects := st_connects st ++ [now];
               st_dests := st_dests st ++ [(now, dest)];
               st_bytes := st_bytes st;
               st_bytes_sum := st_bytes_sum st |} in
  let g := set_per_ip g (<[ip := st]> (g_per_ip g)) in
  (Ok tt, set_global_connects g (g_global_connects g ++ [now])).

(** A [ConnectionLease]: the masked address and the destination it counts. *)
Record ConnectionLease := { lease_ip : IpAddr; lease_dest : str }.

#[export] Instance ConnectionLease_eq_dec : EqDecision ConnectionLease.
Proof. solve_decision. Defined.

Definition dest_count (g : Inner) (dest : str) : N := default 0 (g_per_dest g !! dest).

(** The three increments of [acquire]. *)
Definition take_slot (g : Inner) (ip : IpAddr) (dest : str) : Inner :=
  let g := set_global_connections g (wrap_add64 (g_global_connections g) 1) in
  let st := row g ip in
  let g := set_per_ip g
    (<[ip := set_st_connections st (wrap_add64 (st_connections st) 1)]> (g_per_ip g)) in
  set_per_dest g (<[dest := wrap_add64 (dest_count g dest) 1]> (g_per_dest g)).

Definition acquire (g : Inner) (ip : IpAddr) (dest : str) (now : Instant)
  : result LimitError ConnectionLease * Inner :=
  let cfg := g_cfg g in
  let ip := limit_key ip (ipv4_prefix cfg) (ipv6_prefix cfg) in
  let g := maybe_gc g now in
  if capped (max_global_connections cfg) (g_global_connections g) then (Err GlobalFull, g) else
  let g := or_default g ip in
  if capped (max_conns_per_ip cfg) (st_connections (row g ip)) then (Err PerIpFull, g) else
  if capped (max_conns_per_dest cfg) (dest_count g dest) then (Err PerDestFull, g) else
  (Ok {| lease_ip := ip; lease_dest := dest |}, take_slot g ip dest).

Definition release (g : Inner) (ip : IpAddr) (dest : str) (now : Instant) : Inner :=
  let g := set_global_connections g (sat_sub (g_global_connections g) 1) in
  let g :=
    match g_per_ip g !! ip with
    | Some st =>
        let st := set_st_connections st (sat_sub (st_connections st) 1) in
        let st := prune st now (g_cfg g) in
        if is_idle st then set_per_ip g (delete ip (g_per_ip g))
        else set_per_ip g (<[ip := st]> (g_per_ip g))
    | None => g
    end in
  match g_per_dest g !! dest with
  | Some c =>
      let c := sat_sub c 1 in
      if c =? 0 then set_per_dest g (delete dest (g_per_dest g))
      else set_per_dest g (<[dest := c]> (g_per_dest g))
  | None => g
  end.

(** [<ConnectionLease as Drop>::drop] *)
Definition drop_lease (g : Inner) (lease : ConnectionLease) (now : Instant) : Inner :=
  release g (lease_ip lease) (lease_dest lease) now.

(** The clock is read twice: for the collection and for the window. *)
Definition add_bytes (g : Inner) (ip : IpAddr) (n : N) (now_gc now : Instant)
  : result LimitError unit * Inner :=
  if n =? 0 then (Ok tt, g) else
  let cfg := g_cfg g in
  let ip := limit_key ip (ipv4_prefix cfg) (ipv6_prefix cfg) in
  let g := maybe_gc g now_gc in
  if max_bytes_per_ip cfg =? 0 then (Ok tt, g) else
  let st := prune (row g ip) now cfg in
  let g := set_per_ip g (<[ip := st]> (g_per_ip g)) in
  if max_bytes_per_ip cfg <? sat_add64 (st_bytes_sum st) n then (Err ByteCap, g) else
  let st := {| st_connections := st_connections st;
               st_connects := st_connects st;
               st_dests := st_dests st;
               st_bytes := st_bytes st ++ [(now, n)];
               st_bytes_sum := sat_add64 (st_bytes_sum st) n |} in
  (Ok tt, set_per_ip g (<[ip := st]> (g_per_ip g))).

Definition tracked_ip_count (g : Inner) : N := N.of_nat (size (g_per_ip g)).
