(* ===== verification/LimitsSpec.v ===== *)
(** * What the limits promise

    Three abstract views of [Limits] and the proofs that the operations
    implement them:
    - the accounting view: the list of live [ConnectionLease]s that the
      counters count;
    - the history view: the list of every attempt and transfer ever accepted,
      against which the pruned queues decide as a sliding window over the whole
      history would;
    - the world: a state, its leases, its history and the clock, with the step
      relation of all interleavings of the operations. *)

From stdpp Require Import sorting.
From S2P Require Import Prelude Net Limits.
#[local] Open Scope N_scope.

(** ** Definitions *)

(** *** Sliding windows over a history *)

Section window.
  Context {A : Type} (time : A → Instant).

(** The entries of [l] at most [window] old at [now]. *)
Definition live (window : Duration) (now : Instant) (l : list A) : list A :=
  filter (λ x, now - time x <= window) l.

Definition chronological (now : Instant) (l : list A) : Prop :=
  StronglySorted (λ x y, time x <= time y) l ∧ Forall (λ x, time x <= now) l.

(** The queue [q] is the history [h] less some entries expired at [now]. *)
Definition tracks (window : Duration) (now : Instant) (h q : list A) : Prop :=
  ∃ old, h = old ++ q ∧ Forall (λ x, window < now - time x) old.
End window.

Definition sumN (l : list N) : N := foldr N.add 0 l.

(** *** Histories *)

Inductive Event :=
| Attempted (t : Instant) (k : IpAddr) (dest : str)
| Transferred (t : Instant) (k : IpAddr) (n : N).

Definition ev_time (e : Event) : Instant :=
  match e with Attempted t _ _ | Transferred t _ _ => t end.

Definition attempts (h : list Event) : list Instant :=
  omap (λ e, match e with Attempted t _ _ => Some t | _ => None end) h.
Definition attempts_of (k : IpAddr) (h : list Event) : list Instant :=
  omap (λ e, match e with
             | Attempted t k' _ => if bool_decide (k' = k) then Some t else None
             | _ => None end) h.
Definition dests_of (k : IpAddr) (h : list Event) : list (Instant * str) :=
  omap (λ e, match e with
             | Attempted t k' d => if bool_decide (k' = k) then Some (t, d) else None
             | _ => None end) h.
Definition bytes_of (k : IpAddr) (h : list Event) : list (Instant * N) :=
  omap (λ e, match e with
             | Transferred t k' n => if bool_decide (k' = k) then Some (t, n) else None
             | _ => None end) h.

(** [0] on a cap means unlimited. *)
Definition below (cap used : N) : Prop := cap = 0 ∨ used < cap.

Definition live_attempts (cfg : LimitsConfig) (now : Instant) (h : list Event) : list Instant :=
  live id (global_connects_window cfg) now (attempts h).
Definition live_attempts_of (cfg : LimitsConfig) (now : Instant) (k : IpAddr) (h : list Event)
  : list Instant :=
  live id (connects_per_ip_window cfg) now (attempts_of k h).
Definition live_dests_of (cfg : LimitsConfig) (now : Instant) (k : IpAddr) (h : list Event)
  : gset str :=
  list_to_set (live fst (distinct_dests_window cfg) now (dests_of k h)).*2.
Definition live_bytes_of (cfg : LimitsConfig) (now : Instant) (k : IpAddr) (h : list Event) : N :=
  sumN (live fst (bytes_window cfg) now (bytes_of k h)).*2.

(** The verdict a sliding window over the whole history gives on an attempt. *)
Definition attempt_verdict (cfg : LimitsConfig) (h : list Event) (now : Instant)
  (k : IpAddr) (dest : str) (r : result LimitError unit) : Prop :=
  let global_ok := below (global_connects cfg) (lenN (live_attempts cfg now h)) in
  let ip_ok := below (connects_per_ip cfg) (lenN (live_attempts_of cfg now k h)) in
  let dests_ok := dest ∈ live_dests_of cfg now k h
    ∨ below (distinct_dests_per_ip cfg) (N.of_nat (size (live_dests_of cfg now k h))) in
  match r with
  | Ok _ => global_ok ∧ ip_ok ∧ dests_ok
  | Err GlobalConnectRate => ¬ global_ok
  | Err ConnectRate => global_ok ∧ ¬ ip_ok
  | Err DistinctDests => global_ok ∧ ip_ok ∧ ¬ dests_ok
  | Err _ => False
  end.

(** *** The state as seen from its leases and its history *)

Definition leases_of_ip (k : IpAddr) (ls : list ConnectionLease) : list ConnectionLease :=
  filter (λ l, lease_ip l = k) ls.
Definition leases_of_dest (d : str) (ls : list ConnectionLease) : list ConnectionLease :=
  filter (λ l, lease_dest l = d) ls.

Record accounts (g : Inner) (ls : list ConnectionLease) : Prop := {
  acc_global : g_global_connections g = lenN ls;
  acc_ip k : st_connections (row g k) = lenN (leases_of_ip k ls);
  acc_dest d : dest_count g d = lenN (leases_of_dest d ls);
  acc_nonzero d : g_per_dest g !! d ≠ Some 0;
}.

Record row_tracks (cfg : LimitsConfig) (now : Instant) (h : list Event) (k : IpAddr)
  (st : IpState) : Prop := {
  rt_connects : tracks id (connects_per_ip_window cfg) now (attempts_of k h) (st_connects st);
  rt_dests : tracks fst (distinct_dests_window cfg) now (dests_of k h) (st_dests st);
  rt_bytes : tracks fst (bytes_window cfg) now (bytes_of k h) (st_bytes st);
  rt_sum : st_bytes_sum st = sumN (st_bytes st).*2;
}.

Record represents (cfg : LimitsConfig) (now : Instant) (h : list Event) (g : Inner) : Prop := {
  rep_cfg : g_cfg g = cfg;
  rep_order : chronological ev_time now h;
  rep_global : tracks id (global_connects_window cfg) now (attempts h) (g_global_connects g);
  rep_row k : row_tracks cfg now h k (row g k);
}.

(** *** All interleavings of the operations *)

(** The limits with what the outside holds: the live leases, the history of
    what was accepted, and a time no later than the next clock reading. *)
Record World := {
  w_limits : Inner;
  w_leases : list ConnectionLease;
  w_history : list Event;
  w_now : Instant;
}.

Definition w_key (w : World) (ip : IpAddr) : IpAddr :=
  let cfg := g_cfg (w_limits w) in limit_key ip (ipv4_prefix cfg) (ipv6_prefix cfg).

(** Whether [add_bytes] charges anything. *)
Definition charged (cfg : LimitsConfig) (n : N) : bool :=
  negb (n =? 0) && negb (max_bytes_per_ip cfg =? 0).

(** One call from any task, at a clock reading that does not go back.  A lease
    is dropped at most once, and no process holds 2^64 - 1 of them. *)
Inductive limit_step (w : World) : World → Prop :=
| step_record_attempt ip dest now r g :
    w_now w <= now → record_attempt (w_limits w) ip dest now = (r, g) →
    limit_step w {|
      w_limits := g; w_leases := w_leases w;
      w_history := if is_ok r then w_history w ++ [Attempted now (w_key w ip) dest]
                   else w_history w;
      w_now := now |}
| step_acquire ip dest now r g :
    w_now w <= now → lenN (w_leases w) < U64_MAX →
    acquire (w_limits w) ip dest now = (r, g) →
    limit_step w {|
      w_limits := g;
      w_leases := match r with Ok lease => lease :: w_leases w | Err _ => w_leases w end;
      w_history := w_history w; w_now := now |}
| step_drop ls1 lease ls2 now :
    w_now w <= now → w_leases w = ls1 ++ lease :: ls2 →
    limit_step w {|
      w_limits := drop_lease (w_limits w) lease now; w_leases := ls1 ++ ls2;
      w_history := w_history w; w_now := now |}
| step_add_bytes ip n now_gc now r g :
    w_now w <= now_gc → now_gc <= now →
    add_bytes (w_limits w) ip n now_gc now = (r, g) →
    limit_step w {|
      w_limits := g; w_leases := w_leases w;
      w_history := if is_ok r && charged (g_cfg (w_limits w)) n
                   then w_history w ++ [Transferred now (w_key w ip) n] else w_history w;
      w_now := now |}.

Definition world_new (cfg : LimitsConfig) (now : Instant) : World :=
  {| w_limits := LimitState_new cfg now; w_leases := []; w_history := []; w_now := now |}.

Definition reachable (cfg : LimitsConfig) (w : World) : Prop :=
  ∃ now, rtc limit_step (world_new cfg now) w.

(** The entries of [l] in the window of length [w] that starts at [a]. *)
Definition within {A} (time : A → Instant) (w : Duration) (a : Instant) (l : list A) : list A :=
  filter (λ x, a <= time x ∧ time x <= a + w) l.

(** A cap of zero is no cap. *)
Definition at_most (cap used : N) : Prop := cap = 0 ∨ used <= cap.

(** The caps on live leases. *)
Definition caps_respected (cfg : LimitsConfig) (ls : list ConnectionLease) : Prop :=
  at_most (max_global_connections cfg) (lenN ls)
  ∧ (∀ k, at_most (max_conns_per_ip cfg) (lenN (leases_of_ip k ls)))
  ∧ (∀ d, at_most (max_conns_per_dest cfg) (lenN (leases_of_dest d ls))).

(** The caps on every window of the history. *)
Definition windows_respected (cfg : LimitsConfig) (h : list Event) : Prop :=
  ∀ a,
    at_most (global_connects cfg) (lenN (within id (global_connects_window cfg) a (attempts h)))
    ∧ ∀ k,
      at_most (connects_per_ip cfg)
        (lenN (within id (connects_per_ip_window cfg) a (attempts_of k h)))
      ∧ at_most (distinct_dests_per_ip cfg)
          (N.of_nat (size (list_to_set
            (within fst (distinct_dests_window cfg) a (dests_of k h)).*2 : gset str)))
      ∧ at_most (max_bytes_per_ip cfg)
          (sumN (within fst (bytes_window cfg) a (bytes_of k h)).*2).

(** ** Lemmas *)

(** *** Windows *)

Section window_lemmas.
  Context {A : Type} (time : A → Instant).
  Implicit Types l h q : list A.

Lemma pop_expired_split now w q :
  ∃ old, q = old ++ pop_expired time now w q ∧ Forall (λ x, w < now - time x) old.
Proof.
  induction q as [|x q (old & E & H)]; [by exists []|]. cbn [pop_expired].
  destruct (N.ltb_spec w (duration_since now (time x))) as [Hx|_].
  - exists (x :: old). cbn. rewrite <- E. by split; [|constructor].
  - by exists [].
Qed.

Lemma tracks_pop w last now h q :
  last <= now → tracks time w last h q → tracks time w now h (pop_expired time now w q).
Proof.
  intros Hl (old & -> & Ho). destruct (pop_expired_split now w q) as (old' & E & Ho').
  exists (old ++ old'). rewrite <- app_assoc, <- E. split; [done|].
  apply Forall_app. split; [|done]. eapply Forall_impl; [exact Ho|]. cbn. lia.
Qed.

Lemma tracks_later w last now h q :
  last <= now → tracks time w last h q → tracks time w now h q.
Proof.
  intros Hl (old & -> & Ho). exists old. split; [done|].
  eapply Forall_impl; [exact Ho|]. cbn. lia.
Qed.

Lemma tracks_push w now h q x : tracks time w now h q → tracks time w now (h ++ [x]) (q ++ [x]).
Proof. intros (old & -> & Ho). exists old. by rewrite app_assoc. Qed.

Lemma tracks_nil w now : tracks time w now [] [].
Proof. by exists []. Qed.

Lemma live_none w now l : Forall (λ x, w < now - time x) l → live time w now l = [].
Proof.
  induction 1 as [|x l Hx _ IH]; [done|]. unfold live. rewrite filter_cons_False by lia. done.
Qed.

Lemma live_all w now l : Forall (λ x, now - time x <= w) l → live time w now l = l.
Proof.
  induction 1 as [|x l Hx _ IH]; [done|]. unfold live. rewrite filter_cons_True by done.
  by f_equal.
Qed.

Lemma live_app w now l k : live time w now (l ++ k) = live time w now l ++ live time w now k.
Proof. apply filter_app. Qed.

(** Popping from the front keeps exactly the live entries, because a queue is
    in order of time. *)
Lemma pop_expired_live w now q :
  StronglySorted (λ x y, time x <= time y) q → pop_expired time now w q = live time w now q.
Proof.
  induction 1 as [|x q Hs IH Hx]; [done|]. cbn [pop_expired].
  destruct (N.ltb_spec w (duration_since now (time x))) as [Hw|Hw].
  - unfold live. rewrite filter_cons_False; [done|]. unfold duration_since, sat_sub in Hw. lia.
  - unfold duration_since, sat_sub in Hw. symmetry. apply live_all. constructor; [done|].
    eapply Forall_impl; [exact Hx|]. cbn. lia.
Qed.

Lemma tracks_live w now h q :
  StronglySorted (λ x y, time x <= time y) h → tracks time w now h q →
  pop_expired time now w q = live time w now h.
Proof.
  intros Hs (old & -> & Ho). apply StronglySorted_app in Hs as (_ & _ & Hs).
  by rewrite live_app, (live_none _ _ _ Ho), pop_expired_live.
Qed.

Lemma chronological_push now last h x :
  last <= now → time x = now → chronological time last h → chronological time now (h ++ [x]).
Proof.
  intros Hl Hx [Hs Hle]. split.
  - apply StronglySorted_app_2; [|done|repeat constructor].
    intros y z Hy ->%list_elem_of_singleton. rewrite Forall_forall in Hle.
    specialize (Hle _ Hy). lia.
  - apply Forall_app. split; [|constructor; [lia|done]].
    eapply Forall_impl; [exact Hle|]. cbn. lia.
Qed.

Lemma chronological_later now last h :
  last <= now → chronological time last h → chronological time now h.
Proof.
  intros Hl [Hs Hle]. split; [done|]. eapply Forall_impl; [exact Hle|]. cbn. lia.
Qed.
End window_lemmas.

(** A projection that keeps times keeps the order. *)
Lemma omap_sorted {A B} (ta : A → N) (tb : B → N) (f : A → option B) (l : list A) :
  (∀ x y, f x = Some y → tb y = ta x) →
  StronglySorted (λ x y, ta x <= ta y) l →
  StronglySorted (λ x y, tb x <= tb y) (omap f l).
Proof.
  intros Hf. induction 1 as [|x l _ IH Hx]; [constructor|]. cbn.
  destruct (f x) as [y|] eqn:E; [|done]. constructor; [done|].
  rewrite Forall_forall. intros z (x' & Hx' & Ez)%list_elem_of_omap.
  rewrite Forall_forall in Hx. specialize (Hx _ Hx').
  by rewrite (Hf _ _ E), (Hf _ _ Ez).
Qed.

Lemma omap_times {B} (time : B → N) {A} (ta : A → N) (f : A → option B) now (l : list A) :
  (∀ x y, f x = Some y → time y = ta x) → Forall (λ x, ta x <= now) l →
  Forall (λ y, time y <= now) (omap f l).
Proof.
  intros Hf Hl. apply Forall_forall. intros y (x & Hx & E)%list_elem_of_omap.
  rewrite (Hf _ _ E). rewrite Forall_forall in Hl. auto.
Qed.

Section history.
  Context (h : list Event) (Hh : StronglySorted (λ x y, ev_time x <= ev_time y) h).

Lemma attempts_sorted : StronglySorted (λ x y, id x <= id y) (attempts h).
Proof. apply (omap_sorted ev_time id); [|done]. by intros [] ? [= <-]. Qed.
Lemma attempts_of_sorted k : StronglySorted (λ x y, id x <= id y) (attempts_of k h).
Proof.
  apply (omap_sorted ev_time id); [|done]. intros [] y; [|done].
  case_bool_decide; [|done]. by intros [= <-].
Qed.
Lemma dests_of_sorted k : StronglySorted (λ x y, x.1 <= y.1) (dests_of k h).
Proof.
  apply (omap_sorted ev_time fst); [|done]. intros [] y; [|done].
  case_bool_decide; [|done]. by intros [= <-].
Qed.
Lemma bytes_of_sorted k : StronglySorted (λ x y, x.1 <= y.1) (bytes_of k h).
Proof.
  apply (omap_sorted ev_time fst); [|done]. intros [] y; [done|].
  case_bool_decide; [|done]. by intros [= <-].
Qed.

Context (now : Instant) (Hle : Forall (λ e, ev_time e <= now) h).

Lemma attempts_chron : chronological id now (attempts h).
Proof. split; [apply attempts_sorted|]. apply (omap_times _ ev_time); [|done]. by intros [] ? [= <-]. Qed.
Lemma attempts_of_chron k : chronological id now (attempts_of k h).
Proof.
  split; [apply attempts_of_sorted|]. apply (omap_times _ ev_time); [|done].
  intros [] y; [|done]. case_bool_decide; [|done]. by intros [= <-].
Qed.
Lemma dests_of_chron k : chronological fst now (dests_of k h).
Proof.
  split; [apply dests_of_sorted|]. apply (omap_times _ ev_time); [|done].
  intros [] y; [|done]. case_bool_decide; [|done]. by intros [= <-].
Qed.
Lemma bytes_of_chron k : chronological fst now (bytes_of k h).
Proof.
  split; [apply bytes_of_sorted|]. apply (omap_times _ ev_time); [|done].
  intros [] y; [done|]. case_bool_decide; [|done]. by intros [= <-].
Qed.
End history.

(** *** Rows, pruning and collection *)

Lemma row_insert g k k' st :
  row (set_per_ip g (<[k := st]> (g_per_ip g))) k' = if decide (k = k') then st else row g k'.
Proof.
  unfold row. cbn. destruct (decide (k = k')) as [<-|Hk].
  - by rewrite lookup_insert_eq.
  - by rewrite lookup_insert_ne.
Qed.

Lemma row_delete g k k' :
  row (set_per_ip g (delete k (g_per_ip g))) k'
    = if decide (k = k') then IpState_default else row g k'.
Proof.
  unfold row. cbn. destruct (decide (k = k')) as [<-|Hk].
  - by rewrite lookup_delete_eq.
  - by rewrite lookup_delete_ne.
Qed.

Lemma row_or_default g k k' : row (or_default g k) k' = row g k'.
Proof. unfold or_default. rewrite row_insert. by destruct (decide _) as [->|]. Qed.

Lemma prune_bytes_eq q now w :
  prune_bytes q (sumN q.*2) now w
    = (pop_expired fst now w q, sumN (pop_expired fst now w q).*2).
Proof.
  induction q as [|[t n] q IH]; [done|]. cbn [prune_bytes pop_expired fst].
  destruct (_ <? _); [|done]. rewrite <- IH. f_equal.
  change (sumN ((t, n) :: q).*2) with (n + sumN q.*2). unfold sat_sub. lia.
Qed.

Lemma prune_bytes_queue q sum now w : (prune_bytes q sum now w).1 = pop_expired fst now w q.
Proof.
  revert sum. induction q as [|[t n] q IH]; intros sum; [done|]. cbn [prune_bytes pop_expired fst].
  destruct (_ <? _); [apply IH|done].
Qed.

(** What [prune] does to a row whose running sum is the sum of its queue. *)
Lemma prune_eq st now cfg :
  st_bytes_sum st = sumN (st_bytes st).*2 →
  prune st now cfg = {|
    st_connections := st_connections st;
    st_connects := pop_expired id now (connects_per_ip_window cfg) (st_connects st);
    st_dests := pop_expired fst now (distinct_dests_window cfg) (st_dests st);
    st_bytes := pop_expired fst now (bytes_window cfg) (st_bytes st);
    st_bytes_sum := sumN (pop_expired fst now (bytes_window cfg) (st_bytes st)).*2 |}.
Proof. intros H. unfold prune. by rewrite H, prune_bytes_eq. Qed.

Lemma prune_connections st now cfg : st_connections (prune st now cfg) = st_connections st.
Proof. unfold prune. by destruct (prune_bytes _ _ _ _). Qed.

Lemma is_idle_iff st : is_idle st = true ↔
  st_connections st = 0 ∧ st_connects st = [] ∧ st_dests st = [] ∧ st_bytes st = [].
Proof.
  unfold is_idle. rewrite !andb_true_iff, N.eqb_eq, !bool_decide_eq_true. tauto.
Qed.

(** An idle row is the row an absent key stands for. *)
Lemma is_idle_default st :
  is_idle st = true → st_bytes_sum st = sumN (st_bytes st).*2 → st = IpState_default.
Proof.
  intros (Hc & Hq & Hd & Hb)%is_idle_iff Hs. rewrite Hb in Hs.
  destruct st; cbn in *; by subst.
Qed.

Lemma prune_default now cfg : prune IpState_default now cfg = IpState_default.
Proof. done. Qed.

Lemma gc_lookup g now k :
  g_per_ip (gc_idle g now) !! k = g_per_ip g !! k ≫= retain_row now (g_cfg g).
Proof. unfold gc_idle. cbn. by rewrite lookup_omap. Qed.

(** Collection prunes every row and drops no information. *)
Lemma gc_row g now k :
  st_bytes_sum (row g k) = sumN (st_bytes (row g k)).*2 →
  row (gc_idle g now) k = prune (row g k) now (g_cfg g).
Proof.
  unfold row at 3 4. rewrite gc_lookup. unfold row. destruct (g_per_ip g !! k) as [st|]; [|done].
  cbn. unfold retain_row. destruct (is_idle _) eqn:E; [|done]. intros Hs. cbn.
  symmetry. apply is_idle_default; [done|]. by rewrite prune_eq.
Qed.

Lemma gc_connections g now k :
  st_connections (row (gc_idle g now) k) = st_connections (row g k).
Proof.
  unfold row. rewrite gc_lookup. destruct (g_per_ip g !! k) as [st|]; [|done].
  cbn. unfold retain_row. destruct (is_idle _) eqn:E; cbn; [|apply prune_connections].
  apply is_idle_iff in E as [E _]. by rewrite prune_connections in E.
Qed.

(** *** Operations that leave the counters alone *)

Definition same_counts (g g' : Inner) : Prop :=
  g_global_connections g' = g_global_connections g ∧ g_per_dest g' = g_per_dest g
  ∧ ∀ k, st_connections (row g' k) = st_connections (row g k).

#[export] Instance same_counts_preorder : PreOrder same_counts.
Proof.
  split; [intros g; unfold same_counts; by split_and!|]. intros g1 g2 g3 (? & ? & H12) (? & ? & H23).
  unfold same_counts; split_and!; [congruence..|]. intros k. by rewrite H23, H12.
Qed.

Lemma same_counts_row g k st :
  st_connections st = st_connections (row g k) →
  same_counts g (set_per_ip g (<[k := st]> (g_per_ip g))).
Proof.
  intros H. unfold same_counts; split_and!; [done..|]. intros k'. rewrite row_insert.
  by destruct (decide _) as [<-|].
Qed.

Lemma same_counts_gc g now : same_counts g (gc_idle g now).
Proof. unfold same_counts; split_and!; [done..|]. apply gc_connections. Qed.

Lemma same_counts_maybe_gc g now : same_counts g (maybe_gc g now).
Proof. unfold maybe_gc. destruct (_ || _); [apply same_counts_gc|done]. Qed.

Lemma same_counts_prune_global g now : same_counts g (prune_global g now).
Proof. by split_and!. Qed.

Lemma same_counts_connects g q : same_counts g (set_global_connects g q).
Proof. by split_and!. Qed.

#[export] Hint Resolve same_counts_row same_counts_gc same_counts_maybe_gc
  same_counts_prune_global same_counts_connects : proxy.

Lemma record_attempt_counts g ip d now : same_counts g (record_attempt g ip d now).2.
Proof.
  unfold record_attempt. set (k := limit_key _ _ _).
  set (g1 := prune_global (maybe_gc g now) now).
  assert (H1 : same_counts g g1) by (etrans; [apply same_counts_maybe_gc|done]).
  assert (Hgc : same_counts g (gc_idle g1 now)) by (etrans; [apply H1|apply same_counts_gc]).
  destruct (_ && _); [done|].
  set (g2 := if tracked_full g1 k then gc_idle g1 now else g1).
  assert (H2 : same_counts g g2) by (unfold g2; by destruct (tracked_full _ _)).
  destruct (capped _ _); [done|].
  set (st := prune (row g2 k) now (g_cfg g)). set (g3 := set_per_ip g2 _).
  assert (H3 : same_counts g g3).
  { etrans; [apply H2|]. apply same_counts_row, prune_connections. }
  destruct (capped _ _); [done|]. destruct (too_many_dests _ _ _); [done|].
  etrans; [apply H3|]. cbn [snd]. etrans; [|apply same_counts_connects].
  apply same_counts_row. unfold g3. rewrite row_insert.
  by rewrite decide_True.
Qed.

Lemma add_bytes_counts g ip n t1 t2 : same_counts g (add_bytes g ip n t1 t2).2.
Proof.
  unfold add_bytes. destruct (n =? 0); [done|]. set (k := limit_key _ _ _).
  destruct (_ =? 0); [apply same_counts_maybe_gc|].
  set (g1 := maybe_gc g t1). set (g2 := set_per_ip g1 _).
  assert (H : same_counts g g2).
  { etrans; [apply same_counts_maybe_gc|]. apply same_counts_row, prune_connections. }
  destruct (_ <? _); [done|]. etrans; [apply H|]. apply same_counts_row.
  unfold g2. rewrite row_insert. by rewrite decide_True.
Qed.

Lemma accounts_same g g' ls : same_counts g g' → accounts g ls → accounts g' ls.
Proof.
  intros (Hg & Hd & Hr) [H1 H2 H3 H4]. split.
  - by rewrite Hg.
  - intros k. by rewrite Hr.
  - intros d. unfold dest_count. rewrite Hd. apply H3.
  - by rewrite Hd.
Qed.

(** *** Leases *)

Lemma capped_iff cap used : capped cap used = false ↔ below cap used.
Proof. unfold capped, below. rewrite andb_false_iff, negb_false_iff, N.eqb_eq, N.leb_gt. tauto. Qed.

Lemma capped_true cap used : capped cap used = true ↔ ¬ below cap used.
Proof. rewrite <- capped_iff. by destruct (capped _ _). Qed.

Lemma wrap_add64_1 a b : a <= b → b < U64_MAX → wrap_add64 a 1 = a + 1.
Proof. intros Ha Hb. unfold wrap_add64. apply N.mod_small. unfold U64_MAX in Hb. lia. Qed.

Lemma lenN_filter_le {A} (P : A → Prop) `{∀ x, Decision (P x)} l : lenN (filter P l) <= lenN l.
Proof. unfold lenN. pose proof (length_filter P l). lia. Qed.

Lemma leases_of_ip_cons k l ls :
  lenN (leases_of_ip k (l :: ls))
    = (if decide (lease_ip l = k) then 1 else 0) + lenN (leases_of_ip k ls).
Proof.
  unfold leases_of_ip. rewrite filter_cons. destruct (decide _); [|lia]. by rewrite lenN_cons.
Qed.

Lemma leases_of_dest_cons d l ls :
  lenN (leases_of_dest d (l :: ls))
    = (if decide (lease_dest l = d) then 1 else 0) + lenN (leases_of_dest d ls).
Proof.
  unfold leases_of_dest. rewrite filter_cons. destruct (decide _); [|lia]. by rewrite lenN_cons.
Qed.

Lemma dest_count_insert g d d' n :
  dest_count (set_per_dest g (<[d := n]> (g_per_dest g))) d'
    = if decide (d = d') then n else dest_count g d'.
Proof.
  unfold dest_count. cbn. destruct (decide _) as [<-|].
  - by rewrite lookup_insert_eq.
  - by rewrite lookup_insert_ne.
Qed.

Lemma accounts_perm g ls ls' : ls ≡ₚ ls' → accounts g ls → accounts g ls'.
Proof.
  intros Hp [H1 H2 H3 H4]. assert (Hl : ∀ {A} (l l' : list A), l ≡ₚ l' → lenN l = lenN l').
  { intros A l l' E. unfold lenN. by rewrite E. }
  split; [by rewrite H1; apply Hl|intros k; rewrite H2|intros d; rewrite H3|done];
    apply Hl; unfold leases_of_ip, leases_of_dest; by rewrite Hp.
Qed.

Lemma row_take g k d k' :
  row (take_slot g k d) k' =
    if decide (k = k')
    then set_st_connections (row g k) (wrap_add64 (st_connections (row g k)) 1) else row g k'.
Proof. exact (row_insert (set_global_connections g _) k k' _). Qed.

Lemma dest_count_take g k d d' :
  dest_count (take_slot g k d) d' =
    if decide (d = d') then wrap_add64 (dest_count g d) 1 else dest_count g d'.
Proof. exact (dest_count_insert (set_per_ip _ _) d d' _). Qed.

Lemma accounts_take g ls k d :
  accounts g ls → lenN ls < U64_MAX →
  accounts (take_slot g k d) ({| lease_ip := k; lease_dest := d |} :: ls).
Proof.
  intros [H1 H2 H3 H4] Hlen.
  pose proof (lenN_filter_le (λ l, lease_ip l = k) ls).
  pose proof (lenN_filter_le (λ l, lease_dest l = d) ls).
  assert (Hd : wrap_add64 (dest_count g d) 1 = dest_count g d + 1).
  { by rewrite H3, (wrap_add64_1 _ (lenN ls)). }
  split.
  - cbn. rewrite H1, (wrap_add64_1 _ (lenN ls)), lenN_cons by done. lia.
  - intros k'. rewrite row_take, leases_of_ip_cons. cbn [lease_ip].
    destruct (decide (k = k')) as [<-|]; [|apply H2]. cbn [st_connections set_st_connections].
    rewrite H2, (wrap_add64_1 _ (lenN ls)) by done. lia.
  - intros d'. rewrite dest_count_take, leases_of_dest_cons, Hd. cbn [lease_dest].
    destruct (decide (d = d')) as [<-|]; [rewrite H3; lia|apply H3].
  - intros d'. change (g_per_dest (take_slot g k d))
      with (<[d := wrap_add64 (dest_count g d) 1]> (g_per_dest g)).
    destruct (decide (d = d')) as [<-|]; [|by rewrite lookup_insert_ne].
    rewrite lookup_insert_eq, Hd. intros [= E]. lia.
Qed.

(** [acquire], against the leases. *)
Lemma acquire_accounts g ls ip d now :
  accounts g ls → lenN ls < U64_MAX →
  let cfg := g_cfg g in
  let k := limit_key ip (ipv4_prefix cfg) (ipv6_prefix cfg) in
  let global_ok := below (max_global_connections cfg) (lenN ls) in
  let ip_ok := below (max_conns_per_ip cfg) (lenN (leases_of_ip k ls)) in
  let dest_ok := below (max_conns_per_dest cfg) (lenN (leases_of_dest d ls)) in
  match acquire g ip d now with
  | (Ok l, g') => l = {| lease_ip := k; lease_dest := d |}
      ∧ global_ok ∧ ip_ok ∧ dest_ok ∧ accounts g' (l :: ls)
  | (Err e, g') => accounts g' ls ∧
      match e with
      | GlobalFull => ¬ global_ok
      | PerIpFull => global_ok ∧ ¬ ip_ok
      | PerDestFull => global_ok ∧ ip_ok ∧ ¬ dest_ok
      | _ => False
      end
  end.
Proof.
  intros Hacc Hlen. unfold acquire. set (cfg := g_cfg g). set (k := limit_key _ _ _).
  cbv zeta. set (g1 := maybe_gc g now).
  pose proof (accounts_same _ _ _ (same_counts_maybe_gc g now) Hacc) as H1. fold g1 in H1.
  rewrite (acc_global _ _ H1).
  destruct (capped (max_global_connections cfg) _) eqn:E1;
    [apply capped_true in E1; done|apply capped_iff in E1].
  rewrite !row_or_default, (acc_ip _ _ H1).
  assert (H2 : accounts (or_default g1 k) ls).
  { eapply accounts_same; [|exact H1]. by apply same_counts_row. }
  set (g2 := or_default g1 k) in *.
  destruct (capped (max_conns_per_ip cfg) _) eqn:E2;
    [apply capped_true in E2; done|apply capped_iff in E2].
  rewrite (acc_dest _ _ H2).
  destruct (capped (max_conns_per_dest cfg) _) eqn:E3;
    [apply capped_true in E3; done|apply capped_iff in E3].
  split_and!; [done..|]. by apply accounts_take.
Qed.

(** The two halves of [release]. *)
Definition release_row (g : Inner) (ip : IpAddr) (now : Instant) : Inner :=
  match g_per_ip g !! ip with
  | Some st =>
      let st := prune (set_st_connections st (sat_sub (st_connections st) 1)) now (g_cfg g) in
      if is_idle st then set_per_ip g (delete ip (g_per_ip g))
      else set_per_ip g (<[ip := st]> (g_per_ip g))
  | None => g
  end.
Definition release_dest (g : Inner) (dest : str) : Inner :=
  match g_per_dest g !! dest with
  | Some c =>
      if sat_sub c 1 =? 0 then set_per_dest g (delete dest (g_per_dest g))
      else set_per_dest g (<[dest := sat_sub c 1]> (g_per_dest g))
  | None => g
  end.

Lemma release_eq g ip d now :
  release g ip d now =
    release_dest (release_row
      (set_global_connections g (sat_sub (g_global_connections g) 1)) ip now) d.
Proof. done. Qed.

Lemma release_row_frame g ip now :
  g_cfg (release_row g ip now) = g_cfg g
  ∧ g_global_connections (release_row g ip now) = g_global_connections g
  ∧ g_global_connects (release_row g ip now) = g_global_connects g
  ∧ g_per_dest (release_row g ip now) = g_per_dest g.
Proof.
  unfold release_row. destruct (_ !! _); [|done]. cbv zeta. by destruct (is_idle _).
Qed.

Lemma release_row_connections g ip now k :
  st_connections (row (release_row g ip now) k) =
    if decide (ip = k) then st_connections (row g k) - 1 else st_connections (row g k).
Proof.
  unfold release_row. destruct (g_per_ip g !! ip) as [st|] eqn:E.
  - assert (Hr : row g ip = st) by (unfold row; by rewrite E). cbv zeta.
    destruct (is_idle _) eqn:Ei.
    + rewrite row_delete. destruct (decide _) as [<-|]; [|done]. rewrite Hr.
      apply is_idle_iff in Ei as [Ei _]. rewrite prune_connections in Ei. by symmetry.
    + rewrite row_insert. destruct (decide _) as [<-|]; [|done].
      by rewrite prune_connections, Hr.
  - destruct (decide _) as [<-|]; [|done]. unfold row. by rewrite E.
Qed.

Lemma release_dest_frame g d :
  g_cfg (release_dest g d) = g_cfg g
  ∧ g_global_connections (release_dest g d) = g_global_connections g
  ∧ g_global_connects (release_dest g d) = g_global_connects g
  ∧ g_per_ip (release_dest g d) = g_per_ip g.
Proof. unfold release_dest. destruct (_ !! _); [|done]. by destruct (_ =? _). Qed.

Lemma release_dest_count g d d' :
  dest_count (release_dest g d) d' =
    if decide (d = d') then dest_count g d' - 1 else dest_count g d'.
Proof.
  unfold release_dest, dest_count, sat_sub. destruct (g_per_dest g !! d) as [c|] eqn:E.
  - destruct (N.eqb_spec (c - 1) 0) as [Hc|Hc]; cbn; destruct (decide _) as [<-|].
    + by rewrite lookup_delete_eq, E.
    + by rewrite lookup_delete_ne.
    + by rewrite lookup_insert_eq, E.
    + by rewrite lookup_insert_ne.
  - destruct (decide _) as [<-|]; [|done]. by rewrite E.
Qed.

Lemma release_dest_nonzero g d :
  (∀ d', g_per_dest g !! d' ≠ Some 0) → ∀ d', g_per_dest (release_dest g d) !! d' ≠ Some 0.
Proof.
  intros H d'. unfold release_dest, sat_sub. destruct (g_per_dest g !! d) as [c|] eqn:E; [|done].
  destruct (N.eqb_spec (c - 1) 0) as [Hc|Hc]; cbn; destruct (decide (d = d')) as [<-|].
  - by rewrite lookup_delete_eq.
  - by rewrite lookup_delete_ne.
  - rewrite lookup_insert_eq. by intros [= ?].
  - by rewrite lookup_insert_ne.
Qed.

Lemma release_accounts g l ls now :
  accounts g (l :: ls) → accounts (drop_lease g l now) ls.
Proof.
  intros [H1 H2 H3 H4]. unfold drop_lease. rewrite release_eq.
  set (g1 := set_global_connections g _). set (g2 := release_row g1 _ now).
  destruct (release_row_frame g1 (lease_ip l) now) as (_ & F1 & _ & F2). fold g2 in F1, F2.
  destruct (release_dest_frame g2 (lease_dest l)) as (_ & D1 & _ & D2).
  split.
  - rewrite D1, F1. cbn. rewrite H1, lenN_cons. unfold sat_sub. lia.
  - intros k. unfold row. rewrite D2. fold (row g2 k). unfold g2.
    rewrite release_row_connections. change (row g1 k) with (row g k).
    rewrite H2, leases_of_ip_cons. destruct (decide _); lia.
  - intros d. rewrite release_dest_count. unfold dest_count. rewrite F2.
    fold (dest_count g1 d). change (dest_count g1 d) with (dest_count g d).
    rewrite H3, leases_of_dest_cons. destruct (decide _); lia.
  - apply release_dest_nonzero. by rewrite F2.
Qed.

(** *** Histories *)

Lemma row_tracks_later cfg last now h k st :
  last <= now → row_tracks cfg last h k st → row_tracks cfg now h k st.
Proof. intros Hl [H1 H2 H3 H4]. split; [eauto using tracks_later..|done]. Qed.

Lemma row_tracks_prune cfg last now h k st :
  last <= now → row_tracks cfg last h k st → row_tracks cfg now h k (prune st now cfg).
Proof.
  intros Hl [H1 H2 H3 H4]. rewrite prune_eq by done.
  split; cbn; [by eapply tracks_pop..|done].
Qed.

Lemma row_tracks_connections cfg now h k st n :
  row_tracks cfg now h k st → row_tracks cfg now h k (set_st_connections st n).
Proof. by intros [H1 H2 H3 H4]. Qed.

Lemma represents_later cfg last now h g :
  last <= now → represents cfg last h g → represents cfg now h g.
Proof.
  intros Hl [H1 H2 H3 H4]. split; [done|by eapply chronological_later|by eapply tracks_later|].
  intros k. by eapply row_tracks_later.
Qed.

Lemma represents_prune_global cfg now h g :
  represents cfg now h g → represents cfg now h (prune_global g now).
Proof.
  intros [H1 H2 H3 H4]. split; [done|done| |done].
  cbn. rewrite H1. by eapply tracks_pop.
Qed.

Lemma represents_row cfg now h g k st :
  represents cfg now h g → row_tracks cfg now h k st →
  represents cfg now h (set_per_ip g (<[k := st]> (g_per_ip g))).
Proof.
  intros [H1 H2 H3 H4] Hst. split; [done..|]. intros k'. rewrite row_insert.
  by destruct (decide _) as [<-|].
Qed.

Lemma represents_gc cfg now h g : represents cfg now h g → represents cfg now h (gc_idle g now).
Proof.
  intros H. pose proof (represents_prune_global _ _ _ _ H) as Hg.
  destruct H as [H1 H2 H3 H4]. split; [done|done|apply Hg|].
  intros k. rewrite gc_row by apply H4. rewrite H1. by eapply row_tracks_prune.
Qed.

Lemma represents_maybe_gc cfg now h g : represents cfg now h g → represents cfg now h (maybe_gc g now).
Proof. intros H. unfold maybe_gc. destruct (_ || _); [by apply represents_gc|done]. Qed.

Lemma represents_new cfg now : represents cfg now [] (LimitState_new cfg now).
Proof.
  split; [done|by repeat constructor|apply tracks_nil|].
  intros k. split; [apply tracks_nil..|done].
Qed.

Lemma represents_release cfg now h g ip d :
  represents cfg now h g → represents cfg now h (release g ip d now).
Proof.
  intros H. rewrite release_eq. set (g1 := set_global_connections g _).
  assert (H1 : represents cfg now h g1) by (by destruct H).
  clearbody g1. clear H.
  assert (H2 : represents cfg now h (release_row g1 ip now)).
  { unfold release_row. destruct (g_per_ip g1 !! ip) as [st|] eqn:E; [|done]. cbv zeta.
    assert (Ht : row_tracks cfg now h ip
                   (prune (set_st_connections st (sat_sub (st_connections st) 1)) now cfg)).
    { eapply row_tracks_prune, row_tracks_connections; [done|].
      pose proof (rep_row _ _ _ _ H1 ip) as Hr. unfold row in Hr. by rewrite E in Hr. }
    rewrite (rep_cfg _ _ _ _ H1). destruct (is_idle _) eqn:Ei; [|by apply represents_row].
    apply is_idle_default in Ei; [|apply Ht].
    destruct H1 as [R1 R2 R3 R4]. split; [done..|]. intros k. rewrite row_delete.
    destruct (decide _) as [<-|]; [by rewrite <- Ei|apply R4]. }
  destruct (release_dest_frame (release_row g1 ip now) d) as (D1 & _ & D3 & D4).
  destruct H2 as [R1 R2 R3 R4]. split; [by rewrite D1|done|by rewrite D3|].
  intros k. unfold row. rewrite D4. apply R4.
Qed.

Lemma represents_acquire cfg now h g ip d :
  represents cfg now h g → represents cfg now h (acquire g ip d now).2.
Proof.
  intros H. unfold acquire. set (k := limit_key _ _ _).
  pose proof (represents_maybe_gc _ _ _ _ H) as H1. set (g1 := maybe_gc g now) in *.
  destruct (capped _ _); [done|].
  assert (H2 : represents cfg now h (or_default g1 k)).
  { apply represents_row; [done|apply H1]. }
  set (g2 := or_default g1 k) in *. clearbody g2.
  destruct (capped _ _); [done|]. destruct (capped _ _); [done|].
  destruct H2 as [R1 R2 R3 R4]. split; [done..|]. intros k'. cbn [snd]. rewrite row_take.
  destruct (decide _) as [<-|]; [by apply row_tracks_connections|apply R4].
Qed.

(** The parts of a history that an event extends. *)
Lemma attempts_push h t k d :
  attempts (h ++ [Attempted t k d]) = attempts h ++ [t].
Proof. unfold attempts. by rewrite omap_app. Qed.
Lemma attempts_transfer h t k n : attempts (h ++ [Transferred t k n]) = attempts h.
Proof. unfold attempts. by rewrite omap_app, app_nil_r. Qed.
Lemma attempts_of_push h t k d k' :
  attempts_of k' (h ++ [Attempted t k d])
    = attempts_of k' h ++ if decide (k = k') then [t] else [].
Proof.
  unfold attempts_of. rewrite omap_app. cbn. case_bool_decide; by destruct (decide _).
Qed.
Lemma dests_of_push h t k d k' :
  dests_of k' (h ++ [Attempted t k d])
    = dests_of k' h ++ if decide (k = k') then [(t, d)] else [].
Proof.
  unfold dests_of. rewrite omap_app. cbn. case_bool_decide; by destruct (decide _).
Qed.
Lemma bytes_of_push h t k n k' :
  bytes_of k' (h ++ [Transferred t k n])
    = bytes_of k' h ++ if decide (k = k') then [(t, n)] else [].
Proof.
  unfold bytes_of. rewrite omap_app. cbn. case_bool_decide; by destruct (decide _).
Qed.
Lemma bytes_of_attempt h t k d k' : bytes_of k' (h ++ [Attempted t k d]) = bytes_of k' h.
Proof. unfold bytes_of. by rewrite omap_app, app_nil_r. Qed.
Lemma of_transfer h t k n k' :
  attempts_of k' (h ++ [Transferred t k n]) = attempts_of k' h
  ∧ dests_of k' (h ++ [Transferred t k n]) = dests_of k' h.
Proof. unfold attempts_of, dests_of. by rewrite !omap_app, !app_nil_r. Qed.

Lemma sumN_app l k : sumN (l ++ k) = sumN l + sumN k.
Proof. induction l as [|x l IH]; [done|]. cbn [app sumN foldr]. fold (sumN (l ++ k)). rewrite IH.
  fold (sumN l). lia. Qed.

(** *** The attempt verdict *)

Lemma too_many_dests_iff limit dests d :
  too_many_dests limit dests d = false ↔
  d ∈ (list_to_set dests.*2 : gset str)
  ∨ below limit (N.of_nat (size (list_to_set dests.*2 : gset str))).
Proof.
  unfold too_many_dests, below. cbv zeta.
  rewrite !andb_false_iff, !negb_false_iff, N.eqb_eq, bool_decide_eq_true, N.leb_gt. tauto.
Qed.

Lemma too_many_dests_true limit dests d :
  too_many_dests limit dests d = true ↔
  ¬ (d ∈ (list_to_set dests.*2 : gset str)
     ∨ below limit (N.of_nat (size (list_to_set dests.*2 : gset str)))).
Proof. rewrite <- too_many_dests_iff. by destruct (too_many_dests _ _ _). Qed.

Section verdict.
  Context (cfg : LimitsConfig) (now : Instant) (h : list Event) (g : Inner).
  Hypothesis Hg : represents cfg now h g.

Lemma live_attempts_eq :
  prune_instants (g_global_connects g) now (global_connects_window cfg) = live_attempts cfg now h.
Proof. apply tracks_live; [|apply Hg]. apply attempts_sorted, Hg. Qed.

Lemma live_attempts_of_eq k : st_connects (prune (row g k) now cfg) = live_attempts_of cfg now k h.
Proof.
  rewrite prune_eq by apply Hg. cbn. apply tracks_live; [|apply Hg]. apply attempts_of_sorted, Hg.
Qed.

Lemma live_dests_of_eq k :
  list_to_set (st_dests (prune (row g k) now cfg)).*2 = live_dests_of cfg now k h.
Proof.
  rewrite prune_eq by apply Hg. cbn. unfold live_dests_of. do 2 f_equal.
  apply tracks_live; [|apply Hg]. apply dests_of_sorted, Hg.
Qed.

Lemma live_bytes_of_eq k : st_bytes_sum (prune (row g k) now cfg) = live_bytes_of cfg now k h.
Proof.
  rewrite prune_eq by apply Hg. cbn. unfold live_bytes_of. do 2 f_equal.
  apply tracks_live; [|apply Hg]. apply bytes_of_sorted, Hg.
Qed.
End verdict.

(** Recording an accepted attempt. *)
Lemma represents_attempt cfg now h g k d :
  represents cfg now h g →
  represents cfg now (h ++ [Attempted now k d])
    (set_global_connects
       (set_per_ip g (<[k := {| st_connections := st_connections (row g k);
                                st_connects := st_connects (row g k) ++ [now];
                                st_dests := st_dests (row g k) ++ [(now, d)];
                                st_bytes := st_bytes (row g k);
                                st_bytes_sum := st_bytes_sum (row g k) |}]> (g_per_ip g)))
       (g_global_connects g ++ [now])).
Proof.
  intros [R1 R2 R3 R4]. split.
  - done.
  - by eapply chronological_push; [| |exact R2].
  - cbn. rewrite attempts_push. by apply tracks_push.
  - intros k'. change (row (set_global_connects ?x _) k') with (row x k').
    rewrite row_insert. destruct (R4 k') as [T1 T2 T3 T4].
    split; rewrite ?attempts_of_push, ?dests_of_push, ?bytes_of_attempt;
      destruct (decide (k = k')) as [<-|]; rewrite ?app_nil_r; cbn;
      try done; by apply tracks_push.
Qed.

Lemma record_attempt_represents cfg last now h g ip d :
  represents cfg last h g → last <= now →
  let k := limit_key ip (ipv4_prefix cfg) (ipv6_prefix cfg) in
  let '(r, g') := record_attempt g ip d now in
  represents cfg now (if is_ok r then h ++ [Attempted now k d] else h) g' ∧
  (attempt_verdict cfg h now k d r ∨
   r = Err GlobalConnectRate ∧ tracked_full g' k = true ∧ ∃ g0, g' = gc_idle g0 now).
Proof.
  intros Hlast Hle k. pose proof (represents_later _ _ _ _ _ Hle Hlast) as Hg. clear Hlast Hle.
  unfold record_attempt. rewrite (rep_cfg _ _ _ _ Hg). fold k.
  apply represents_maybe_gc in Hg. apply represents_prune_global in Hg as H1.
  assert (E1 : g_global_connects (prune_global (maybe_gc g now) now) = live_attempts cfg now h).
  { cbn. rewrite (rep_cfg _ _ _ _ Hg). by apply live_attempts_eq. }
  set (g1 := prune_global (maybe_gc g now) now) in *. clearbody g1.
  apply represents_gc in H1 as Hgc.
  destruct (tracked_full g1 k && tracked_full (gc_idle g1 now) k) eqn:Et.
  { apply andb_true_iff in Et as [_ Et]. split; [done|]. right. eauto. }
  clear Et. set (g2 := if tracked_full g1 k then gc_idle g1 now else g1).
  assert (H2 : represents cfg now h g2) by (unfold g2; by destruct (tracked_full _ _)).
  assert (E2 : g_global_connects g2 = live_attempts cfg now h).
  { unfold g2. destruct (tracked_full _ _); [|done]. cbn. rewrite (rep_cfg _ _ _ _ H1).
    by apply live_attempts_eq. }
  clearbody g2. rewrite E2.
  destruct (capped (global_connects cfg) _) eqn:C1.
  { apply capped_true in C1. by split; [|left]. }
  apply capped_iff in C1.
  rewrite (live_attempts_of_eq _ _ _ _ H2).
  assert (H3 : represents cfg now h
    (set_per_ip g2 (<[k := prune (row g2 k) now cfg]> (g_per_ip g2)))).
  { apply represents_row; [done|]. eapply row_tracks_prune; [done|apply H2]. }
  destruct (capped (connects_per_ip cfg) _) eqn:C2.
  { apply capped_true in C2. by split; [|left]. }
  apply capped_iff in C2.
  destruct (too_many_dests _ _ _) eqn:C3.
  { apply too_many_dests_true in C3. rewrite (live_dests_of_eq _ _ _ _ H2) in C3.
    by split; [|left]. }
  apply too_many_dests_iff in C3. rewrite (live_dests_of_eq _ _ _ _ H2) in C3.
  split; [|by left]. cbn [is_ok].
  apply (represents_attempt _ _ _ _ k d) in H3. revert H3.
  rewrite row_insert, decide_True, (live_attempts_of_eq _ _ _ _ H2) by done. done.
Qed.

(** *** The byte budget *)

Lemma sat_add64_exact a b m : m < U64_MAX → (m <? sat_add64 a b) = (m <? a + b).
Proof.
  intros Hm. unfold sat_add64.
  destruct (N.ltb_spec m (a + b)), (N.ltb_spec m (N.min (a + b) U64_MAX)); (done || lia).
Qed.

Lemma represents_transfer cfg now h g k n :
  represents cfg now h g →
  represents cfg now (h ++ [Transferred now k n])
    (set_per_ip g (<[k := {| st_connections := st_connections (row g k);
                             st_connects := st_connects (row g k);
                             st_dests := st_dests (row g k);
                             st_bytes := st_bytes (row g k) ++ [(now, n)];
                             st_bytes_sum := st_bytes_sum (row g k) + n |}]> (g_per_ip g))).
Proof.
  intros [R1 R2 R3 R4]. split.
  - done.
  - by eapply chronological_push; [| |exact R2].
  - cbn. by rewrite attempts_transfer.
  - intros k'. rewrite row_insert. destruct (R4 k') as [T1 T2 T3 T4].
    destruct (of_transfer h now k n k') as [E1 E2].
    split; rewrite ?E1, ?E2, ?bytes_of_push;
      destruct (decide (k = k')) as [<-|]; rewrite ?app_nil_r; cbn;
      try done; [by apply tracks_push|].
    rewrite fmap_app, sumN_app, T4. cbn. lia.
Qed.

Lemma add_bytes_represents cfg last t1 t2 h g ip n :
  represents cfg last h g → last <= t1 → t1 <= t2 → max_bytes_per_ip cfg < U64_MAX →
  let k := limit_key ip (ipv4_prefix cfg) (ipv6_prefix cfg) in
  let '(r, g') := add_bytes g ip n t1 t2 in
  represents cfg t2 (if is_ok r && charged cfg n then h ++ [Transferred t2 k n] else h) g' ∧
  r = if charged cfg n && (max_bytes_per_ip cfg <? live_bytes_of cfg t2 k h + n)
      then Err ByteCap else Ok tt.
Proof.
  intros Hg H1 H2 Hmax k. unfold add_bytes, charged. rewrite (rep_cfg _ _ _ _ Hg). fold k.
  destruct (n =? 0); cbn [negb andb].
  { split; [|done]. eapply represents_later; [|exact Hg]. lia. }
  pose proof (represents_later _ _ _ _ _ H1 Hg) as Hg1.
  apply represents_maybe_gc, (represents_later _ _ _ _ _ H2) in Hg1.
  set (g1 := maybe_gc g t1) in *. clearbody g1.
  destruct (max_bytes_per_ip cfg =? 0); cbn [negb andb]; [done|].
  rewrite (live_bytes_of_eq _ _ _ _ Hg1), sat_add64_exact by done.
  assert (H3 : represents cfg t2 h
    (set_per_ip g1 (<[k := prune (row g1 k) t2 cfg]> (g_per_ip g1)))).
  { apply represents_row; [done|]. apply (row_tracks_prune _ t2); [lia|apply Hg1]. }
  destruct (N.ltb_spec (max_bytes_per_ip cfg) (live_bytes_of cfg t2 k h + n)) as [Hb|Hb];
    [done|]. split; [|done]. cbn [is_ok andb].
  apply (represents_transfer _ _ _ _ k n) in H3. revert H3.
  rewrite row_insert, decide_True by done. cbn [set_per_ip g_per_ip].
  rewrite (live_bytes_of_eq _ _ _ _ Hg1).
  replace (sat_add64 (live_bytes_of cfg t2 k h) n) with (live_bytes_of cfg t2 k h + n);
    [done|unfold sat_add64; lia].
Qed.

(** *** The cap on tracked rows *)

Lemma gc_size g now :
  N.of_nat (size (g_per_ip (gc_idle g now))) <= N.of_nat (size (g_per_ip g)).
Proof.
  enough (size (g_per_ip (gc_idle g now)) ≤ size (g_per_ip g))%nat by lia.
  rewrite <- !size_dom. apply subseteq_size. intros k. rewrite !elem_of_dom, gc_lookup.
  by destruct (g_per_ip g !! k); [|intros [? ?]].
Qed.

Lemma maybe_gc_size g now :
  N.of_nat (size (g_per_ip (maybe_gc g now))) <= N.of_nat (size (g_per_ip g)).
Proof. unfold maybe_gc. destruct (_ || _); [apply gc_size|done]. Qed.

Lemma insert_size g k st :
  N.of_nat (size (<[k := st]> (g_per_ip g))) <=
    if contains_key g k then N.of_nat (size (g_per_ip g)) else N.of_nat (size (g_per_ip g)) + 1.
Proof.
  unfold contains_key. rewrite map_size_insert. destruct (_ !! _); unfold id; lia.
Qed.

(** *** Every window of the history *)

Section within.
  Context {A : Type} (time : A → Instant) (weight : A → N).

Lemma weigh_filter_mono (P Q : A → Prop) `{∀ x, Decision (P x)} `{∀ x, Decision (Q x)} l :
  Forall (λ x, P x → Q x) l →
  sumN (weight <$> filter P l) <= sumN (weight <$> filter Q l).
Proof.
  induction 1 as [|x l Hx _ IH]; [done|]. rewrite !filter_cons.
  destruct (decide (P x)), (decide (Q x)); try tauto; cbn [fmap list_fmap sumN foldr];
    fold (sumN (weight <$> filter P l)); fold (sumN (weight <$> filter Q l)); lia.
Qed.

Lemma within_push w a l x :
  within time w a (l ++ [x])
    = within time w a l ++ if decide (a <= time x ∧ time x <= a + w) then [x] else [].
Proof. unfold within. rewrite filter_app, filter_cons. by destruct (decide _). Qed.

Lemma within_live w a now l :
  chronological time now l → a <= now ∧ now <= a + w →
  Forall (λ x, a <= time x ∧ time x <= a + w → now - time x <= w) l.
Proof.
  intros [_ Hle] Ha. eapply Forall_impl; [exact Hle|]. cbn. lia.
Qed.

(** If what is live and the new entry weigh at most [cap], so does every window. *)
Lemma within_step w cap now l x :
  chronological time now l → time x = now →
  (∀ a, sumN (weight <$> within time w a l) <= cap) →
  sumN (weight <$> live time w now l) + weight x <= cap →
  ∀ a, sumN (weight <$> within time w a (l ++ [x])) <= cap.
Proof.
  intros Hl Hx IH Hlive a. rewrite within_push, fmap_app, sumN_app.
  destruct (decide _) as [Ha|_]; [|specialize (IH a); cbn; lia].
  rewrite Hx in Ha.
  pose proof (weigh_filter_mono _ _ l (within_live w a now l Hl Ha)) as Hm.
  fold (within time w a l) (live time w now l) in Hm.
  change (sumN (weight <$> [x])) with (weight x + 0). lia.
Qed.
End within.

Lemma sumN_ones {A} (l : list A) : sumN ((λ _, 1) <$> l) = lenN l.
Proof.
  induction l as [|x l IH]; [done|]. rewrite lenN_cons, <- IH. done.
Qed.

Lemma set_filter_mono {A} (f : A → str) (P Q : A → Prop) `{∀ x, Decision (P x)}
  `{∀ x, Decision (Q x)} (l : list A) :
  Forall (λ x, P x → Q x) l →
  (list_to_set (f <$> filter P l) : gset str) ⊆ list_to_set (f <$> filter Q l).
Proof.
  intros H1 y. rewrite !elem_of_list_to_set, !list_elem_of_fmap.
  intros (x & -> & Hx). exists x. split; [done|].
  apply list_elem_of_filter in Hx as [Hp Hx]. apply list_elem_of_filter.
  rewrite Forall_forall in H1. auto.
Qed.

(** The same for the number of distinct destinations, where the new entry may
    also be one that is already live. *)
Lemma within_dests_step w (cap : N) now (l : list (Instant * str)) d :
  chronological fst now l →
  (∀ a, N.of_nat (size (list_to_set (within fst w a l).*2 : gset str)) <= cap) →
  d ∈ (list_to_set (live fst w now l).*2 : gset str)
    ∨ N.of_nat (size (list_to_set (live fst w now l).*2 : gset str)) < cap →
  ∀ a, N.of_nat (size (list_to_set (within fst w a (l ++ [(now, d)])).*2 : gset str)) <= cap.
Proof.
  intros Hl IH Hd a. rewrite within_push, fmap_app, list_to_set_app_L. cbn [fst].
  destruct (decide _) as [Ha|_].
  2: { change (list_to_set ([] : list (N * str)).*2 : gset str) with (∅ : gset str).
       rewrite union_empty_r_L. apply IH. }
  pose proof (set_filter_mono snd _ _ l (within_live fst w a now l Hl Ha)) as Hm.
  fold (within fst w a l) (live fst w now l) in Hm.
  set (W := list_to_set (within fst w a l).*2 : gset str) in *.
  set (V := list_to_set (live fst w now l).*2 : gset str) in *.
  change (list_to_set [(now, d)].*2 : gset str) with ({[d]} ∪ ∅ : gset str).
  destruct Hd as [Hd|Hd].
  - assert (Hv : N.of_nat (size V) <= cap).
    { specialize (IH (now - w)). etrans; [|exact IH].
      enough (size V ≤ size (list_to_set (within fst w (now - w) l).*2 : gset str))%nat by lia.
      apply subseteq_size. apply (set_filter_mono snd).
      destruct Hl as [_ Hle]. eapply Forall_impl; [exact Hle|]. cbn. lia. }
    assert (size (W ∪ ({[d]} ∪ ∅)) ≤ size V)%nat by (apply subseteq_size; set_solver). lia.
  - assert (size (W ∪ ({[d]} ∪ ∅)) ≤ size (V ∪ {[d]}))%nat
      by (apply subseteq_size; set_solver).
    assert (size (V ∪ {[d]}) ≤ size V + 1)%nat; [|lia].
    pose proof (size_union_alt V ({[d]} : gset str)) as E. rewrite E.
    assert (size ({[d]} ∖ V) ≤ size ({[d]} : gset str))%nat
      by (apply subseteq_size; set_solver).
    rewrite size_singleton in *. lia.
Qed.

Lemma within_nil {A} (time : A → Instant) w a : within time w a [] = [].
Proof. done. Qed.

Lemma at_most_step cap (f g : Instant → N) :
  (∀ a, at_most cap (f a)) → (cap ≠ 0 → (∀ a, f a <= cap) → ∀ a, g a <= cap) →
  ∀ a, at_most cap (g a).
Proof.
  intros Hf Hg a. destruct (decide (cap = 0)) as [|Hc]; [by left|]. right. apply Hg; [done|].
  intros b. by destruct (Hf b).
Qed.

(** An accepted attempt keeps every window within its cap. *)
Lemma windows_attempt cfg now h k d :
  chronological ev_time now h → windows_respected cfg h →
  attempt_verdict cfg h now k d (Ok tt) → windows_respected cfg (h ++ [Attempted now k d]).
Proof.
  intros Ho Hw (Hg & Hi & Hd) a. destruct Ho as [Hs Hle].
  split; [|intros k'; split; [|split]].
  - rewrite attempts_push. revert a. eapply at_most_step; [intros a; apply (Hw a)|].
    intros Hc IH a. setoid_rewrite <- sumN_ones in IH. rewrite <- sumN_ones.
    apply (within_step _ _ _ _ now); [by apply attempts_chron|done..|].
    rewrite sumN_ones. destruct Hg; [done|]. unfold live_attempts in *. lia.
  - rewrite attempts_of_push. destruct (decide (k = k')) as [<-|]; [|rewrite app_nil_r; apply Hw].
    revert a. eapply at_most_step; [intros a; apply (Hw a)|].
    intros Hc IH a. setoid_rewrite <- sumN_ones in IH. rewrite <- sumN_ones.
    apply (within_step _ _ _ _ now); [by apply attempts_of_chron|done..|].
    rewrite sumN_ones. destruct Hi; [done|]. unfold live_attempts_of in *. lia.
  - rewrite dests_of_push. destruct (decide (k = k')) as [<-|]; [|rewrite app_nil_r; apply Hw].
    revert a. eapply at_most_step; [intros a; apply (Hw a)|].
    intros Hc IH a. apply within_dests_step; [by apply dests_of_chron|done|].
    destruct Hd as [Hd|[|Hd]]; [by left|done|by right].
  - rewrite bytes_of_attempt. apply Hw.
Qed.

(** ... and so does an accepted transfer. *)
Lemma windows_transfer cfg now h k n :
  chronological ev_time now h → windows_respected cfg h →
  live_bytes_of cfg now k h + n <= max_bytes_per_ip cfg →
  windows_respected cfg (h ++ [Transferred now k n]).
Proof.
  intros [Hs Hle] Hw Hn a.
  split; [rewrite attempts_transfer; apply Hw|]. intros k'.
  destruct (of_transfer h now k n k') as [-> ->]. split; [apply Hw|]. split; [apply Hw|].
  rewrite bytes_of_push. destruct (decide (k = k')) as [<-|]; [|rewrite app_nil_r; apply Hw].
  revert a. eapply at_most_step; [intros a; apply (Hw a)|].
  intros Hc IH a. apply (within_step fst snd _ _ now); [by apply bytes_of_chron|done..].
Qed.

(** Dropping a lease keeps the caps. *)
Lemma caps_drop cfg ls1 l ls2 :
  caps_respected cfg (ls1 ++ l :: ls2) → caps_respected cfg (ls1 ++ ls2).
Proof.
  assert (Hf : ∀ P : ConnectionLease → Prop, ∀ dec : (∀ x, Decision (P x)),
    lenN (filter P (ls1 ++ ls2)) <= lenN (filter P (ls1 ++ l :: ls2))).
  { intros P dec. rewrite !filter_app, !lenN_app, filter_cons.
    destruct (decide (P l)); rewrite ?lenN_cons; lia. }
  assert (Hm : ∀ cap a b, a <= b → at_most cap b → at_most cap a).
  { intros ???? [|]; [by left|right; lia]. }
  intros (H1 & H2 & H3). split_and!.
  - eapply Hm; [|exact H1]. rewrite !lenN_app, lenN_cons. lia.
  - intros k. eapply Hm; [|apply (H2 k)]. apply Hf.
  - intros d. eapply Hm; [|apply (H3 d)]. apply Hf.
Qed.

Lemma caps_take cfg ls l :
  caps_respected cfg ls →
  below (max_global_connections cfg) (lenN ls) →
  below (max_conns_per_ip cfg) (lenN (leases_of_ip (lease_ip l) ls)) →
  below (max_conns_per_dest cfg) (lenN (leases_of_dest (lease_dest l) ls)) →
  caps_respected cfg (l :: ls).
Proof.
  intros (_ & H2 & H3) Hg Hi Hd. split_and!.
  - rewrite lenN_cons. destruct Hg; [by left|right; lia].
  - intros k. rewrite leases_of_ip_cons. destruct (decide _) as [<-|]; [|apply H2].
    destruct Hi; [by left|right; lia].
  - intros d. rewrite leases_of_dest_cons. destruct (decide _) as [<-|]; [|apply H3].
    destruct Hd; [by left|right; lia].
Qed.

(** *** The invariant of a world *)

Record world_ok (cfg : LimitsConfig) (w : World) : Prop := {
  wo_represents : represents cfg (w_now w) (w_history w) (w_limits w);
  wo_accounts : accounts (w_limits w) (w_leases w);
  wo_caps : caps_respected cfg (w_leases w);
  wo_windows : windows_respected cfg (w_history w);
}.

Lemma world_new_ok cfg now : world_ok cfg (world_new cfg now).
Proof.
  split; cbn.
  - apply represents_new.
  - by split.
  - split_and!; [right; rewrite lenN_nil; lia..| |]; intros ?; right; cbn; rewrite lenN_nil; lia.
  - intros a. split; [right; cbn; rewrite lenN_nil; lia|].
    intros k. split_and!; right; cbn; rewrite ?lenN_nil, ?size_empty; lia.
Qed.

Section steps.
  Context (cfg : LimitsConfig) (Hbytes : max_bytes_per_ip cfg < U64_MAX).

Lemma step_ok w w' : world_ok cfg w → limit_step w w' → world_ok cfg w'.
Proof using Hbytes.
  intros [Hr Ha Hc Hw] Hstep. pose proof (rep_cfg _ _ _ _ Hr) as Hcfg.
  destruct Hstep as [ip d now r g Hn E|ip d now r g Hn Hl E|ls1 l ls2 now Hn E|ip n t1 t2 r g H1 H2 E].
  - pose proof (record_attempt_represents _ _ _ _ _ ip d Hr Hn) as H. cbv zeta in H.
    pose proof (record_attempt_counts (w_limits w) ip d now) as Hs.
    rewrite E in H, Hs. unfold w_key. rewrite Hcfg. destruct H as [Hr' Hv].
    split; cbn; [done|by eapply accounts_same|done|].
    destruct r as [[]|e]; [|done]. cbn. apply windows_attempt; [|done|by destruct Hv as [|[? _]]].
    eapply chronological_later; [exact Hn|apply Hr].
  - pose proof (acquire_accounts _ _ ip d now Ha Hl) as H. cbv zeta in H.
    pose proof (represents_acquire _ _ _ _ ip d (represents_later _ _ _ _ _ Hn Hr)) as Hr'.
    rewrite E in H, Hr'. rewrite Hcfg in H.
    destruct r as [l|e]; [|by split; [..|apply H|done|done]].
    destruct H as (-> & Hg & Hi & Hd & Ha'). split; cbn; [done..| |done].
    by apply caps_take.
  - split; cbn; [| | |done].
    + eapply represents_release, represents_later; [exact Hn|done].
    + apply release_accounts. rewrite E in Ha. eapply accounts_perm; [|exact Ha].
      symmetry. apply Permutation_middle.
    + rewrite E in Hc. by eapply caps_drop.
  - pose proof (add_bytes_represents _ _ _ _ _ _ ip n Hr H1 H2 Hbytes) as H. cbv zeta in H.
    pose proof (add_bytes_counts (w_limits w) ip n t1 t2) as Hs.
    rewrite E in H, Hs. unfold w_key. rewrite Hcfg. destruct H as [Hr' Hv].
    split; cbn; [done|by eapply accounts_same|done|].
    destruct (charged cfg n); [|by rewrite andb_false_r]. cbn [andb] in Hv.
    destruct (N.ltb_spec (max_bytes_per_ip cfg)
      (live_bytes_of cfg t2 (limit_key ip (ipv4_prefix cfg) (ipv6_prefix cfg)) (w_history w) + n))
      as [Hb|Hb]; subst r; cbn; [done|].
    apply windows_transfer; [|done|done].
    eapply chronological_later; [|apply Hr]. lia.
Qed.

Lemma reachable_ok w : reachable cfg w → world_ok cfg w.
Proof using Hbytes.
  intros [now Hr]. remember (world_new cfg now) as w0 eqn:E0.
  assert (H0 : world_ok cfg w0) by (subst; apply world_new_ok). clear E0.
  induction Hr; [done|]. eauto using step_ok.
Qed.
End steps.

(** No lease, nothing counted. *)
Lemma accounts_nil g :
  accounts g [] → g_global_connections g = 0 ∧ g_per_dest g = ∅ ∧ ∀ k, st_connections (row g k) = 0.
Proof.
  intros [H1 H2 H3 H4]. split_and!; [done| |done].
  apply map_empty. intros d. specialize (H3 d). specialize (H4 d). unfold dest_count in H3.
  destruct (g_per_dest g !! d); [|done]. cbn in H3. by subst.
Qed.

(** *** The limit key *)

(** The network address of the [bits]-long prefix of a [w]-bit address. *)
Definition network (w bits x : N) : N := x / 2 ^ (w - N.min bits w) * 2 ^ (w - N.min bits w).

(** Two clients in one network. *)
Definition same_network (v4b v6b : N) (a b : IpAddr) : Prop :=
  match canonical a, canonical b with
  | V4 x, V4 y => v4_bits x / 2 ^ (32 - N.min v4b 32) = v4_bits y / 2 ^ (32 - N.min v4b 32)
  | V6 x, V6 y => v6_bits x / 2 ^ (128 - N.min v6b 128) = v6_bits y / 2 ^ (128 - N.min v6b 128)
  | _, _ => False
  end.

(** The three cases of the masking code are one. *)
Lemma mask_network w bits x :
  0 < w → x < 2 ^ w →
  (if N.min bits w =? w then x
   else N.land x (if N.min bits w =? 0 then 0 else prefix_mask w (N.min bits w)))
  = network w bits x.
Proof.
  intros Hw Hx. unfold network. destruct (N.eqb_spec (N.min bits w) w) as [->|Hn].
  { rewrite N.sub_diag. change (2 ^ 0) with 1. by rewrite N.div_1_r, N.mul_1_r. }
  destruct (N.eqb_spec (N.min bits w) 0) as [E0|Hz].
  { rewrite E0, N.sub_0_r, N.land_0_r, N.div_small; done. }
  apply land_prefix_mask; [lia|done].
Qed.

Lemma limit_key_v4_eq v4 v4b :
  wf4 v4 → limit_key_v4 v4 v4b = V4 (Ipv4 (network 32 v4b (v4_bits v4))).
Proof.
  intros Hw. rewrite <- mask_network by done. unfold limit_key_v4. cbv zeta.
  destruct (_ =? 32); [|done]. by destruct v4.
Qed.

Lemma limit_key_eq ip v4b v6b :
  wf_ip ip →
  limit_key ip v4b v6b =
    match canonical ip with
    | V4 v4 => V4 (Ipv4 (network 32 v4b (v4_bits v4)))
    | V6 v6 => V6 (Ipv6 (network 128 v6b (v6_bits v6)))
    end.
Proof.
  intros Hw. destruct ip as [v4|v6]; cbn [limit_key canonical]; [by apply limit_key_v4_eq|].
  destruct (to_ipv4_mapped v6) eqn:E.
  - apply limit_key_v4_eq. by eapply to_ipv4_mapped_wf.
  - rewrite <- mask_network by done. cbv zeta. destruct (_ =? 128); [|done]. by destruct v6.
Qed.

Lemma network_lt w bits x : x < 2 ^ w → network w bits x < 2 ^ w.
Proof.
  intros Hx. unfold network. set (p := 2 ^ (w - N.min bits w)).
  assert (Hp : p ≠ 0) by (by apply N.pow_nonzero).
  pose proof (N.Div0.mul_div_le x p). lia.
Qed.

Lemma network_idemp w bits x : network w bits (network w bits x) = network w bits x.
Proof.
  unfold network. set (p := 2 ^ (w - N.min bits w)).
  assert (Hp : p ≠ 0) by (by apply N.pow_nonzero). by rewrite N.div_mul.
Qed.

Lemma network_eq w bits x y :
  network w bits x = network w bits y ↔
  x / 2 ^ (w - N.min bits w) = y / 2 ^ (w - N.min bits w).
Proof. unfold network. rewrite N.mul_cancel_r; [done|]. by apply N.pow_nonzero. Qed.

(** Masking does not turn an address into an IPv4-mapped one. *)
Lemma network_not_mapped bits v6 :
  wf6 v6 → to_ipv4_mapped v6 = None → to_ipv4_mapped (Ipv6 (network 128 bits (v6_bits v6))) = None.
Proof.
  unfold to_ipv4_mapped. cbn [v6_bits]. intros Hw.
  destruct (N.eqb_spec (v6_bits v6 / 2 ^ 32) 0xffff) as [|Hm]; [done|]. intros _.
  destruct (N.eqb_spec (network 128 bits (v6_bits v6) / 2 ^ 32) 0xffff) as [E|]; [|done].
  exfalso. unfold network in E. set (k := 128 - N.min bits 128) in *.
  set (x := v6_bits v6) in *. apply Hm. revert E.
  destruct (N.le_gt_cases k 32) as [Hk|Hk].
  - replace 32 with (k + (32 - k)) by lia. rewrite N.pow_add_r, <- !N.Div0.div_div.
    rewrite N.div_mul by (by apply N.pow_nonzero). done.
  - assert (E : 2 ^ k = 2 ^ (k - 33) * 2 * 2 ^ 32).
    { change 2 with (2 ^ 1) at 3. rewrite <- !N.pow_add_r. f_equal. lia. }
    rewrite E at 2. rewrite !N.mul_assoc, N.div_mul by done. clear.
    set (q := x / 2 ^ k * 2 ^ (k - 33)). clearbody q. lia.
Qed.

Lemma canonical_limit_key ip v4b v6b :
  wf_ip ip → canonical (limit_key ip v4b v6b) = limit_key ip v4b v6b ∧ wf_ip (limit_key ip v4b v6b).
Proof.
  intros Hw. rewrite limit_key_eq by done. destruct ip as [v4|v6]; cbn [canonical].
  - split; [done|]. by apply network_lt.
  - destruct (to_ipv4_mapped v6) as [v4|] eqn:E; cbn [canonical].
    + split; [done|]. apply network_lt. by eapply to_ipv4_mapped_wf.
    + rewrite network_not_mapped by done. split; [done|]. by apply network_lt.
Qed.

(** ** A small world, for the witnesses *)

Definition demo_ip : IpAddr := V4 (v4_new 203 0 113 7).
Definition demo_dest : str := lit "imap.example.com:993".
Definition demo_world0 : World := world_new LimitsConfig_default 0.
Definition demo_world1 : World := {|
  w_limits := (record_attempt (w_limits demo_world0) demo_ip demo_dest 5).2;
  w_leases := [];
  w_history := [Attempted 5 demo_ip demo_dest];
  w_now := 5 |}.
Definition demo_world2 : World := {|
  w_limits := (acquire (w_limits demo_world1) demo_ip demo_dest 6).2;
  w_leases := [{| lease_ip := demo_ip; lease_dest := demo_dest |}];
  w_history := [Attempted 5 demo_ip demo_dest];
  w_now := 6 |}.

Lemma demo_reachable : reachable LimitsConfig_default demo_world2.
Proof.
  exists 0. apply rtc_l with demo_world1; [|apply rtc_once].
  - apply (step_record_attempt demo_world0 demo_ip demo_dest 5 (Ok tt)
      (w_limits demo_world1)); by vm_compute.
  - apply (step_acquire demo_world1 demo_ip demo_dest 6
      (Ok {| lease_ip := demo_ip; lease_dest := demo_dest |})
      (w_limits demo_world2)); by vm_compute.
Qed.

(** ** Properties *)

(** Connection accounting.  In every world reachable by any interleaving
    of attempts, acquisitions, lease drops and byte charges, the counters are
    exactly the live leases (globally, per masked address and per
    destination), the connection caps hold, and once every lease is dropped
    nothing is left counted. *)
Theorem leases_accounted cfg w :
  max_bytes_per_ip cfg < U64_MAX → reachable cfg w →
  let g := w_limits w in
  g_global_connections g = lenN (w_leases w)
  ∧ (∀ k, st_connections (row g k) = lenN (leases_of_ip k (w_leases w)))
  ∧ (∀ d, dest_count g d = lenN (leases_of_dest d (w_leases w)))
  ∧ caps_respected cfg (w_leases w)
  ∧ (w_leases w = [] → g_global_connections g = 0 ∧ g_per_dest g = ∅
       ∧ ∀ k, st_connections (row g k) = 0).
Proof.
  intros Hb Hr g. destruct (reachable_ok cfg Hb w Hr) as [_ Ha Hc _]. fold g in Ha.
  pose proof Ha as [H1 H2 H3 _]. split_and!; [done..|].
  intros E. rewrite E in Ha. by apply accounts_nil.
Qed.

Lemma leases_accounted_witness :
  st_connections (row (w_limits demo_world2) demo_ip) = 1.
Proof.
  destruct (leases_accounted LimitsConfig_default demo_world2) as (_ & H & _);
    [by vm_compute|apply demo_reachable|]. by rewrite H.
Defined.

(** Window caps.  In every reachable world, over every window of the
    configured length, wherever it starts, the attempts accepted globally, the
    attempts accepted from one masked address, the distinct destinations they
    named and the bytes charged to that address are all within their caps. *)
Theorem windows_bounded cfg w :
  max_bytes_per_ip cfg < U64_MAX → reachable cfg w →
  windows_respected cfg (w_history w).
Proof. intros Hb Hr. by apply (reachable_ok cfg Hb w Hr). Qed.

Lemma windows_bounded_witness : windows_respected LimitsConfig_default (w_history demo_world2).
Proof. apply windows_bounded; [by vm_compute|apply demo_reachable]. Defined.

(** C13: [record_attempt] refines a sliding window over the whole history: its
    verdict, error included, is the one that counting every accepted attempt
    still inside its window gives, whatever was pruned or collected before.
    The only other refusal is of an address without a row while
    [max_tracked_ips] rows, none of them idle, are tracked.  Only an accepted
    attempt enters the history. *)
Theorem record_attempt_refines cfg w ip d now :
  max_bytes_per_ip cfg < U64_MAX → reachable cfg w → w_now w <= now →
  let k := limit_key ip (ipv4_prefix cfg) (ipv6_prefix cfg) in
  let '(r, g') := record_attempt (w_limits w) ip d now in
  represents cfg now (if is_ok r then w_history w ++ [Attempted now k d] else w_history w) g'
  ∧ (attempt_verdict cfg (w_history w) now k d r
     ∨ r = Err GlobalConnectRate ∧ max_tracked_ips cfg ≠ 0
       ∧ max_tracked_ips cfg <= tracked_ip_count g' ∧ g_per_ip g' !! k = None
       ∧ map_Forall (λ _ st, is_idle st = false) (g_per_ip g')).
Proof.
  intros Hb Hr Hn k. destruct (reachable_ok cfg Hb w Hr) as [Hrep _ _ _].
  pose proof (record_attempt_represents cfg _ now _ _ ip d Hrep Hn) as H. cbv zeta in H.
  fold k in H. destruct (record_attempt (w_limits w) ip d now) as [r g'].
  destruct H as [H [Hv|(-> & Ht & g0 & ->)]]; (split; [done|]); [by left|right].
  split; [done|]. cbn [is_ok] in H. unfold tracked_full, contains_key, capped in Ht.
  rewrite (rep_cfg _ _ _ _ H) in Ht. bool_to_prop. unfold tracked_ip_count.
  split_and!; [done|done|by destruct (_ !! k)|].
  intros k' st. rewrite gc_lookup. destruct (g_per_ip g0 !! k'); [|done]. cbn.
  unfold retain_row. destruct (is_idle (prune _ _ _)) eqn:Ei; [done|]. by intros [= <-].
Qed.

Lemma record_attempt_refines_witness :
  attempt_verdict LimitsConfig_default (w_history demo_world2) 7 demo_ip demo_dest (Ok tt).
Proof.
  pose proof (record_attempt_refines LimitsConfig_default demo_world2 demo_ip demo_dest 7
    ltac:(by vm_compute) demo_reachable ltac:(by vm_compute)) as H.
  cbv zeta in H.
  assert (E : (record_attempt (w_limits demo_world2) demo_ip demo_dest 7).1 = Ok tt)
    by (vm_compute; reflexivity).
  destruct (record_attempt (w_limits demo_world2) demo_ip demo_dest 7) as [r g'].
  cbn [fst] in E. subst r. destruct H as [_ [H|(H & _)]]; [exact H|discriminate H].
Defined.

(** C26: [acquire] hands out a lease exactly when the live leases are below
    the global, the per-address and the per-destination cap; otherwise it
    names the first of these that is full.  A refusal counts nothing. *)
Theorem acquire_correct cfg w ip d now :
  max_bytes_per_ip cfg < U64_MAX → reachable cfg w → lenN (w_leases w) < U64_MAX →
  let ls := w_leases w in
  let k := limit_key ip (ipv4_prefix cfg) (ipv6_prefix cfg) in
  let global_ok := below (max_global_connections cfg) (lenN ls) in
  let ip_ok := below (max_conns_per_ip cfg) (lenN (leases_of_ip k ls)) in
  let dest_ok := below (max_conns_per_dest cfg) (lenN (leases_of_dest d ls)) in
  match acquire (w_limits w) ip d now with
  | (Ok l, g') => l = {| lease_ip := k; lease_dest := d |}
      ∧ global_ok ∧ ip_ok ∧ dest_ok ∧ accounts g' (l :: ls)
  | (Err e, g') => accounts g' ls ∧
      match e with
      | GlobalFull => ¬ global_ok
      | PerIpFull => global_ok ∧ ¬ ip_ok
      | PerDestFull => global_ok ∧ ip_ok ∧ ¬ dest_ok
      | _ => False
      end
  end.
Proof.
  intros Hb Hr Hl. destruct (reachable_ok cfg Hb w Hr) as [Hrep Ha _ _].
  pose proof (acquire_accounts _ _ ip d now Ha Hl) as H.
  by rewrite (rep_cfg _ _ _ _ Hrep) in H.
Qed.

Lemma acquire_correct_witness :
  ∃ l g', acquire (w_limits demo_world2) demo_ip demo_dest 7 = (Ok l, g')
    ∧ accounts g' (l :: w_leases demo_world2).
Proof.
  pose proof (acquire_correct LimitsConfig_default demo_world2 demo_ip demo_dest 7
    ltac:(by vm_compute) demo_reachable ltac:(by vm_compute)) as H.
  cbv zeta in H.
  assert (E : is_ok (acquire (w_limits demo_world2) demo_ip demo_dest 7).1 = true)
    by (vm_compute; reflexivity).
  destruct (acquire (w_limits demo_world2) demo_ip demo_dest 7) as [[l|e] g'];
    [|discriminate E].
  exists l, g'. split; [reflexivity|]. apply H.
Defined.

(** C22: [add_bytes] charges the sliding byte budget exactly: a charge is
    refused iff what was charged to the address within the window, plus the
    charge, exceeds the cap; the saturating running sum loses nothing as long
    as the cap is below [u64::MAX].  A refused charge is not counted. *)
Theorem add_bytes_correct cfg w ip n now_gc now :
  max_bytes_per_ip cfg < U64_MAX → reachable cfg w → w_now w <= now_gc → now_gc <= now →
  let h := w_history w in
  let k := limit_key ip (ipv4_prefix cfg) (ipv6_prefix cfg) in
  let '(r, g') := add_bytes (w_limits w) ip n now_gc now in
  represents cfg now (if is_ok r && charged cfg n then h ++ [Transferred now k n] else h) g'
  ∧ r = if charged cfg n && (max_bytes_per_ip cfg <? live_bytes_of cfg now k h + n)
        then Err ByteCap else Ok tt.
Proof.
  intros Hb Hr H1 H2. destruct (reachable_ok cfg Hb w Hr) as [Hrep _ _ _].
  by apply (add_bytes_represents _ _ _ _ _ _ ip n Hrep H1 H2 Hb).
Qed.

Lemma add_bytes_correct_witness :
  (add_bytes (w_limits demo_world2) demo_ip (2 ^ 30 + 1) 8 9).1 = Err ByteCap.
Proof.
  pose proof (add_bytes_correct LimitsConfig_default demo_world2 demo_ip (2 ^ 30 + 1) 8 9
    ltac:(by vm_compute) demo_reachable ltac:(by vm_compute) ltac:(by vm_compute)) as H.
  cbv zeta in H. destruct (add_bytes _ _ _ _ _) as [r g']. destruct H as [_ H].
  rewrite H. by vm_compute.
Defined.

(** C29: Garbage collection is unobservable.  After [gc_idle] every address
    has the row that pruning its old one gives (an absent row standing for an
    empty one), so no connection count, unexpired attempt, destination or
    byte is lost; an address with a live lease keeps its row, and every row
    that is kept has something in it. *)
Theorem gc_idle_preserves cfg w now k :
  max_bytes_per_ip cfg < U64_MAX → reachable cfg w → w_now w <= now →
  let g := w_limits w in
  row (gc_idle g now) k = prune (row g k) now cfg
  ∧ (leases_of_ip k (w_leases w) ≠ [] → is_Some (g_per_ip (gc_idle g now) !! k))
  ∧ (∀ st, g_per_ip (gc_idle g now) !! k = Some st → is_idle st = false).
Proof.
  intros Hb Hr Hn g. destruct (reachable_ok cfg Hb w Hr) as [Hrep Ha _ _].
  assert (Hrow : row (gc_idle g now) k = prune (row g k) now cfg).
  { rewrite gc_row by apply Hrep. unfold g. by rewrite (rep_cfg _ _ _ _ Hrep). }
  split_and!; [done| |].
  - intros Hl. destruct (g_per_ip (gc_idle g now) !! k) eqn:E; [done|]. exfalso. apply Hl.
    apply lenN_zero. rewrite <- (acc_ip _ _ Ha). fold g.
    rewrite <- (prune_connections _ now cfg), <- Hrow. unfold row. by rewrite E.
  - intros st. rewrite gc_lookup. destruct (g_per_ip g !! k); [|done]. cbn.
    unfold retain_row. destruct (is_idle (prune _ _ _)) eqn:Ei; [done|]. by intros [= <-].
Qed.

Lemma gc_idle_preserves_witness :
  is_Some (g_per_ip (gc_idle (w_limits demo_world2) (from_secs 4000)) !! demo_ip).
Proof.
  destruct (gc_idle_preserves LimitsConfig_default demo_world2 (from_secs 4000) demo_ip)
    as (_ & H & _); [by vm_compute|apply demo_reachable|by vm_compute|].
  apply H. by vm_compute.
Defined.

(** C28: [limit_key] identifies exactly the clients of one network: two
    addresses get one key iff they agree on the configured prefix, an
    IPv4-mapped IPv6 address counting as its IPv4 address.  Masking a key
    again changes nothing, so a lease can be released under its stored key. *)
Theorem limit_key_correct a b v4b v6b :
  wf_ip a → wf_ip b →
  (limit_key a v4b v6b = limit_key b v4b v6b ↔ same_network v4b v6b a b)
  ∧ limit_key (limit_key a v4b v6b) v4b v6b = limit_key a v4b v6b.
Proof.
  intros Ha Hb. split.
  - rewrite !limit_key_eq by done. unfold same_network.
    destruct (canonical a), (canonical b); (split; [intros [= H]|intros H]);
      try done; try (by apply network_eq); f_equal; f_equal; by apply network_eq.
  - destruct (canonical_limit_key a v4b v6b Ha) as [Hc Hw].
    rewrite (limit_key_eq _ _ _ Hw), Hc, (limit_key_eq a) by done.
    destruct (canonical a); cbn [v4_bits v6_bits]; by rewrite network_idemp.
Qed.

Lemma limit_key_correct_witness :
  limit_key (V6 (v6_new 0x2001 0xdb8 1 2 3 4 5 6)) 32 64
    = limit_key (V6 (v6_new 0x2001 0xdb8 1 2 7 8 9 10)) 32 64.
Proof. apply limit_key_correct; by vm_compute. Defined.

(** With [max_tracked_ips] set, [record_attempt] never grows the table of
    rows beyond that cap; only the size it already had may exceed it. *)
Theorem record_attempt_tracked g ip d now :
  max_tracked_ips (g_cfg g) ≠ 0 →
  tracked_ip_count (record_attempt g ip d now).2
    <= N.max (max_tracked_ips (g_cfg g)) (tracked_ip_count g).
Proof.
  intros Hcap. unfold record_attempt, tracked_ip_count. set (k := limit_key _ _ _).
  set (cap := max_tracked_ips (g_cfg g)) in *.
  set (g1 := prune_global (maybe_gc g now) now).
  assert (H1 : N.of_nat (size (g_per_ip g1)) <= N.of_nat (size (g_per_ip g)))
    by (apply (maybe_gc_size g now)).
  assert (Hc1 : max_tracked_ips (g_cfg g1) = cap).
  { unfold g1, maybe_gc. by destruct (_ || _). }
  pose proof (gc_size g1 now) as Hgc.
  destruct (tracked_full g1 k && tracked_full (gc_idle g1 now) k) eqn:Et; [cbn [snd]; lia|].
  set (g2 := if tracked_full g1 k then gc_idle g1 now else g1).
  assert (H2 : N.of_nat (size (g_per_ip g2)) <= N.of_nat (size (g_per_ip g))
    ∧ tracked_full g2 k = false ∧ max_tracked_ips (g_cfg g2) = cap).
  { unfold g2. destruct (tracked_full g1 k) eqn:E; [|done]. split; [lia|done]. }
  destruct H2 as (H2 & Hf & Hc2).
  assert (Hins : ∀ st, N.of_nat (size (<[k := st]> (g_per_ip g2)))
    <= N.max cap (N.of_nat (size (g_per_ip g)))).
  { intros st. pose proof (insert_size g2 k st) as Hi. unfold tracked_full, capped in Hf.
    rewrite Hc2 in Hf. destruct (contains_key g2 k); [lia|]. cbn [negb] in Hf.
    rewrite andb_true_r in Hf. apply andb_false_iff in Hf as [Hf|Hf]; bool_to_prop; lia. }
  destruct (capped _ _); [cbn [snd]; lia|].
  destruct (capped _ _); [apply Hins|]. destruct (too_many_dests _ _ _); [apply Hins|].
  cbn [snd set_global_connects set_per_ip g_per_ip]. rewrite insert_insert_eq. apply Hins.
Qed.

Lemma record_attempt_tracked_witness :
  tracked_ip_count (record_attempt (w_limits demo_world2) (V4 (v4_new 8 8 8 8)) demo_dest 7).2
    <= N.max 50000 1.
Proof.
  exact (record_attempt_tracked (w_limits demo_world2) (V4 (v4_new 8 8 8 8)) demo_dest 7
    ltac:(by vm_compute)).
Defined.
