(* ===== verification/LimitsTyped.v ===== *)
(** * The well-formed states of the limits

    What Rust's types and the masking of addresses promise of [Inner] and the
    model's unbounded numbers do not: counters stay within 64 bits, every row
    of the per-address table stands under a well-formed address that is its own
    limit key.  Every operation preserves it. *)

From S2P Require Import Prelude RustStr Net Dest Limits LimitsSpec.
#[local] Open Scope N_scope.

Definition row_typed (st : IpState) : Prop :=
  st_connections st < 2 ^ 64 ∧ st_bytes_sum st < 2 ^ 64.

(** A well-formed address that limits are kept under. *)
Definition key_typed (cfg : LimitsConfig) (k : IpAddr) : Prop :=
  wf_ip k ∧ limit_key k (ipv4_prefix cfg) (ipv6_prefix cfg) = k.

Definition rows_typed (cfg : LimitsConfig) (m : gmap IpAddr IpState) : Prop :=
  map_Forall (λ k st, key_typed cfg k ∧ row_typed st) m.

Definition dests_typed (m : gmap str N) : Prop := map_Forall (λ _ c, c < 2 ^ 64) m.

Record limits_typed (cfg : LimitsConfig) (g : Inner) : Prop := {
  lt_cfg : g_cfg g = cfg;
  lt_global : g_global_connections g < 2 ^ 64;
  lt_rows : rows_typed cfg (g_per_ip g);
  lt_dests : dests_typed (g_per_dest g);
}.

Definition lease_typed (cfg : LimitsConfig) (l : ConnectionLease) : Prop :=
  key_typed cfg (lease_ip l).

(** ** Rows and keys *)

Lemma wrap_add64_lt a b : wrap_add64 a b < 2 ^ 64.
Proof. apply N.mod_lt. done. Qed.

Lemma sat_add64_lt a b : sat_add64 a b < 2 ^ 64.
Proof. unfold sat_add64. assert (U64_MAX < 2 ^ 64) by done. lia. Qed.

Lemma row_typed_default : row_typed IpState_default.
Proof. done. Qed.

Lemma prune_bytes_le q sum now w : (prune_bytes q sum now w).2 <= sum.
Proof.
  revert sum. induction q as [|[t n] q IH]; intros sum; cbn [prune_bytes]; [done|].
  destruct (w <? _); [|done]. etrans; [apply IH|unfold sat_sub; lia].
Qed.

Lemma row_typed_prune st now cfg : row_typed st → row_typed (prune st now cfg).
Proof.
  unfold prune. intros [Hc Hb].
  pose proof (prune_bytes_le (st_bytes st) (st_bytes_sum st) now (bytes_window cfg)) as H.
  destruct (prune_bytes _ _ _ _) as [q sum]. cbn [snd] in H. split; cbn; [done|lia].
Qed.

Lemma limit_key_idemp ip v4b v6b :
  wf_ip ip → limit_key (limit_key ip v4b v6b) v4b v6b = limit_key ip v4b v6b.
Proof.
  intros Ha. destruct (canonical_limit_key ip v4b v6b Ha) as [Hc Hw].
  rewrite (limit_key_eq _ _ _ Hw), Hc, (limit_key_eq ip) by done.
  destruct (canonical ip); cbn [v4_bits v6_bits]; by rewrite network_idemp.
Qed.

Lemma key_typed_limit_key cfg ip :
  wf_ip ip → key_typed cfg (limit_key ip (ipv4_prefix cfg) (ipv6_prefix cfg)).
Proof. intros Hw. split; [by apply canonical_limit_key|by apply limit_key_idemp]. Qed.

Section operations.
  Context (cfg : LimitsConfig).
  Implicit Types (g : Inner) (k : IpAddr).

Lemma rows_typed_row g k : rows_typed cfg (g_per_ip g) → row_typed (row g k).
Proof.
  intros H. unfold row. destruct (g_per_ip g !! k) as [st|] eqn:E; [|apply row_typed_default].
  by apply (H k st E).
Qed.

Lemma rows_typed_insert m k st :
  key_typed cfg k → row_typed st → rows_typed cfg m → rows_typed cfg (<[k := st]> m).
Proof. intros Hk Hs Hm. by apply map_Forall_insert_2. Qed.

(** Operations on the table keep the rest. *)
Lemma typed_per_ip g m :
  limits_typed cfg g → rows_typed cfg m → limits_typed cfg (set_per_ip g m).
Proof. by intros [????] Hm. Qed.

Lemma typed_put g k st :
  limits_typed cfg g → key_typed cfg k → row_typed st →
  limits_typed cfg (set_per_ip g (<[k := st]> (g_per_ip g))).
Proof. intros H Hk Hs. apply typed_per_ip, rows_typed_insert; [done..|apply H]. Qed.

Lemma typed_row g k : limits_typed cfg g → row_typed (row g k).
Proof. intros H. apply rows_typed_row, H. Qed.

Lemma typed_prune_global g now : limits_typed cfg g → limits_typed cfg (prune_global g now).
Proof. by intros [????]. Qed.

Lemma typed_global_connects g q : limits_typed cfg g → limits_typed cfg (set_global_connects g q).
Proof. by intros [????]. Qed.

Lemma typed_gc g now : limits_typed cfg g → limits_typed cfg (gc_idle g now).
Proof.
  intros H. pose proof (typed_prune_global _ now H) as [H1 H2 H3 H4]. split; [done..| |done].
  cbn. intros k st (st0 & E & Hr)%lookup_omap_Some. destruct (H3 k st0 Hr) as [Hk Hs].
  split; [done|]. unfold retain_row in E. destruct (negb _); [|done]. injection E as <-.
  by apply row_typed_prune.
Qed.

Lemma typed_maybe_gc g now : limits_typed cfg g → limits_typed cfg (maybe_gc g now).
Proof. unfold maybe_gc. destruct (_ || _); [apply typed_gc|done]. Qed.
End operations.

#[export] Hint Resolve typed_put typed_row typed_prune_global typed_global_connects typed_gc
  typed_maybe_gc row_typed_prune key_typed_limit_key wrap_add64_lt sat_add64_lt : proxy.

Lemma typed_new cfg now : limits_typed cfg (LimitState_new cfg now).
Proof. split; [done|done|apply map_Forall_empty..]. Qed.

(** ** The operations *)

Section preserved.
  Context (cfg : LimitsConfig).

Lemma typed_record_attempt g ip d now :
  limits_typed cfg g → wf_ip ip → limits_typed cfg (record_attempt g ip d now).2.
Proof.
  intros Hg Hw. unfold record_attempt. rewrite (lt_cfg _ _ Hg).
  pose proof (key_typed_limit_key cfg ip Hw) as Hk. set (k := limit_key _ _ _) in *.
  set (g1 := prune_global _ _). assert (H1 : limits_typed cfg g1) by (unfold g1; auto with proxy).
  destruct (tracked_full g1 k && _); [cbn; auto with proxy|].
  set (g2 := if tracked_full g1 k then _ else _).
  assert (H2 : limits_typed cfg g2) by (unfold g2; destruct (tracked_full _ _); auto with proxy).
  destruct (capped _ _); [done|].
  assert (Hst : row_typed (prune (row g2 k) now cfg)) by eauto with proxy.
  destruct (capped _ _); [cbn; auto with proxy|].
  destruct (too_many_dests _ _ _); cbn [snd]; auto 10 with proxy.
Qed.

Lemma typed_acquire g ip d now :
  limits_typed cfg g → wf_ip ip →
  limits_typed cfg (acquire g ip d now).2
  ∧ ∀ l, (acquire g ip d now).1 = Ok l → lease_typed cfg l.
Proof.
  intros Hg Hw. unfold acquire. rewrite (lt_cfg _ _ Hg).
  pose proof (key_typed_limit_key cfg ip Hw) as Hk. set (k := limit_key _ _ _) in *.
  set (g1 := maybe_gc _ _). assert (H1 : limits_typed cfg g1) by (unfold g1; auto with proxy).
  destruct (capped _ _); [by split|].
  assert (H2 : limits_typed cfg (or_default g1 k)) by (unfold or_default; eauto with proxy).
  destruct (capped _ _); [by split|]. destruct (capped _ _); [by split|].
  split; [|by intros l [= <-]]. cbn [snd]. set (g2 := or_default g1 k) in *.
  pose proof (typed_row cfg g2 k H2) as [_ Hb]. destruct H2 as [C1 C2 C3 C4].
  split; [done|apply wrap_add64_lt|..]; cbn.
  - apply rows_typed_insert; [done| |done]. split; [apply wrap_add64_lt|done].
  - intros d' c'. destruct (decide (d' = d)) as [->|Hd];
      [rewrite lookup_insert_eq|rewrite lookup_insert_ne by done; apply C4].
    intros [= <-]. apply wrap_add64_lt.
Qed.

Lemma typed_release_row g ip now :
  limits_typed cfg g → limits_typed cfg (release_row g ip now).
Proof.
  intros Hg. unfold release_row. destruct (g_per_ip g !! ip) as [st|] eqn:E; [|done].
  destruct (lt_rows _ _ Hg ip st E) as [Hk [Hc Hb]]. cbv zeta.
  destruct (is_idle _).
  - apply typed_per_ip; [done|]. apply map_Forall_delete, Hg.
  - apply typed_put; [done..|]. apply row_typed_prune. split; cbn; [unfold sat_sub; lia|done].
Qed.

Lemma typed_release_dest g d : limits_typed cfg g → limits_typed cfg (release_dest g d).
Proof.
  intros [C1 C2 C3 C4]. unfold release_dest. destruct (g_per_dest g !! d) as [c|] eqn:E; [|done].
  pose proof (C4 d c E) as Hc. cbn in Hc. destruct (_ =? 0); (split; [done..|]); cbn.
  - by apply map_Forall_delete.
  - apply map_Forall_insert_2; [unfold sat_sub; lia|done].
Qed.

Lemma typed_release g ip d now : limits_typed cfg g → limits_typed cfg (release g ip d now).
Proof.
  intros [C1 C2 C3 C4]. rewrite release_eq. apply typed_release_dest, typed_release_row.
  split; cbn; [done|unfold sat_sub; lia|done..].
Qed.

Lemma typed_add_bytes g ip n t1 t2 :
  limits_typed cfg g → wf_ip ip → limits_typed cfg (add_bytes g ip n t1 t2).2.
Proof.
  intros Hg Hw. unfold add_bytes. destruct (n =? 0); [done|]. rewrite (lt_cfg _ _ Hg).
  pose proof (key_typed_limit_key cfg ip Hw) as Hk. set (k := limit_key _ _ _) in *.
  assert (H1 : limits_typed cfg (maybe_gc g t1)) by auto with proxy.
  destruct (max_bytes_per_ip cfg =? 0); [done|].
  assert (Hst : row_typed (prune (row (maybe_gc g t1) k) t2 cfg)) by eauto with proxy.
  destruct (_ <? _); cbn [snd]; [by auto with proxy|].
  apply typed_put; [by auto with proxy|done|]. split; [apply Hst|apply sat_add64_lt].
Qed.
End preserved.
