(* ===== verification/Metrics.v ===== *)
(** * Metrics ([src/metrics.rs])

    Reject reasons, error kinds and port classes, the conversions from the
    errors of the other components, and the increments, as a log of the calls
    in their order.  A counter's value is the number of its increments, a
    gauge's its increments less its decrements; [Registry] performs the calls
    on the metrics themselves. *)

From S2P Require Import Prelude Dest Limits.
From Stdlib Require Import ZArith.
#[local] Open Scope N_scope.

(** [metrics::Error] *)
Inductive MError := MHandshake | MRead | MSend | MShutdown | MTimeout.

#[export] Instance MError_eq_dec : EqDecision MError.
Proof. solve_decision. Defined.

Inductive RejectReason :=
| RAuth | RInvalidRemote | RBadPort | RIpLiteral | RPrivateIp | RDns | RConnect
| RConnectRate | RGlobalConnectRate | RDistinctDests | RGlobalFull | RPerIpFull | RPerDestFull
| RProto | RByteCap | RLifetime | RBadOrigin | RBadHost.

#[export] Instance RejectReason_eq_dec : EqDecision RejectReason.
Proof. solve_decision. Defined.

(** [impl From<DestError> for RejectReason] *)
Definition reject_of_dest (e : DestError) : RejectReason :=
  match e with
  | InvalidRemote => RInvalidRemote
  | BadPort => RBadPort
  | IpLiteral => RIpLiteral
  | PrivateIp => RPrivateIp
  | Dns => RDns
  | Connect => RConnect
  end.

(** [impl From<LimitError> for RejectReason] *)
Definition reject_of_limit (e : LimitError) : RejectReason :=
  match e with
  | GlobalFull => RGlobalFull
  | PerIpFull => RPerIpFull
  | PerDestFull => RPerDestFull
  | ConnectRate => RConnectRate
  | GlobalConnectRate => RGlobalConnectRate
  | DistinctDests => RDistinctDests
  | ByteCap => RByteCap
  end.

Inductive PortClass := PImap | PImaps | PSmtps | PSubmission | POther.

#[export] Instance PortClass_eq_dec : EqDecision PortClass.
Proof. solve_decision. Defined.

Definition from_port (port : N) : PortClass :=
  if port =? 143 then PImap
  else if port =? 993 then PImaps
  else if port =? 465 then PSmtps
  else if port =? 587 then PSubmission
  else POther.

(** One call on the registry's metrics. *)
Inductive MetricOp :=
| ActiveInc                      (** [active_connections.inc()] *)
| ActiveDec                      (** [active_connections.dec()] *)
| ConnectionsInc (p : PortClass) (** [connections{port}.inc()] *)
| TcpErrorInc (e : MError)       (** [tcp_errors{error}.inc()] *)
| WsErrorInc (e : MError)        (** [ws_errors{error}.inc()] *)
| RejectInc (r : RejectReason)   (** [rejects{reason}.inc()] *)
| DurationObserve.               (** [connection_duration.observe(..)] *)

#[export] Instance MetricOp_eq_dec : EqDecision MetricOp.
Proof. solve_decision. Defined.

Definition inc_tcp_error (error : MError) : MetricOp := TcpErrorInc error.
Definition inc_tcp_timeout (error : MError) : MetricOp := TcpErrorInc error.
Definition inc_ws_error (error : MError) : MetricOp := WsErrorInc error.
Definition inc_reject (reason : RejectReason) : MetricOp := RejectInc reason.

(** [ScopeGauge::new], its [Drop], and the [Drop] of [ScopeDuration]. *)
Definition ScopeGauge_new : MetricOp := ActiveInc.
Definition ScopeGauge_drop : MetricOp := ActiveDec.
Definition ScopeDuration_drop : MetricOp := DurationObserve.

(** ** Values *)

Definition count (op : MetricOp) (log : list MetricOp) : N := lenN (filter (λ o, o = op) log).

Definition active_connections (log : list MetricOp) : Z :=
  (Z.of_N (count ActiveInc log) - Z.of_N (count ActiveDec log))%Z.

(** The log's rejects, in order. *)
Definition rejects (log : list MetricOp) : list RejectReason :=
  omap (λ o, match o with RejectInc r => Some r | _ => None end) log.

(** The port classes of the connections that were opened. *)
Definition opened (log : list MetricOp) : list PortClass :=
  omap (λ o, match o with ConnectionsInc p => Some p | _ => None end) log.

Lemma opened_app l k : opened (l ++ k) = opened l ++ opened k.
Proof. apply omap_app. Qed.

Lemma count_opened p log : count (ConnectionsInc p) log = lenN (filter (λ q, q = p) (opened log)).
Proof.
  unfold count. induction log as [|o log IH]; [done|]. rewrite filter_cons.
  destruct o as [| |q| | | |]; cbn [opened omap list_omap]; try (by rewrite decide_False by done).
  rewrite filter_cons. destruct (decide (q = p)) as [->|Hq].
  - rewrite decide_True by done. rewrite !lenN_cons. f_equal. exact IH.
  - rewrite decide_False by congruence. exact IH.
Qed.

Lemma count_app op l k : count op (l ++ k) = count op l + count op k.
Proof. unfold count. by rewrite filter_app, lenN_app. Qed.

Lemma count_cons op o l : count op (o :: l) = (if decide (o = op) then 1 else 0) + count op l.
Proof. unfold count. rewrite filter_cons. destruct (decide _); [by rewrite lenN_cons|lia]. Qed.

Lemma rejects_app l k : rejects (l ++ k) = rejects l ++ rejects k.
Proof. apply omap_app. Qed.

Lemma reject_of_dest_inj a b : reject_of_dest a = reject_of_dest b → a = b.
Proof. by destruct a, b. Qed.

Lemma reject_of_limit_inj a b : reject_of_limit a = reject_of_limit b → a = b.
Proof. by destruct a, b. Qed.

#[export] Hint Rewrite count_app count_cons rejects_app opened_app : proxy.
