(* ===== verification/Config.v ===== *)
(** * Configuration and startup ([src/config.rs], [src/main.rs],
    [src/logging.rs])

    The configuration record and its defaults, the safety check for public
    hosting, CIDR and list parsing, the environment readers, and the part of
    [main] that decides whether the process starts.

    The environment is a function from names to values that are set and valid
    UTF-8 ([std::env::var(..).ok()]).  [PasetoKey] and the conversion of 32
    bytes to a key are those of [rusty_paseto]; [Level] and its parser those
    of [slog].  [log_level], a field that the code never reads, is left out of
    the record. *)

From stdpp Require Import sets.
From S2P Require Import Prelude RustStr Net Dest Limits.
#[local] Open Scope N_scope.

Inductive AuthMode := Paseto | Public.

#[export] Instance AuthMode_eq_dec : EqDecision AuthMode.
Proof. solve_decision. Defined.

(** ** CIDR prefixes *)

Record Cidr := { cidr_addr : IpAddr; cidr_bits : N }.

#[export] Instance Cidr_eq_dec : EqDecision Cidr.
Proof. solve_decision. Defined.

Definition Cidr_parse (raw : str) : option Cidr :=
  let raw := trim raw in
  match split_once "/"%byte raw with
  | Some (a, b) =>
      addr ← parse_ip_addr a;
      bits ← parse_u8 b;
      let max := if is_ipv4 addr then 32 else 128 in
      if max <? bits then None else Some {| cidr_addr := addr; cidr_bits := bits |}
  | None =>
      addr ← parse_ip_addr raw;
      let bits := if is_ipv4 addr then 32 else 128 in
      Some {| cidr_addr := addr; cidr_bits := bits |}
  end.

(** The comparison of two IPv4 addresses in [Cidr::contains]. *)
Definition contains_v4 (prefix : Ipv4Addr) (bits : N) (x : Ipv4Addr) : bool :=
  let mask := if bits =? 0 then 0 else prefix_mask 32 bits in
  N.land (v4_bits x) mask =? N.land (v4_bits prefix) mask.

Definition contains (self : Cidr) (ip : IpAddr) : bool :=
  match cidr_addr self, ip with
  | V4 prefix, V4 x => contains_v4 prefix (cidr_bits self) x
  | V6 prefix, V6 x =>
      match to_ipv4_mapped prefix, to_ipv4_mapped x with
      | Some p4, Some x4 => contains_v4 p4 (N.min (cidr_bits self) 32) x4
      | _, _ =>
          let mask := if cidr_bits self =? 0 then 0 else prefix_mask 128 (cidr_bits self) in
          N.land (v6_bits x) mask =? N.land (v6_bits prefix) mask
      end
  | V4 prefix, V6 x =>
      match to_ipv4_mapped x with
      | Some v4 => contains_v4 prefix (cidr_bits self) v4
      | None => false
      end
  | V6 _, V4 _ => false
  end.

Definition parse_cidrs (raw : str) : list Cidr := omap Cidr_parse (split ","%byte raw).

(** ** Lists and names *)

Definition parse_allowed_ports (raw : str) : option (gset N) :=
  let raw := trim raw in
  if bool_decide (raw = []) then Some (list_to_set DEFAULT_ALLOWED_PORTS) else
  if eq_ignore_ascii_case raw (lit "any") || bool_decide (raw = lit "*") then None else
  Some (foldl (λ set part,
    let part := trim part in
    if bool_decide (part = []) then set else
    match parse_u16 part with
    | Some p => if negb (p =? 0) then {[p]} ∪ set else set
    | None => set
    end) ∅ (split ","%byte raw)).

Definition parse_csv_set (raw : str) : gset str :=
  list_to_set (filter (λ s, s ≠ []) (trim <$> split ","%byte raw)).

Definition normalize_host (host : str) : str :=
  to_ascii_lowercase (trim_end_matches "."%byte (trim host)).

Definition normalize_origin (origin : str) : str :=
  let origin := trim origin in
  if bool_decide (origin = lit "*") then lit "*" else
  match split_once_str (lit "://") origin with
  | Some (scheme, rest) => to_ascii_lowercase scheme ++ lit "://" ++ normalize_host rest
  | None => to_ascii_lowercase origin
  end.

(** ** The configuration *)

Section config.
  Context {PasetoKey : Type}.

Record Config := {
  bind_addr : str;
  listen_port : N;
  secret_key : option PasetoKey;
  metrics_auth_key : option str;
  metrics_bind : option str;
  auth_mode : AuthMode;
  ws_idle_timeout : Duration;
  ws_write_timeout : Duration;
  tcp_write_timeout : Duration;
  tcp_connect_timeout : Duration;
  dns_timeout : Duration;
  dest : DestPolicy;
  limits : LimitsConfig;
  max_bytes_per_connection : N;
  max_lifetime : Duration;
  trust_forwarded_client_ip : bool;
  trusted_proxies : list Cidr;
  require_protocol_probe : bool;
  allowed_origins : gset str;
  allowed_hosts : gset str;
  ws_max_message_bytes : N;
  ws_max_frame_bytes : N;
  paseto_max_ttl : Duration;
}.

Definition Config_default : Config := {|
  bind_addr := lit "0.0.0.0";
  listen_port := 9400;
  secret_key := None;
  metrics_auth_key := None;
  metrics_bind := None;
  auth_mode := Paseto;
  ws_idle_timeout := from_secs 30;
  ws_write_timeout := from_secs 30;
  tcp_write_timeout := from_secs 30;
  tcp_connect_timeout := from_secs 30;
  dns_timeout := from_secs 5;
  dest := DestPolicy_default;
  limits := LimitsConfig_default;
  max_bytes_per_connection := 250 * 1024 * 1024;
  max_lifetime := from_secs (24 * 3600);
  trust_forwarded_client_ip := false;
  trusted_proxies := [];
  require_protocol_probe := true;
  allowed_origins := ∅;
  allowed_hosts := ∅;
  ws_max_message_bytes := 1024 * 1024;
  ws_max_frame_bytes := 256 * 1024;
  paseto_max_ttl := from_secs 3600;
|}.

Definition Config_for_tests : Config := {|
  bind_addr := bind_addr Config_default;
  listen_port := listen_port Config_default;
  secret_key := secret_key Config_default;
  metrics_auth_key := metrics_auth_key Config_default;
  metrics_bind := metrics_bind Config_default;
  auth_mode := auth_mode Config_default;
  ws_idle_timeout := ws_idle_timeout Config_default;
  ws_write_timeout := ws_write_timeout Config_default;
  tcp_write_timeout := tcp_write_timeout Config_default;
  tcp_connect_timeout := tcp_connect_timeout Config_default;
  dns_timeout := dns_timeout Config_default;
  dest := DestPolicy_unrestricted;
  limits := LimitsConfig_unlimited;
  max_bytes_per_connection := 0;
  max_lifetime := 0;
  trust_forwarded_client_ip := trust_forwarded_client_ip Config_default;
  trusted_proxies := trusted_proxies Config_default;
  require_protocol_probe := false;
  allowed_origins := allowed_origins Config_default;
  allowed_hosts := allowed_hosts Config_default;
  ws_max_message_bytes := ws_max_message_bytes Config_default;
  ws_max_frame_bytes := ws_max_frame_bytes Config_default;
  paseto_max_ttl := paseto_max_ttl Config_default;
|}.

(** [if unlimited { errors.push(msg) }] *)
Definition push_if (unsafe : bool) (msg : str) (errors : list str) : list str :=
  if unsafe then errors ++ [msg] else errors.

(** The array [caps] of [public_safety_errors]. *)
Definition safety_caps (self : Config) : list (str * bool) :=
  [ (lit "MAILINER_MAX_GLOBAL_CONNECTIONS", max_global_connections (limits self) =? 0);
    (lit "MAILINER_MAX_CONNS_PER_IP", max_conns_per_ip (limits self) =? 0);
    (lit "MAILINER_CONNECTS_PER_IP_PER_MIN", connects_per_ip (limits self) =? 0);
    (lit "MAILINER_MAX_BYTES_PER_CONNECTION", max_bytes_per_connection self =? 0);
    (lit "MAILINER_MAX_BYTES_PER_IP_PER_HOUR", max_bytes_per_ip (limits self) =? 0);
    (lit "MAILINER_MAX_LIFETIME_SECS", max_lifetime self =? 0) ].

Definition public_safety_errors (self : Config) : list str :=
  let errors := [] in
  let errors := push_if (bool_decide (allowed_ports (dest self) = None))
    (lit "MAILINER_ALLOWED_PORTS=any/* opens every TCP port") errors in
  let errors := push_if (allow_private_destinations (dest self))
    (lit "MAILINER_ALLOW_PRIVATE_DESTS=1 enables SSRF to RFC1918/loopback") errors in
  let errors := push_if (allow_ip_literals (dest self))
    (lit "MAILINER_ALLOW_IP_LITERALS=1 allows raw IP destinations") errors in
  let errors := push_if (negb (require_protocol_probe self))
    (lit "MAILINER_REQUIRE_PROTOCOL_PROBE=0 disables the mail-protocol probes") errors in
  let errors := push_if
    (trust_forwarded_client_ip self && bool_decide (trusted_proxies self = []))
    (lit "MAILINER_TRUST_FORWARDED_CLIENT_IP=1 requires MAILINER_TRUSTED_PROXIES") errors in
  let errors := push_if
    (bool_decide (auth_mode self = Public)
     && (bool_decide (allowed_origins self = ∅) || bool_decide (lit "*" ∈ allowed_origins self)))
    (lit "MAILINER_AUTH=public requires MAILINER_ALLOWED_ORIGINS (not *)") errors in
  foldl (λ errors '(name, unlimited),
    push_if unlimited (name ++ lit "=0 disables that cap") errors) errors (safety_caps self).

(** ** The environment *)

Definition Env : Type := str → option str.

Definition env_bool (env : Env) (key : str) (default : bool) : bool :=
  match env key with
  | Some v =>
      let v := to_ascii_lowercase (trim v) in
      bool_decide (v = lit "1") || bool_decide (v = lit "true")
      || bool_decide (v = lit "yes") || bool_decide (v = lit "on")
  | None => default
  end.

Definition env_u64 (env : Env) (key : str) (default : N) : N :=
  match env key ≫= parse_u64 with Some v => v | None => default end.

(** [usize] is 64 bits wide. *)
Definition env_usize (env : Env) (key : str) (default : N) : N :=
  match env key ≫= parse_u64 with Some v => v | None => default end.

(** [Duration::as_secs] *)
Definition as_secs (d : Duration) : N := d / 1000000000.

Definition env_secs (env : Env) (key : str) (default : Duration) : Duration :=
  match env key with
  | Some v => from_secs (match parse_u64 v with Some n => n | None => as_secs default end)
  | None => default
  end.

Definition parse_auth_mode (env : Env) : AuthMode :=
  let v := match env (lit "MAILINER_AUTH") with Some v => v | None => [] end in
  if bool_decide (to_ascii_lowercase v = lit "public") then Public else Paseto.

(** [v.clamp(0, max) as u8] *)
Definition clamp_u8 (v max : N) : N := N.min v max mod 2 ^ 8.

Definition apply_env_dest (env : Env) (d : DestPolicy) : DestPolicy := {|
  allowed_ports :=
    match env (lit "MAILINER_ALLOWED_PORTS") with
    | Some raw => parse_allowed_ports raw
    | None => allowed_ports d
    end;
  allow_private_destinations :=
    env_bool env (lit "MAILINER_ALLOW_PRIVATE_DESTS") (allow_private_destinations d);
  allow_ip_literals := env_bool env (lit "MAILINER_ALLOW_IP_LITERALS") (allow_ip_literals d);
|}.

Definition apply_env_limits (env : Env) (l : LimitsConfig) : LimitsConfig := {|
  max_global_connections :=
    env_usize env (lit "MAILINER_MAX_GLOBAL_CONNECTIONS") (max_global_connections l);
  max_conns_per_ip := env_usize env (lit "MAILINER_MAX_CONNS_PER_IP") (max_conns_per_ip l);
  max_conns_per_dest := env_usize env (lit "MAILINER_MAX_CONNS_PER_DEST") (max_conns_per_dest l);
  connects_per_ip := env_usize env (lit "MAILINER_CONNECTS_PER_IP_PER_MIN") (connects_per_ip l);
  connects_per_ip_window := connects_per_ip_window l;
  distinct_dests_per_ip :=
    env_usize env (lit "MAILINER_DISTINCT_DESTS_PER_IP_PER_MIN") (distinct_dests_per_ip l);
  distinct_dests_window := distinct_dests_window l;
  global_connects := env_usize env (lit "MAILINER_GLOBAL_CONNECTS_PER_SEC") (global_connects l);
  global_connects_window := global_connects_window l;
  max_bytes_per_ip :=
    env_u64 env (lit "MAILINER_MAX_BYTES_PER_IP_PER_HOUR") (max_bytes_per_ip l);
  bytes_window := bytes_window l;
  ipv4_prefix := clamp_u8 (env_usize env (lit "MAILINER_LIMIT_IPV4_PREFIX") (ipv4_prefix l)) 32;
  ipv6_prefix := clamp_u8 (env_usize env (lit "MAILINER_LIMIT_IPV6_PREFIX") (ipv6_prefix l)) 128;
  max_tracked_ips := env_usize env (lit "MAILINER_MAX_TRACKED_IPS") (max_tracked_ips l);
|}.

Definition apply_env (env : Env) (config : Config) : Config := {|
  bind_addr := bind_addr config;
  listen_port := listen_port config;
  secret_key := secret_key config;
  metrics_auth_key := metrics_auth_key config;
  metrics_bind := metrics_bind config;
  auth_mode := parse_auth_mode env;
  ws_idle_timeout := ws_idle_timeout config;
  ws_write_timeout := ws_write_timeout config;
  tcp_write_timeout := tcp_write_timeout config;
  tcp_connect_timeout := tcp_connect_timeout config;
  dns_timeout := env_secs env (lit "MAILINER_DNS_TIMEOUT_SECS") (dns_timeout config);
  dest := apply_env_dest env (dest config);
  limits := apply_env_limits env (limits config);
  max_bytes_per_connection :=
    env_u64 env (lit "MAILINER_MAX_BYTES_PER_CONNECTION") (max_bytes_per_connection config);
  max_lifetime := env_secs env (lit "MAILINER_MAX_LIFETIME_SECS") (max_lifetime config);
  trust_forwarded_client_ip :=
    env_bool env (lit "MAILINER_TRUST_FORWARDED_CLIENT_IP") (trust_forwarded_client_ip config);
  trusted_proxies :=
    match env (lit "MAILINER_TRUSTED_PROXIES") with
    | Some raw => parse_cidrs raw
    | None => trusted_proxies config
    end;
  require_protocol_probe :=
    env_bool env (lit "MAILINER_REQUIRE_PROTOCOL_PROBE") (require_protocol_probe config);
  allowed_origins :=
    match env (lit "MAILINER_ALLOWED_ORIGINS") with
    | Some raw => parse_csv_set raw
    | None => allowed_origins config
    end;
  allowed_hosts :=
    match env (lit "MAILINER_ALLOWED_HOSTS") with
    | Some raw => parse_csv_set raw
    | None => allowed_hosts config
    end;
  ws_max_message_bytes :=
    env_usize env (lit "MAILINER_WS_MAX_MESSAGE_BYTES") (ws_max_message_bytes config);
  ws_max_frame_bytes :=
    env_usize env (lit "MAILINER_WS_MAX_FRAME_BYTES") (ws_max_frame_bytes config);
  paseto_max_ttl := env_secs env (lit "MAILINER_PASETO_MAX_TTL_SECS") (paseto_max_ttl config);
|}.

(** ** Startup *)

Context (key_of_bytes : list byte → option PasetoKey).

Definition parse_secret_key (env : Env) : option PasetoKey :=
  key ← env (lit "MAILINER_PASETO_SECRET");
  if negb (lenN key =? 32) then None else key_of_bytes key.

Definition parse_metrics_auth_key (debug_assertions : bool) (env : Env)
  : outcome unit (option str) :=
  match env (lit "METRICS_AUTH_TOKEN") with
  | Some key => Ret (Some key)
  | None => if debug_assertions then Ret None else Panic
  end.

Context {Level : Type} (level_from_str : str → option Level).

(** [parse_log_level] of [src/logging.rs]. *)
Definition parse_log_level (val : str) : outcome unit Level := or_panic (level_from_str val).

(** The root logger, of which the program chooses the level; the drain under
    its filter is [slog]'s. *)
Record Logger := { logger_level : Level }.

(** [init_logging], on what [DEFAULT_LOGGER] holds, to what it holds then: a
    logger that is there stays ([OnceCell::get_or_init]). *)
Definition init_logging (cell : option Logger) (level : Level) : option Logger :=
  match cell with
  | Some logger => Some logger
  | None => Some {| logger_level := level |}
  end.

(** [Args], as [clap] delivers them. *)
Record Args := { arg_port : N; arg_bind : str; arg_log_level : str }.

(** The [Config] that [main] builds before it reads the rest of the
    environment. *)
Definition initial_config (env : Env) (args : Args) (key : option PasetoKey)
  (metrics_key : option str) : Config := {|
  bind_addr := arg_bind args;
  listen_port := arg_port args;
  secret_key := key;
  metrics_auth_key := metrics_key;
  metrics_bind :=
    match env (lit "MAILINER_METRICS_ADDR") with
    | Some s => if bool_decide (s = []) then None else Some s
    | None => None
    end;
  auth_mode := auth_mode Config_default;
  ws_idle_timeout := ws_idle_timeout Config_default;
  ws_write_timeout := ws_write_timeout Config_default;
  tcp_write_timeout := tcp_write_timeout Config_default;
  tcp_connect_timeout := tcp_connect_timeout Config_default;
  dns_timeout := dns_timeout Config_default;
  dest := dest Config_default;
  limits := limits Config_default;
  max_bytes_per_connection := max_bytes_per_connection Config_default;
  max_lifetime := max_lifetime Config_default;
  trust_forwarded_client_ip := trust_forwarded_client_ip Config_default;
  trusted_proxies := trusted_proxies Config_default;
  require_protocol_probe := require_protocol_probe Config_default;
  allowed_origins := allowed_origins Config_default;
  allowed_hosts := allowed_hosts Config_default;
  ws_max_message_bytes := ws_max_message_bytes Config_default;
  ws_max_frame_bytes := ws_max_frame_bytes Config_default;
  paseto_max_ttl := paseto_max_ttl Config_default;
|}.

(** [main] up to the bind of the listener: the configuration it goes on with,
    or [Panic] when it refuses to start. *)
Definition startup (debug_assertions : bool) (env : Env) (args : Args) : outcome unit Config :=
  let! level := parse_log_level (arg_log_level args) in
  let! _ := or_panic (init_logging None level) in
  let key := parse_secret_key env in
  let! metrics_key := parse_metrics_auth_key debug_assertions env in
  let config := initial_config env args key metrics_key in
  let config := apply_env env config in
  let allow_unsafe := env_bool env (lit "MAILINER_UNSAFE") false in
  let safety := public_safety_errors config in
  if negb (bool_decide (safety = [])) && negb allow_unsafe && negb debug_assertions
  then Panic else
  if bool_decide (auth_mode config = Paseto)
     && negb (match secret_key config with Some _ => true | None => false end)
     && negb debug_assertions
  then Panic else
  Ret config.
End config.
Arguments Config : clear implicits.

(** ** Lemmas *)

Lemma contains_v4_iff p bits x :
  bits <= 32 → wf4 p → wf4 x →
  contains_v4 p bits x = true ↔ v4_bits x / 2 ^ (32 - bits) = v4_bits p / 2 ^ (32 - bits).
Proof.
  intros Hb Hp Hx. unfold contains_v4. cbv zeta. rewrite N.eqb_eq.
  destruct (N.eqb_spec bits 0) as [->|Hn]; [|by apply land_prefix_mask_eq].
  rewrite !N.land_0_r, N.sub_0_r, !N.div_small by done. done.
Qed.

Lemma mask6_iff p bits x :
  bits <= 128 → p < 2 ^ 128 → x < 2 ^ 128 →
  (let mask := if bits =? 0 then 0 else prefix_mask 128 bits in
   N.land x mask =? N.land p mask) = true ↔ x / 2 ^ (128 - bits) = p / 2 ^ (128 - bits).
Proof.
  intros Hb Hp Hx. cbv zeta. rewrite N.eqb_eq.
  destruct (N.eqb_spec bits 0) as [->|Hn]; [|by apply land_prefix_mask_eq].
  rewrite !N.land_0_r, N.sub_0_r, !N.div_small by done. done.
Qed.

(** What [Cidr::parse] can return. *)
Definition wf_cidr (c : Cidr) : Prop :=
  wf_ip (cidr_addr c) ∧ cidr_bits c <= if is_ipv4 (cidr_addr c) then 32 else 128.

Lemma Cidr_parse_wf raw c : Cidr_parse raw = Some c → wf_cidr c.
Proof.
  unfold Cidr_parse. cbv zeta. destruct (split_once _ _) as [[a b]|].
  - destruct (parse_ip_addr a) as [addr|] eqn:Ea; [|done]. cbn.
    destruct (parse_u8 b) as [bits|]; [|done]. cbn.
    destruct (N.ltb_spec (if is_ipv4 addr then 32 else 128) bits); [done|].
    intros [= <-]. split; [by eapply parse_ip_addr_wf|done].
  - destruct (parse_ip_addr _) as [addr|] eqn:Ea; [|done]. cbn.
    intros [= <-]. split; [by eapply parse_ip_addr_wf|]. cbn. by destruct (is_ipv4 addr).
Qed.

(** The addresses of a prefix; IPv4-mapped addresses are in IPv4 prefixes. *)
Definition in_cidr (c : Cidr) (ip : IpAddr) : Prop :=
  match cidr_addr c with
  | V4 p => ∃ x, canonical ip = V4 x
      ∧ v4_bits x / 2 ^ (32 - cidr_bits c) = v4_bits p / 2 ^ (32 - cidr_bits c)
  | V6 p => ∃ x, ip = V6 x
      ∧ v6_bits x / 2 ^ (128 - cidr_bits c) = v6_bits p / 2 ^ (128 - cidr_bits c)
  end.

(** A prefix that is written as an IPv4-mapped address. *)
Definition mapped_prefix (c : Cidr) : bool :=
  match cidr_addr c with
  | V6 p => match to_ipv4_mapped p with Some _ => true | None => false end
  | V4 _ => false
  end.

Lemma contains_iff c ip :
  wf_cidr c → mapped_prefix c = false → wf_ip ip → contains c ip = true ↔ in_cidr c ip.
Proof.
  destruct c as [addr bits]. unfold wf_cidr, mapped_prefix, in_cidr, contains.
  cbn [cidr_addr cidr_bits]. intros [Hw Hb] Hm Hip.
  destruct addr as [p|p], ip as [x|x]; cbn [canonical is_ipv4] in *.
  - rewrite contains_v4_iff by done. naive_solver.
  - destruct (to_ipv4_mapped x) as [x4|] eqn:E.
    + rewrite contains_v4_iff by (done || by eapply to_ipv4_mapped_wf). naive_solver.
    + split; [done|]. by intros (? & ? & _).
  - split; [done|]. by intros (? & ? & _).
  - destruct (to_ipv4_mapped p); [done|]. rewrite mask6_iff by done. naive_solver.
Qed.

(** An IPv4-mapped address is the IPv4 address under 96 fixed bits. *)
Lemma mapped_bits x x4 :
  to_ipv4_mapped x = Some x4 ↔ v6_bits x = v4_bits x4 + 0xffff * 2 ^ 32 ∧ v4_bits x4 < 2 ^ 32.
Proof.
  unfold to_ipv4_mapped. pose proof (N.div_mod' (v6_bits x) (2 ^ 32)) as D.
  pose proof (N.mod_lt (v6_bits x) (2 ^ 32)) as M. destruct x4 as [b]. cbn [v4_bits].
  destruct (N.eqb_spec (v6_bits x / 2 ^ 32) 0xffff) as [H|H]; split.
  - intros [= <-]. split; [lia|by apply M].
  - intros [E Hb]. do 2 f_equal. rewrite E, N.Div0.mod_add. by apply N.mod_small.
  - done.
  - intros [E Hb]. destruct H. rewrite E, N.div_add by done. by rewrite N.div_small.
Qed.

(** The first [bits] bits of a mapped address, for [bits] from 96 on. *)
Lemma mapped_prefix_div b k : k <= 32 →
  (b + 0xffff * 2 ^ 32) / 2 ^ k = b / 2 ^ k + 0xffff * 2 ^ (32 - k).
Proof.
  intros Hk. replace (2 ^ 32) with (2 ^ (32 - k) * 2 ^ k) by (rewrite <- N.pow_add_r; f_equal; lia).
  rewrite N.mul_assoc. apply N.div_add. by apply N.pow_nonzero.
Qed.

(** An address that agrees with a mapped one on 96 bits or more is mapped. *)
Lemma mapped_prefix_high p p4 x bits :
  to_ipv4_mapped p = Some p4 → 96 <= bits <= 128 →
  v6_bits x / 2 ^ (128 - bits) = v6_bits p / 2 ^ (128 - bits) → to_ipv4_mapped x ≠ None.
Proof.
  intros [Ep Hp4]%mapped_bits Hb E.
  assert (H : v6_bits x / 2 ^ 32 = 0xffff).
  { replace (2 ^ 32) with (2 ^ (128 - bits) * 2 ^ (32 - (128 - bits)))
      by (rewrite <- N.pow_add_r; f_equal; lia).
    rewrite <- N.Div0.div_div, E, Ep, N.Div0.div_div, <- N.pow_add_r.
    replace (128 - bits + (32 - (128 - bits))) with 32 by lia.
    rewrite N.div_add by done. by rewrite N.div_small. }
  unfold to_ipv4_mapped. by rewrite H.
Qed.

Lemma mapped_in_cidr p p4 x bits :
  to_ipv4_mapped p = Some p4 → 96 <= bits <= 128 →
  in_cidr {| cidr_addr := V6 p; cidr_bits := bits |} (V6 x) ↔
  ∃ x4, to_ipv4_mapped x = Some x4
    ∧ in_cidr {| cidr_addr := V4 p4; cidr_bits := bits - 96 |} (V4 x4).
Proof.
  intros Ep Hb. unfold in_cidr. cbn [cidr_addr cidr_bits canonical].
  pose proof (proj1 (mapped_bits p p4) Ep) as [Bp _].
  assert (Hk : 32 - (bits - 96) = 128 - bits) by lia. rewrite Hk.
  assert (Hiff : ∀ x4, to_ipv4_mapped x = Some x4 →
    v6_bits x / 2 ^ (128 - bits) = v6_bits p / 2 ^ (128 - bits) ↔
    v4_bits x4 / 2 ^ (128 - bits) = v4_bits p4 / 2 ^ (128 - bits)).
  { intros x4 [Bx _]%mapped_bits. rewrite Bx, Bp, !mapped_prefix_div by lia. lia. }
  split.
  - intros (x' & [= <-] & E). pose proof (mapped_prefix_high p p4 x bits Ep Hb E) as Hx.
    destruct (to_ipv4_mapped x) as [x4|]; [|done]. exists x4. split; [done|].
    exists x4. split; [done|]. by apply Hiff.
  - intros (x4 & Ex & x4' & [= <-] & E). exists x. split; [done|]. by apply (Hiff x4).
Qed.

(** *** The safety check *)

Lemma push_if_nil b m l : push_if b m l = [] ↔ l = [] ∧ b = false.
Proof. unfold push_if. destruct b; [|naive_solver]. split; [by destruct l|]. by intros [_ ?]. Qed.

Lemma push_caps_nil caps errors :
  foldl (λ errors '(name, unlimited),
    push_if unlimited (name ++ lit "=0 disables that cap") errors) errors caps = [] ↔
  errors = [] ∧ Forall (λ c, c.2 = false) caps.
Proof.
  revert errors. induction caps as [|[name u] caps IH]; intros errors; cbn [foldl].
  - naive_solver.
  - rewrite IH, push_if_nil, Forall_cons. naive_solver.
Qed.

(** The settings a process may listen with on the public internet. *)
Definition hosting_safe {K} (c : Config K) : Prop :=
  (∃ ports, allowed_ports (dest c) = Some ports)
  ∧ allow_private_destinations (dest c) = false
  ∧ allow_ip_literals (dest c) = false
  ∧ require_protocol_probe c = true
  ∧ (trust_forwarded_client_ip c = true → trusted_proxies c ≠ [])
  ∧ (auth_mode c = Public → allowed_origins c ≠ ∅ ∧ lit "*" ∉ allowed_origins c)
  ∧ max_global_connections (limits c) ≠ 0 ∧ max_conns_per_ip (limits c) ≠ 0
  ∧ connects_per_ip (limits c) ≠ 0 ∧ max_bytes_per_connection c ≠ 0
  ∧ max_bytes_per_ip (limits c) ≠ 0 ∧ max_lifetime c ≠ 0.

Lemma public_safety_errors_nil {K} (c : Config K) : public_safety_errors c = [] ↔ hosting_safe c.
Proof.
  unfold public_safety_errors, hosting_safe, safety_caps. rewrite push_caps_nil, !push_if_nil.
  rewrite !Forall_cons, Forall_nil. cbn [snd]. rewrite !N.eqb_neq.
  rewrite !andb_false_iff, orb_false_iff, !bool_decide_eq_false, negb_false_iff.
  assert (H1 : allowed_ports (dest c) ≠ None ↔ ∃ ports, allowed_ports (dest c) = Some ports).
  { destruct (allowed_ports _); naive_solver. }
  assert (H2 : trust_forwarded_client_ip c = false ∨ trusted_proxies c ≠ [] ↔
    (trust_forwarded_client_ip c = true → trusted_proxies c ≠ [])).
  { destruct (trust_forwarded_client_ip c); naive_solver. }
  assert (H3 : auth_mode c ≠ Public ∨ allowed_origins c ≠ ∅ ∧ lit "*" ∉ allowed_origins c ↔
    (auth_mode c = Public → allowed_origins c ≠ ∅ ∧ lit "*" ∉ allowed_origins c)).
  { destruct (auth_mode c); naive_solver. }
  rewrite <- H1, <- H2, <- H3. tauto.
Qed.

(** *** Ports *)

Lemma port_parts_fold parts (set : gset N) p :
  p ∈ foldl (λ set part,
    let part := trim part in
    if bool_decide (part = []) then set else
    match parse_u16 part with
    | Some p => if negb (p =? 0) then {[p]} ∪ set else set
    | None => set
    end) set parts ↔
  p ∈ set ∨ p ≠ 0 ∧ ∃ part, part ∈ parts ∧ parse_u16 (trim part) = Some p.
Proof.
  revert set. induction parts as [|part parts IH]; intros set; cbn [foldl].
  { split; [by left|]. intros [|(_ & ? & []%elem_of_nil & _)]; done. }
  rewrite IH. clear IH. setoid_rewrite elem_of_cons.
  assert (H : p ∈ (let part := trim part in
    if bool_decide (part = []) then set else
    match parse_u16 part with
    | Some p => if negb (p =? 0) then {[p]} ∪ set else set
    | None => set
    end) ↔ p ∈ set ∨ p ≠ 0 ∧ parse_u16 (trim part) = Some p).
  { cbv zeta. case_bool_decide as Hn; [rewrite Hn; naive_solver|].
    destruct (parse_u16 (trim part)) as [q|]; [|naive_solver].
    destruct (N.eqb_spec q 0) as [->|]; cbn [negb]; [naive_solver|].
    rewrite elem_of_union, elem_of_singleton. naive_solver. }
  rewrite H. naive_solver.
Qed.

(** *** The environment *)

(** How a boolean variable is switched on. *)
Definition set_on (env : Env) (key : str) : Prop :=
  ∃ v, env key = Some v
    ∧ to_ascii_lowercase (trim v) ∈ [lit "1"; lit "true"; lit "yes"; lit "on"].

Definition public_mode (env : Env) : Prop :=
  ∃ v, env (lit "MAILINER_AUTH") = Some v ∧ to_ascii_lowercase v = lit "public".

(** A numeric cap that the environment does not switch off: a variable that is
    not a number leaves the default. *)
Definition cap_kept (env : Env) (key : str) : Prop := env key ≫= parse_u64 ≠ Some 0.

(** What [public_safety_errors] insists on, as the operator sets it. *)
Definition safe_environment (env : Env) : Prop :=
  (∀ raw, env (lit "MAILINER_ALLOWED_PORTS") = Some raw →
     to_ascii_lowercase (trim raw) ≠ lit "any" ∧ trim raw ≠ lit "*")
  ∧ ¬ set_on env (lit "MAILINER_ALLOW_PRIVATE_DESTS")
  ∧ ¬ set_on env (lit "MAILINER_ALLOW_IP_LITERALS")
  ∧ (env (lit "MAILINER_REQUIRE_PROTOCOL_PROBE") = None
     ∨ set_on env (lit "MAILINER_REQUIRE_PROTOCOL_PROBE"))
  ∧ (set_on env (lit "MAILINER_TRUST_FORWARDED_CLIENT_IP") →
     ∃ raw entry c, env (lit "MAILINER_TRUSTED_PROXIES") = Some raw
       ∧ entry ∈ split ","%byte raw ∧ Cidr_parse entry = Some c)
  ∧ (public_mode env → ∃ raw, env (lit "MAILINER_ALLOWED_ORIGINS") = Some raw
     ∧ (∃ entry, entry ∈ split ","%byte raw ∧ trim entry ≠ [])
     ∧ ∀ entry, entry ∈ split ","%byte raw → trim entry ≠ lit "*")
  ∧ cap_kept env (lit "MAILINER_MAX_GLOBAL_CONNECTIONS")
  ∧ cap_kept env (lit "MAILINER_MAX_CONNS_PER_IP")
  ∧ cap_kept env (lit "MAILINER_CONNECTS_PER_IP_PER_MIN")
  ∧ cap_kept env (lit "MAILINER_MAX_BYTES_PER_CONNECTION")
  ∧ cap_kept env (lit "MAILINER_MAX_BYTES_PER_IP_PER_HOUR")
  ∧ cap_kept env (lit "MAILINER_MAX_LIFETIME_SECS").

(** The same environment with three more caps switched off. *)
Definition without_caps (env : Env) : Env := λ key,
  if bool_decide (key ∈ [lit "MAILINER_MAX_CONNS_PER_DEST";
                         lit "MAILINER_DISTINCT_DESTS_PER_IP_PER_MIN";
                         lit "MAILINER_GLOBAL_CONNECTS_PER_SEC"])
  then Some (lit "0") else env key.

Lemma env_bool_on env key d :
  env_bool env key d = true ↔ set_on env key ∨ env key = None ∧ d = true.
Proof.
  unfold env_bool, set_on. destruct (env key) as [v|]; [|naive_solver].
  rewrite !orb_true_iff, !bool_decide_eq_true. setoid_rewrite elem_of_cons.
  setoid_rewrite elem_of_cons. setoid_rewrite elem_of_cons. setoid_rewrite list_elem_of_singleton.
  naive_solver.
Qed.

Lemma env_bool_off env key : env_bool env key false = false ↔ ¬ set_on env key.
Proof. rewrite <- not_true_iff_false, env_bool_on. naive_solver. Qed.

Lemma env_number_kept env key d : d ≠ 0 → env_u64 env key d ≠ 0 ↔ cap_kept env key.
Proof. unfold env_u64, cap_kept. destruct (env key ≫= parse_u64); naive_solver. Qed.

Lemma env_secs_kept env key n : n ≠ 0 → env_secs env key (from_secs n) ≠ 0 ↔ cap_kept env key.
Proof.
  intros Hn. unfold env_secs, cap_kept, as_secs, from_secs.
  destruct (env key) as [v|]; cbn [mbind option_bind]; [|split; [done|lia]].
  rewrite N.div_mul by done. destruct (parse_u64 v) as [m|]; [|split; [done|lia]].
  split; [intros H [= ->]; lia|intros H E; apply H; f_equal; lia].
Qed.

Lemma parse_allowed_ports_any raw :
  parse_allowed_ports raw = None ↔ to_ascii_lowercase (trim raw) = lit "any" ∨ trim raw = lit "*".
Proof.
  unfold parse_allowed_ports. cbv zeta. case_bool_decide as E.
  { rewrite E. split; [done|]. by intros [H|H]. }
  destruct (eq_ignore_ascii_case (trim raw) (lit "any") || bool_decide (trim raw = lit "*")) eqn:Ea.
  - split; [intros _|done]. apply orb_true_iff in Ea as [Ea|Ea]; bool_to_prop; [left|by right].
    unfold eq_ignore_ascii_case in Ea. bool_to_prop. by rewrite Ea.
  - split; [done|]. intros H. exfalso. apply orb_false_iff in Ea as [E1 E2]. bool_to_prop.
    destruct H as [H|H]; [|done]. unfold eq_ignore_ascii_case in E1. bool_to_prop.
    apply E1. by rewrite H.
Qed.

Lemma parse_cidrs_nonempty raw :
  parse_cidrs raw ≠ [] ↔ ∃ entry c, entry ∈ split ","%byte raw ∧ Cidr_parse entry = Some c.
Proof.
  unfold parse_cidrs. split.
  - intros H. destruct (omap Cidr_parse (split ","%byte raw)) as [|c l] eqn:E; [done|].
    assert (Hc : c ∈ omap Cidr_parse (split ","%byte raw)) by (rewrite E; left).
    apply list_elem_of_omap in Hc as (entry & ? & ?). eauto.
  - intros (entry & c & Hin & Hc) E. apply (not_elem_of_nil c). rewrite <- E.
    apply list_elem_of_omap. eauto.
Qed.

Lemma parse_csv_set_elem raw x :
  x ∈ parse_csv_set raw ↔ x ≠ [] ∧ ∃ entry, entry ∈ split ","%byte raw ∧ trim entry = x.
Proof.
  unfold parse_csv_set. rewrite elem_of_list_to_set, list_elem_of_filter, list_elem_of_fmap.
  naive_solver.
Qed.

Lemma parse_auth_mode_public env : parse_auth_mode env = Public ↔ public_mode env.
Proof.
  unfold parse_auth_mode, public_mode. destruct (env (lit "MAILINER_AUTH")) as [v|]; cbv zeta.
  - case_bool_decide; naive_solver.
  - rewrite bool_decide_false by done. naive_solver.
Qed.

Lemma csv_origins raw :
  parse_csv_set raw ≠ ∅ ∧ lit "*" ∉ parse_csv_set raw ↔
  (∃ entry, entry ∈ split ","%byte raw ∧ trim entry ≠ [])
  ∧ ∀ entry, entry ∈ split ","%byte raw → trim entry ≠ lit "*".
Proof.
  rewrite parse_csv_set_elem.
  assert (H : parse_csv_set raw ≠ ∅ ↔ ∃ x, x ∈ parse_csv_set raw).
  { split; [by intros ?%set_choose_L|]. intros [x Hx] E. rewrite E in Hx. set_solver. }
  rewrite H. setoid_rewrite parse_csv_set_elem. naive_solver.
Qed.

Lemma and_congr (A A' B B' : Prop) : (A ↔ A') → (B ↔ B') → A ∧ B ↔ A' ∧ B'.
Proof. tauto. Qed.

(** The configuration of an environment is safe iff the environment is. *)
Lemma hosting_safe_env {K} env args (key : option K) mk :
  hosting_safe (apply_env env (initial_config env args key mk)) ↔ safe_environment env.
Proof.
  unfold hosting_safe, safe_environment.
  cbn [apply_env apply_env_dest apply_env_limits initial_config dest limits allowed_ports
    allow_private_destinations allow_ip_literals require_protocol_probe trust_forwarded_client_ip
    trusted_proxies auth_mode allowed_origins max_global_connections max_conns_per_ip
    connects_per_ip max_bytes_per_connection max_bytes_per_ip max_lifetime
    Config_default DestPolicy_default LimitsConfig_default].
  repeat match goal with |- _ ∧ _ ↔ _ ∧ _ => apply and_congr end;
    try (by apply env_bool_off); try (by apply env_number_kept).
  - assert (Hp : ∀ o : option (gset N), (∃ ports, o = Some ports) ↔ o ≠ None)
      by (intros []; naive_solver).
    rewrite Hp. destruct (env (lit "MAILINER_ALLOWED_PORTS")) as [raw|]; [|naive_solver].
    rewrite parse_allowed_ports_any. naive_solver.
  - rewrite env_bool_on. naive_solver.
  - assert (Ht : env_bool env (lit "MAILINER_TRUST_FORWARDED_CLIENT_IP") false = true ↔
      set_on env (lit "MAILINER_TRUST_FORWARDED_CLIENT_IP")) by (rewrite env_bool_on; naive_solver).
    rewrite Ht. destruct (env (lit "MAILINER_TRUSTED_PROXIES")) as [raw|]; [|naive_solver].
    rewrite parse_cidrs_nonempty. naive_solver.
  - rewrite parse_auth_mode_public.
    destruct (env (lit "MAILINER_ALLOWED_ORIGINS")) as [raw|]; [|naive_solver].
    rewrite csv_origins. naive_solver.
  - by apply env_secs_kept.
Qed.

(** *** What lets the process start *)

Lemma parse_secret_key_some {K} (key_of_bytes : list byte → option K) env key :
  parse_secret_key key_of_bytes env = Some key ↔
  ∃ raw, env (lit "MAILINER_PASETO_SECRET") = Some raw ∧ lenN raw = 32 ∧ key_of_bytes raw = Some key.
Proof.
  unfold parse_secret_key. destruct (env _) as [raw|]; cbn; [|naive_solver].
  destruct (N.eqb_spec (lenN raw) 32); cbn [negb]; naive_solver.
Qed.

Lemma startup_spec {K L} (key_of_bytes : list byte → option K) (level_from_str : str → option L)
  env args c :
  (startup key_of_bytes level_from_str false env args = Ret c ↔
   is_Some (level_from_str (arg_log_level args))
   ∧ (∃ token, env (lit "METRICS_AUTH_TOKEN") = Some token
      ∧ c = apply_env env
              (initial_config env args (parse_secret_key key_of_bytes env) (Some token)))
   ∧ (hosting_safe c ∨ env_bool env (lit "MAILINER_UNSAFE") false = true)
   ∧ (auth_mode c = Public ∨ ∃ raw key, env (lit "MAILINER_PASETO_SECRET") = Some raw
      ∧ lenN raw = 32 ∧ key_of_bytes raw = Some key ∧ secret_key c = Some key))
  ∧ ((∃ c, startup key_of_bytes level_from_str true env args = Ret c) ↔
     is_Some (level_from_str (arg_log_level args))).
Proof.
  pose proof (parse_secret_key_some key_of_bytes env) as Hkey.
  unfold startup, init_logging, parse_log_level, parse_metrics_auth_key.
  destruct (level_from_str (arg_log_level args)) as [level|]; cbn [or_panic outcome_bind].
  2: { split; (split; [intros H; by (discriminate H || destruct H as [? ?])|]);
       intros H; by (destruct H as [[? H] _] || destruct H as [? H]). }
  split.
  - destruct (env (lit "METRICS_AUTH_TOKEN")) as [token|]; cbn [outcome_bind].
    2: { split; [done|]. by intros (_ & (? & ? & _) & _). }
    set (c0 := apply_env env _).
    assert (Hc0 : secret_key c0 = parse_secret_key key_of_bytes env) by done.
    split.
    + destruct (negb (bool_decide (public_safety_errors c0 = []))
        && negb (env_bool env (lit "MAILINER_UNSAFE") false) && negb false) eqn:E1; [done|].
      destruct (bool_decide (auth_mode c0 = Paseto) && _ && negb false) eqn:E2; [done|].
      intros [= <-]. split; [done|]. split; [by exists token|]. split.
      * rewrite andb_true_r in E1. apply andb_false_iff in E1 as [E1|E1]; bool_to_prop; [|by right].
        left. by apply public_safety_errors_nil.
      * rewrite andb_true_r in E2. apply andb_false_iff in E2 as [E2|E2]; bool_to_prop.
        { left. by destruct (auth_mode c0). }
        right. destruct (secret_key c0) as [key|] eqn:Ek; [|done]. 
        assert (Hk : parse_secret_key key_of_bytes env = Some key) by (by rewrite <- Hc0).
        apply Hkey in Hk as (raw & ? & ? & ?). by exists raw, key.
    + intros (_ & (token' & [= <-] & Hc) & Hs & Ha). fold c0 in Hc. subst c.
      assert (E1 : negb (bool_decide (public_safety_errors c0 = []))
        && negb (env_bool env (lit "MAILINER_UNSAFE") false) && negb false = false).
      { destruct Hs as [Hs%public_safety_errors_nil| ->]; [by rewrite bool_decide_true|].
        by rewrite andb_false_r. }
      rewrite E1. destruct Ha as [->|(raw & key & _ & _ & _ & ->)]; [done|].
      by rewrite andb_false_r.
  - split; [done|]. intros _. destruct (env (lit "METRICS_AUTH_TOKEN")); cbn [outcome_bind negb];
      rewrite !andb_false_r; eauto.
Qed.

Section startup.
  Context {K L : Type} (key_of_bytes : list byte → option K) (level_from_str : str → option L)
    (env : Env) (args : Args).

#[local] Abbreviation starts := (startup key_of_bytes level_from_str false env args).

Lemma startup_config c :
  starts = Ret c → ∃ token, env (lit "METRICS_AUTH_TOKEN") = Some token
    ∧ c = apply_env env (initial_config env args (parse_secret_key key_of_bytes env) (Some token)).
Proof. intros Hs. by apply (startup_spec key_of_bytes level_from_str env args c) in Hs as (_ & ? & _). Qed.

Lemma unsafe_on : env_bool env (lit "MAILINER_UNSAFE") false = true ↔ set_on env (lit "MAILINER_UNSAFE").
Proof. rewrite env_bool_on. naive_solver. Qed.

(** What a build that has started has from its environment. *)
Lemma started_config c :
  starts = Ret c →
  metrics_auth_key c = env (lit "METRICS_AUTH_TOKEN")
  ∧ (auth_mode c = Public ↔ public_mode env)
  ∧ (hosting_safe c ↔ safe_environment env)
  ∧ ∀ key, secret_key c = Some key ↔ ∃ raw, env (lit "MAILINER_PASETO_SECRET") = Some raw
      ∧ lenN raw = 32 ∧ key_of_bytes raw = Some key.
Proof.
  intros (token & Ht & ->)%startup_config. split_and!.
  - by rewrite Ht.
  - apply parse_auth_mode_public.
  - apply hosting_safe_env.
  - intros key. apply parse_secret_key_some.
Qed.

Lemma starts_iff :
  (∃ c, starts = Ret c) ↔
  is_Some (level_from_str (arg_log_level args))
  ∧ is_Some (env (lit "METRICS_AUTH_TOKEN"))
  ∧ (safe_environment env ∨ set_on env (lit "MAILINER_UNSAFE"))
  ∧ (public_mode env ∨ ∃ raw key, env (lit "MAILINER_PASETO_SECRET") = Some raw
      ∧ lenN raw = 32 ∧ key_of_bytes raw = Some key).
Proof.
  split.
  - intros [c Hs]. pose proof (started_config c Hs) as (_ & Hm & Hh & _).
    apply (startup_spec key_of_bytes level_from_str env args c) in Hs
      as (Hl & (token & Ht & _) & Hsafe & Hk).
    split; [done|]. split; [by exists token|]. rewrite <- unsafe_on, <- Hh, <- Hm.
    split; [done|]. destruct Hk as [?|(raw & key & ? & ? & ? & _)]; [by left|right; eauto].
  - intros (Hl & [token Ht] & Hsafe & Hk).
    set (c := apply_env env
      (initial_config env args (parse_secret_key key_of_bytes env) (Some token))).
    exists c. apply (startup_spec key_of_bytes level_from_str env args c).
    split; [done|]. split; [by exists token|]. split.
    + unfold c. by rewrite hosting_safe_env, unsafe_on.
    + destruct Hk as [Hp|(raw & key & Hr & Hn & Hk)]; [left; by apply parse_auth_mode_public|].
      right. exists raw, key. split_and!; [done..|]. apply parse_secret_key_some. eauto.
Qed.
End startup.

(** ** Properties *)

(** C24: When a release build starts, in terms of its environment.  It gets past
    startup iff the log level is valid, a metrics token is set, the environment
    is safe or [MAILINER_UNSAFE] is on, and, unless [MAILINER_AUTH] is public, a
    secret of exactly 32 bytes is set and makes a key; it then has that token,
    that mode and that key.  A debug build only insists on the log level.  Of
    the caps, an environment is safe if it disables none of six: the README
    promises more, for a build that starts also starts with the caps on the
    connections of a destination, on distinct destinations and on global
    connects set to 0, which disables them. *)
Theorem startup_correct {K L} (key_of_bytes : list byte → option K) (level_from_str : str → option L)
  env args :
  ((∃ c, startup key_of_bytes level_from_str false env args = Ret c) ↔
   is_Some (level_from_str (arg_log_level args))
   ∧ is_Some (env (lit "METRICS_AUTH_TOKEN"))
   ∧ (safe_environment env ∨ set_on env (lit "MAILINER_UNSAFE"))
   ∧ (public_mode env ∨ ∃ raw key, env (lit "MAILINER_PASETO_SECRET") = Some raw
      ∧ lenN raw = 32 ∧ key_of_bytes raw = Some key))
  ∧ (∀ c, startup key_of_bytes level_from_str false env args = Ret c →
     metrics_auth_key c = env (lit "METRICS_AUTH_TOKEN")
     ∧ (auth_mode c = Public ↔ public_mode env)
     ∧ (hosting_safe c ↔ safe_environment env)
     ∧ ∀ key, secret_key c = Some key ↔ ∃ raw, env (lit "MAILINER_PASETO_SECRET") = Some raw
         ∧ lenN raw = 32 ∧ key_of_bytes raw = Some key)
  ∧ ((∃ c, startup key_of_bytes level_from_str true env args = Ret c) ↔
     is_Some (level_from_str (arg_log_level args)))
  ∧ (∀ c, startup key_of_bytes level_from_str false env args = Ret c →
     ∃ c', startup key_of_bytes level_from_str false (without_caps env) args = Ret c'
       ∧ (hosting_safe c → hosting_safe c') ∧ max_conns_per_dest (limits c') = 0
       ∧ distinct_dests_per_ip (limits c') = 0 ∧ global_connects (limits c') = 0).
Proof.
  assert (Hc : ∀ env c, startup key_of_bytes level_from_str false env args = Ret c → _)
    by (intros env0 c; exact (started_config key_of_bytes level_from_str env0 args c)).
  split_and!.
  - apply starts_iff.
  - intros c Hs. by apply Hc.
  - apply (startup_spec key_of_bytes level_from_str env args (Config_default)).
  - intros c Hs.
    assert (Hs' : ∃ c', startup key_of_bytes level_from_str false (without_caps env) args = Ret c').
    { apply starts_iff. apply (starts_iff key_of_bytes level_from_str env args). by exists c. }
    destruct Hs' as [c' Hs']. exists c'. split; [done|].
    apply startup_config in Hs as (token & _ & Ec).
    apply startup_config in Hs' as (token' & _ & Ec'). rewrite Ec, Ec'.
    split; [|done]. rewrite !hosting_safe_env. exact id.
Qed.

(** C35: CIDR matching.  A parsed prefix is well formed, and unless it is
    itself written as an IPv4-mapped address, it contains exactly the
    addresses that agree with it on its first [bits] bits, an IPv4-mapped
    address counting as its IPv4 address for an IPv4 prefix. *)
Theorem cidr_correct raw c ip :
  Cidr_parse raw = Some c → mapped_prefix c = false → wf_ip ip →
  wf_cidr c ∧ (contains c ip = true ↔ in_cidr c ip).
Proof. intros Hc%Cidr_parse_wf Hm Hip. split; [done|]. by apply contains_iff. Qed.

Lemma cidr_correct_witness :
  contains {| cidr_addr := V4 (v4_new 10 0 0 0); cidr_bits := 8 |}
    (V6 (v6_new 0 0 0 0 0 0xffff 0x0a01 0x0203)) = true.
Proof.
  apply (cidr_correct (lit "10.0.0.0/8")); [by vm_compute..|].
  exists (v4_new 10 1 2 3). by vm_compute.
Defined.

(** C39: A prefix written as an IPv4-mapped address is matched too narrowly.  A
    prefix [::ffff:a.b.c.d/bits] with [bits] from 96 to 128 names the addresses
    that agree with it on [bits] of their 128 bits, which are the mapped
    addresses of the IPv4 prefix [a.b.c.d/(bits - 96)]; but its length is
    clamped to 32 and used as an IPv4 length, and it contains only the one
    address it is written with. *)
Theorem cidr_mapped_prefix_narrow p p4 bits :
  wf6 p → to_ipv4_mapped p = Some p4 → 96 <= bits <= 128 →
  let c := {| cidr_addr := V6 p; cidr_bits := bits |} in
  (∀ x, wf6 x →
     in_cidr c (V6 x) ↔
     ∃ x4, to_ipv4_mapped x = Some x4
       ∧ in_cidr {| cidr_addr := V4 p4; cidr_bits := bits - 96 |} (V4 x4))
  ∧ ∀ ip, wf_ip ip → contains c ip = true ↔ ip = V6 p.
Proof.
  intros Hp Ep Hb. cbv zeta. split.
  - intros x Hx. by apply mapped_in_cidr.
  - intros [x|x] Hx; [by split; intros H; discriminate H|].
    unfold contains. cbn [cidr_addr cidr_bits]. rewrite Ep.
    destruct (to_ipv4_mapped x) as [x4|] eqn:Ex.
    + rewrite N.min_r by lia. rewrite contains_v4_iff by (done || by eapply to_ipv4_mapped_wf).
      rewrite N.sub_diag. change (2 ^ 0) with 1. rewrite !N.div_1_r.
      apply mapped_bits in Ep as [Ep _], Ex as [Ex _]. destruct p as [p], x as [x].
      cbn [v6_bits] in *. split; [intros E; by rewrite Ex, E, <- Ep|intros [= ->]; lia].
    + rewrite mask6_iff by (done || lia). split; [|intros [= ->]; congruence].
      intros E. by destruct (mapped_prefix_high p p4 x bits Ep Hb E).
Qed.

Lemma cidr_mapped_prefix_narrow_witness :
  Cidr_parse (lit "::ffff:10.0.0.0/104")
    = Some {| cidr_addr := V6 (v6_new 0 0 0 0 0 0xffff 0x0a00 0); cidr_bits := 104 |}
  ∧ contains {| cidr_addr := V6 (v6_new 0 0 0 0 0 0xffff 0x0a00 0); cidr_bits := 104 |}
      (V6 (v6_new 0 0 0 0 0 0xffff 0x0a01 0x0203)) = false.
Proof.
  split; [by vm_compute|]. apply not_true_iff_false.
  destruct (cidr_mapped_prefix_narrow (v6_new 0 0 0 0 0 0xffff 0x0a00 0) (v4_new 10 0 0 0) 104)
    as [_ H]; [by vm_compute..|]. rewrite H; by vm_compute.
Defined.

(** [parse_allowed_ports] gives the default mail ports for a blank
    value, no restriction for [any] or [*], and otherwise exactly the non-zero
    16-bit numbers among the comma-separated entries; malformed entries are
    dropped and never widen the set. *)
Theorem parse_allowed_ports_correct raw :
  match parse_allowed_ports raw with
  | None => trim raw ≠ [] ∧ (to_ascii_lowercase (trim raw) = lit "any" ∨ trim raw = lit "*")
  | Some ports => ∀ p, p ∈ ports ↔
      if decide (trim raw = []) then p ∈ DEFAULT_ALLOWED_PORTS
      else p ≠ 0 ∧ ∃ part, part ∈ split ","%byte (trim raw) ∧ parse_u16 (trim part) = Some p
  end.
Proof.
  unfold parse_allowed_ports. cbv zeta. destruct (decide (trim raw = [])) as [E|E].
  - rewrite bool_decide_true by done. intros p. by rewrite elem_of_list_to_set.
  - rewrite bool_decide_false by done.
    destruct (eq_ignore_ascii_case (trim raw) (lit "any") || bool_decide (trim raw = lit "*"))
      eqn:Ea.
    + split; [done|]. apply orb_true_iff in Ea as [Ea|Ea]; [left|right; by bool_to_prop].
      unfold eq_ignore_ascii_case in Ea. bool_to_prop. by rewrite Ea.
    + intros p. rewrite port_parts_fold. split; [intros [[]%elem_of_empty|H]; done|by right].
Qed.
