(* ===== verification/Registry.v ===== *)
(** * The metrics as they are exposed ([src/metrics.rs])

    [Metrics] logs the calls that the program makes on its metrics; this file
    performs them.  The types of [prometheus_client] are a class of operations
    with their documented behaviour: counters of 64 bits, gauges of 64 bits
    with a sign, families that create a label's counter when it is first used,
    a registry that lists what was registered with it.  A metric and the clone
    of it that is registered share one cell, so the registry holds a reference
    to the field.  The state after a log is shown to hold the log's counts. *)

From Stdlib Require Import ZArith SpecFloat.
From stdpp Require Import sets.
From S2P Require Import Prelude RustStr Net Dest Limits Metrics Config.
#[local] Open Scope N_scope.

(** ** Numbers *)

(** [as i64], and the wrap of an [AtomicI64]. *)
Definition wrap_i64 (x : Z) : Z := ((x + 2 ^ 63) mod 2 ^ 64 - 2 ^ 63)%Z.

(** An [f64], and the nearest one to an integer. *)
Definition f64 := spec_float.
Definition f64_of (x : Z) : f64 := binary_normalize 53 1024 x 0 false.

(** [Duration::as_secs_f64] *)
Definition as_secs_f64 (d : Duration) : f64 :=
  SFadd 53 1024 (f64_of (Z.of_N (as_secs d)))
    (SFdiv 53 1024 (f64_of (Z.of_N (d mod 1000000000))) (f64_of 1000000000)).

(** [SystemTime::duration_since(UNIX_EPOCH)], of a clock that reads [now]
    nanoseconds after the epoch. *)
Definition duration_since_epoch (now : Z) : option Duration :=
  if (now <? 0)%Z then None else Some (Z.to_N now).

(** ** The labels *)

Record ErrorLabels := { error : MError }.
Record RejectLabels := { reason : RejectReason }.
Record ConnectionsLabels := { label_port : PortClass }.

#[export] Instance ErrorLabels_eq_dec : EqDecision ErrorLabels.
Proof. solve_decision. Defined.
#[export] Instance RejectLabels_eq_dec : EqDecision RejectLabels.
Proof. solve_decision. Defined.
#[export] Instance ConnectionsLabels_eq_dec : EqDecision ConnectionsLabels.
Proof. solve_decision. Defined.

(** ** [prometheus_client] *)

(** The metric types.  [with_metric f l op] is [op] on [f.get_or_create(l)]. *)
Class MetricTypes := {
  Counter : Type;
  Counter_default : Counter;
  Counter_inc : Counter → Counter;
  Counter_get : Counter → N;
  Gauge : Type;
  Gauge_default : Gauge;
  Gauge_inc : Gauge → Gauge;
  Gauge_dec : Gauge → Gauge;
  Gauge_set : Gauge → Z → Gauge;
  Gauge_get : Gauge → Z;
  Histogram : Type;
  Histogram_new : list f64 → Histogram;
  Histogram_observe : Histogram → f64 → Histogram;
  Histogram_count : Histogram → N;
  Family : Type → Type;
  Family_default {L} : Family L;
  with_metric {L} `{EqDecision L} : Family L → L → (Counter → Counter) → Family L;
  Family_get {L} `{EqDecision L} : Family L → L → option Counter;
  Counter_get_default : Counter_get Counter_default = 0;
  Counter_get_inc c : Counter_get (Counter_inc c) = (Counter_get c + 1) mod 2 ^ 64;
  Gauge_get_default : Gauge_get Gauge_default = 0%Z;
  Gauge_get_inc g : Gauge_get (Gauge_inc g) = wrap_i64 (Gauge_get g + 1);
  Gauge_get_dec g : Gauge_get (Gauge_dec g) = wrap_i64 (Gauge_get g - 1);
  Gauge_get_set g z : Gauge_get (Gauge_set g z) = z;
  Histogram_count_new bs : Histogram_count (Histogram_new bs) = 0;
  Histogram_count_observe h v :
    Histogram_count (Histogram_observe h v) = (Histogram_count h + 1) mod 2 ^ 64;
  Family_get_default {L} `{EqDecision L} (l : L) : Family_get Family_default l = None;
  Family_get_with {L} `{EqDecision L} (f : Family L) (l k : L) op :
    Family_get (with_metric f l op) k
    = if decide (l = k) then Some (op (default Counter_default (Family_get f l)))
      else Family_get f k;
}.

(** The values that are encoded. *)
Inductive MetricValue `{MetricTypes} :=
| VGauge (g : Gauge)
| VHistogram (h : Histogram)
| VErrors (f : Family ErrorLabels)
| VConnections (f : Family ConnectionsLabels)
| VRejects (f : Family RejectLabels).

(** The registry, of references of type [H]; [encode] reads what they refer
    to, and can fail. *)
Class MetricRegistry `{MetricTypes} := {
  Registry : Type → Type;
  Registry_default {H} : Registry H;
  register {H} : Registry H → str → str → H → Registry H;
  encode_text {H} : Registry H → (H → MetricValue) → option str;
  registered {H} : Registry H → list (str * str * H);
  registered_default {H} : registered (Registry_default (H:=H)) = [];
  registered_register {H} (r : Registry H) name help h :
    registered (register r name help h) = registered r ++ [(name, help, h)];
}.

(** The fields of [Metrics] that are registered. *)
Inductive MetricRef :=
| RefActiveConnections | RefWsErrors | RefTcpErrors | RefConnectionDuration | RefConnections
| RefRejects | RefProcessStart.

Section registry.
  Context `{T : MetricTypes} {R : MetricRegistry}.

Record Metrics := {
  registry : Registry MetricRef;
  m_active_connections : Gauge;
  m_ws_errors : Family ErrorLabels;
  m_tcp_errors : Family ErrorLabels;
  m_connection_duration : Histogram;
  m_connections : Family ConnectionsLabels;
  m_rejects : Family RejectLabels;
  m_process_start_time_seconds : Gauge;
}.

Definition DURATION_BUCKETS : list f64 :=
  f64_of <$> [1; 5; 10; 30; 60; 120; 300; 600; 1200; 1800; 2700; 3600]%Z.

(** [Metrics::new], when the clock reads [now] nanoseconds after the epoch. *)
Definition Metrics_new (now : Z) : outcome unit Metrics :=
  let r := Registry_default in
  let r := register r (lit "active_connections") (lit "Number of currently active collections")
             RefActiveConnections in
  let r := register r (lit "ws_errors")
             (lit "Number of errors that occurred in the WebSocket connection") RefWsErrors in
  let r := register r (lit "tcp_errors")
             (lit "Number of errors that occurred in the TCP connection") RefTcpErrors in
  let r := register r (lit "connection_duration") (lit "Histogram of connection durations")
             RefConnectionDuration in
  let r := register r (lit "connections")
             (lit "Number of connections by well-known mail port class") RefConnections in
  let r := register r (lit "rejects") (lit "Number of rejected proxy attempts by reason")
             RefRejects in
  let r := register r (lit "process_start_time_seconds")
             (lit "Start time of the process since unix epoch in seconds") RefProcessStart in
  let! since_epoch := or_panic (duration_since_epoch now) in
  Ret {| registry := r;
         m_active_connections := Gauge_default;
         m_ws_errors := Family_default;
         m_tcp_errors := Family_default;
         m_connection_duration := Histogram_new DURATION_BUCKETS;
         m_connections := Family_default;
         m_rejects := Family_default;
         m_process_start_time_seconds :=
           Gauge_set Gauge_default (wrap_i64 (Z.of_N (as_secs since_epoch))) |}.

(** ** The calls *)

Definition set_active (m : Metrics) (g : Gauge) : Metrics := {|
  registry := registry m; m_active_connections := g; m_ws_errors := m_ws_errors m;
  m_tcp_errors := m_tcp_errors m; m_connection_duration := m_connection_duration m;
  m_connections := m_connections m; m_rejects := m_rejects m;
  m_process_start_time_seconds := m_process_start_time_seconds m |}.
Definition set_ws_errors (m : Metrics) (f : Family ErrorLabels) : Metrics := {|
  registry := registry m; m_active_connections := m_active_connections m; m_ws_errors := f;
  m_tcp_errors := m_tcp_errors m; m_connection_duration := m_connection_duration m;
  m_connections := m_connections m; m_rejects := m_rejects m;
  m_process_start_time_seconds := m_process_start_time_seconds m |}.
Definition set_tcp_errors (m : Metrics) (f : Family ErrorLabels) : Metrics := {|
  registry := registry m; m_active_connections := m_active_connections m;
  m_ws_errors := m_ws_errors m; m_tcp_errors := f;
  m_connection_duration := m_connection_duration m;
  m_connections := m_connections m; m_rejects := m_rejects m;
  m_process_start_time_seconds := m_process_start_time_seconds m |}.
Definition set_duration (m : Metrics) (h : Histogram) : Metrics := {|
  registry := registry m; m_active_connections := m_active_connections m;
  m_ws_errors := m_ws_errors m; m_tcp_errors := m_tcp_errors m; m_connection_duration := h;
  m_connections := m_connections m; m_rejects := m_rejects m;
  m_process_start_time_seconds := m_process_start_time_seconds m |}.
Definition set_connections (m : Metrics) (f : Family ConnectionsLabels) : Metrics := {|
  registry := registry m; m_active_connections := m_active_connections m;
  m_ws_errors := m_ws_errors m; m_tcp_errors := m_tcp_errors m;
  m_connection_duration := m_connection_duration m; m_connections := f;
  m_rejects := m_rejects m; m_process_start_time_seconds := m_process_start_time_seconds m |}.
Definition set_rejects (m : Metrics) (f : Family RejectLabels) : Metrics := {|
  registry := registry m; m_active_connections := m_active_connections m;
  m_ws_errors := m_ws_errors m; m_tcp_errors := m_tcp_errors m;
  m_connection_duration := m_connection_duration m; m_connections := m_connections m;
  m_rejects := f; m_process_start_time_seconds := m_process_start_time_seconds m |}.

(** [METRICS.connections.get_or_create(..).inc()], and the methods. *)
Definition count_connection (m : Metrics) (p : PortClass) : Metrics :=
  set_connections m (with_metric (m_connections m) {| label_port := p |} Counter_inc).
Definition count_tcp_error (m : Metrics) (e : MError) : Metrics :=
  set_tcp_errors m (with_metric (m_tcp_errors m) {| error := e |} Counter_inc).
Definition count_ws_error (m : Metrics) (e : MError) : Metrics :=
  set_ws_errors m (with_metric (m_ws_errors m) {| error := e |} Counter_inc).
Definition count_reject (m : Metrics) (r : RejectReason) : Metrics :=
  set_rejects m (with_metric (m_rejects m) {| reason := r |} Counter_inc).

(** [ScopeGauge] on [active_connections]; [ScopeDuration] on
    [connection_duration], [elapsed] after its start. *)
Definition enter_scope (m : Metrics) : Metrics :=
  set_active m (Gauge_inc (m_active_connections m)).
Definition leave_scope (m : Metrics) : Metrics :=
  set_active m (Gauge_dec (m_active_connections m)).
Definition observe_scope (m : Metrics) (elapsed : Duration) : Metrics :=
  set_duration m (Histogram_observe (m_connection_duration m) (as_secs_f64 elapsed)).

(** An entry of the log, with the age of its scope if it ends one. *)
Definition perform (m : Metrics) (call : MetricOp * Duration) : Metrics :=
  match call.1 with
  | ActiveInc => enter_scope m
  | ActiveDec => leave_scope m
  | ConnectionsInc p => count_connection m p
  | TcpErrorInc e => count_tcp_error m e
  | WsErrorInc e => count_ws_error m e
  | RejectInc r => count_reject m r
  | DurationObserve => observe_scope m call.2
  end.

Definition metric_value (m : Metrics) (ref : MetricRef) : MetricValue :=
  match ref with
  | RefActiveConnections => VGauge (m_active_connections m)
  | RefWsErrors => VErrors (m_ws_errors m)
  | RefTcpErrors => VErrors (m_tcp_errors m)
  | RefConnectionDuration => VHistogram (m_connection_duration m)
  | RefConnections => VConnections (m_connections m)
  | RefRejects => VRejects (m_rejects m)
  | RefProcessStart => VGauge (m_process_start_time_seconds m)
  end.

(** [Metrics::encode] *)
Definition Metrics_encode (m : Metrics) : outcome unit str :=
  or_panic (encode_text (registry m) (metric_value m)).

(** ** What is exposed *)

(** A family that holds the counts [n]: a counter for every label that
    occurred, and for no other. *)
Definition tallies {L} `{EqDecision L} (f : Family L) (n : L → N) : Prop :=
  ∀ l, match Family_get f l with
       | Some c => n l ≠ 0 ∧ Counter_get c = n l mod 2 ^ 64
       | None => n l = 0
       end.

(** The metrics hold the counts of a log. *)
Record exposes (m : Metrics) (log : list MetricOp) : Prop := {
  ex_active : Gauge_get (m_active_connections m) = wrap_i64 (active_connections log);
  ex_duration :
    Histogram_count (m_connection_duration m) = count DurationObserve log mod 2 ^ 64;
  ex_connections :
    tallies (m_connections m) (λ l, count (ConnectionsInc (label_port l)) log);
  ex_ws_errors : tallies (m_ws_errors m) (λ l, count (WsErrorInc (error l)) log);
  ex_tcp_errors : tallies (m_tcp_errors m) (λ l, count (TcpErrorInc (error l)) log);
  ex_rejects : tallies (m_rejects m) (λ l, count (RejectInc (reason l)) log);
}.

(** ** Lemmas *)

Lemma wrap_i64_add x y : wrap_i64 (wrap_i64 x + y) = wrap_i64 (x + y).
Proof.
  unfold wrap_i64. f_equal.
  replace ((x + 2 ^ 63) mod 2 ^ 64 - 2 ^ 63 + y + 2 ^ 63)%Z
    with ((x + 2 ^ 63) mod 2 ^ 64 + y)%Z by lia.
  rewrite Zplus_mod_idemp_l. f_equal. lia.
Qed.

Lemma wrap_i64_small x : (- 2 ^ 63 <= x < 2 ^ 63)%Z → wrap_i64 x = x.
Proof. intros H. unfold wrap_i64. rewrite Z.mod_small; lia. Qed.

Lemma tallies_ext {L} `{EqDecision L} (f : Family L) n n' :
  (∀ l, n' l = n l) → tallies f n → tallies f n'.
Proof. intros E H l. rewrite !E. apply H. Qed.

Lemma tallies_default {L} `{EqDecision L} (n : L → N) :
  (∀ l, n l = 0) → tallies Family_default n.
Proof. intros H l. by rewrite Family_get_default. Qed.

Lemma tallies_inc {L} `{EqDecision L} (f : Family L) (l : L) n n' :
  (∀ k, n' k = n k + if decide (l = k) then 1 else 0) → tallies f n →
  tallies (with_metric f l Counter_inc) n'.
Proof.
  intros E H k. specialize (H k). rewrite Family_get_with, E.
  destruct (decide (l = k)) as [->|].
  - split; [lia|]. rewrite Counter_get_inc. destruct (Family_get f k) as [c|]; cbn [default id].
    + destruct H as [_ ->]. by rewrite N.Div0.add_mod_idemp_l.
    + by rewrite Counter_get_default, H.
  - by rewrite N.add_0_r.
Qed.

(** The count of one more call. *)
Lemma count_snoc op log o : count op (log ++ [o]) = count op log + if decide (o = op) then 1 else 0.
Proof. rewrite count_app, count_cons. change (count op []) with 0. lia. Qed.

Lemma perform_registry m call : registry (perform m call) = registry m.
Proof. by destruct call as [[] d]. Qed.

Lemma performs_registry calls m : registry (foldl perform m calls) = registry m.
Proof.
  revert m. induction calls as [|call calls IH]; intros m; [done|]. cbn [foldl].
  by rewrite IH, perform_registry.
Qed.

Lemma perform_exposes m log call : exposes m log → exposes (perform m call) (log ++ [call.1]).
Proof.
  intros [H1 H2 H3 H4 H5 H6].
  destruct call as [op d]; unfold perform; cbn [fst snd].
  destruct op;
    constructor; unfold active_connections;
    cbn [enter_scope leave_scope observe_scope count_connection count_tcp_error count_ws_error
         count_reject set_active set_ws_errors set_tcp_errors set_duration set_connections
         set_rejects m_active_connections m_ws_errors m_tcp_errors m_connection_duration
         m_connections m_rejects];
    rewrite ?Gauge_get_inc, ?Gauge_get_dec, ?Histogram_count_observe, ?H1, ?H2, ?count_snoc;
    try (eapply tallies_ext; [|done]; intros l; rewrite count_snoc; by rewrite decide_False, N.add_0_r);
    try (eapply tallies_inc; [|done]; intros [k]; rewrite count_snoc; cbn;
         do 2 case_decide; congruence || done);
    unfold active_connections in *; rewrite ?decide_True, ?decide_False, ?decide_True, ?N.add_0_r by done;
    try done.
  - rewrite wrap_i64_add. f_equal. lia.
  - rewrite <- Z.add_opp_r, wrap_i64_add. f_equal. lia.
  - by rewrite N.Div0.add_mod_idemp_l.
Qed.

Lemma performs_expose calls m log :
  exposes m log → exposes (foldl perform m calls) (log ++ calls.*1).
Proof.
  revert m log. induction calls as [|call calls IH]; intros m log H; cbn [foldl].
  - by rewrite app_nil_r.
  - rewrite fmap_cons, (cons_middle call.1), (app_assoc log). by apply IH, perform_exposes.
Qed.

(** The names and the fields, in the order of their registration. *)
Definition metric_names : list (str * MetricRef) :=
  [(lit "active_connections", RefActiveConnections); (lit "ws_errors", RefWsErrors);
   (lit "tcp_errors", RefTcpErrors); (lit "connection_duration", RefConnectionDuration);
   (lit "connections", RefConnections); (lit "rejects", RefRejects);
   (lit "process_start_time_seconds", RefProcessStart)].

Lemma metric_names_nodup : NoDup metric_names.*1.
Proof. apply (bool_decide_unpack _). by vm_compute. Qed.

(** What [Metrics::new] returns. *)
Lemma Metrics_new_cases now :
  match Metrics_new now with
  | Ret m => (0 <= now)%Z ∧ exposes m []
             ∧ (λ r, (r.1.1, r.2)) <$> registered (registry m) = metric_names
             ∧ Gauge_get (m_process_start_time_seconds m) = wrap_i64 (now / 1000000000)
  | Panic => (now < 0)%Z
  | _ => False
  end.
Proof.
  unfold Metrics_new, duration_since_epoch. cbv zeta.
  destruct (Z.ltb_spec now 0); cbn [or_panic outcome_bind]; [done|].
  split_and!; [done|..].
  - constructor; cbn [m_active_connections m_ws_errors m_tcp_errors m_connection_duration
      m_connections m_rejects]; try (by apply tallies_default).
    + by rewrite Gauge_get_default.
    + by rewrite Histogram_count_new.
  - cbn [registry]. by rewrite !registered_register, registered_default.
  - cbn [m_process_start_time_seconds]. rewrite Gauge_get_set. f_equal. unfold as_secs.
    by rewrite N2Z.inj_div, Z2N.id.
Qed.

Lemma perform_start m call :
  m_process_start_time_seconds (perform m call) = m_process_start_time_seconds m.
Proof. by destruct call as [[] d]. Qed.

Lemma performs_start calls m :
  m_process_start_time_seconds (foldl perform m calls) = m_process_start_time_seconds m.
Proof.
  revert m. induction calls as [|call calls IH]; intros m; [done|]. cbn [foldl].
  by rewrite IH, perform_start.
Qed.

(** The metrics expose what the program counted.  Unless the clock is
    before the epoch, in which case it panics, [Metrics::new] registers seven
    metrics under distinct names, each a reference to its field; and after any
    calls on them the gauge holds the connections entered less those left, the
    histogram as many observations as scopes that ended, every family one
    counter for each label that occurred, with its number of occurrences, and
    none for the others, all of them modulo the width of their cells; the
    start time stays the one read at the start. *)
Theorem exposition_correct now :
  match Metrics_new now with
  | Ret m => (0 <= now)%Z ∧ ∀ calls, let m' := foldl perform m calls in
      (λ r, (r.1.1, r.2)) <$> registered (registry m') = metric_names
      ∧ NoDup (metric_names.*1)
      ∧ exposes m' calls.*1
      ∧ Gauge_get (m_process_start_time_seconds m') = wrap_i64 (now / 1000000000)
      ∧ ((count ActiveInc calls.*1 < 2 ^ 63) → (count ActiveDec calls.*1 < 2 ^ 63) →
         Gauge_get (m_active_connections m') = active_connections calls.*1)
  | Panic => (now < 0)%Z
  | _ => False
  end.
Proof.
  pose proof (Metrics_new_cases now) as H. destruct (Metrics_new now) as [m| | |]; try done.
  destruct H as (Hn & He & Hr & Hg). split; [done|]. intros calls m'.
  assert (He' : exposes m' calls.*1) by (by apply (performs_expose calls m [])).
  unfold m'. rewrite performs_registry, performs_start.
  split_and!; [done|apply metric_names_nodup|done|done|].
  intros H1 H2. etrans; [apply (ex_active _ _ He')|]. apply wrap_i64_small. unfold active_connections. lia.
Qed.
End registry.

(** ** A concrete library, for the witness *)

Module ideal_metrics.
Definition with_label {L} `{EqDecision L} (f : L → option N) (l : L) (op : N → N) (k : L)
  : option N := if decide (l = k) then Some (op (default 0 (f l))) else f k.

#[export] Instance types : MetricTypes.
Proof.
  refine {|
    Counter := N; Counter_default := 0; Counter_inc c := (c + 1) mod 2 ^ 64; Counter_get c := c;
    Gauge := Z; Gauge_default := 0%Z; Gauge_inc g := wrap_i64 (g + 1);
    Gauge_dec g := wrap_i64 (g - 1); Gauge_set _ z := z; Gauge_get g := g;
    Histogram := N; Histogram_new _ := 0; Histogram_observe h _ := (h + 1) mod 2 ^ 64;
    Histogram_count h := h;
    Family L := L → option N; Family_default _ _ := None; with_metric _ _ := with_label;
    Family_get _ _ f l := f l |}; done.
Defined.

#[export] Instance registry : MetricRegistry.
Proof.
  refine {|
    Registry H := list (str * str * H); Registry_default _ := [];
    register _ r name help h := r ++ [(name, help, h)]; encode_text _ _ _ := Some [];
    registered _ r := r |}; done.
Defined.

Definition sample_calls : list (MetricOp * Duration) :=
  [(ActiveInc, 0); (ConnectionsInc PImaps, 0); (RejectInc RByteCap, 0);
   (DurationObserve, 1500000000); (ActiveDec, 0)].
End ideal_metrics.

#[local] Existing Instances ideal_metrics.types ideal_metrics.registry.

Lemma exposition_correct_witness :
  match Metrics_new 1700000000000000000 with
  | Ret m => exposes (foldl perform m ideal_metrics.sample_calls) ideal_metrics.sample_calls.*1
      ∧ Gauge_get (m_active_connections (foldl perform m ideal_metrics.sample_calls)) = 0%Z
  | _ => False
  end.
Proof.
  pose proof (exposition_correct (T:=ideal_metrics.types) (R:=ideal_metrics.registry)
    1700000000000000000) as H.
  destruct (Metrics_new 1700000000000000000) as [m| | |]; [|done..].
  destruct H as [_ H]. destruct (H ideal_metrics.sample_calls) as (_ & _ & H1 & _ & H2).
  split; [exact H1|]. etrans; [apply H2|].
  - by vm_compute.
  - by vm_compute.
  - by vm_compute.
Defined.
