(* ===== verification/Auth.v ===== *)
(** * Request authentication and client identity ([src/server.rs])

    The checks that [proxy_handler] and [metrics_handler] make on a request's
    headers and query before anything is resolved or dialled: origin and host
    lists, the client address behind trusted proxies, token extraction and
    comparison, and PASETO validation.

    [Headers] stands for [axum]'s [HeaderMap]: the value of
    [headers.get(name).and_then(|v| v.to_str().ok())].  Decrypting and checking
    a PASETO token is [rusty_paseto]'s, parsing a date [chrono]'s: both are
    operations of the class [TokenLibrary]. *)

From Stdlib Require Import ZArith.
From stdpp Require Import sets.
From S2P Require Import Prelude RustStr Net Limits Config.
#[local] Open Scope N_scope.

Definition Headers : Type := str → option str.

Inductive StatusCode :=
| OK | BAD_REQUEST | UNAUTHORIZED | FORBIDDEN | TOO_MANY_REQUESTS
| INTERNAL_SERVER_ERROR | BAD_GATEWAY | SERVICE_UNAVAILABLE.

#[export] Instance StatusCode_eq_dec : EqDecision StatusCode.
Proof. solve_decision. Defined.

Record ProxyQuery := { q_token : str; q_remote : str }.

(** ** Origin and host *)

Definition origin_allowed (headers : Headers) (allowed : gset str) : bool :=
  if bool_decide (allowed = ∅) || bool_decide (lit "*" ∈ allowed) then true else
  match headers (lit "origin") with
  | None => true
  | Some raw =>
      let got := normalize_origin raw in
      existsb (λ o, bool_decide (normalize_origin o = got)) (elements allowed)
  end.

Definition host_allowed (headers : Headers) (allowed : gset str) : bool :=
  if bool_decide (allowed = ∅) then true else
  match headers (lit "host") with
  | None => false
  | Some raw =>
      let got := normalize_host raw in
      existsb (λ h,
        let want := normalize_host h in
        bool_decide (got = want) || bool_decide (head (split ":"%byte got) = Some want))
        (elements allowed)
  end.

(** ** The client address *)

Definition FORWARDED_NAMES : list str :=
  [lit "cf-connecting-ip"; lit "x-real-ip"; lit "x-forwarded-for"; lit "x-envoy-external-address"].

(** [Iterator::find_map] *)
Fixpoint find_map {A B} (f : A → option B) (l : list A) : option B :=
  match l with
  | [] => None
  | x :: l => match f x with Some y => Some y | None => find_map f l end
  end.

Definition forwarded_client_ip (headers : Headers) : option IpAddr :=
  find_map (λ name,
    match headers name with
    | None => None
    | Some value => find_map (λ token, parse_ip_addr (trim token)) (split ","%byte value)
    end) FORWARDED_NAMES.

Definition client_ip (headers : Headers) (peer : SocketAddr) (trust_forwarded : bool)
  (trusted : list Cidr) : IpAddr :=
  if trust_forwarded && existsb (λ c, contains c (sa_ip peer)) trusted then
    match forwarded_client_ip headers with
    | Some ip => ip
    | None => sa_ip peer
    end
  else sa_ip peer.

(** ** Tokens *)

(** [*a.get(i).unwrap_or(&0)] *)
Definition byte_or_zero (a : list byte) (i : nat) : N :=
  match a !! i with Some b => byte_val b | None => 0 end.

Definition token_eq (a b : list byte) : bool :=
  let n := Nat.max (length a) (length b) in
  let diff := foldl (λ diff i, N.lor diff (N.lxor (byte_or_zero a i) (byte_or_zero b i)))
                (N.lxor (lenN a) (lenN b)) (seq 0 n) in
  diff =? 0.

Definition bearer_token (headers : Headers) : option str :=
  raw ← headers (lit "authorization");
  s ← match strip_prefix (lit "Bearer ") raw with
      | Some s => Some s
      | None => strip_prefix (lit "bearer ") raw
      end;
  let s := trim s in
  if bool_decide (s = []) then None else Some s.

Definition protocol_token (headers : Headers) : option str :=
  raw ← headers (lit "sec-websocket-protocol");
  find_map (λ p,
    let bearer := match strip_prefix (lit "bearer.") p with
                  | Some t => if bool_decide (t = []) then None else Some t
                  | None => None
                  end in
    match bearer with
    | Some t => Some t
    | None => if starts_with (lit "v4.local.") p then Some p else None
    end) (trim <$> split ","%byte raw).

Definition offered_auth_protocol (headers : Headers) : option str :=
  raw ← headers (lit "sec-websocket-protocol");
  find_map (λ p,
    if starts_with (lit "bearer.") p || starts_with (lit "v4.local.") p then Some p else None)
    (trim <$> split ","%byte raw).

Definition proxy_token (query : ProxyQuery) (headers : Headers) : str :=
  if negb (bool_decide (q_token query = [])) then q_token query else
  match bearer_token headers with
  | Some b => b
  | None => match protocol_token headers with Some t => t | None => [] end
  end.

(** ** PASETO validation *)

(** What the program uses of [rusty_paseto], [serde_json] and [chrono].
    [paseto_parse validate_exp remote key token]: the token's claims, if it
    decrypts under the key, its [exp] passes the closure and its [remote] is
    the one given.  [claim_str claims name] is
    [claims.get(name).and_then(|v| v.as_str())].  [parse_rfc3339] gives
    nanoseconds since the epoch. *)
Class TokenLibrary (PasetoKey : Type) := {
  Claims : Type;
  paseto_parse : (str → bool) → str → PasetoKey → str → option Claims;
  claim_str : Claims → str → option str;
  parse_rfc3339 : str → option Z;
}.

(** What [rusty_paseto] documents of a successful parse: the claims are those
    sealed under the key, and the validations passed ([exp] missing reads as
    the empty string). *)
Class TokenLibraryLaws (PasetoKey : Type) `{TokenLibrary PasetoKey}
  (decrypt : PasetoKey → str → option Claims) : Prop := {
  paseto_parse_sound check remote key token claims :
    paseto_parse check remote key token = Some claims →
    decrypt key token = Some claims
    ∧ check (default [] (claim_str claims (lit "exp"))) = true
    ∧ claim_str claims (lit "remote") = Some remote;
}.

Section paseto.
  Context {PasetoKey : Type} `{TokenLibrary PasetoKey}.

(** The closure given to [validate_claim]; [now] is [Utc::now()] inside it. *)
Definition validate_exp (now : Z) (val : str) : bool :=
  if bool_decide (val = []) then false else
  match parse_rfc3339 val with
  | None => false
  | Some datetime => negb (datetime <=? now)%Z
  end.

(** The [max_ttl] test; [now] is its own [Utc::now()]. *)
Definition check_ttl (claims : Claims) (max_ttl : Duration) (now : Z) : result StatusCode unit :=
  if max_ttl =? 0 then Ok tt else
  let? exp := ok_or UNAUTHORIZED (claim_str claims (lit "exp")) in
  let? datetime := ok_or UNAUTHORIZED (parse_rfc3339 exp) in
  let remaining := (datetime - now)%Z in
  (* [to_std] fails on a negative duration *)
  if (remaining <? 0)%Z || (Z.of_N max_ttl <? remaining)%Z then Err UNAUTHORIZED else Ok tt.

Definition validate_token (debug_assertions : bool) (token remote : str) (auth_mode : AuthMode)
  (secret_key : option PasetoKey) (max_ttl : Duration) (now_exp now_ttl : Z)
  : result StatusCode unit :=
  if bool_decide (auth_mode = Public) then Ok tt else
  if debug_assertions && bool_decide (token = lit "testtoken") then Ok tt else
  if bool_decide (token = []) then Err UNAUTHORIZED else
  match secret_key with
  | None => Err INTERNAL_SERVER_ERROR
  | Some key =>
      let? claims := ok_or UNAUTHORIZED (paseto_parse (validate_exp now_exp) remote key token) in
      check_ttl claims max_ttl now_ttl
  end.
End paseto.

(** ** The metrics endpoint *)

(** [metrics_handler], on the [token] of its query: the status it answers. *)
Definition metrics_handler (metrics_auth_key : option str) (headers : Headers)
  (query_token : option str) : StatusCode :=
  match metrics_auth_key with
  | Some key =>
      let provided := match bearer_token headers with Some b => Some b | None => query_token end in
      let ok := match provided with Some p => token_eq p key | None => false end in
      if negb ok then UNAUTHORIZED else OK
  | None => OK
  end.

Definition health_handler : StatusCode := OK.

(** ** Lemmas *)

Lemma find_map_head {A B} (f : A → option B) l : find_map f l = head (omap f l).
Proof. induction l as [|x l IH]; [done|]. cbn. by destruct (f x). Qed.

Lemma fold_lor_0 (f : nat → N) l d :
  foldl (λ d i, N.lor d (f i)) d l = 0 ↔ d = 0 ∧ Forall (λ i, f i = 0) l.
Proof.
  revert d. induction l as [|i l IH]; intros d; cbn [foldl]; [rewrite Forall_nil; tauto|].
  rewrite IH, N.lor_eq_0_iff, Forall_cons. tauto.
Qed.

Lemma token_eq_iff a b : token_eq a b = true ↔ a = b.
Proof.
  unfold token_eq. cbv zeta. rewrite N.eqb_eq, fold_lor_0, N.lxor_eq_0_iff, Forall_forall.
  split; [|intros ->; split; [done|intros; apply N.lxor_nilpotent]].
  intros [Hl H]. apply list_eq. intros i. unfold lenN in Hl.
  destruct (decide (i < length a)%nat) as [Hi|Hi].
  2: { rewrite !lookup_ge_None_2 by lia. done. }
  specialize (H i). rewrite elem_of_seq, N.lxor_eq_0_iff in H. unfold byte_or_zero in H.
  destruct (lookup_lt_is_Some_2 a i Hi) as [x Ex].
  destruct (lookup_lt_is_Some_2 b i) as [y Ey]; [lia|].
  rewrite Ex, Ey in *. f_equal. apply byte_val_inj, H. lia.
Qed.

Lemma elements_existsb (P : str → bool) (s : gset str) :
  existsb P (elements s) = true ↔ ∃ x, x ∈ s ∧ P x = true.
Proof.
  rewrite existsb_exists. split; intros (x & Hx & Hp); exists x; (split; [|done]).
  - by apply elem_of_elements, list_elem_of_In.
  - by apply list_elem_of_In, elem_of_elements.
Qed.

(** The part before the first [c], when it is all there is or is followed by [c]. *)
Lemma head_split_iff c s w :
  head (split c s) = Some w ↔ c ∉ w ∧ (s = w ∨ ∃ r, s = w ++ c :: r).
Proof.
  destruct (split_once c s) as [[p r]|] eqn:E.
  - apply split_once_Some in E as [-> Hp]. rewrite split_app_sep by done. cbn [head]. split.
    + intros [= <-]. eauto.
    + intros [Hw [Hs|[r' Hs]]].
      * exfalso. apply Hw. rewrite <- Hs. set_solver.
      * f_equal. revert w Hw Hs. induction p as [|a p IH]; intros [|b w] Hw Hs;
          try (injection Hs as -> Hs); cbn in *.
        -- done.
        -- set_solver.
        -- set_solver.
        -- f_equal. apply IH; set_solver.
  - apply split_once_None in E. rewrite split_no_sep by done. cbn [head]. split.
    + intros [= <-]. auto.
    + intros [_ [->|[r ->]]]; [done|]. exfalso. apply E. set_solver.
Qed.

(** The header [name] holds a comma-separated list in which [ip] is the first
    entry that is an address, or there is none. *)
Definition header_names (headers : Headers) (name : str) (ip : IpAddr) : Prop :=
  ∃ value before token after,
    headers name = Some value ∧ split ","%byte value = before ++ token :: after
    ∧ parse_ip_addr (trim token) = Some ip
    ∧ Forall (λ t, parse_ip_addr (trim t) = None) before.
Definition header_names_none (headers : Headers) (name : str) : Prop :=
  ∀ value, headers name = Some value →
    Forall (λ t, parse_ip_addr (trim t) = None) (split ","%byte value).

Lemma find_map_some_iff {A B} (f : A → option B) l y :
  find_map f l = Some y ↔
  ∃ before x after, l = before ++ x :: after ∧ f x = Some y ∧ Forall (λ x, f x = None) before.
Proof.
  induction l as [|x l IH]; cbn [find_map].
  - split; [done|]. by intros ([] & ? & ? & ? & _).
  - destruct (f x) as [z|] eqn:E.
    + split; [intros [= <-]; by exists [], x, l|].
      intros ([|x' before] & x1 & after & [= -> ->] & Hy & Hb); [congruence|].
      apply Forall_cons in Hb as [Hb _]. congruence.
    + rewrite IH. split.
      * intros (before & x1 & after & -> & Hy & Hb). exists (x :: before), x1, after.
        split_and!; [done..|by constructor].
      * intros ([|x' before] & x1 & after & [= -> ->] & Hy & Hb); [congruence|].
        apply Forall_cons in Hb as [_ Hb]. by exists before, x1, after.
Qed.

Lemma find_map_none_iff {A B} (f : A → option B) l :
  find_map f l = None ↔ Forall (λ x, f x = None) l.
Proof.
  induction l as [|x l IH]; cbn [find_map]; [by rewrite Forall_nil|].
  rewrite Forall_cons, <- IH. destruct (f x); naive_solver.
Qed.

(** What the loop over the headers does with one of them. *)
Definition header_ip (headers : Headers) (name : str) : option IpAddr :=
  match headers name with
  | None => None
  | Some value => find_map (λ token, parse_ip_addr (trim token)) (split ","%byte value)
  end.

Lemma header_ip_some headers name ip :
  header_ip headers name = Some ip ↔ header_names headers name ip.
Proof.
  unfold header_ip, header_names. destruct (headers name) as [value|]; [|naive_solver].
  rewrite find_map_some_iff. naive_solver.
Qed.

Lemma header_ip_none headers name :
  header_ip headers name = None ↔ header_names_none headers name.
Proof.
  unfold header_ip, header_names_none. destruct (headers name) as [value|]; [|naive_solver].
  rewrite find_map_none_iff. naive_solver.
Qed.

Lemma validate_exp_inv `{TokenLibrary PasetoKey} now val :
  validate_exp now val = true → val ≠ [] ∧ ∃ t, parse_rfc3339 val = Some t ∧ (now < t)%Z.
Proof.
  unfold validate_exp. case_bool_decide; [done|].
  destruct (parse_rfc3339 val) as [t|]; [|done]. intros Ht%negb_true_iff%Z.leb_gt. eauto.
Qed.

Lemma check_ttl_inv `{TokenLibrary PasetoKey} claims max_ttl now exp t :
  claim_str claims (lit "exp") = Some exp → parse_rfc3339 exp = Some t →
  match check_ttl claims max_ttl now with
  | Ok _ => max_ttl = 0 ∨ (0 <= t - now <= Z.of_N max_ttl)%Z
  | Err e => e = UNAUTHORIZED
  end.
Proof.
  intros He Ht. unfold check_ttl. destruct (N.eqb_spec max_ttl 0); [by left|].
  rewrite He. cbn [ok_or result_bind]. rewrite Ht. cbn [ok_or result_bind]. cbv zeta.
  destruct (Z.ltb_spec (t - now) 0), (Z.ltb_spec (Z.of_N max_ttl) (t - now)); cbn [orb];
    (done || right; lia).
Qed.

(** ** Properties *)

(** [metrics_handler] answers exactly to the holder of the key: with a
    key configured it serves iff the bearer token, or the query token when no
    bearer token is given, is byte for byte the key; the comparison, which
    runs over the longer of the two, accepts nothing else, whatever the
    lengths. *)
Theorem metrics_handler_correct key headers query_token :
  metrics_handler key headers query_token = OK ↔
  match key with
  | None => True
  | Some k => match bearer_token headers with
              | Some b => b = k
              | None => query_token = Some k
              end
  end.
Proof.
  unfold metrics_handler. destruct key as [k|]; [|done]. cbv zeta.
  destruct (bearer_token headers) as [b|].
  - rewrite <- token_eq_iff. by destruct (token_eq b k).
  - destruct query_token as [q|]; [|done].
    assert (Some q = Some k ↔ token_eq q k = true) as -> by (rewrite token_eq_iff; naive_solver).
    by destruct (token_eq q k).
Qed.

(** C33: Forwarded headers count only behind a trusted proxy.  Unless forwarding
    is on and the TCP peer lies in a trusted prefix, the limits are charged to
    the peer.  Otherwise they are charged to the first address listed in
    [CF-Connecting-IP]; if that names none, in [X-Real-IP]; if that names none
    either, in [X-Forwarded-For], and then in [X-Envoy-External-Address]; and to
    the peer if none of the four names an address.  Entries that are not
    addresses are passed over, and a value that is not visible ASCII counts as
    absent.  The fourth header is in no documentation of the program. *)
Theorem client_ip_correct headers peer trust trusted :
  let client := client_ip headers peer trust trusted in
  let behind_proxy := trust = true ∧ Exists (λ c, contains c (sa_ip peer) = true) trusted in
  let cloudflare := lit "cf-connecting-ip" in
  let nginx := lit "x-real-ip" in
  let forwarded := lit "x-forwarded-for" in
  let envoy := lit "x-envoy-external-address" in
  let none := header_names_none headers in
  (¬ behind_proxy → client = sa_ip peer)
  ∧ (behind_proxy →
     (∀ ip, header_names headers cloudflare ip → client = ip)
     ∧ (∀ ip, none cloudflare → header_names headers nginx ip → client = ip)
     ∧ (∀ ip, none cloudflare → none nginx → header_names headers forwarded ip → client = ip)
     ∧ (∀ ip, none cloudflare → none nginx → none forwarded →
          header_names headers envoy ip → client = ip)
     ∧ (none cloudflare → none nginx → none forwarded → none envoy → client = sa_ip peer)).
Proof.
  assert (H : existsb (λ c, contains c (sa_ip peer)) trusted = true ↔
    Exists (λ c, contains c (sa_ip peer) = true) trusted).
  { rewrite existsb_exists, Exists_exists. by setoid_rewrite list_elem_of_In. }
  cbv zeta. unfold client_ip. split.
  - intros Hn. destruct trust; [|done]. cbn [andb]. destruct (existsb _ _) eqn:E; [|done].
    exfalso. apply Hn. split; [done|]. by apply H.
  - intros [-> He]. rewrite (proj2 H He). cbn [andb].
    change (forwarded_client_ip headers) with (find_map (header_ip headers) FORWARDED_NAMES).
    unfold FORWARDED_NAMES. cbn [find_map].
    setoid_rewrite <- header_ip_some. setoid_rewrite <- header_ip_none.
    split_and!; intros; by repeat match goal with H : header_ip _ _ = _ |- _ => rewrite H end.
Qed.

(** C34: Origin and host lists.  A request passes the origin check iff the
    list is empty or has [*], or it sends no origin (or one that is not visible
    ASCII, which counts as none), or one that is listed; it passes the host
    check iff the list is empty, or its host is listed, with or without a port,
    up to case, outer blanks and trailing dots. *)
Theorem request_allowed_correct headers origins hosts :
  (origin_allowed headers origins = true ↔
   origins = ∅ ∨ lit "*" ∈ origins ∨ headers (lit "origin") = None
   ∨ ∃ raw o, headers (lit "origin") = Some raw ∧ o ∈ origins
       ∧ normalize_origin o = normalize_origin raw)
  ∧ (host_allowed headers hosts = true ↔
     hosts = ∅ ∨ ∃ raw h, headers (lit "host") = Some raw ∧ h ∈ hosts
       ∧ (normalize_host raw = normalize_host h
          ∨ ":"%byte ∉ normalize_host h
            ∧ ∃ port, normalize_host raw = normalize_host h ++ ":"%byte :: port)).
Proof.
  split.
  - unfold origin_allowed. case_bool_decide as E1; [naive_solver|].
    case_bool_decide as E2; [naive_solver|]. cbn [orb].
    destruct (headers (lit "origin")) as [raw|]; [|naive_solver]. cbv zeta.
    rewrite elements_existsb. setoid_rewrite bool_decide_eq_true. naive_solver.
  - unfold host_allowed. case_bool_decide as E1; [naive_solver|].
    destruct (headers (lit "host")) as [raw|]; [|naive_solver]. cbv zeta.
    rewrite elements_existsb. setoid_rewrite orb_true_iff. setoid_rewrite bool_decide_eq_true.
    setoid_rewrite head_split_iff. naive_solver.
Qed.

(** C21: A request is authenticated only if the mode is public, or a debug
    build is given the test token, or its token decrypts under the configured
    key to claims that name the requested remote and an expiry date that is in
    the future and, with a maximum lifetime set, no further ahead than it.
    The only errors are 401, and 500 when no key is configured. *)
Theorem validate_token_sound `{TokenLibraryLaws PasetoKey decrypt} debug token remote mode key
    max_ttl now_exp now_ttl :
  match validate_token debug token remote mode key max_ttl now_exp now_ttl with
  | Ok _ =>
      mode = Public ∨ (debug = true ∧ token = lit "testtoken") ∨
      ∃ k claims exp t, key = Some k ∧ decrypt k token = Some claims
        ∧ claim_str claims (lit "remote") = Some remote
        ∧ claim_str claims (lit "exp") = Some exp ∧ parse_rfc3339 exp = Some t
        ∧ (now_exp < t)%Z ∧ (max_ttl = 0 ∨ (0 <= t - now_ttl <= Z.of_N max_ttl)%Z)
  | Err e => mode = Paseto ∧ (e = UNAUTHORIZED ∨ e = INTERNAL_SERVER_ERROR ∧ key = None)
  end.
Proof.
  unfold validate_token. case_bool_decide as Em; [by left|].
  assert (mode = Paseto) as -> by (by destruct mode). clear Em.
  destruct (debug && bool_decide (token = lit "testtoken")) eqn:Ed.
  { apply andb_true_iff in Ed as [-> Ed]. bool_to_prop. auto. }
  clear Ed. case_bool_decide; [by split; [|left]|]. destruct key as [k|]; [|by split; [|right]].
  destruct (paseto_parse _ _ _ _) as [claims|] eqn:Ep; cbn [ok_or result_bind];
    [|by split; [|left]].
  apply paseto_parse_sound in Ep as (Hd & (Hne & t & Et & Ht)%validate_exp_inv & Hr).
  destruct (claim_str claims (lit "exp")) as [exp|] eqn:Ec; [|done].
  change (parse_rfc3339 exp = Some t) in Et.
  pose proof (check_ttl_inv claims max_ttl now_ttl exp t Ec Et) as Hc.
  destruct (check_ttl _ _ _) as [[]|e]; [|split; [done|by left]].
  do 2 right. exists k, claims, exp, t. split_and!; (done || by auto).
Qed.
(** A toy sealing of one claim set per key, for the witness. *)
Definition toy_claims (c : str * str) (name : str) : option str :=
  if bool_decide (name = lit "remote") then Some c.1
  else if bool_decide (name = lit "exp") then Some c.2 else None.
Definition toy_decrypt (key : str) (token : str) : option (str * str) :=
  if bool_decide (token = key ++ lit "-token")
  then Some (lit "imap.example.com:993", lit "t") else None.
Definition toy_parse (check : str → bool) (remote key token : str) : option (str * str) :=
  c ← toy_decrypt key token;
  if bool_decide (c.1 = remote) && check c.2 then Some c else None.

#[export] Instance toy_library : TokenLibrary str := {|
  Claims := str * str; paseto_parse := toy_parse; claim_str := toy_claims;
  parse_rfc3339 := λ _, Some 1000%Z |}.
#[export] Instance toy_library_laws : TokenLibraryLaws str toy_decrypt.
Proof.
  split. intros check remote key token claims. cbn. unfold toy_parse.
  destruct (toy_decrypt key token) as [c|]; [|done]. cbn.
  destruct (bool_decide (c.1 = remote)) eqn:Er; [|done]. cbn.
  destruct (check c.2) eqn:Ec; [|done]. intros [= <-]. by bool_to_prop; subst.
Qed.

Lemma validate_token_sound_witness :
  let result := validate_token false (lit "k-token")
    (lit "imap.example.com:993") Paseto (Some (lit "k")) 900 10%Z 200%Z in
  result = Ok tt ∧
  ∃ claims, toy_decrypt (lit "k") (lit "k-token") = Some claims.
Proof.
  cbv zeta. split; [by vm_compute|].
  pose proof (validate_token_sound false (lit "k-token") (lit "imap.example.com:993") Paseto
    (Some (lit "k")) 900 10%Z 200%Z) as H.
  assert (E : validate_token false (lit "k-token") (lit "imap.example.com:993") Paseto
    (Some (lit "k")) 900 10%Z 200%Z = Ok tt) by (vm_compute; reflexivity).
  rewrite E in H. destruct H as [H|[[H _]|(k & c & _ & _ & [= <-] & H & _)]];
    [discriminate H|discriminate H|]. exists c. exact H.
Defined.
