(* ===== verification/Connection.v ===== *)
(** * A proxied connection ([src/connection.rs])

    [Connection::run] as a machine that advances at its awaits.  A step is
    what the code does from the completion of one await to the next: an
    [Input] says what completed and with what outcome, the step gives the next
    phase, the state of the shared limits and the effects in order.  Between
    two steps of one connection other tasks may change the limits, so a trace
    of a connection takes an arbitrary state of the limits at every step.

    The sockets, [tokio]'s timers and [axum]'s WebSocket are the environment:
    every completion they can report is an input.  A write is given as one
    outcome; how much of it a failed write transferred is not visible to the
    code. *)

From S2P Require Import Prelude RustStr Net Dest Proto Limits Metrics Config.
#[local] Open Scope N_scope.

Inductive Message :=
| MBinary (data : list byte)
| MText (text : str)
| MPing (payload : list byte)
| MPong (payload : list byte)
| MClose.

(** [timeout(.., write)]: done, failed, or elapsed. *)
Inductive WriteRes := WOk | WErr | WTimeout.

(** [timeout(.., ws.next())] *)
Inductive WsRead :=
| WsMsg (m : Message)   (** [Ok(Some(Ok(m)))] *)
| WsError               (** [Ok(Some(Err(_)))] *)
| WsEnd                 (** [Ok(None)] *)
| WsElapsed.            (** [Err(_)] *)

(** [tcp.read(..)]; an empty read is the end of the stream. *)
Inductive TcpRead :=
| TcpData (data : list byte)
| TcpError
| TcpElapsed.

#[export] Instance Message_eq_dec : EqDecision Message.
Proof. solve_decision. Defined.
#[export] Instance WriteRes_eq_dec : EqDecision WriteRes.
Proof. solve_decision. Defined.

Inductive Effect :=
| TcpWrite (data : list byte) (r : WriteRes)
| WsSend (m : Message) (r : WriteRes)
| WsClose (ok : bool)
| TcpShutdown (ok : bool)
| Metric (op : MetricOp)
| LeaseDropped (lease : ConnectionLease).

#[export] Instance Effect_eq_dec : EqDecision Effect.
Proof. solve_decision. Defined.

Inductive Phase :=
| PStart
| PProbeTls (hello : list byte)
| PProbeGreeting (kind : ProbeKind) (greet : list byte)
| PRelay (conn_bytes : N)
| PTeardown
| PAbort
| PDone.

Section connection.
  Context {PasetoKey : Type} (config : Config PasetoKey).

Record Connection := {
  c_remote : Remote;
  c_client_ip : IpAddr;
  c_tcp : bool;                      (** [tcp.is_some()] *)
  c_lease : option ConnectionLease;
  c_phase : Phase;
}.

Definition Connection_new (remote : Remote) (client_ip : IpAddr) (lease : ConnectionLease)
  : Connection := {|
  c_remote := remote; c_client_ip := client_ip; c_tcp := true; c_lease := Some lease;
  c_phase := PStart |}.

Definition set_phase (c : Connection) (p : Phase) : Connection := {|
  c_remote := c_remote c; c_client_ip := c_client_ip c; c_tcp := c_tcp c;
  c_lease := c_lease c; c_phase := p |}.

(** ** Writes *)

Definition send_tcp (data : list byte) (r : WriteRes) : list Effect * bool :=
  match r with
  | WOk => ([TcpWrite data WOk], true)
  | WErr => ([TcpWrite data WErr; Metric (inc_tcp_error MSend)], false)
  | WTimeout => ([TcpWrite data WTimeout; Metric (inc_tcp_timeout MTimeout)], false)
  end.

Definition send_ws (msg : Message) (r : WriteRes) : list Effect * bool :=
  match r with
  | WOk => ([WsSend msg WOk], true)
  | WErr => ([WsSend msg WErr; Metric (inc_ws_error MSend)], false)
  | WTimeout => ([WsSend msg WTimeout; Metric (inc_ws_error MTimeout)], false)
  end.

Definition close_ws (r : WriteRes) (close_ok : bool) : list Effect :=
  (send_ws MClose r).1 ++ [WsClose close_ok]
  ++ if close_ok then [] else [Metric (inc_ws_error MShutdown)].

Definition close_tcp (shutdown_ok : bool) : list Effect :=
  TcpShutdown shutdown_ok :: if shutdown_ok then [] else [Metric (inc_tcp_error MShutdown)].

(** ** Byte accounting *)

Definition account_bytes (c : Connection) (g : Inner) (n : N) (now_gc now : Instant)
  : bool * Inner * list Effect :=
  if n =? 0 then (true, g, []) else
  match add_bytes g (c_client_ip c) n now_gc now with
  | (Ok _, g) => (true, g, [])
  | (Err _, g) => (false, g, [Metric (inc_reject RByteCap)])
  end.

Definition over_conn_bytes (total : N) : bool :=
  let cap := max_bytes_per_connection config in negb (cap =? 0) && (cap <? total).

(** Either direction of the relay: count [data], check the two byte caps, and
    write it with [write]. *)
Definition forward (c : Connection) (g : Inner) (conn_bytes : N) (data : list byte)
  (now_gc now : Instant) (write : list Effect * bool) : Phase * Inner * list Effect :=
  let conn_bytes := sat_add64 conn_bytes (lenN data) in
  if over_conn_bytes conn_bytes then (PTeardown, g, [Metric (inc_reject RByteCap)]) else
  match account_bytes c g (lenN data) now_gc now with
  | (false, g, es) => (PTeardown, g, es)
  | (true, g, es) => (if write.2 then PRelay conn_bytes else PTeardown, g, es ++ write.1)
  end.

(** ** The relay loop *)

(** What is ready when [select!] polls, and the outcome of the write and the
    clock readings of the iteration. *)
Record Poll := {
  p_deadline : bool;
  p_ws : option WsRead;
  p_tcp : option TcpRead;
  p_write : WriteRes;
  p_now_gc : Instant;
  p_now : Instant;
}.

(** The arm of a WebSocket read. *)
Definition relay_ws (c : Connection) (g : Inner) (conn_bytes : N) (r : WsRead) (p : Poll)
  : Phase * Inner * list Effect :=
  match r with
  | WsMsg (MBinary data) =>
      forward c g conn_bytes data (p_now_gc p) (p_now p) (send_tcp data (p_write p))
  | WsMsg (MText text) =>
      forward c g conn_bytes text (p_now_gc p) (p_now p) (send_tcp text (p_write p))
  | WsMsg (MPing payload) =>
      let '(es, ok) := send_ws (MPong payload) (p_write p) in
      (if ok then PRelay conn_bytes else PTeardown, g, es)
  | WsMsg (MPong _) => (PRelay conn_bytes, g, [])
  | WsMsg MClose => (PTeardown, g, [])
  | WsError => (PTeardown, g, [Metric (inc_ws_error MRead)])
  | WsEnd => (PTeardown, g, [])
  | WsElapsed =>
      let '(es, ok) := send_ws (MPing []) (p_write p) in
      (if ok then PRelay conn_bytes else PTeardown, g, es)
  end.

(** The arm of an upstream read; there is no timeout on it. *)
Definition relay_tcp (c : Connection) (g : Inner) (conn_bytes : N) (r : TcpRead) (p : Poll)
  : Phase * Inner * list Effect :=
  match r with
  | TcpData data =>
      if lenN data =? 0 then (PTeardown, g, []) else
      forward c g conn_bytes data (p_now_gc p) (p_now p) (send_ws (MBinary data) (p_write p))
  | TcpError => (PTeardown, g, [Metric (inc_tcp_error MRead)])
  | TcpElapsed => (PRelay conn_bytes, g, [])
  end.

(** One iteration: [select!] is biased, so the deadline goes first, then the
    client, then the upstream. *)
Definition relay_step (c : Connection) (g : Inner) (conn_bytes : N) (p : Poll)
  : Phase * Inner * list Effect :=
  let has_deadline := negb (max_lifetime config =? 0) in
  if has_deadline && p_deadline p then (PTeardown, g, [Metric (inc_reject RLifetime)]) else
  match p_ws p with
  | Some r => relay_ws c g conn_bytes r p
  | None =>
      match p_tcp p with
      | Some r => relay_tcp c g conn_bytes r p
      | None => (PRelay conn_bytes, g, [])
      end
  end.

(** ** The probes *)

Inductive ProbeRes := ProbeMore (buf : list byte) | ProbeOk | ProbeErr (r : RejectReason).

(** [timeout(.., write).await.map_err(..)?.map_err(..)?] *)
Definition probe_write (r : WriteRes) : ProbeRes :=
  match r with WOk => ProbeOk | WErr | WTimeout => ProbeErr RProto end.

(** One iteration of [probe_tls_sni], and, when the record is complete, what
    follows the loop.  [w] is the outcome of the write it makes, if any. *)
Definition probe_tls_sni (c : Connection) (hello : list byte) (r : WsRead) (w : WriteRes)
  : ProbeRes * list Effect :=
  let grown (data : list byte) :=
    let hello := hello ++ data in
    match tls_record_needed hello with
    | Ret n =>
        if negb (n =? 0) then
          if 16 * 1024 <? lenN hello then (ProbeErr RProto, []) else (ProbeMore hello, [])
        else
          match validate_tls_client_hello hello (host (c_remote c))
                  (match ip_literal (c_remote c) with Some _ => true | None => false end) with
          | Ret _ => (probe_write w, [TcpWrite hello w])
          | _ => (ProbeErr RProto, [])
          end
    | _ => (ProbeErr RProto, [])
    end in
  match r with
  | WsError => (ProbeErr RProto, [Metric (inc_ws_error MRead)])
  | WsEnd | WsElapsed => (ProbeErr RProto, [])
  | WsMsg (MBinary data) => grown data
  | WsMsg (MText text) => grown text
  | WsMsg (MPing p) => (ProbeMore hello, [WsSend (MPong p) w])
  | WsMsg (MPong _) => (ProbeMore hello, [])
  | WsMsg MClose => (ProbeErr RProto, [])
  end.

(** The same for [probe_greeting]. *)
Definition probe_greeting (kind : ProbeKind) (greet : list byte) (r : TcpRead) (w : WriteRes)
  : ProbeRes * list Effect :=
  match r with
  | TcpData data =>
      if lenN data =? 0 then (ProbeErr RProto, []) else
      let greet := greet ++ data in
      if greeting_complete greet || (max_greeting_bytes <=? lenN greet) then
        match validate_greeting greet kind with
        | Ok _ => (probe_write w, [WsSend (MBinary greet) w])
        | Err _ => (ProbeErr RProto, [])
        end
      else (ProbeMore greet, [])
  | TcpError => (ProbeErr RProto, [Metric (inc_tcp_error MRead)])
  | TcpElapsed => (ProbeErr RProto, [])
  end.

(** ** The whole of [run] *)

Inductive Input :=
| InStart (now : Instant)
| InProbeWs (r : WsRead) (w : WriteRes)
| InProbeTcp (r : TcpRead) (w : WriteRes)
| InPoll (p : Poll)
| InTeardown (send : WriteRes) (close_ok shutdown_ok : bool) (now : Instant)
| InAbort (send : WriteRes) (shutdown_ok : bool) (now : Instant).

(** [probe], at its first await: the probe of the port's kind, with nothing read
    yet. *)
Definition probe (kind : ProbeKind) : Phase :=
  match kind with
  | TlsSni => PProbeTls []
  | ImapGreeting | SmtpGreeting => PProbeGreeting kind []
  end.

(** Up to the first await: the scope guards, the port counter, and the choice
    of a probe. *)
Definition run_start (c : Connection) : Phase * list Effect :=
  let es := [Metric ScopeGauge_new;
             Metric (ConnectionsInc (from_port (port (c_remote c))))] in
  if negb (c_tcp c) then (PDone, es) else
  if require_protocol_probe config then
    match probe_for_port (port (c_remote c)) with
    | Some kind => (probe kind, es)
    | None => (PRelay 0, es)
    end
  else (PRelay 0, es).

(** [if let Err(reason) = self.probe(..).await { METRICS.inc_reject(reason); .. }] *)
Definition after_probe (more : list byte → Phase) (r : ProbeRes * list Effect)
  : Phase * list Effect :=
  match r with
  | (ProbeMore buf, es) => (more buf, es)
  | (ProbeOk, es) => (PRelay 0, es)
  | (ProbeErr reason, es) => (PAbort, es ++ [Metric (inc_reject reason)])
  end.

(** Drop of the lease, at the end of [run] or with the [Connection] itself. *)
Definition take_lease (c : Connection) (g : Inner) (now : Instant)
  : Connection * Inner * list Effect :=
  match c_lease c with
  | Some lease =>
      ({| c_remote := c_remote c; c_client_ip := c_client_ip c; c_tcp := c_tcp c;
          c_lease := None; c_phase := PDone |}, drop_lease g lease now, [LeaseDropped lease])
  | None => (set_phase c PDone, g, [])
  end.

Definition scope_drops : list Effect := [Metric ScopeDuration_drop; Metric ScopeGauge_drop].

(** After the loop: both sides are closed, and the lease and the guards are
    dropped. *)
Definition teardown (c : Connection) (g : Inner) (send : WriteRes) (close_ok shutdown_ok : bool)
  (now : Instant) : Connection * Inner * list Effect :=
  let '(c', g, es) := take_lease c g now in
  (c', g, close_ws send close_ok ++ close_tcp shutdown_ok ++ es ++ scope_drops).

(** After a probe that failed: [run] returns, and the lease goes with the
    [Connection]. *)
Definition abort (c : Connection) (g : Inner) (send : WriteRes) (shutdown_ok : bool)
  (now : Instant) : Connection * Inner * list Effect :=
  let '(c', g, es) := take_lease c g now in
  (c', g, [WsSend MClose send; TcpShutdown shutdown_ok] ++ scope_drops ++ es).

Definition connection_step (c : Connection) (g : Inner) (i : Input)
  : option (Connection * Inner * list Effect) :=
  match c_phase c, i with
  | PStart, InStart now =>
      if negb (c_tcp c) then
        let '(c', g, es) := take_lease c g now in
        Some (c', g, (run_start c).2 ++ scope_drops ++ es)
      else
        let '(ph, es) := run_start c in Some (set_phase c ph, g, es)
  | PProbeTls hello, InProbeWs r w =>
      let '(ph, es) := after_probe PProbeTls (probe_tls_sni c hello r w) in
      Some (set_phase c ph, g, es)
  | PProbeGreeting kind greet, InProbeTcp r w =>
      let '(ph, es) := after_probe (PProbeGreeting kind) (probe_greeting kind greet r w) in
      Some (set_phase c ph, g, es)
  | PRelay conn_bytes, InPoll p =>
      let '(ph, g, es) := relay_step c g conn_bytes p in Some (set_phase c ph, g, es)
  | PTeardown, InTeardown send close_ok shutdown_ok now =>
      Some (teardown c g send close_ok shutdown_ok now)
  | PAbort, InAbort send shutdown_ok now =>
      Some (abort c g send shutdown_ok now)
  | _, _ => None
  end.

(** A trace of one connection, other tasks acting on the limits in between. *)
Inductive trace (c : Connection) : list Input → list Effect → Connection → Prop :=
| trace_nil : trace c [] [] c
| trace_step g i c' g' es ins es' c'' :
    connection_step c g i = Some (c', g', es) → trace c' ins es' c'' →
    trace c (i :: ins) (es ++ es') c''.
End connection.
Arguments Connection : clear implicits.

(** ** What a list of effects shows *)

(** The chunks written to the upstream, and the binary messages sent to the
    client, whatever became of the write. *)
Definition tcp_chunks (es : list Effect) : list (list byte) :=
  omap (λ e, match e with TcpWrite d _ => Some d | _ => None end) es.
Definition ws_chunks (es : list Effect) : list (list byte) :=
  omap (λ e, match e with WsSend (MBinary d) _ => Some d | _ => None end) es.
Definition metrics_of (es : list Effect) : list MetricOp :=
  omap (λ e, match e with Metric op => Some op | _ => None end) es.
Definition leases_dropped (es : list Effect) : list ConnectionLease :=
  omap (λ e, match e with LeaseDropped l => Some l | _ => None end) es.

Definition total_len (chunks : list (list byte)) : N := lenN (concat chunks).

(** The payloads that reach the relay loop, in the order it takes them. *)
Definition payload (m : Message) : option (list byte) :=
  match m with MBinary d | MText d => Some d | _ => None end.

Section inputs.
  Context {PasetoKey : Type} (config : Config PasetoKey).

Definition taken_ws (i : Input) : option (list byte) :=
  match i with
  | InPoll p =>
      if negb (max_lifetime config =? 0) && p_deadline p then None else
      match p_ws p with Some (WsMsg m) => payload m | _ => None end
  | _ => None
  end.
Definition taken_tcp (i : Input) : option (list byte) :=
  match i with
  | InPoll p =>
      if negb (max_lifetime config =? 0) && p_deadline p then None else
      match p_ws p, p_tcp p with
      | None, Some (TcpData d) => if lenN d =? 0 then None else Some d
      | _, _ => None
      end
  | _ => None
  end.
End inputs.

(** ** Lemmas *)

Lemma tcp_chunks_app a b : tcp_chunks (a ++ b) = tcp_chunks a ++ tcp_chunks b.
Proof. apply omap_app. Qed.
Lemma ws_chunks_app a b : ws_chunks (a ++ b) = ws_chunks a ++ ws_chunks b.
Proof. apply omap_app. Qed.
Lemma metrics_of_app a b : metrics_of (a ++ b) = metrics_of a ++ metrics_of b.
Proof. apply omap_app. Qed.
Lemma leases_dropped_app a b : leases_dropped (a ++ b) = leases_dropped a ++ leases_dropped b.
Proof. apply omap_app. Qed.
#[export] Hint Rewrite tcp_chunks_app ws_chunks_app metrics_of_app leases_dropped_app : proxy.

Section lemmas.
  Context {PasetoKey : Type} (config : Config PasetoKey).

(** Rule induction that follows a trace forwards. *)
Lemma trace_forward (P : list Input → list Effect → Connection → Prop) c0 :
  P [] [] c0 →
  (∀ ins es c g i c' g' es', P ins es c → connection_step config c g i = Some (c', g', es') →
     P (ins ++ [i]) (es ++ es') c') →
  ∀ ins es c, trace config c0 ins es c → P ins es c.
Proof.
  intros H0 Hs ins es c Ht.
  assert (H : ∀ ins0 es0, P ins0 es0 c0 → P (ins0 ++ ins) (es0 ++ es) c); [|by apply (H [] [])].
  clear H0. induction Ht as [c|c g i c' g' es ins es' c'' Hstep Ht IH]; intros ins0 es0 HP.
  - by rewrite !app_nil_r.
  - specialize (Hs _ _ _ _ _ _ _ _ HP Hstep). specialize (IH _ _ Hs).
    by rewrite <- !app_assoc in IH.
Qed.

Lemma trace_snoc c ins es c1 g i c2 g' es' :
  trace config c ins es c1 → connection_step config c1 g i = Some (c2, g', es') →
  trace config c (ins ++ [i]) (es ++ es') c2.
Proof.
  induction 1 as [c|c g1 i1 c1 g1' es1 ins es2 c3 Hstep _ IH]; intros E; cbn [app].
  - rewrite <- (app_nil_r es'). econstructor; [exact E|constructor].
  - rewrite <- app_assoc. econstructor; [exact Hstep|by apply IH].
Qed.

(** A write shows its data once and nothing else. *)
Lemma send_tcp_shows d r :
  tcp_chunks (send_tcp d r).1 = [d] ∧ ws_chunks (send_tcp d r).1 = []
  ∧ leases_dropped (send_tcp d r).1 = [] ∧ ActiveInc ∉ metrics_of (send_tcp d r).1
  ∧ ActiveDec ∉ metrics_of (send_tcp d r).1.
Proof. destruct r; cbn; split_and!; try done; set_solver. Qed.

Lemma send_ws_shows m r :
  tcp_chunks (send_ws m r).1 = []
  ∧ ws_chunks (send_ws m r).1 = match m with MBinary d => [d] | _ => [] end
  ∧ leases_dropped (send_ws m r).1 = [] ∧ ActiveInc ∉ metrics_of (send_ws m r).1
  ∧ ActiveDec ∉ metrics_of (send_ws m r).1.
Proof. destruct m, r; cbn; split_and!; try done; set_solver. Qed.

(** Effects that leave the scope guards and the lease alone. *)
Definition quiet (es : list Effect) : Prop :=
  leases_dropped es = [] ∧ count ActiveInc (metrics_of es) = 0
  ∧ count ActiveDec (metrics_of es) = 0 ∧ count DurationObserve (metrics_of es) = 0
  ∧ opened (metrics_of es) = [].

Lemma quiet_nil : quiet [].
Proof. done. Qed.

Lemma quiet_app a b : quiet a → quiet b → quiet (a ++ b).
Proof.
  intros (A1 & A2 & A3 & A4 & A5) (B1 & B2 & B3 & B4 & B5). unfold quiet.
  rewrite leases_dropped_app, metrics_of_app, !count_app, opened_app.
  by rewrite A1, A2, A3, A4, A5, B1, B2, B3, B4, B5.
Qed.

Lemma quiet_send_tcp d r : quiet (send_tcp d r).1.
Proof. by destruct r. Qed.
Lemma quiet_send_ws m r : quiet (send_ws m r).1.
Proof. by destruct r. Qed.
Lemma quiet_close_tcp ok : quiet (close_tcp ok).
Proof. by destruct ok. Qed.
Lemma quiet_close_ws r ok : quiet (close_ws r ok).
Proof. by destruct r, ok. Qed.
End lemmas.
#[export] Hint Resolve quiet_nil quiet_app quiet_send_tcp quiet_send_ws quiet_close_tcp
  quiet_close_ws : proxy.

Section forward_lemmas.
  Context {PasetoKey : Type} (config : Config PasetoKey).

(** The two ways an attempt to forward ends. *)
Lemma forward_cases c g n d t1 t2 write :
  let '(ph, g', es) := forward config c g n d t1 t2 write in
  (ph = PTeardown ∧ es = [Metric (inc_reject RByteCap)])
  ∨ (ph = (if write.2 then PRelay (sat_add64 n (lenN d)) else PTeardown) ∧ es = write.1
     ∧ over_conn_bytes config (sat_add64 n (lenN d)) = false).
Proof.
  unfold forward, account_bytes. cbv zeta.
  destruct (over_conn_bytes config (sat_add64 n (lenN d))) eqn:E; [by left|].
  destruct (lenN d =? 0); [by right|].
  destruct (add_bytes g (c_client_ip c) (lenN d) t1 t2) as [[[]|e] g']; [by right|by left].
Qed.

Lemma forward_quiet c g n d t1 t2 write ph g' es :
  quiet write.1 → forward config c g n d t1 t2 write = (ph, g', es) → quiet es.
Proof.
  intros Hw E. pose proof (forward_cases c g n d t1 t2 write) as H. rewrite E in H.
  by destruct H as [[_ ->]|(_ & -> & _)].
Qed.

Lemma forward_phase c g n d t1 t2 write ph g' es :
  forward config c g n d t1 t2 write = (ph, g', es) → ph = PTeardown ∨ ∃ m, ph = PRelay m.
Proof.
  intros E. pose proof (forward_cases c g n d t1 t2 write) as H. rewrite E in H.
  destruct H as [[-> _]|(-> & _)]; [by left|]. destruct write.2; eauto.
Qed.

(** What one iteration of the relay can do: stop, forward one chunk one way,
    or write nothing that carries data. *)
Inductive relay_case (n : N) (i : Poll) : Phase → list Effect → Prop :=
| rc_upstream d ph es :
    taken_ws config (InPoll i) = Some d → taken_tcp config (InPoll i) = None →
    tcp_chunks es = [d] → ws_chunks es = [] →
    ph = PTeardown ∨ ph = PRelay (sat_add64 n (lenN d)) →
    over_conn_bytes config (sat_add64 n (lenN d)) = false → quiet es → relay_case n i ph es
| rc_downstream d ph es :
    taken_ws config (InPoll i) = None → taken_tcp config (InPoll i) = Some d →
    tcp_chunks es = [] → ws_chunks es = [d] →
    ph = PTeardown ∨ ph = PRelay (sat_add64 n (lenN d)) →
    over_conn_bytes config (sat_add64 n (lenN d)) = false → quiet es → relay_case n i ph es
| rc_stop es :
    tcp_chunks es = [] → ws_chunks es = [] → quiet es → relay_case n i PTeardown es
| rc_idle es :
    taken_ws config (InPoll i) = None → taken_tcp config (InPoll i) = None →
    tcp_chunks es = [] → ws_chunks es = [] → quiet es → relay_case n i (PRelay n) es.

(** The three ways an iteration goes on: a chunk up, a chunk down, a control
    message. *)
Lemma forward_up c g n i d ph g' es :
  taken_ws config (InPoll i) = Some d → taken_tcp config (InPoll i) = None →
  forward config c g n d (p_now_gc i) (p_now i) (send_tcp d (p_write i)) = (ph, g', es) →
  relay_case n i ph es.
Proof.
  intros H1 H2 E.
  pose proof (forward_cases c g n d (p_now_gc i) (p_now i) (send_tcp d (p_write i))) as H.
  rewrite E in H. destruct H as [[-> ->]|(-> & -> & Ho)]; [by apply rc_stop|].
  destruct (send_tcp_shows d (p_write i)) as (S1 & S2 & _).
  apply (rc_upstream _ _ d); [done..| |done|auto with proxy].
  destruct (send_tcp d (p_write i)).2; auto.
Qed.

Lemma forward_down c g n i d ph g' es :
  taken_ws config (InPoll i) = None → taken_tcp config (InPoll i) = Some d →
  forward config c g n d (p_now_gc i) (p_now i) (send_ws (MBinary d) (p_write i)) = (ph, g', es) →
  relay_case n i ph es.
Proof.
  intros H1 H2 E.
  pose proof (forward_cases c g n d (p_now_gc i) (p_now i) (send_ws (MBinary d) (p_write i))) as H.
  rewrite E in H. destruct H as [[-> ->]|(-> & -> & Ho)]; [by apply rc_stop|].
  destruct (send_ws_shows (MBinary d) (p_write i)) as (S1 & S2 & _).
  apply (rc_downstream _ _ d); [done..| |done|auto with proxy].
  destruct (send_ws (MBinary d) (p_write i)).2; auto.
Qed.

Lemma control_case n i m ph g g' es :
  taken_ws config (InPoll i) = None → taken_tcp config (InPoll i) = None →
  (∀ d, m ≠ MBinary d) →
  (let '(es, ok) := send_ws m (p_write i) in
   (if ok then PRelay n else PTeardown, g : Inner, es)) = (ph, g', es) →
  relay_case n i ph es.
Proof.
  intros H1 H2 Hm.
  pose proof (send_ws_shows m (p_write i)) as (S1 & S2 & _).
  pose proof (quiet_send_ws m (p_write i)) as Q.
  destruct (send_ws m (p_write i)) as [es' ok]. cbn [fst] in *. intros [= <- <- <-].
  assert (ws_chunks es' = []) by (destruct m; naive_solver).
  destruct ok; [by apply rc_idle|by apply rc_stop].
Qed.

Lemma relay_step_case c g n i ph g' es :
  relay_step config c g n i = (ph, g', es) → relay_case n i ph es.
Proof.
  unfold relay_step. cbv zeta.
  destruct (negb (max_lifetime config =? 0) && p_deadline i) eqn:Ed.
  { intros [= <- <- <-]. by apply rc_stop. }
  pose proof (forward_up c g n i) as Hup. pose proof (forward_down c g n i) as Hdown.
  pose proof (control_case n i) as Hctl. pose proof (rc_idle n i []) as Hidle.
  unfold taken_ws, taken_tcp in *. rewrite Ed in *.
  destruct (p_ws i) as [[[d|d|d|d|]| | |]|]; cbn [relay_ws];
    try (by apply Hup); try (by eapply Hctl); try (intros [= <- <- <-]; by apply rc_stop).
  - intros [= <- <- <-]. by apply Hidle.
  - destruct (p_tcp i) as [[d| |]|]; cbn [relay_tcp];
      try (intros [= <- <- <-]; (by apply rc_stop) || by apply Hidle).
    destruct (lenN d =? 0); [intros [= <- <- <-]; by apply rc_stop|by apply Hdown].
Qed.
End forward_lemmas.

(** *** The life of a connection *)

Section life.
  Context {PasetoKey : Type} (config : Config PasetoKey).

Lemma probe_tls_quiet c hello r w : quiet (probe_tls_sni c hello r w).2.
Proof.
  unfold probe_tls_sni. cbv zeta.
  destruct r as [[]| | |]; try done;
    (destruct (tls_record_needed _) as [n| | |]; [|done..]);
    (destruct (negb (n =? 0)); [by destruct (_ <? _)|]);
    by destruct (validate_tls_client_hello _ _ _).
Qed.

Lemma probe_greeting_quiet kind greet r w : quiet (probe_greeting kind greet r w).2.
Proof.
  unfold probe_greeting. destruct r; try done. destruct (_ =? 0); [done|]. cbv zeta.
  destruct (_ || _); [|done]. by destruct (validate_greeting _ _).
Qed.

Lemma after_probe_quiet more r : quiet r.2 → quiet (after_probe more r).2.
Proof.
  destruct r as [[] es]; cbn; [done..|]. intros H. by apply quiet_app.
Qed.

Lemma after_probe_phase more r :
  (∃ buf, (after_probe more r).1 = more buf) ∨ (after_probe more r).1 = PRelay 0
  ∨ (after_probe more r).1 = PAbort.
Proof. destruct r as [[] es]; cbn; eauto. Qed.

(** Where a connection stands, from its lease and its metrics. *)
Definition stands (lease : ConnectionLease) (es : list Effect) (c : Connection) : Prop :=
  let inc := count ActiveInc (metrics_of es) in
  let dec := count ActiveDec (metrics_of es) in
  let dur := count DurationObserve (metrics_of es) in
  let own := [from_port (port (c_remote c))] in
  c_tcp c = true ∧
  match c_phase c with
  | PStart => es = [] ∧ c_lease c = Some lease
  | PDone =>
      c_lease c = None ∧ leases_dropped es = [lease] ∧ inc = 1 ∧ dec = 1 ∧ dur = 1
      ∧ opened (metrics_of es) = own ∧ (∃ r, WsSend MClose r ∈ es) ∧ (∃ ok, TcpShutdown ok ∈ es)
  | _ => c_lease c = Some lease ∧ leases_dropped es = [] ∧ inc = 1 ∧ dec = 0 ∧ dur = 0
         ∧ opened (metrics_of es) = own
  end.

(** A step between two phases in which the connection is up. *)
Lemma stands_quiet lease es c ph es' :
  c_phase c ≠ PStart → c_phase c ≠ PDone → ph ≠ PStart → ph ≠ PDone →
  stands lease es c → quiet es' → stands lease (es ++ es') (set_phase c ph).
Proof.
  intros H1 H2 H3 H4 [Ht H] (Q1 & Q2 & Q3 & Q4 & Q5). split; [done|].
  assert (Hup : c_lease c = Some lease ∧ leases_dropped es = []
    ∧ count ActiveInc (metrics_of es) = 1 ∧ count ActiveDec (metrics_of es) = 0
    ∧ count DurationObserve (metrics_of es) = 0
    ∧ opened (metrics_of es) = [from_port (port (c_remote c))]) by (by destruct (c_phase c)).
  destruct Hup as (U1 & U2 & U3 & U4 & U5 & U6).
  rewrite leases_dropped_app, metrics_of_app, !count_app, opened_app.
  rewrite Q1, Q2, Q3, Q4, Q5, U2, U3, U4, U5, U6.
  cbn [c_phase set_phase c_lease c_remote]. by destruct ph.
Qed.

(** The last step. *)
Lemma stands_done lease es c es' :
  c_phase c = PTeardown ∨ c_phase c = PAbort → stands lease es c →
  leases_dropped es' = [lease] → count ActiveInc (metrics_of es') = 0 →
  count ActiveDec (metrics_of es') = 1 → count DurationObserve (metrics_of es') = 1 →
  opened (metrics_of es') = [] →
  (∃ r, WsSend MClose r ∈ es') → (∃ ok, TcpShutdown ok ∈ es') →
  stands lease (es ++ es') {| c_remote := c_remote c; c_client_ip := c_client_ip c;
    c_tcp := c_tcp c; c_lease := None; c_phase := PDone |}.
Proof.
  intros Hp [Ht H] E1 E2 E3 E4 E5 [r Hr] [ok Hok]. split; [done|].
  assert (Hup : c_lease c = Some lease ∧ leases_dropped es = []
    ∧ count ActiveInc (metrics_of es) = 1 ∧ count ActiveDec (metrics_of es) = 0
    ∧ count DurationObserve (metrics_of es) = 0
    ∧ opened (metrics_of es) = [from_port (port (c_remote c))])
    by (by destruct Hp as [Hp|Hp]; rewrite Hp in H).
  destruct Hup as (U1 & U2 & U3 & U4 & U5 & U6). cbn [c_phase c_remote].
  rewrite leases_dropped_app, metrics_of_app, !count_app, opened_app.
  rewrite E1, E2, E3, E4, E5, U2, U3, U4, U5, U6.
  split_and!; [done..| |]; [exists r|exists ok]; apply elem_of_app; by right.
Qed.

Lemma stands_step lease es c g i c' g' es' :
  stands lease es c → connection_step config c g i = Some (c', g', es') →
  stands lease (es ++ es') c'.
Proof.
  intros Hs. pose proof Hs as [Ht Hp]. unfold connection_step, teardown, abort.
  destruct (c_phase c) eqn:Eph, i; try done.
  - rewrite Ht. cbn [negb]. destruct Hp as [-> Hl].
    unfold run_start, probe. rewrite Ht. cbn [negb].
    assert (Hstart : ∀ ph, ph ≠ PStart → ph ≠ PDone →
      stands lease ([] ++ [Metric ScopeGauge_new;
        Metric (ConnectionsInc (from_port (port (c_remote c))))]) (set_phase c ph)).
    { intros ph H1 H2. split; [done|]. cbn [c_phase set_phase c_lease]. by destruct ph. }
    destruct (require_protocol_probe config); [|intros [= <- _ <-]; by apply Hstart].
    destruct (probe_for_port _) as [[]|]; intros [= <- _ <-]; by apply Hstart.
  - pose proof (after_probe_quiet PProbeTls _ (probe_tls_quiet c hello r w)) as Q.
    pose proof (after_probe_phase PProbeTls (probe_tls_sni c hello r w)) as F.
    destruct (after_probe _ _) as [ph es1]. intros [= <- _ <-]. cbn [fst snd] in *.
    apply stands_quiet; try done; try (by rewrite Eph);
      by destruct F as [[? ->]|[->| ->]].
  - pose proof (after_probe_quiet (PProbeGreeting kind) _ (probe_greeting_quiet kind greet r w)) as Q.
    pose proof (after_probe_phase (PProbeGreeting kind) (probe_greeting kind greet r w)) as F.
    destruct (after_probe _ _) as [ph es1]. intros [= <- _ <-]. cbn [fst snd] in *.
    apply stands_quiet; try done; try (by rewrite Eph);
      by destruct F as [[? ->]|[->| ->]].
  - destruct (relay_step config c g conn_bytes p) as [[ph g1] es1] eqn:E.
    intros [= <- _ <-]. apply relay_step_case in E.
    apply stands_quiet; try done; try (by rewrite Eph); try (by destruct E as [? ? ? _ _ _ _ []|? ? ? _ _ _ _ []| | ]; subst);
      by destruct E.
  - unfold take_lease. destruct Hp as (-> & _). intros [= <- _ <-].
    apply stands_done; [by left|done|..].
    + rewrite !leases_dropped_app. by destruct send, close_ok, shutdown_ok.
    + by destruct send, close_ok, shutdown_ok.
    + by destruct send, close_ok, shutdown_ok.
    + by destruct send, close_ok, shutdown_ok.
    + by destruct send, close_ok, shutdown_ok.
    + exists send. destruct send; cbn; set_solver.
    + exists shutdown_ok. destruct send, close_ok, shutdown_ok; cbn; set_solver.
  - unfold take_lease. destruct Hp as (-> & _). intros [= <- _ <-].
    apply stands_done; [by right|done|done..| |].
    + exists send. cbn. set_solver.
    + exists shutdown_ok. cbn. set_solver.
Qed.
End life.

(** *** The relay *)

Section relay.
  Context {PasetoKey : Type} (config : Config PasetoKey).

Definition relayed_bytes (es : list Effect) : N :=
  total_len (tcp_chunks es) + total_len (ws_chunks es).

Definition within_cap (es : list Effect) : Prop :=
  max_bytes_per_connection config = 0
  ∨ N.min (relayed_bytes es) U64_MAX <= max_bytes_per_connection config.

(** [b] is [a], or [a] and one more. *)
Definition all_but_last (a b : list (list byte)) : Prop :=
  ∃ o : option (list byte), b = a ++ option_list o.

Definition relayed (ins : list Input) (es : list Effect) (c : Connection) : Prop :=
  match c_phase c with
  | PRelay m =>
      tcp_chunks es = omap (taken_ws config) ins ∧ ws_chunks es = omap (taken_tcp config) ins
      ∧ m = N.min (relayed_bytes es) U64_MAX
  | PTeardown | PDone =>
      all_but_last (tcp_chunks es) (omap (taken_ws config) ins)
      ∧ all_but_last (ws_chunks es) (omap (taken_tcp config) ins)
  | _ => False
  end ∧ within_cap es.

Lemma total_len_app a b : total_len (a ++ b) = total_len a + total_len b.
Proof. unfold total_len. by rewrite concat_app, lenN_app. Qed.

Lemma total_len_1 d : total_len [d] = lenN d.
Proof. unfold total_len. cbn. by rewrite app_nil_r. Qed.

Lemma relayed_bytes_app a b : relayed_bytes (a ++ b) = relayed_bytes a + relayed_bytes b.
Proof. unfold relayed_bytes. rewrite tcp_chunks_app, ws_chunks_app, !total_len_app. lia. Qed.

Lemma over_conn_bytes_iff n :
  over_conn_bytes config n = false ↔
  max_bytes_per_connection config = 0 ∨ n <= max_bytes_per_connection config.
Proof.
  unfold over_conn_bytes. cbv zeta. rewrite andb_false_iff, negb_false_iff, N.eqb_eq, N.ltb_ge.
  done.
Qed.

(** Effects that carry no data keep what was relayed. *)
Lemma relayed_silent es es' :
  tcp_chunks es' = [] → ws_chunks es' = [] → relayed_bytes (es ++ es') = relayed_bytes es.
Proof.
  intros H1 H2. rewrite relayed_bytes_app. unfold relayed_bytes at 2. rewrite H1, H2.
  change (total_len []) with 0. lia.
Qed.

Lemma all_but_last_refl l : all_but_last l l.
Proof. exists None. by rewrite app_nil_r. Qed.

Lemma omap_snoc {A B} (f : A → option B) l x : omap f (l ++ [x]) = omap f l ++ option_list (f x).
Proof. rewrite omap_app. cbn. by destruct (f x). Qed.

Lemma relayed_stop ins es c i es' ph :
  relayed ins es c → ph = PTeardown ∨ ph = PDone →
  (∃ m, c_phase c = PRelay m) ∨ taken_ws config i = None ∧ taken_tcp config i = None →
  tcp_chunks es' = [] → ws_chunks es' = [] →
  ∀ c', c_phase c' = ph → relayed (ins ++ [i]) (es ++ es') c'.
Proof.
  intros [H Hcap] Hph Hi H1 H2 c' Hc'. unfold relayed, within_cap. rewrite Hc'.
  rewrite relayed_silent by done. split; [|exact Hcap].
  rewrite tcp_chunks_app, ws_chunks_app, H1, H2, !app_nil_r, !omap_snoc.
  assert (Hp : all_but_last (tcp_chunks es) (omap (taken_ws config) ins ++ option_list (taken_ws config i))
    ∧ all_but_last (ws_chunks es) (omap (taken_tcp config) ins ++ option_list (taken_tcp config i))).
  { destruct Hi as [[m Em]|[-> ->]].
    - rewrite Em in H. destruct H as (-> & -> & _). split; by eexists.
    - cbn [option_list]. rewrite !app_nil_r.
      destruct (c_phase c); try done. destruct H as (-> & -> & _).
      split; apply all_but_last_refl. }
  destruct Hp as [P1 P2]. by destruct Hph as [->| ->].
Qed.

(** One chunk forwarded, in either direction. *)
Lemma relayed_chunk ins es c i es' m ph d (up : bool) :
  relayed ins es c → c_phase c = PRelay m →
  taken_ws config i = (if up then Some d else None) →
  taken_tcp config i = (if up then None else Some d) →
  tcp_chunks es' = (if up then [d] else []) → ws_chunks es' = (if up then [] else [d]) →
  over_conn_bytes config (sat_add64 m (lenN d)) = false →
  ph = PTeardown ∨ ph = PRelay (sat_add64 m (lenN d)) →
  ∀ c', c_phase c' = ph → relayed (ins ++ [i]) (es ++ es') c'.
Proof.
  intros [H Hcap] Ec E1 E2 E3 E4 Ho%over_conn_bytes_iff Hph c' Hc'. rewrite Ec in H.
  destruct H as (H1 & H2 & Hm).
  assert (Hb : relayed_bytes (es ++ es') = relayed_bytes es + lenN d).
  { rewrite relayed_bytes_app. unfold relayed_bytes at 2. rewrite E3, E4.
    destruct up; rewrite total_len_1; change (total_len []) with 0; lia. }
  assert (Hs : sat_add64 m (lenN d) = N.min (relayed_bytes (es ++ es')) U64_MAX).
  { rewrite Hb, Hm. unfold sat_add64. lia. }
  rewrite Hs in Ho, Hph.
  assert (T1 : tcp_chunks (es ++ es') = omap (taken_ws config) (ins ++ [i])).
  { rewrite tcp_chunks_app, omap_app, H1, E3. cbn. rewrite E1. by destruct up. }
  assert (T2 : ws_chunks (es ++ es') = omap (taken_tcp config) (ins ++ [i])).
  { rewrite ws_chunks_app, omap_app, H2, E4. cbn. rewrite E2. by destruct up. }
  unfold relayed. rewrite Hc'. split; [|exact Ho].
  destruct Hph as [->| ->]; rewrite T1, T2; [|done]. split; apply all_but_last_refl.
Qed.

Lemma relayed_step ins es c g i c' g' es' :
  relayed ins es c → connection_step config c g i = Some (c', g', es') →
  relayed (ins ++ [i]) (es ++ es') c'.
Proof.
  intros Hr. pose proof Hr as [H _]. unfold connection_step, teardown, abort.
  destruct (c_phase c) as [| | |m| | |] eqn:Ec, i; try done; cbv zeta.
  - destruct (relay_step config c g m p) as [[ph g1] es1] eqn:E. intros [= <- _ <-].
    destruct (relay_step_case config _ _ _ _ _ _ _ E)
      as [d ph es1 E1 E2 E3 E4 Hph Ho _|d ph es1 E1 E2 E3 E4 Hph Ho _|es1 E3 E4 _|es1 E1 E2 E3 E4 _].
    + by eapply (relayed_chunk _ _ _ _ _ _ _ d true).
    + by eapply (relayed_chunk _ _ _ _ _ _ _ d false).
    + eapply relayed_stop; [exact Hr|by left|left; by eexists|done..].
    + destruct Hr as [Hr Hcap]. rewrite Ec in Hr. destruct Hr as (H1 & H2 & H3).
      unfold relayed, within_cap. cbn [c_phase set_phase]. rewrite relayed_silent by done.
      split; [|exact Hcap].
      rewrite tcp_chunks_app, ws_chunks_app, !omap_app, E3, E4, H1, H2.
      cbn [omap list_omap]. by rewrite E1, E2.
  - destruct (take_lease c g now) as [[c1 g1] es1] eqn:E. intros [= <- _ <-].
    unfold take_lease in E.
    eapply relayed_stop; [exact Hr|by right|by right| | |
      by destruct (c_lease c); injection E as <- _ _].
    + rewrite !tcp_chunks_app. destruct (c_lease c); injection E as _ _ <-;
        by destruct send, close_ok, shutdown_ok.
    + rewrite !ws_chunks_app. destruct (c_lease c); injection E as _ _ <-;
        by destruct send, close_ok, shutdown_ok.
Qed.

Lemma relayed_trace c ins es c' :
  c_phase c = PRelay 0 → trace config c ins es c' → relayed ins es c'.
Proof.
  intros Hc. apply trace_forward; [|intros; by eapply relayed_step].
  unfold relayed, within_cap. rewrite Hc. split; [done|]. right.
  change (relayed_bytes []) with 0. lia.
Qed.
End relay.

(** *** The probe gate *)

(** What a probe reads. *)
Definition probe_payload (i : Input) : option (list byte) :=
  match i with
  | InProbeWs (WsMsg m) _ => payload m
  | InProbeTcp (TcpData d) _ => Some d
  | _ => None
  end.
Definition probe_bytes (ins : list Input) : list byte := concat (omap probe_payload ins).

Definition is_literal (remote : Remote) : bool :=
  match ip_literal remote with Some _ => true | None => false end.

(** Nothing was relayed in either direction. *)
Definition silent (es : list Effect) : Prop := tcp_chunks es = [] ∧ ws_chunks es = [].

(** The first thing relayed is what the probe read, and the probe accepts it. *)
Definition passed (remote : Remote) (kind : ProbeKind) (ins : list Input) (es : list Effect)
  : Prop :=
  match kind with
  | TlsSni => ∃ rest, tcp_chunks es = probe_bytes ins :: rest
      ∧ validate_tls_client_hello (probe_bytes ins) (host remote) (is_literal remote) = Ret tt
  | _ => ∃ rest, ws_chunks es = probe_bytes ins :: rest
      ∧ validate_greeting (probe_bytes ins) kind = Ok tt
  end.

Section gate.
  Context {PasetoKey : Type} (config : Config PasetoKey) (remote : Remote) (kind : ProbeKind).
  Hypothesis Hprobe : require_protocol_probe config = true.
  Hypothesis Hkind : probe_for_port (port remote) = Some kind.

Definition gate (ins : list Input) (es : list Effect) (c : Connection) : Prop :=
  c_remote c = remote ∧ c_tcp c = true ∧
  match c_phase c with
  | PStart => probe_bytes ins = [] ∧ silent es
  | PProbeTls hello => kind = TlsSni ∧ silent es ∧ hello = probe_bytes ins
  | PProbeGreeting k greet => k = kind ∧ kind ≠ TlsSni ∧ silent es ∧ greet = probe_bytes ins
  | PRelay _ => passed remote kind ins es
  | _ => silent es ∨ passed remote kind ins es
  end.

Lemma probe_bytes_snoc ins i : probe_bytes (ins ++ [i]) = probe_bytes ins ++ default [] (probe_payload i).
Proof.
  unfold probe_bytes. rewrite omap_app, concat_app. f_equal. cbn.
  destruct (probe_payload i); cbn; [by rewrite app_nil_r|done].
Qed.

Lemma silent_app a b : silent a → silent b → silent (a ++ b).
Proof.
  intros [A1 A2] [B1 B2]. unfold silent. by rewrite tcp_chunks_app, ws_chunks_app, A1, A2, B1, B2.
Qed.

Lemma passed_app ins es i es' :
  probe_payload i = None → passed remote kind ins es → passed remote kind (ins ++ [i]) (es ++ es').
Proof.
  intros Hi. unfold passed. rewrite probe_bytes_snoc, Hi. cbn [default]. unfold default, id.
  cbn [from_option]. rewrite app_nil_r.
  destruct kind; intros (rest & E & Hv); rewrite ?tcp_chunks_app, ?ws_chunks_app, E; cbn; eauto.
Qed.

Lemma silent_metric op : silent [Metric op].
Proof. done. Qed.

(** One read of the TLS probe. *)
Lemma gate_tls ins es c r w :
  gate ins es c → c_phase c = PProbeTls (probe_bytes ins) → kind = TlsSni → silent es →
  let '(ph, es') := after_probe PProbeTls (probe_tls_sni c (probe_bytes ins) r w) in
  gate (ins ++ [InProbeWs r w]) (es ++ es') (set_phase c ph).
Proof.
  intros (Hr & Ht & _) _ Hk Hs.
  assert (Hmore : ∀ es', silent es' →
    probe_payload (InProbeWs r w) = None →
    gate (ins ++ [InProbeWs r w]) (es ++ es') (set_phase c (PProbeTls (probe_bytes ins)))).
  { intros es' Hs' Hi. unfold gate. cbn [c_phase set_phase c_remote c_tcp].
    rewrite probe_bytes_snoc, Hi. cbn. rewrite app_nil_r.
    split_and!; [done..|by apply silent_app|done]. }
  assert (Habort : ∀ es', silent es' →
    gate (ins ++ [InProbeWs r w]) (es ++ es') (set_phase c PAbort)).
  { intros es' Hs'. unfold gate. cbn [c_phase set_phase c_remote c_tcp].
    split_and!; [done..|]. left. by apply silent_app. }
  assert (Hgrown : ∀ data, probe_payload (InProbeWs r w) = Some data →
    probe_tls_sni c (probe_bytes ins) r w = probe_tls_sni c (probe_bytes ins) (WsMsg (MBinary data)) w →
    let '(ph, es') := after_probe PProbeTls (probe_tls_sni c (probe_bytes ins) r w) in
    gate (ins ++ [InProbeWs r w]) (es ++ es') (set_phase c ph)).
  { intros data Hi ->. cbn [probe_tls_sni].
    assert (Hb : probe_bytes (ins ++ [InProbeWs r w]) = probe_bytes ins ++ data)
      by (by rewrite probe_bytes_snoc, Hi).
    set (hello := probe_bytes ins ++ data) in *. clearbody hello.
    destruct (tls_record_needed hello) as [n| | |]; cbn [after_probe];
      try (by apply Habort).
    destruct (negb (n =? 0)).
    { destruct (_ <? _); cbn [after_probe]; [by apply Habort|].
      unfold gate. cbn [c_phase set_phase c_remote c_tcp]. rewrite app_nil_r.
      by split_and!. }
    rewrite Hr. fold (is_literal remote).
    destruct (validate_tls_client_hello hello (host remote) (is_literal remote)) as [[]| | |] eqn:Ev;
      cbn [after_probe]; try (by apply Habort).
    assert (Hpass : ∀ es', tcp_chunks es' = [hello] →
      passed remote kind (ins ++ [InProbeWs r w]) (es ++ es')).
    { intros es' E. unfold passed. rewrite Hk, Hb. exists [].
      destruct Hs as [Hs1 _]. by rewrite tcp_chunks_app, Hs1, E. }
    destruct w; cbn [probe_write after_probe]; unfold gate;
      cbn [c_phase set_phase c_remote c_tcp]; split_and!; try done; try right;
      by apply Hpass. }
  destruct r as [[]| | |]; try (by eapply Hgrown); cbn [probe_tls_sni after_probe];
    try (by apply Hmore); by apply Habort.
Qed.

(** One read of the greeting probe. *)
Lemma gate_greeting ins es c r w :
  gate ins es c → kind ≠ TlsSni → silent es →
  let '(ph, es') := after_probe (PProbeGreeting kind) (probe_greeting kind (probe_bytes ins) r w) in
  gate (ins ++ [InProbeTcp r w]) (es ++ es') (set_phase c ph).
Proof.
  intros (Hr & Ht & _) Hk Hs.
  assert (Habort : ∀ es', silent es' →
    gate (ins ++ [InProbeTcp r w]) (es ++ es') (set_phase c PAbort)).
  { intros es' Hs'. unfold gate. cbn [c_phase set_phase c_remote c_tcp].
    split_and!; [done..|]. left. by apply silent_app. }
  destruct r as [data| |]; cbn [probe_greeting after_probe]; try (by apply Habort).
  destruct (lenN data =? 0); cbn [after_probe]; [by apply Habort|].
  assert (Hb : probe_bytes (ins ++ [InProbeTcp (TcpData data) w]) = probe_bytes ins ++ data)
    by (by rewrite probe_bytes_snoc).
  set (greet := probe_bytes ins ++ data) in *. clearbody greet.
  destruct (greeting_complete greet || (max_greeting_bytes <=? lenN greet)).
  - destruct (validate_greeting greet kind) as [[]|] eqn:Ev; cbn [after_probe];
      [|by apply Habort].
    assert (Hpass : ∀ es', ws_chunks es' = [greet] →
      passed remote kind (ins ++ [InProbeTcp (TcpData data) w]) (es ++ es')).
    { intros es' E. destruct Hs as [_ Hs2].
      unfold passed. destruct kind; [done| |]; rewrite Hb; exists [];
        by rewrite ws_chunks_app, Hs2, E. }
    destruct w; cbn [probe_write after_probe]; unfold gate;
      cbn [c_phase set_phase c_remote c_tcp]; split_and!; try done; try right;
      by apply Hpass.
  - unfold gate. cbn [after_probe c_phase set_phase c_remote c_tcp]. rewrite app_nil_r.
    by split_and!.
Qed.

Lemma gate_step ins es c g i c' g' es' :
  gate ins es c → connection_step config c g i = Some (c', g', es') →
  gate (ins ++ [i]) (es ++ es') c'.
Proof using Hprobe Hkind.
  intros Hg. pose proof Hg as (Hr & Ht & Hp). unfold connection_step, teardown, abort.
  destruct (c_phase c) as [|hello|k greet|m| | |] eqn:Ec, i; try done; cbv zeta.
  - rewrite Ht. cbn [negb]. unfold run_start, probe. rewrite Ht, Hprobe, Hr, Hkind. cbn [negb].
    destruct Hp as [Hb Hs].
    assert (Hb' : probe_bytes (ins ++ [InStart now]) = []) by (by rewrite probe_bytes_snoc, Hb).
    destruct kind eqn:Ek; intros [= <- _ <-]; unfold gate;
      cbn [c_phase set_phase c_remote c_tcp]; rewrite Hb', Ek; split_and!; try done;
      by apply silent_app.
  - destruct Hp as (Hk & Hs & ->). pose proof (gate_tls ins es c r w Hg Ec Hk Hs) as H.
    destruct (after_probe _ _). by intros [= <- _ <-].
  - destruct Hp as (-> & Hk & Hs & ->). pose proof (gate_greeting ins es c r w Hg Hk Hs) as H.
    destruct (after_probe _ _). by intros [= <- _ <-].
  - destruct (relay_step config c g m p) as [[ph g1] es1] eqn:E. intros [= <- _ <-].
    assert (Hpass : passed remote kind (ins ++ [InPoll p]) (es ++ es1)) by (by apply passed_app).
    unfold gate. cbn [c_phase set_phase c_remote c_tcp]. split_and!; [done..|].
    destruct (relay_step_case config _ _ _ _ _ _ _ E) as [? ? ? _ _ _ _ [->| ->]|? ? ? _ _ _ _ [->| ->]| |];
      by auto.
  - destruct (take_lease c g now) as [[c1 g1] es1] eqn:E. intros [= <- _ <-]. unfold take_lease in E.
    assert (Hc : c_remote c1 = remote ∧ c_tcp c1 = true ∧ c_phase c1 = PDone ∧ silent es1)
      by (by destruct (c_lease c); injection E as <- _ <-).
    destruct Hc as (? & ? & Hph & Hs1). unfold gate. rewrite Hph. split_and!; [done..|].
    destruct Hp as [Hs|Hps]; [left|right; by apply passed_app].
    apply silent_app; [done|]. repeat apply silent_app; try done;
      by destruct send, close_ok, shutdown_ok.
  - destruct (take_lease c g now) as [[c1 g1] es1] eqn:E. intros [= <- _ <-]. unfold take_lease in E.
    assert (Hc : c_remote c1 = remote ∧ c_tcp c1 = true ∧ c_phase c1 = PDone ∧ silent es1)
      by (by destruct (c_lease c); injection E as <- _ <-).
    destruct Hc as (? & ? & Hph & Hs1). unfold gate. rewrite Hph. split_and!; [done..|].
    destruct Hp as [Hs|Hps]; [left|right; by apply passed_app].
    apply silent_app; [done|]. by repeat apply silent_app.
Qed.
End gate.

Lemma step_leaves_start {K} (config : Config K) c g i c' g' es :
  connection_step config c g i = Some (c', g', es) → c_phase c' ≠ PStart.
Proof.
  unfold connection_step, teardown, abort. destruct (c_phase c), i; try done; cbv zeta.
  - destruct (c_tcp c) eqn:Et; cbn [negb].
    + unfold run_start, probe. rewrite Et. cbn [negb].
      destruct (require_protocol_probe config); [|by intros [= <- _ _]].
      destruct (probe_for_port _) as [[]|]; by intros [= <- _ _].
    + unfold take_lease. destruct (c_lease c); by intros [= <- _ _].
  - pose proof (after_probe_phase PProbeTls (probe_tls_sni c hello r w)) as F.
    destruct (after_probe _ _). intros [= <- _ _]. cbn in *. by destruct F as [[? ->]|[->| ->]].
  - pose proof (after_probe_phase (PProbeGreeting kind) (probe_greeting kind greet r w)) as F.
    destruct (after_probe _ _). intros [= <- _ _]. cbn in *. by destruct F as [[? ->]|[->| ->]].
  - destruct (relay_step config c g conn_bytes p) as [[ph g1] es1] eqn:E. intros [= <- _ _].
    destruct (relay_step_case config _ _ _ _ _ _ _ E) as [? ? ? _ _ _ _ [->| ->]|? ? ? _ _ _ _ [->| ->]| |];
      done.
  - unfold take_lease. destruct (c_lease c); by intros [= <- _ _].
  - unfold take_lease. destruct (c_lease c); by intros [= <- _ _].
Qed.

Lemma stands_trace {K} (config : Config K) remote ip lease ins es c :
  trace config (Connection_new remote ip lease) ins es c →
  stands lease es c ∧ (ins = [] ∧ es = [] ∨ ins ≠ [] ∧ c_phase c ≠ PStart).
Proof.
  revert ins es c. apply (trace_forward config).
  - split; [done|by left].
  - intros ins es c g i c' g' es' [Hs _] E. split; [by eapply stands_step|]. right.
    split; [by destruct ins|]. by eapply step_leaves_start.
Qed.

Lemma trace_drops {K} (config : Config K) remote ip lease ins es c :
  trace config (Connection_new remote ip lease) ins es c →
  leases_dropped es = [] ∨ leases_dropped es = [lease].
Proof.
  intros Ht. destruct (stands_trace _ _ _ _ _ _ _ Ht) as [[_ Hs] _].
  destruct (c_phase c); [destruct Hs as [-> _]; by left|..]; try (left; apply Hs).
  right. apply Hs.
Qed.

Lemma gate_trace {K} (config : Config K) remote ip lease kind ins es c :
  require_protocol_probe config = true → probe_for_port (port remote) = Some kind →
  trace config (Connection_new remote ip lease) ins es c →
  silent es ∨ passed remote kind ins es.
Proof.
  intros Hp Hk Ht.
  assert (H : gate remote kind ins es c).
  { revert ins es c Ht. apply (trace_forward config); [by split_and!|].
    intros ins es c g i c' g' es' Hg E. by eapply (gate_step config remote kind Hp Hk). }
  destruct H as (_ & _ & H). destruct (c_phase c); naive_solver.
Qed.

(** What a session may open with: a complete ClientHello, which names the
    destination unless that is an IP literal, or the greeting of a mail server
    after any blanks. *)
Definition opening (remote : Remote) (kind : ProbeKind) (data : list byte) : Prop :=
  match kind with
  | TlsSni => has_record data ∧
      match ip_literal remote with
      | Some _ => ∃ sni, parse_sni data = Ret sni
      | None => ∃ name, names_host data name
                        ∧ normalize_hostname name = normalize_hostname (host remote)
      end
  | ImapGreeting => ∃ blanks rest, Forall (λ b, greeting_blank b = true) blanks
      ∧ data = blanks ++ lit "* " ++ rest
  | SmtpGreeting => ∃ blanks rest, Forall (λ b, greeting_blank b = true) blanks
      ∧ (data = blanks ++ lit "220 " ++ rest ∨ data = blanks ++ lit "220-" ++ rest)
  end.

Lemma greeting_opening remote kind data :
  kind ≠ TlsSni → validate_greeting data kind = Ok tt → opening remote kind data.
Proof.
  intros Hk Hv. destruct (first_not_blank_split data) as (blanks & line & -> & _ & Hb & Hl).
  rewrite (validate_greeting_line _ _ _ Hb Hl) in Hv.
  destruct kind; [done|..]; cbn [greeting_prefixes existsb] in Hv; rewrite orb_false_r in Hv;
    exists blanks.
  - destruct (starts_with _ _) eqn:E; [|done]. apply starts_with_spec in E as [rest ->]. eauto.
  - destruct (starts_with (lit "220 ") line) eqn:E1, (starts_with (lit "220-") line) eqn:E2;
      try done; (apply starts_with_spec in E1 as [rest ->] || apply starts_with_spec in E2 as [rest ->]);
      eauto.
Qed.

Lemma passed_opening remote kind ins es :
  passed remote kind ins es → opening remote kind (probe_bytes ins).
Proof.
  unfold passed. destruct kind; intros (rest & _ & Hv); try (by apply greeting_opening).
  apply validate_tls_client_hello_correct in Hv as [Hr Hv]. split; [done|].
  unfold is_literal in Hv. by destruct (ip_literal remote).
Qed.

(** ** A sample connection, for the witnesses *)

Definition sample_remote : Remote :=
  {| host := lit "imap.example.com"; port := 993; ip_literal := None |}.
Definition sample_lease : ConnectionLease :=
  {| lease_ip := V4 (v4_new 203 0 113 7); lease_dest := lit "imap.example.com:993" |}.
Definition sample_connection : Connection :=
  Connection_new sample_remote (V4 (v4_new 203 0 113 7)) sample_lease.
Definition sample_config : Config unit := Config_default.
Definition sample_limits : Inner := LimitState_new LimitsConfig_default 0.
Definition sample_relay : Connection := set_phase sample_connection (PRelay 0).
Definition sample_poll (ws : option WsRead) (tcp : option TcpRead) : Poll :=
  {| p_deadline := false; p_ws := ws; p_tcp := tcp; p_write := WOk; p_now_gc := 1; p_now := 1 |}.

(** Run the machine on a list of inputs with one state of the limits. *)
Fixpoint run_inputs {K} (config : Config K) (g : Inner) (c : Connection) (ins : list Input)
  : option (list Effect * Connection) :=
  match ins with
  | [] => Some ([], c)
  | i :: ins =>
      match connection_step config c g i with
      | Some (c', g', es) =>
          match run_inputs config g' c' ins with
          | Some (es', c'') => Some (es ++ es', c'')
          | None => None
          end
      | None => None
      end
  end.

Lemma run_inputs_trace {K} (config : Config K) g c ins es c' :
  run_inputs config g c ins = Some (es, c') → trace config c ins es c'.
Proof.
  revert g c es. induction ins as [|i ins IH]; intros g c es; cbn [run_inputs].
  - intros [= <- <-]. constructor.
  - destruct (connection_step config c g i) as [[[c1 g1] es1]|] eqn:E; [|done].
    destruct (run_inputs config g1 c1 ins) as [[es2 c2]|] eqn:E2; [|done].
    intros [= <- <-]. econstructor; [exact E|]. by eapply IH.
Qed.

Definition sample_session : list Input :=
  [ InStart 0;
    InProbeWs (WsMsg (MBinary (client_hello_with_sni (lit "imap.example.com")))) WOk;
    InPoll (sample_poll (Some (WsMsg (MText (lit "more")))) None);
    InPoll (sample_poll None (Some (TcpData (lit "reply"))));
    InPoll (sample_poll (Some WsEnd) None);
    InTeardown WTimeout false true 9 ].

(** ** Properties *)

(** C9: Every session is torn down on both sides and released exactly once.
    Whatever the sockets, the timers and the other tasks do, and whether it
    ends in the probe or in the relay: until the session is over it holds its
    lease; when it is over, a Close frame was sent (or tried), the upstream
    was shut down, the lease was dropped exactly once, the active gauge was
    raised and lowered once, one duration was observed and the session was
    counted once, under the class of its port.  Once it tears
    down, the next completion ends it. *)
Theorem session_teardown {K} (config : Config K) remote ip lease ins es c :
  trace config (Connection_new remote ip lease) ins es c →
  (if decide (ins = []) then es = [] else count ActiveInc (metrics_of es) = 1)
  ∧ match c_phase c with
    | PDone =>
        c_lease c = None ∧ leases_dropped es = [lease]
        ∧ active_connections (metrics_of es) = 0%Z ∧ count DurationObserve (metrics_of es) = 1
        ∧ opened (metrics_of es) = [from_port (port (c_remote c))]
        ∧ (∃ r, WsSend MClose r ∈ es) ∧ (∃ ok, TcpShutdown ok ∈ es)
    | ph =>
        c_lease c = Some lease ∧ leases_dropped es = []
        ∧ (ph = PTeardown → ∀ g send close_ok shutdown_ok now, ∃ c' g' es',
             connection_step config c g (InTeardown send close_ok shutdown_ok now)
               = Some (c', g', es') ∧ c_phase c' = PDone ∧ g' = drop_lease g lease now)
        ∧ (ph = PAbort → ∀ g send shutdown_ok now, ∃ c' g' es',
             connection_step config c g (InAbort send shutdown_ok now)
               = Some (c', g', es') ∧ c_phase c' = PDone ∧ g' = drop_lease g lease now)
    end.
Proof.
  intros Ht. destruct (stands_trace config _ _ _ _ _ _ Ht) as [[_ Hs] Hi]. split.
  - destruct Hi as [[-> ->]|[Hi Hph]]; [done|]. rewrite decide_False by done.
    by destruct (c_phase c); try (by apply Hs).
  - destruct (c_phase c) eqn:Eph;
      [destruct Hs as [-> Hl]|destruct Hs as (Hl & Hd & _)..|]; try (split_and!; done).
    + split_and!; [done..| |done]. intros _ g send close_ok shutdown_ok now.
      unfold connection_step, teardown, abort, take_lease. rewrite Eph, Hl. eauto 10.
    + split_and!; [done..|]. intros _ g send shutdown_ok now.
      unfold connection_step, teardown, abort, take_lease. rewrite Eph, Hl. eauto 10.
    + destruct Hs as (H1 & H2 & H3 & H4 & H5 & H6 & H7 & H8). split_and!; try done.
      unfold active_connections. by rewrite H3, H4.
Qed.

Lemma session_teardown_witness :
  ∃ es c, run_inputs sample_config sample_limits sample_connection sample_session = Some (es, c)
    ∧ leases_dropped es = [sample_lease].
Proof.
  destruct (run_inputs sample_config sample_limits sample_connection sample_session)
    as [[es c]|] eqn:E; [|by vm_compute in E].
  exists es, c. split; [done|].
  pose proof (session_teardown sample_config sample_remote (V4 (v4_new 203 0 113 7)) sample_lease
    sample_session es c (run_inputs_trace _ _ _ _ _ _ E)) as [_ H].
  assert (Ec : (λ x, c_phase x.2) <$> run_inputs sample_config sample_limits sample_connection
    sample_session = Some PDone) by (vm_compute; reflexivity).
  rewrite E in Ec. injection Ec as Ec. rewrite Ec in H. apply H.
Defined.

(** C12: The relay is faithful.  From the moment it starts, the chunks written
    to the upstream are, in order and each once, the payloads of the text and
    binary messages read from the client, and the binary messages sent to the
    client are the chunks read from the upstream; while the relay runs nothing
    is missing, and after it stops at most the last payload read can be. *)
Theorem relay_faithful {K} (config : Config K) c ins es c' :
  c_phase c = PRelay 0 → trace config c ins es c' →
  all_but_last (tcp_chunks es) (omap (taken_ws config) ins)
  ∧ all_but_last (ws_chunks es) (omap (taken_tcp config) ins)
  ∧ (∀ n, c_phase c' = PRelay n →
       tcp_chunks es = omap (taken_ws config) ins ∧ ws_chunks es = omap (taken_tcp config) ins).
Proof.
  intros Hc Ht. destruct (relayed_trace config _ _ _ _ Hc Ht) as [H _].
  destruct (c_phase c') eqn:E; try done.
  - destruct H as (-> & -> & _). split_and!; try apply all_but_last_refl. done.
  - by destruct H.
  - by destruct H.
Qed.

Lemma relay_faithful_witness :
  ∃ es c, run_inputs sample_config sample_limits sample_relay
      [InPoll (sample_poll (Some (WsMsg (MText (lit "a")))) (Some (TcpData (lit "b"))))]
      = Some (es, c)
    ∧ all_but_last (tcp_chunks es) [lit "a"].
Proof.
  eexists _, _. split; [vm_compute; reflexivity|].
  eapply (relay_faithful sample_config sample_relay
    [InPoll (sample_poll (Some (WsMsg (MText (lit "a")))) (Some (TcpData (lit "b"))))]);
    [reflexivity|eapply (run_inputs_trace _ sample_limits); vm_compute; reflexivity].
Defined.

(** C23: The byte cap of a session.  With [max_bytes_per_connection] set (below
    [u64::MAX], where the saturating counter is exact), the bytes the relay
    writes in both directions together never exceed it: a chunk that would is
    dropped and the session torn down. *)
Theorem relay_byte_cap {K} (config : Config K) c ins es c' :
  c_phase c = PRelay 0 → trace config c ins es c' →
  max_bytes_per_connection config ≠ 0 → max_bytes_per_connection config < U64_MAX →
  total_len (tcp_chunks es) + total_len (ws_chunks es) <= max_bytes_per_connection config.
Proof.
  intros Hc Ht Hn Hm. destruct (relayed_trace config _ _ _ _ Hc Ht) as [_ [H|H]]; [done|].
  unfold relayed_bytes in H. lia.
Qed.

Lemma relay_byte_cap_witness :
  ∃ es c, run_inputs sample_config sample_limits sample_relay
      [InPoll (sample_poll (Some (WsMsg (MBinary (lit "abc")))) None)] = Some (es, c)
    ∧ total_len (tcp_chunks es) + total_len (ws_chunks es) <= 262144000.
Proof.
  eexists _, _. split; [vm_compute; reflexivity|].
  eapply (relay_byte_cap sample_config sample_relay
    [InPoll (sample_poll (Some (WsMsg (MBinary (lit "abc")))) None)]);
    [reflexivity|eapply (run_inputs_trace _ sample_limits); vm_compute; reflexivity
    |by vm_compute|by vm_compute].
Defined.

(** C15: The probe is a gate.  With probes on and a mail port, nothing is
    relayed in either direction before the probe has passed, and the first
    thing relayed is exactly what it read: on a TLS port a complete ClientHello
    goes to the upstream, on a plaintext port a greeting of its protocol goes to
    the client.  For a destination that is a host name the ClientHello must name
    it, and one that names nothing is refused; for an IP literal its name, or
    the lack of one, is not looked at. *)
Theorem probe_gate {K} (config : Config K) remote ip lease kind ins es c :
  require_protocol_probe config = true → probe_for_port (port remote) = Some kind →
  trace config (Connection_new remote ip lease) ins es c →
  silent es ∨ passed remote kind ins es ∧ opening remote kind (probe_bytes ins).
Proof.
  intros Hp Hk Ht. destruct (gate_trace config remote ip lease kind ins es c Hp Hk Ht) as [H|H];
    [by left|right]. split; [done|by eapply passed_opening].
Qed.

Lemma probe_gate_witness :
  ∃ es c, run_inputs sample_config sample_limits sample_connection sample_session = Some (es, c)
    ∧ passed sample_remote TlsSni sample_session es.
Proof.
  destruct (run_inputs sample_config sample_limits sample_connection sample_session)
    as [[es c]|] eqn:E; [|by vm_compute in E].
  exists es, c. split; [done|].
  pose proof (probe_gate sample_config sample_remote (V4 (v4_new 203 0 113 7)) sample_lease TlsSni
    sample_session es c eq_refl eq_refl (run_inputs_trace _ _ _ _ _ _ E)) as H.
  assert (Ec : (λ x, bool_decide (tcp_chunks x.1 = [])) <$> run_inputs sample_config sample_limits
    sample_connection sample_session = Some false) by (vm_compute; reflexivity).
  rewrite E in Ec. injection Ec as Ec. apply bool_decide_eq_false in Ec.
  destruct H as [[H _]|[H _]]; [by destruct Ec|exact H].
Defined.

(** C40: The TLS probe refuses some legal ClientHellos depending on how they
    are split into messages: a record whose body fills the 16384 bytes TLS
    allows, 16389 bytes with its header, is refused when its first message
    carries 16385 to 16388 of them, although [tls_record_needed] only asks for
    the rest; sent in one message it goes on to be validated. *)
Theorem probe_tls_refuses_split (c : Connection) minor body k w :
  let record := "022"%byte :: "003"%byte :: minor :: to_be16 (lenN body) ++ body in
  lenN body = MAX_TLS_RECORD → 16385 <= N.of_nat k → N.of_nat k < 16389 →
  has_record record
  ∧ tls_record_needed (take k record) = Ret (16389 - N.of_nat k)
  ∧ probe_tls_sni c [] (WsMsg (MBinary (take k record))) w = (ProbeErr RProto, []).
Proof.
  intros record Hb H1 H2. unfold MAX_TLS_RECORD in Hb.
  assert (Hrec : has_record record).
  { exists minor, body, []. rewrite app_nil_r. split; [done|]. unfold MAX_TLS_RECORD. lia. }
  assert (Ht : lenN (take k record) = N.of_nat k).
  { unfold record, lenN in *. rewrite length_take. cbn [length app to_be16].
    apply N2Nat.inj_iff in Hb. rewrite Nat2N.id in Hb.
    assert (N.to_nat (16 * 1024) = 16384%nat) by done. lia. }
  assert (Hn : tls_record_needed (take k record) = Ret (16389 - N.of_nat k)).
  { assert (k = 5 + (k - 5))%nat as -> by lia. cbn [record app to_be16 take Nat.add].
    rewrite tls_record_needed_long, from_to_be16 by (rewrite Hb; pow_lia). cbv zeta.
    rewrite Hb. cbn [negb orb]. change (byte_val "022" =? 22) with true.
    change (byte_val "003" =? 3) with true. cbn [negb orb].
    change ((16 * 1024 =? 0) || (MAX_TLS_RECORD <? 16 * 1024)) with false. cbn iota.
    assert (Hl : lenN (take (k - 5) body) = N.of_nat (k - 5)).
    { unfold lenN in *. rewrite length_take. lia. }
    rewrite Hl, (proj2 (N.leb_gt _ _)) by lia. f_equal. lia. }
  split; [done|]. split; [done|]. cbn [probe_tls_sni app]. rewrite Hn.
  rewrite (proj2 (N.eqb_neq _ _)) by lia. cbn [negb].
  rewrite (proj2 (N.ltb_lt _ _)) by (rewrite Ht; lia). done.
Qed.

Lemma probe_tls_refuses_split_witness :
  ∃ data, lenN data = 16386
    ∧ probe_tls_sni sample_connection [] (WsMsg (MBinary data)) WOk = (ProbeErr RProto, []).
Proof.
  pose proof (probe_tls_refuses_split sample_connection "001" (replicate 16384 "000"%byte) 16386 WOk)
    as H. cbv zeta in H.
  eexists. split; [|apply H; by vm_compute]. by vm_compute.
Defined.
