(* ===== verification/Lifetime.v ===== *)
(** * The life of a connection

    An input of a connection is an event, or it is idle: a control message, an
    empty message, a keep-alive, a poll that finds nothing.  Idle inputs alone
    never end a connection, which is what the program means to do; a measure of
    what is left to do shows that every event uses some of it up, so that a
    connection takes a bounded number of events whatever the peers, the timers
    and the other tasks do: nothing but idle inputs can keep it going. *)

From Stdlib Require Import ZArith.
From stdpp Require Import sets.
From S2P Require Import Prelude RustStr Net Dest Proto Limits Metrics Config Connection.
#[local] Open Scope N_scope.

Section lifetime.
  Context {PasetoKey : Type} (config : Config PasetoKey).

#[local] Abbreviation cap := (max_bytes_per_connection config).

(** An input that may leave everything as it is.  The relay answers a [Ping], and
    its own idle timeout, with a frame, and forwards an empty message: it goes on
    only if that is written. *)
Definition idle_msg (m : Message) : bool :=
  match m with
  | MPing _ | MPong _ => true
  | MBinary d | MText d => bool_decide (d = [])
  | MClose => false
  end.
Definition idle (i : Input) : bool :=
  match i with
  | InProbeWs (WsMsg m) _ => idle_msg m
  | InPoll p =>
      negb (negb (max_lifetime config =? 0) && p_deadline p) &&
      match p_ws p, p_tcp p with
      | Some (WsMsg (MPong _)), _ => true
      | Some (WsMsg m), _ => idle_msg m && bool_decide (p_write p = WOk)
      | Some WsElapsed, _ => bool_decide (p_write p = WOk)
      | Some (WsError | WsEnd), _ => false
      | None, Some (TcpData _ | TcpError) => false
      | None, (Some TcpElapsed | None) => true
      end
  | _ => false
  end.

(** The bytes that a phase may still take, and the phases still to come. *)
Definition remaining (ph : Phase) : N :=
  match ph with
  | PDone => 0
  | PTeardown | PAbort => 1
  | PRelay n => 2 + (cap - n)
  | PProbeTls hello => 3 + cap + (16 * 1024 - lenN hello)
  | PProbeGreeting _ greet => 3 + cap + (max_greeting_bytes - lenN greet)
  | PStart => 4 + cap + 16 * 1024
  end.

(** A probe that reads on holds more than before, within its bound, unless its
    input was idle. *)
Lemma probe_tls_more c hello r w buf es :
  probe_tls_sni c hello r w = (ProbeMore buf, es) →
  if idle (InProbeWs r w) then buf = hello else lenN hello < lenN buf <= 16 * 1024.
Proof.
  assert (Hw : ∀ w, probe_write w ≠ ProbeMore buf) by (by intros []).
  assert (Hg : ∀ data,
    probe_tls_sni c hello (WsMsg (MBinary data)) w = (ProbeMore buf, es) →
    if bool_decide (data = []) then buf = hello else lenN hello < lenN buf <= 16 * 1024).
  { intros data. unfold probe_tls_sni. destruct (tls_record_needed _) as [n| | |]; [|done..].
    destruct (n =? 0); cbn [negb].
    - destruct (validate_tls_client_hello _ _ _); intros [= E _]; try done. by apply Hw in E.
    - destruct (N.ltb_spec (16 * 1024) (lenN (hello ++ data))); intros [= <- _].
      case_bool_decide as Hd; [subst; apply app_nil_r|]. rewrite lenN_app in *.
      destruct data; [done|]. rewrite lenN_cons in *. lia. }
  destruct r as [[d|d|d|d|]| | |]; try done; cbn [idle idle_msg]; try apply Hg;
    by intros [= <- _].
Qed.

Lemma probe_greeting_more kind greet r w buf es :
  probe_greeting kind greet r w = (ProbeMore buf, es) →
  lenN greet < lenN buf < max_greeting_bytes.
Proof.
  assert (Hw : ∀ w, probe_write w ≠ ProbeMore buf) by (by intros []).
  unfold probe_greeting. destruct r as [d| |]; [|done..].
  destruct (N.eqb_spec (lenN d) 0); [done|].
  destruct (greeting_complete (greet ++ d)); cbn [orb].
  { destruct (validate_greeting _ _); intros [= E _]. by apply Hw in E. }
  destruct (N.leb_spec max_greeting_bytes (lenN (greet ++ d))).
  { destruct (validate_greeting _ _); intros [= E _]. by apply Hw in E. }
  intros [= <- _]. rewrite lenN_app in *. lia.
Qed.

(** A chunk that the connection's cap lets through. *)
Lemma relay_progress n (d : list byte) :
  cap ≠ 0 → cap < U64_MAX → over_conn_bytes config (sat_add64 n (lenN d)) = false →
  sat_add64 n (lenN d) = n ∨ n < sat_add64 n (lenN d) <= cap.
Proof.
  unfold over_conn_bytes, sat_add64. cbv zeta. intros Hc Hm H.
  rewrite (proj2 (N.eqb_neq cap 0)) in H by done. cbn [negb andb] in H. apply N.ltb_ge in H. lia.
Qed.

Lemma set_phase_same c : set_phase c (c_phase c) = c.
Proof. by destruct c. Qed.

(** *** A step uses up what is left *)

Definition spends (ph : Phase) (i : Input) (ph' : Phase) : Prop :=
  remaining ph' + (if idle i then 0 else 1) <= remaining ph.

Lemma spends_less ph i ph' : remaining ph' < remaining ph → spends ph i ph'.
Proof. unfold spends. destruct (idle i); lia. Qed.

Lemma spends_stay ph i : idle i = true → spends ph i ph.
Proof. unfold spends. intros ->. lia. Qed.

Lemma start_spends c now : spends PStart (InStart now) (run_start config c).1.
Proof.
  apply spends_less. assert (max_greeting_bytes = 512) by done.
  unfold run_start, probe. destruct (negb (c_tcp c)); [cbn; lia|].
  destruct (require_protocol_probe config); [destruct (probe_for_port _) as [[]|]|];
    cbn [fst remaining]; change (lenN []) with 0; lia.
Qed.

Lemma tls_spends c hello r w :
  spends (PProbeTls hello) (InProbeWs r w) (after_probe PProbeTls (probe_tls_sni c hello r w)).1.
Proof.
  destruct (probe_tls_sni c hello r w) as [[buf| |rs] es] eqn:E; cbn [after_probe fst];
    try (apply spends_less; cbn [remaining]; lia).
  apply probe_tls_more in E. destruct (idle _) eqn:Ei; [subst; by apply spends_stay|].
  apply spends_less. cbn [remaining]. lia.
Qed.

Lemma greeting_spends kind greet r w :
  spends (PProbeGreeting kind greet) (InProbeTcp r w)
    (after_probe (PProbeGreeting kind) (probe_greeting kind greet r w)).1.
Proof.
  destruct (probe_greeting kind greet r w) as [[buf| |rs] es] eqn:E; cbn [after_probe fst];
    try (apply spends_less; cbn [remaining]; lia).
  apply probe_greeting_more in E. apply spends_less. cbn [remaining]. lia.
Qed.

Lemma forward_spends c g n d t1 t2 write i :
  cap ≠ 0 → cap < U64_MAX → idle i = bool_decide (d = []) && write.2 →
  spends (PRelay n) i (forward config c g n d t1 t2 write).1.1.
Proof.
  intros H0 Hm Hi. pose proof (forward_cases config c g n d t1 t2 write) as H.
  destruct (forward config c g n d t1 t2 write) as [[ph g'] es]. cbn [fst].
  destruct H as [[-> _]|(-> & _ & Ho)]; [apply spends_less; cbn [remaining]; lia|].
  destruct write.2; [rewrite andb_true_r in Hi|apply spends_less; cbn [remaining]; lia].
  pose proof (relay_progress _ _ H0 Hm Ho) as Hp. revert Ho.
  unfold spends. rewrite Hi. cbn [remaining]. case_bool_decide as Hd; [lia|].
  unfold over_conn_bytes. cbv zeta. rewrite (proj2 (N.eqb_neq cap 0)) by done.
  cbn [negb andb]. intros Ho%N.ltb_ge. unfold sat_add64 in *.
  destruct d; [done|]. rewrite lenN_cons in *. lia.
Qed.

Lemma relay_spends c g n p :
  cap ≠ 0 → cap < U64_MAX → spends (PRelay n) (InPoll p) (relay_step config c g n p).1.1.
Proof.
  intros H0 Hm. assert (Hstop : spends (PRelay n) (InPoll p) PTeardown)
    by (apply spends_less; cbn [remaining]; lia).
  assert (Hctl : ∀ m, idle (InPoll p) = bool_decide (p_write p = WOk) →
    spends (PRelay n) (InPoll p) (let '(es, ok) := send_ws m (p_write p) in
      (if ok then PRelay n else PTeardown, g, es)).1.1).
  { intros m. destruct (p_write p); [apply spends_stay|done..]. }
  assert (Hup : ∀ d, (send_tcp d (p_write p)).2 = bool_decide (p_write p = WOk))
    by (by destruct (p_write p)).
  assert (Hdown : ∀ m, (send_ws m (p_write p)).2 = bool_decide (p_write p = WOk))
    by (by destruct (p_write p)).
  unfold relay_step. cbv zeta.
  destruct (negb (max_lifetime config =? 0) && p_deadline p) eqn:Ed; [exact Hstop|].
  assert (Hi : ∀ b, idle (InPoll p) = b ↔ (match p_ws p, p_tcp p with
      | Some (WsMsg (MPong _)), _ => true
      | Some (WsMsg m), _ => idle_msg m && bool_decide (p_write p = WOk)
      | Some WsElapsed, _ => bool_decide (p_write p = WOk)
      | Some (WsError | WsEnd), _ => false
      | None, Some (TcpData _ | TcpError) => false
      | None, (Some TcpElapsed | None) => true
      end) = b) by (intros b; cbn [idle]; by rewrite Ed).
  destruct (p_ws p) as [[[d|d|d|d|]| | |]|]; cbn [relay_ws];
    try (apply forward_spends; [done..|rewrite Hup; by apply Hi]); try (by apply Hctl, Hi);
    try exact Hstop; try (by apply spends_stay, Hi).
  destruct (p_tcp p) as [[d| |]|]; cbn [relay_tcp]; try exact Hstop; try (by apply spends_stay, Hi).
  destruct (N.eqb_spec (lenN d) 0) as [|Hd]; [exact Hstop|].
  apply forward_spends; [done..|]. rewrite bool_decide_false by (by intros ->). by apply Hi.
Qed.

Lemma step_spends c g i c' g' es :
  cap ≠ 0 → cap < U64_MAX → connection_step config c g i = Some (c', g', es) →
  spends (c_phase c) i (c_phase c').
Proof.
  intros H0 Hm E.
  assert (Ht : ∀ now c' g' es, take_lease c g now = (c', g', es) → c_phase c' = PDone).
  { intros now c1 g1 es1. unfold take_lease. by destruct (c_lease c); intros [= <- _ _]. }
  unfold connection_step, teardown, abort in E. destruct (c_phase c) eqn:Ep, i; try done; cbv zeta in E.
  - pose proof (start_spends c now) as H. destruct (negb (c_tcp c)).
    + destruct (take_lease c g now) as [[c1 g1] es1] eqn:El. injection E as <- _ _.
      rewrite (Ht _ _ _ _ El). apply spends_less. cbn [remaining]. lia.
    + destruct (run_start config c). by injection E as <- _ _.
  - pose proof (tls_spends c hello r w) as H. destruct (after_probe _ _). by injection E as <- _ _.
  - pose proof (greeting_spends kind greet r w) as H.
    destruct (after_probe _ _). by injection E as <- _ _.
  - pose proof (relay_spends c g conn_bytes p H0 Hm) as H.
    destruct (relay_step _ _ _ _ _) as [[ph g1] es1]. by injection E as <- _ _.
  - destruct (take_lease c g now) as [[c1 g1] es1] eqn:El. injection E as <- _ _.
    rewrite (Ht _ _ _ _ El). by apply spends_less.
  - destruct (take_lease c g now) as [[c1 g1] es1] eqn:El. injection E as <- _ _.
    rewrite (Ht _ _ _ _ El). by apply spends_less.
Qed.

Lemma trace_spends c ins es c' :
  cap ≠ 0 → cap < U64_MAX → trace config c ins es c' →
  lenN ins + remaining (c_phase c')
  <= remaining (c_phase c) + lenN (filter (λ i, idle i = true) ins).
Proof.
  intros H0 Hm. induction 1 as [c|c g i c1 g1 es1 ins es2 c2 E _ IH]; [cbn; lia|].
  apply step_spends in E; [|done..]. unfold spends in E. rewrite lenN_cons, filter_cons.
  destruct (idle i); [rewrite decide_True, lenN_cons by done|rewrite decide_False by done]; lia.
Qed.

(** An idle input leaves the relay as it is. *)
Lemma idle_keeps c g n p :
  c_phase c = PRelay n → n < 2 ^ 64 → over_conn_bytes config n = false →
  idle (InPoll p) = true → ∃ es, connection_step config c g (InPoll p) = Some (c, g, es).
Proof.
  intros Hc Hn Ho Hi. unfold connection_step. rewrite Hc.
  assert (Hf : ∀ d write, bool_decide (d = []) = true → write.2 = true →
    ∃ es, forward config c g n d (p_now_gc p) (p_now p) write = (PRelay n, g, es)).
  { intros d write ->%bool_decide_eq_true Hr. unfold forward, account_bytes. cbv zeta.
    change (lenN []) with 0. assert (sat_add64 n 0 = n) as ->.
    { unfold sat_add64, U64_MAX. lia. }
    rewrite Ho, Hr. cbn [N.eqb]. eauto. }
  assert (H : ∃ es, relay_step config c g n p = (PRelay n, g, es)).
  { unfold relay_step. cbn [idle] in Hi. cbv zeta.
    destruct (negb (max_lifetime config =? 0) && p_deadline p); [done|]. cbn [negb andb] in Hi.
    assert (Hw : bool_decide (p_write p = WOk) = true → p_write p = WOk)
      by (apply bool_decide_eq_true).
    destruct (p_ws p) as [[[d|d|d|d|]| | |]|]; cbn [relay_ws idle_msg andb] in *; try done;
      try (apply andb_true_iff in Hi as [Hi ->%Hw]; by apply Hf);
      try (apply Hw in Hi as ->); cbn; eauto.
    destruct (p_tcp p) as [[d| |]|]; cbn [relay_tcp]; try done; eauto. }
  destruct H as [es ->]. exists es. by rewrite <- Hc, set_phase_same.
Qed.

(** A poll that finds the client gone. *)
Definition poll_end : Poll := {|
  p_deadline := false; p_ws := Some WsEnd; p_tcp := None; p_write := WOk;
  p_now_gc := 0; p_now := 0 |}.

(** Every connection that has not ended waits for an event. *)
Lemma event_possible c :
  c_phase c ≠ PDone → ∃ i, idle i = false ∧ ∀ g, is_Some (connection_step config c g i).
Proof.
  intros Hd. unfold connection_step.
  destruct (c_phase c) as [|hello|kind greet|n| | |] eqn:Ep; [| | | | | |done].
  - exists (InStart 0). split; [done|]. intros g. destruct (negb _).
    + by destruct (take_lease c g 0) as [[c1 g1] es1].
    + by destruct (run_start config c).
  - exists (InProbeWs WsEnd WOk). split; [done|]. intros g. by destruct (after_probe _ _).
  - exists (InProbeTcp TcpElapsed WOk). split; [done|]. intros g. by destruct (after_probe _ _).
  - exists (InPoll poll_end). split; [cbn; apply andb_false_r|]. intros g.
    by destruct (relay_step _ _ _ _ _) as [[ph g1] es1].
  - by exists (InTeardown WOk true true 0).
  - by exists (InAbort WOk true 0).
Qed.

(** C11: Nothing but idleness keeps a connection going.  With a byte cap on
    connections, below the saturation of the counter, a session takes at most
    16388 inputs plus one per byte of its cap besides the idle ones, whatever
    its peers and its timers do and whatever the other tasks do to the limits:
    the end of either stream, an error, a failed write, the deadline or a chunk
    of data never leaves it where it was.  Idle inputs alone never close the
    relay, however many: they leave it as it is.  A session that has not ended
    waits for an input that is not idle, and one that no input can change has
    ended. *)
Theorem events_bounded :
  cap ≠ 0 → cap < U64_MAX →
  (∀ remote ip lease ins es c',
     trace config (Connection_new remote ip lease) ins es c' →
     lenN ins <= 16388 + cap + lenN (filter (λ i, idle i = true) ins))
  ∧ (∀ c g n p, c_phase c = PRelay n → n <= cap → idle (InPoll p) = true →
     ∃ es, connection_step config c g (InPoll p) = Some (c, g, es))
  ∧ (∀ c, c_phase c ≠ PDone → ∃ i, idle i = false ∧ ∀ g, is_Some (connection_step config c g i))
  ∧ ∀ c, c_phase c = PDone ↔ ∀ g i, connection_step config c g i = None.
Proof.
  intros H0 Hm. split_and!.
  - intros remote ip lease ins es c' Ht%trace_spends; [|done..].
    cbn [Connection_new c_phase remaining] in Ht. lia.
  - intros c g n p Hc Hn. apply (idle_keeps c g n p Hc).
    + unfold U64_MAX in Hm. lia.
    + unfold over_conn_bytes. cbv zeta. by rewrite (proj2 (N.ltb_ge _ _) Hn), andb_false_r.
  - apply event_possible.
  - intros c. split.
    + intros Hd g i. unfold connection_step. by rewrite Hd.
    + intros H. assert (Hd : c_phase c = PDone ∨ c_phase c ≠ PDone) by (destruct (c_phase c); auto).
      destruct Hd as [|Hd]; [done|]. destruct (event_possible c Hd) as (i & _ & Hs). specialize (Hs (LimitState_new (limits config) 0)).
      rewrite H in Hs. by destruct Hs.
Qed.
End lifetime.

Lemma events_bounded_witness :
  ∃ es c, run_inputs sample_config sample_limits sample_connection sample_session = Some (es, c)
    ∧ lenN sample_session <= 16388 + 262144000.
Proof.
  destruct (run_inputs sample_config sample_limits sample_connection sample_session)
    as [[es c]|] eqn:E; [|by vm_compute in E].
  exists es, c. split; [done|].
  destruct (events_bounded sample_config) as (H & _); [by vm_compute..|].
  exact (H _ _ _ _ _ _ (run_inputs_trace _ _ _ _ _ _ E)).
Defined.
