(* ===== verification/Timed.v ===== *)
(** * Connections and the clock ([src/connection.rs])

    [Connection] takes what [tokio]'s timers report as inputs.  Here a run
    carries the time, and an input may only report what a timer can have
    reported: a read under [timeout] completes by its timeout, the relay's
    [select!] wakes by its deadline and by the idle timeout, a write under
    [timeout] is over by its own.  [lag] bounds how late the runtime polls a
    task that is ready; what the code awaits without a timeout (the [Pong] of
    the TLS probe, the closing handshake, the shutdown of the upstream) takes
    any time.

    The lifetime of a session is bounded by the configured timeouts where no
    TLS probe precedes the relay, and by nothing where one does. *)

From Stdlib Require Import ZArith.
From stdpp Require Import sets.
From S2P Require Import Prelude RustStr Net Dest Proto Limits Metrics Config Connection Lifetime.
#[local] Open Scope N_scope.

Section timed.
  Context {PasetoKey : Type} (config : Config PasetoKey) (lag : Duration).

(** [tm_deadline] is the local [deadline] of [run]. *)
Record Timed := {
  tm_conn : Connection;
  tm_now : Instant;
  tm_deadline : option Instant;
}.

Definition timed_new (c : Connection) (now : Instant) : Timed :=
  {| tm_conn := c; tm_now := now; tm_deadline := None |}.

Definition relay_deadline (now : Instant) : option Instant :=
  if max_lifetime config =? 0 then None else Some (now + max_lifetime config).

(** [sleep_until(deadline)], polled at [ready]. *)
Definition deadline_passed (deadline : option Instant) (ready : Instant) : bool :=
  match deadline with Some d => d <=? ready | None => false end.

(** The await of the phase, begun at [tm_now], completes with [i] at [ready]. *)
Definition completes (s : Timed) (i : Input) (ready : Instant) : Prop :=
  tm_now s <= ready ∧
  match c_phase (tm_conn s), i with
  | PStart, InStart _ => ready <= tm_now s + lag
  | PProbeTls _, InProbeWs r _ =>
      ready <= tm_now s + tcp_connect_timeout config + lag
      ∧ (r = WsElapsed → tm_now s + tcp_connect_timeout config <= ready)
  | PProbeGreeting _ _, InProbeTcp r _ =>
      ready <= tm_now s + tcp_connect_timeout config + lag
      ∧ (r = TcpElapsed → tm_now s + tcp_connect_timeout config <= ready)
  | PRelay _, InPoll p =>
      p_deadline p = deadline_passed (tm_deadline s) ready
      ∧ ready <= tm_now s + ws_idle_timeout config + lag
      ∧ (∀ d, tm_deadline s = Some d → ready <= N.max d (tm_now s) + lag)
      ∧ (p_ws p = Some WsElapsed → tm_now s + ws_idle_timeout config <= ready)
      ∧ p_tcp p ≠ Some TcpElapsed
      ∧ (p_deadline p = true ∨ is_Some (p_ws p) ∨ is_Some (p_tcp p))
  | _, _ => True
  end.

(** The longest that an effect of a step from [ph] can take, if anything bounds
    it. *)
Definition effect_time (ph : Phase) (e : Effect) : option Duration :=
  match e with
  | TcpWrite _ _ => Some (tcp_write_timeout config + lag)
  | WsSend m _ =>
      match ph, m with
      | PProbeTls _, MPong _ | PAbort, _ => None
      | _, _ => Some (ws_write_timeout config + lag)
      end
  | WsClose _ | TcpShutdown _ => None
  | Metric _ | LeaseDropped _ => Some 0
  end.

Definition step_time (ph : Phase) (es : list Effect) : option Duration :=
  foldr (λ e t, a ← effect_time ph e; b ← t; Some (a + b)) (Some lag) es.

(** [deadline] is set when the relay is entered. *)
Definition next_deadline (s : Timed) (c' : Connection) (now' : Instant) : option Instant :=
  match c_phase (tm_conn s), c_phase c' with
  | PRelay _, _ => tm_deadline s
  | _, PRelay _ => relay_deadline now'
  | _, _ => tm_deadline s
  end.

Inductive timed_step (s : Timed) : Timed → Prop :=
| timed_step_intro g i c' g' es ready now' :
    connection_step config (tm_conn s) g i = Some (c', g', es) →
    completes s i ready →
    ready <= now' →
    (∀ b, step_time (c_phase (tm_conn s)) es = Some b → now' <= ready + b) →
    timed_step s {| tm_conn := c'; tm_now := now'; tm_deadline := next_deadline s c' now' |}.

(** ** The bounds *)

Definition write_timeout : Duration := N.max (ws_write_timeout config) (tcp_write_timeout config).

(** The first await and the greeting: every read of the greeting brings a byte
    or ends it. *)
Definition probe_bound : Duration :=
  max_greeting_bytes * (tcp_connect_timeout config + 2 * lag) + ws_write_timeout config + 3 * lag.

Definition session_bound : Duration :=
  probe_bound + max_lifetime config + write_timeout + 4 * lag.

Definition tls_probed (remote : Remote) : bool :=
  require_protocol_probe config && bool_decide (probe_for_port (port remote) = Some TlsSni).

(** ** Lemmas *)

Lemma step_time_cons ph e es b :
  step_time ph (e :: es) = Some b ↔
  ∃ a b', effect_time ph e = Some a ∧ step_time ph es = Some b' ∧ b = a + b'.
Proof.
  cbn [step_time foldr]. change (foldr _ (Some lag) es) with (step_time ph es).
  destruct (effect_time ph e) as [a|]; cbn; [|naive_solver].
  destruct (step_time ph es) as [b'|]; cbn; [|naive_solver]. naive_solver.
Qed.

(** An effect that is bounded by [w]. *)
Definition within (ph : Phase) (w : Duration) (es : list Effect) : Prop :=
  ∃ b, step_time ph es = Some b ∧ b <= w.

Lemma within_none ph : within ph lag [].
Proof. by exists lag. Qed.

Lemma within_metric ph w op es : within ph w es → within ph w (Metric op :: es).
Proof. intros (b & E & Hb). exists b. split; [|done]. apply step_time_cons. by exists 0, b. Qed.

Lemma within_le ph w w' es : within ph w es → w <= w' → within ph w' es.
Proof. intros (b & E & Hb) Hw. exists b. split; [done|lia]. Qed.

Lemma within_tcp ph d r es w :
  within ph w es → within ph (tcp_write_timeout config + lag + w) (TcpWrite d r :: es).
Proof.
  intros (b & E & Hb). exists (tcp_write_timeout config + lag + b).
  split; [apply step_time_cons; eauto|lia].
Qed.

Lemma within_ws ph m r es w :
  effect_time ph (WsSend m r) = Some (ws_write_timeout config + lag) → within ph w es →
  within ph (ws_write_timeout config + lag + w) (WsSend m r :: es).
Proof.
  intros Ee (b & E & Hb). exists (ws_write_timeout config + lag + b).
  split; [apply step_time_cons; eauto|lia].
Qed.

#[local] Hint Resolve within_none within_metric : core.

Lemma send_tcp_within ph d r : within ph (write_timeout + 2 * lag) (send_tcp d r).1.
Proof.
  eapply within_le; [|unfold write_timeout; pose proof (N.le_max_r (ws_write_timeout config)
    (tcp_write_timeout config)); instantiate (1 := tcp_write_timeout config + lag + lag); lia].
  destruct r; cbn [send_tcp fst]; apply within_tcp; auto.
Qed.

Lemma send_ws_within n m r : within (PRelay n) (write_timeout + 2 * lag) (send_ws m r).1.
Proof.
  eapply within_le; [|unfold write_timeout; pose proof (N.le_max_l (ws_write_timeout config)
    (tcp_write_timeout config)); instantiate (1 := ws_write_timeout config + lag + lag); lia].
  destruct r; cbn [send_ws fst]; apply within_ws; auto.
Qed.

Lemma account_bytes_within c g n t1 t2 ph : within ph lag (account_bytes c g n t1 t2).2.
Proof.
  unfold account_bytes. destruct (n =? 0); [done|].
  destruct (add_bytes _ _ _ _ _) as [[] ?]; cbn; auto.
Qed.

Lemma within_app ph w es es' :
  within ph lag es → within ph w es' → lag <= w → within ph w (es ++ es').
Proof.
  intros (b & E & Hb) H Hw. revert b E Hb. induction es as [|e es IH]; intros b E Hb; [done|].
  apply step_time_cons in E as (a & b' & Ee & Eb & ->).
  assert (Hl : lag <= b').
  { clear -Eb. revert b' Eb. induction es as [|e es IH]; intros b' E.
    - injection E as <-. done.
    - apply step_time_cons in E as (? & ? & _ & E & ->). apply IH in E. lia. }
  assert (a = 0) as -> by lia.
  destruct (IH b' Eb ltac:(lia)) as (b2 & E2 & H2). exists b2. split; [|done].
  cbn [app]. apply step_time_cons. by exists 0, b2.
Qed.

Lemma forward_within c g n d t1 t2 write ph :
  within ph (write_timeout + 2 * lag) write.1 →
  within ph (write_timeout + 2 * lag) (forward config c g n d t1 t2 write).2.
Proof.
  intros Hw. unfold forward. cbv zeta.
  assert (Hl : within ph (write_timeout + 2 * lag) []) by (eapply within_le; [apply within_none|lia]).
  destruct (over_conn_bytes _ _); [by apply within_metric|].
  pose proof (account_bytes_within c g (lenN d) t1 t2 ph) as Ha.
  destruct (account_bytes _ _ _ _ _) as [[[] g'] es]; cbn [snd] in *.
  - apply within_app; [done|done|lia].
  - eapply within_le; [done|lia].
Qed.

(** An iteration of the relay makes at most one write. *)
Lemma relay_within c g n p m :
  within (PRelay m) (write_timeout + 2 * lag) (relay_step config c g n p).2.
Proof.
  assert (Hl : within (PRelay m) (write_timeout + 2 * lag) [])
    by (eapply within_le; [apply within_none|lia]).
  unfold relay_step. cbv zeta. destruct (_ && _); [by apply within_metric|].
  destruct (p_ws p) as [[[d|d|d|d|]| | |]|]; cbn [relay_ws snd]; auto;
    try (apply forward_within, send_tcp_within).
  - pose proof (send_ws_within m (MPong d) (p_write p)). by destruct (send_ws _ _).
  - pose proof (send_ws_within m (MPing []) (p_write p)). by destruct (send_ws _ _).
  - destruct (p_tcp p) as [[d| |]|]; cbn [relay_tcp snd]; auto.
    destruct (_ =? _); [done|]. apply forward_within, send_ws_within.
Qed.

(** So does one of the greeting probe, and only if it is the last. *)
Lemma greeting_within more kind greet r w :
  match (probe_greeting kind greet r w).1 with
  | ProbeMore _ => (probe_greeting kind greet r w).2 = []
  | _ => within (PProbeGreeting kind greet) (ws_write_timeout config + 2 * lag)
           (after_probe more (probe_greeting kind greet r w)).2
  end.
Proof.
  assert (Hl : within (PProbeGreeting kind greet) (ws_write_timeout config + 2 * lag) [])
    by (eapply within_le; [apply within_none|lia]).
  unfold probe_greeting. destruct r as [d| |]; cbn; auto.
  destruct (lenN d =? 0); cbn; auto. destruct (_ || _); [|done].
  destruct (validate_greeting _ _); cbn; auto.
  assert (Hw : ∀ es, within (PProbeGreeting kind greet) lag es →
    within (PProbeGreeting kind greet) (ws_write_timeout config + 2 * lag)
      (WsSend (MBinary (greet ++ d)) w :: es)).
  { intros es H. eapply within_le; [by apply within_ws|lia]. }
  destruct w; cbn; auto.
Qed.

(** ** The invariant *)

(** When a connection of [remote], created at [t0], is where it is. *)
Definition timely (remote : Remote) (t0 : Instant) (s : Timed) : Prop :=
  let quick t := tls_probed remote = false → t in
  match c_phase (tm_conn s) with
  | PStart => c_remote (tm_conn s) = remote ∧ tm_now s = t0
  | PProbeTls _ => tls_probed remote = true
  | PProbeGreeting _ greet =>
      lenN greet < max_greeting_bytes
      ∧ tm_now s <= t0 + 2 * lag + lenN greet * (tcp_connect_timeout config + 2 * lag)
  | PRelay _ => ∃ d, tm_deadline s = Some d
      ∧ tm_now s <= d + write_timeout + 2 * lag
      ∧ quick (d <= t0 + probe_bound + max_lifetime config)
  | PTeardown => ∃ d, tm_deadline s = Some d
      ∧ tm_now s <= d + write_timeout + 4 * lag
      ∧ quick (d <= t0 + probe_bound + max_lifetime config)
  | PAbort => quick (tm_now s <= t0 + probe_bound)
  | PDone => True
  end.

Lemma timely_new remote ip lease t0 : timely remote t0 (timed_new (Connection_new remote ip lease) t0).
Proof. done. Qed.

Lemma relay_deadline_Some now :
  max_lifetime config ≠ 0 → relay_deadline now = Some (now + max_lifetime config).
Proof. intros H. unfold relay_deadline. by rewrite (proj2 (N.eqb_neq _ 0)). Qed.

Lemma within_done ph w es ready now' :
  within ph w es → (∀ b, step_time ph es = Some b → now' <= ready + b) → now' <= ready + w.
Proof. intros (b & E & Hb) H. specialize (H b E). lia. Qed.

(** Leaving the start. *)
Lemma timely_start remote t0 s ph now' c' :
  max_lifetime config ≠ 0 → c_phase (tm_conn s) = PStart → c_phase c' = ph →
  now' <= t0 + 2 * lag →
  ph = PDone ∨ (∃ kind, probe_for_port (port remote) = Some kind
    ∧ require_protocol_probe config = true ∧ ph = probe kind) ∨ ph = PRelay 0 →
  timely remote t0 {| tm_conn := c'; tm_now := now'; tm_deadline := next_deadline s c' now' |}.
Proof.
  intros HL Es Ec Hn Hph. unfold timely. cbn [tm_conn tm_now tm_deadline].
  assert (max_greeting_bytes = 512) by done. unfold next_deadline. rewrite Ec, Es.
  destruct Hph as [->|[(kind & Hk & Hq & ->)| ->]]; [done| |].
  - destruct kind; cbn [probe].
    + unfold tls_probed. by rewrite Hq, Hk.
    + change (lenN []) with 0. lia.
    + change (lenN []) with 0. lia.
  - exists (now' + max_lifetime config). rewrite relay_deadline_Some by done.
    unfold probe_bound. split_and!; [done|lia|]. intros _. lia.
Qed.

(** A step of the greeting probe. *)
Lemma timely_greeting remote t0 s kind greet r w ready now' c' :
  max_lifetime config ≠ 0 → timely remote t0 s →
  c_phase (tm_conn s) = PProbeGreeting kind greet →
  c_phase c' = (after_probe (PProbeGreeting kind) (probe_greeting kind greet r w)).1 →
  ready <= tm_now s + tcp_connect_timeout config + lag →
  (∀ b, step_time (PProbeGreeting kind greet)
     (after_probe (PProbeGreeting kind) (probe_greeting kind greet r w)).2 = Some b →
     now' <= ready + b) →
  timely remote t0 {| tm_conn := c'; tm_now := now'; tm_deadline := next_deadline s c' now' |}.
Proof.
  intros HL Ht Es Ec Hr Hb. unfold timely in *. rewrite Es in Ht. destruct Ht as [Hg Ht].
  cbn [tm_conn tm_now tm_deadline]. unfold next_deadline. rewrite Es, Ec.
  assert (Hm : max_greeting_bytes = 512) by done.
  pose proof (greeting_within (PProbeGreeting kind) kind greet r w) as Hw.
  destruct (probe_greeting kind greet r w) as [res es] eqn:Ep. cbn [fst snd] in Hw.
  assert (Hdone : within (PProbeGreeting kind greet) (ws_write_timeout config + 2 * lag)
      (after_probe (PProbeGreeting kind) (res, es)).2 → now' <= t0 + probe_bound).
  { intros H. pose proof (within_done _ _ _ _ _ H Hb). unfold probe_bound. nia. }
  destruct res as [buf| |e]; cbn [after_probe fst snd] in *.
  - subst es. destruct (probe_greeting_more _ _ _ _ _ _ Ep) as [H1 H2].
    pose proof (within_done _ _ _ _ _ (within_none _) Hb). split; [done|].
    assert (lenN greet + 1 <= lenN buf) by lia. nia.
  - specialize (Hdone Hw). exists (now' + max_lifetime config).
    rewrite relay_deadline_Some by done. split_and!; [done|lia|]. intros _. lia.
  - intros _. by apply Hdone.
Qed.

(** A step of the relay: it stays only before its deadline. *)
Lemma timely_relay remote t0 s n g p ph g' es ready now' c' :
  timely remote t0 s → c_phase (tm_conn s) = PRelay n → c_phase c' = ph →
  relay_step config (tm_conn s) g n p = (ph, g', es) → max_lifetime config ≠ 0 →
  completes s (InPoll p) ready →
  (∀ b, step_time (PRelay n) es = Some b → now' <= ready + b) →
  timely remote t0 {| tm_conn := c'; tm_now := now'; tm_deadline := next_deadline s c' now' |}.
Proof.
  intros Ht Es Ec Er HL [_ Hc] Hb. unfold timely in *. rewrite Es in Ht, Hc.
  destruct Ht as (d & Hd & Hn & Hq). destruct Hc as (Hp & _ & Hdl & _). specialize (Hdl d Hd).
  cbn [tm_conn tm_now tm_deadline]. unfold next_deadline. rewrite Es, Ec.
  pose proof (relay_within (tm_conn s) g n p n) as Hw. rewrite Er in Hw. cbn [snd] in Hw.
  pose proof (within_done _ _ _ _ _ Hw Hb) as Hnow.
  unfold deadline_passed in Hp. rewrite Hd in Hp.
  unfold relay_step in Er. cbv zeta in Er. rewrite (proj2 (N.eqb_neq _ 0)) in Er by done.
  cbn [negb andb] in Er. rewrite Hp in Er. destruct (N.leb_spec d ready) as [Hle|Hlt].
  - injection Er as <- <- <-.
    pose proof (within_done _ _ _ _ _ (within_metric _ _ _ _ (within_none _)) Hb).
    exists d. split_and!; [done|lia|done].
  - assert (Hph : (∃ m, ph = PRelay m) ∨ ph = PTeardown).
    { assert (Hf : relay_step config (tm_conn s) g n p = (ph, g', es)).
      { unfold relay_step. cbv zeta. rewrite Hp, andb_false_r. exact Er. }
      apply relay_step_case in Hf. destruct Hf; naive_solver. }
    destruct Hph as [[m ->]| ->]; exists d; split_and!; try done; lia.
Qed.

Lemma take_lease_phase c g now : c_phase (take_lease c g now).1.1 = PDone.
Proof. unfold take_lease. by destruct (c_lease c). Qed.

Lemma run_start_cases c :
  (run_start config c).1 = PDone
  ∨ (∃ kind, probe_for_port (port (c_remote c)) = Some kind
      ∧ require_protocol_probe config = true ∧ (run_start config c).1 = probe kind)
  ∨ (run_start config c).1 = PRelay 0.
Proof.
  unfold run_start. destruct (negb (c_tcp c)); [by left|right].
  destruct (require_protocol_probe config); [|by right].
  destruct (probe_for_port (port (c_remote c))) as [kind|] eqn:E; [left; by exists kind|by right].
Qed.

(** The metrics of the start take no time. *)
Lemma start_within c ph : within ph lag (run_start config c).2.
Proof.
  unfold run_start. destruct (negb (c_tcp c)); [cbn; auto|].
  destruct (require_protocol_probe config); [destruct (probe_for_port _)|]; cbn; auto.
Qed.

Lemma timely_done remote t0 s now' c' :
  c_phase c' = PDone →
  timely remote t0 {| tm_conn := c'; tm_now := now'; tm_deadline := next_deadline s c' now' |}.
Proof. intros E. unfold timely. cbn. by rewrite E. Qed.

Lemma timely_step remote t0 s s' :
  max_lifetime config ≠ 0 → timely remote t0 s → timed_step s s' → timely remote t0 s'.
Proof.
  intros HL Ht [g i c' g' es ready now' Hs Hc _ Hb].
  assert (Htake : ∀ now, (take_lease (tm_conn s) g now).1.1 = c' →
    timely remote t0 {| tm_conn := c'; tm_now := now'; tm_deadline := next_deadline s c' now' |}).
  { intros now <-. apply timely_done, take_lease_phase. }
  unfold connection_step, teardown, abort in Hs.
  destruct (c_phase (tm_conn s)) as [|hello|kind greet|n| | |] eqn:Es, i; try done; cbv zeta in Hs.
  - unfold timely in Ht. rewrite Es in Ht. destruct Ht as [Hr Hn].
    destruct Hc as [_ Hc]. rewrite Es in Hc.
    destruct (negb (c_tcp (tm_conn s))).
    + destruct (take_lease (tm_conn s) g now) as [[c1 g1] es1] eqn:El. injection Hs as -> _ _.
      apply (Htake now). by rewrite El.
    + pose proof (run_start_cases (tm_conn s)) as Hrs.
      pose proof (start_within (tm_conn s) PStart) as Hw.
      destruct (run_start config (tm_conn s)) as [ph es1]. injection Hs as <- _ <-.
      pose proof (within_done _ _ _ _ _ Hw Hb). rewrite Hr in Hrs.
      eapply timely_start; [done..|lia|exact Hrs].
  - unfold timely in Ht. rewrite Es in Ht.
    pose proof (after_probe_phase PProbeTls (probe_tls_sni (tm_conn s) hello r w)) as Hph.
    destruct (after_probe _ _) as [ph es1]. injection Hs as <- _ _. cbn [fst] in Hph.
    unfold timely, next_deadline. cbn [tm_conn tm_now tm_deadline set_phase c_phase]. rewrite Es.
    destruct Hph as [[buf ->]|[->| ->]]; [done| |congruence].
    exists (now' + max_lifetime config). rewrite relay_deadline_Some by done.
    split_and!; [done|lia|congruence].
  - destruct Hc as [_ Hc]. rewrite Es in Hc. destruct Hc as [Hc _].
    destruct (after_probe _ _) as [ph es1] eqn:Ea. injection Hs as <- _ <-.
    eapply (timely_greeting remote t0 s kind greet r w); [done..| |exact Hc|];
      by rewrite Ea.
  - destruct (relay_step _ _ _ _ _) as [[ph g1] es1] eqn:Er. injection Hs as <- <- <-.
    by eapply timely_relay.
  - destruct (take_lease (tm_conn s) g now) as [[c1 g1] es1] eqn:El. injection Hs as -> _ _.
    apply (Htake now). by rewrite El.
  - destruct (take_lease (tm_conn s) g now) as [[c1 g1] es1] eqn:El. injection Hs as -> _ _.
    apply (Htake now). by rewrite El.
Qed.

Lemma timely_reachable remote ip lease t0 s :
  max_lifetime config ≠ 0 →
  rtc timed_step (timed_new (Connection_new remote ip lease) t0) s → timely remote t0 s.
Proof.
  intros HL Hr. pose proof (timely_new remote ip lease t0) as H0. revert H0.
  induction Hr; eauto using timely_step.
Qed.

(** A client that says nothing but [Pong]. *)
Lemma pong_step c t :
  (∃ hello, c_phase c = PProbeTls hello) →
  timed_step {| tm_conn := c; tm_now := t; tm_deadline := None |}
             {| tm_conn := c; tm_now := t + tcp_connect_timeout config; tm_deadline := None |}.
Proof.
  intros [hello E].
  pose (g := LimitState_new (limits config) 0).
  pose proof (timed_step_intro {| tm_conn := c; tm_now := t; tm_deadline := None |} g
    (InProbeWs (WsMsg (MPong [])) WOk) c g [] (t + tcp_connect_timeout config)
    (t + tcp_connect_timeout config)) as H.
  unfold next_deadline in H. cbn [tm_conn tm_now tm_deadline] in H. rewrite E in H. apply H.
  - unfold connection_step. rewrite E. cbn. by rewrite <- E, set_phase_same.
  - split; [cbn; lia|]. cbn [tm_conn tm_now]. rewrite E. split; [lia|done].
  - done.
  - intros b. lia.
Qed.

Lemma pong_steps c t n :
  (∃ hello, c_phase c = PProbeTls hello) →
  rtc timed_step {| tm_conn := c; tm_now := t; tm_deadline := None |}
    {| tm_conn := c; tm_now := t + N.of_nat n * tcp_connect_timeout config;
       tm_deadline := None |}.
Proof.
  intros Hc. induction n as [|n IH].
  - rewrite N.add_0_r. done.
  - eapply rtc_r; [exact IH|].
    replace (t + N.of_nat (S n) * tcp_connect_timeout config)
      with (t + N.of_nat n * tcp_connect_timeout config + tcp_connect_timeout config) by lia.
    by apply pong_step.
Qed.

(** ** Properties *)

(** C10: With a lifetime configured, no relay outlives it: wherever a session
    is in its relay or at its teardown, at most one write and the runtime's lag
    have passed since its deadline, whatever the peers do.  Where the port has
    no TLS probe, the whole session, from its creation to its teardown, is
    within a bound that only the timeouts make: the greeting probe reads at
    most 512 times, each time within the connect timeout. *)
Theorem session_lifetime remote ip lease t0 s :
  max_lifetime config ≠ 0 →
  rtc timed_step (timed_new (Connection_new remote ip lease) t0) s →
  ((∃ n, c_phase (tm_conn s) = PRelay n) ∨ c_phase (tm_conn s) = PTeardown →
   ∃ d, tm_deadline s = Some d ∧ tm_now s <= d + write_timeout + 4 * lag)
  ∧ (tls_probed remote = false → c_phase (tm_conn s) ≠ PDone → tm_now s <= t0 + session_bound).
Proof.
  intros HL Hr%timely_reachable; [|done]. unfold timely in Hr.
  assert (Hm : max_greeting_bytes = 512) by done. unfold session_bound, probe_bound in *.
  destruct (c_phase (tm_conn s)) as [|hello|kind greet|n| | |]; (split; [|intros Htls Hd]);
    try (intros [[m E]|E]; discriminate E); try done.
  - lia.
  - congruence.
  - destruct Hr. nia.
  - intros _. destruct Hr as (d & Hd & Hn & _). exists d. split; [done|lia].
  - destruct Hr as (d & _ & Hn & Hq). specialize (Hq Htls). lia.
  - intros _. destruct Hr as (d & Hd & Hn & _). by exists d.
  - destruct Hr as (d & _ & Hn & Hq). specialize (Hq Htls). lia.
  - specialize (Hr Htls). lia.
Qed.

(** C37: The TLS probe has no time limit: a client that sends nothing but a
    [Pong] before every timeout keeps its connection, with its slot and its
    upstream socket, in the probe for any length of time, whatever lifetime is
    configured. *)
Theorem tls_probe_outlives remote ip lease t0 bound :
  tls_probed remote = true → tcp_connect_timeout config ≠ 0 →
  ∃ s, rtc timed_step (timed_new (Connection_new remote ip lease) t0) s
    ∧ c_phase (tm_conn s) = PProbeTls [] ∧ c_lease (tm_conn s) = Some lease
    ∧ t0 + bound <= tm_now s.
Proof.
  intros [Hq Hk]%andb_true_iff HT. apply bool_decide_eq_true in Hk.
  set (c := set_phase (Connection_new remote ip lease) (PProbeTls [])).
  exists {| tm_conn := c; tm_now := t0 + N.of_nat (N.to_nat bound) * tcp_connect_timeout config;
            tm_deadline := None |}.
  split_and!; [|done|done|cbn; nia].
  eapply rtc_l; [|apply (pong_steps c t0); by exists []].
  pose (g := LimitState_new (limits config) 0).
  eapply (timed_step_intro (timed_new (Connection_new remote ip lease) t0) g (InStart 0) c g _ t0 t0).
  - unfold connection_step, run_start. cbn. by rewrite Hq, Hk.
  - split; [done|]. cbn. lia.
  - done.
  - intros b. lia.
Qed.
End timed.

(** ** Witnesses *)

(** A session to port 143 that waits for the greeting. *)
Definition imap_remote : Remote :=
  {| host := lit "imap.example.com"; port := 143; ip_literal := None |}.
Definition imap_connection : Connection :=
  Connection_new imap_remote (V4 (v4_new 203 0 113 7)) sample_lease.
Definition imap_waiting : Timed :=
  {| tm_conn := set_phase imap_connection (PProbeGreeting ImapGreeting []);
     tm_now := 5; tm_deadline := None |}.

Lemma session_lifetime_witness :
  rtc (timed_step sample_config 10) (timed_new imap_connection 5) imap_waiting
  ∧ tm_now imap_waiting <= 5 + session_bound sample_config 10.
Proof.
  assert (Hr : rtc (timed_step sample_config 10) (timed_new imap_connection 5) imap_waiting).
  { apply rtc_once.
    apply (timed_step_intro sample_config 10 (timed_new imap_connection 5) sample_limits (InStart 5)
      (set_phase imap_connection (PProbeGreeting ImapGreeting [])) sample_limits
      [Metric ScopeGauge_new; Metric (ConnectionsInc PImap)] 5 5); [reflexivity| |done|intros; lia].
    split; [done|]. cbn. lia. }
  split; [exact Hr|].
  apply (session_lifetime sample_config 10 imap_remote (V4 (v4_new 203 0 113 7))
    sample_lease 5 imap_waiting); [by vm_compute|exact Hr| |];
    by vm_compute.
Defined.

Lemma tls_probe_outlives_witness :
  ∃ s, rtc (timed_step sample_config 10) (timed_new sample_connection 0) s
    ∧ max_lifetime sample_config + 1 <= tm_now s.
Proof.
  destruct (tls_probe_outlives sample_config 10 sample_remote (V4 (v4_new 203 0 113 7)) sample_lease 0
    (max_lifetime sample_config + 1)) as (s & H1 & _ & _ & H2); [by vm_compute..|].
  exists s. split; [exact H1|]. rewrite N.add_0_l in H2. exact H2.
Defined.
