(* ===== verification/Server.v ===== *)
(** * The request handler ([src/server.rs])

    [proxy_handler], from the request to the reply, with the statuses and
    messages it answers.  It awaits the resolver and the connect between the
    rate-limit check and the reservation of a slot; other tasks change the
    limits meanwhile, which is the argument [others].  Log output and the
    HTTP encoding of a reply are left out. *)

From Stdlib Require Import ZArith.
From stdpp Require Import sets.
From S2P Require Import Prelude RustStr Net Dest Proto Limits LimitsSpec Metrics.
From S2P Require Import Config Auth Connection.
#[local] Open Scope N_scope.

Definition dest_status (err : DestError) : StatusCode :=
  match err with
  | InvalidRemote => BAD_REQUEST
  | BadPort | IpLiteral | PrivateIp => FORBIDDEN
  | Dns | Connect => BAD_GATEWAY
  end.

Definition dest_message (err : DestError) : str :=
  match err with
  | InvalidRemote => lit "invalid remote"
  | BadPort => lit "destination port not allowed"
  | IpLiteral => lit "IP literals are not allowed"
  | PrivateIp => lit "destination is not a public address"
  | Dns => lit "failed to resolve destination"
  | Connect => lit "failed to connect to destination"
  end.

Definition limit_status (err : LimitError) : StatusCode :=
  match err with
  | GlobalFull | PerDestFull => SERVICE_UNAVAILABLE
  | ByteCap => FORBIDDEN
  | _ => TOO_MANY_REQUESTS
  end.

Definition limit_message (err : LimitError) : str :=
  match err with
  | GlobalFull => lit "proxy is at capacity"
  | PerIpFull => lit "too many connections from this address"
  | PerDestFull => lit "too many connections to this destination"
  | ConnectRate | GlobalConnectRate => lit "connect rate limit exceeded"
  | DistinctDests => lit "too many distinct destinations"
  | ByteCap => lit "byte limit exceeded"
  end.

Record Request := { r_query : ProxyQuery; r_peer : SocketAddr; r_headers : Headers }.

(** The reply: a rejection, a bare status, or the upgrade of the connection,
    with the WebSocket limits and the subprotocol it is configured with. *)
Inductive Reply (TcpStream : Type) :=
| Rejected (status : StatusCode) (reason : RejectReason) (msg : str)
| Bare (status : StatusCode)
| Upgrade (conn : Connection) (tcp : TcpStream) (max_message max_frame : N)
    (protocol : option str).
Arguments Rejected {TcpStream}.
Arguments Bare {TcpStream}.
Arguments Upgrade {TcpStream}.

Section handler.
  Context {PasetoKey TcpStream : Type} `{L : TokenLibrary PasetoKey} (debug_assertions : bool)
    (lookup_host : Resolver)
    (connect : nat → SocketAddr → option (result unit TcpStream)).

(** [reject], and its uses on the errors of the policy and of the limits. *)
Definition reject (status : StatusCode) (reason : RejectReason) (msg : str)
  : Reply TcpStream * list MetricOp :=
  (Rejected status reason msg, [inc_reject reason]).
Definition reject_dest (e : DestError) : Reply TcpStream * list MetricOp :=
  reject (dest_status e) (reject_of_dest e) (dest_message e).
Definition reject_limit (e : LimitError) : Reply TcpStream * list MetricOp :=
  reject (limit_status e) (reject_of_limit e) (limit_message e).

(** Everything [proxy_handler] does before it touches the limits: the client
    address and the destination, or the reply. *)
Definition proxy_gates (config : Config PasetoKey) (request : Request) (now_exp now_ttl : Z)
  : result (Reply TcpStream * list MetricOp) (IpAddr * Remote) :=
  let headers := r_headers request in
  let client := client_ip headers (r_peer request) (trust_forwarded_client_ip config)
                  (trusted_proxies config) in
  if negb (origin_allowed headers (allowed_origins config))
  then Err (reject FORBIDDEN RBadOrigin (lit "origin not allowed")) else
  if negb (host_allowed headers (allowed_hosts config))
  then Err (reject FORBIDDEN RBadHost (lit "host not allowed")) else
  match validate_token debug_assertions
          (proxy_token (r_query request) headers) (q_remote (r_query request))
          (auth_mode config) (secret_key config) (paseto_max_ttl config) now_exp now_ttl with
  | Err err =>
      if bool_decide (err = INTERNAL_SERVER_ERROR) then Err (Bare err, [])
      else Err (reject err RAuth (lit "unauthorized"))
  | Ok _ =>
      match parse_remote (q_remote (r_query request)) with
      | Err e => Err (reject_dest e)
      | Ok remote =>
          match check_policy remote (dest config) with
          | Err e => Err (reject_dest e)
          | Ok _ => Ok (client, remote)
          end
      end
  end.

(** What remains once the upstream is connected: take a slot and upgrade. *)
Definition proxy_finish (config : Config PasetoKey) (request : Request) (g : Inner)
  (client : IpAddr) (remote : Remote) (tcp : TcpStream) (now : Instant)
  : Reply TcpStream * list MetricOp * Inner :=
  match acquire g client (dest_key remote) now with
  | (Err e, g) => (reject_limit e, g)
  | (Ok lease, g) =>
      (Upgrade (Connection_new remote client lease) tcp
         (ws_max_message_bytes config) (ws_max_frame_bytes config)
         (offered_auth_protocol (r_headers request)), [], g)
  end.

(** The reply, the metrics, the limits, and the addresses dialled. *)
Definition proxy_handler (config : Config PasetoKey) (request : Request) (now_exp now_ttl : Z)
  (g : Inner) (now_attempt : Instant) (others : Inner → Inner) (now_acquire : Instant)
  : Reply TcpStream * list MetricOp * Inner * list SocketAddr :=
  match proxy_gates config request now_exp now_ttl with
  | Err (reply, log) => (reply, log, g, [])
  | Ok (client, remote) =>
      match record_attempt g client (dest_key remote) now_attempt with
      | (Err e, g) => (reject_limit e, g, [])
      | (Ok _, g) =>
          match resolve_filtered lookup_host remote (dest config) with
          | Err e => (reject_dest e, others g, [])
          | Ok addrs =>
              let '(dialled, r) := connect_addrs connect addrs in
              let g := others g in
              match r with
              | Err e => (reject_dest e, g, dialled)
              | Ok tcp => (proxy_finish config request g client remote tcp now_acquire, dialled)
              end
          end
      end
  end.
End handler.

(** [on_failed_upgrade]: the handshake failed; the callback that owns the
    lease is dropped with it. *)
Definition failed_upgrade (g : Inner) (lease : ConnectionLease) (now : Instant)
  : list MetricOp * Inner :=
  ([inc_ws_error MHandshake], drop_lease g lease now).

(** ** Routes *)

Inductive Route := RHealth | RProxy | RMetrics.

#[export] Instance Route_eq_dec : EqDecision Route.
Proof. solve_decision. Defined.

Definition proxy_router : list (str * Route) := [(lit "/health", RHealth); (lit "/proxy", RProxy)].
Definition metrics_router : list (str * Route) := [(lit "/metrics", RMetrics)].

(** [run_proxy]: the routes of the public listener, and those of the metrics
    listener if there is one, with its address. *)
Definition run_proxy {PasetoKey} (config : Config PasetoKey)
  : list (str * Route) * option (str * list (str * Route)) :=
  match metrics_bind config with
  | Some addr => (proxy_router, Some (addr, metrics_router))
  | None => (proxy_router ++ metrics_router, None)
  end.

(** ** Lemmas *)

Section handler_lemmas.
  Context {PasetoKey TcpStream : Type} `{L : TokenLibrary PasetoKey} (debug_assertions : bool)
    (lookup_host : Resolver)
    (connect : nat → SocketAddr → option (result unit TcpStream)).
  Implicit Types (config : Config PasetoKey) (request : Request).

Definition request_client config request : IpAddr :=
  client_ip (r_headers request) (r_peer request) (trust_forwarded_client_ip config)
    (trusted_proxies config).

(** The request passes every check that precedes the limits. *)
Definition request_ok config request (now_exp now_ttl : Z) (remote : Remote) : Prop :=
  origin_allowed (r_headers request) (allowed_origins config) = true
  ∧ host_allowed (r_headers request) (allowed_hosts config) = true
  ∧ validate_token debug_assertions
      (proxy_token (r_query request) (r_headers request)) (q_remote (r_query request))
      (auth_mode config) (secret_key config) (paseto_max_ttl config) now_exp now_ttl = Ok tt
  ∧ parse_remote (q_remote (r_query request)) = Ok remote
  ∧ check_policy remote (dest config) = Ok tt.

(** The shape of a reply that is not an upgrade, with its metrics. *)
Definition refusal (r : Reply TcpStream * list MetricOp) : Prop :=
  (∃ e, r = reject_dest e) ∨ (∃ e, r = reject_limit e)
  ∨ r = reject FORBIDDEN RBadOrigin (lit "origin not allowed")
  ∨ r = reject FORBIDDEN RBadHost (lit "host not allowed")
  ∨ r = reject UNAUTHORIZED RAuth (lit "unauthorized")
  ∨ r = (Bare INTERNAL_SERVER_ERROR, []).

#[local] Abbreviation gates := (proxy_gates (TcpStream:=TcpStream) debug_assertions).

Lemma validate_token_errors token remote mode key max_ttl t1 t2 e :
  validate_token debug_assertions token remote mode key
    max_ttl t1 t2 = Err e → e = UNAUTHORIZED ∨ e = INTERNAL_SERVER_ERROR.
Proof.
  unfold validate_token. destruct (bool_decide (mode = Public)); [done|].
  destruct (debug_assertions && _); [done|].
  destruct (bool_decide (token = [])); [by intros [= <-]; left|].
  destruct key as [k|]; [|by intros [= <-]; right].
  destruct (paseto_parse _ _ _ _) as [c|]; cbn [ok_or result_bind]; [|by intros [= <-]; left].
  unfold check_ttl. destruct (max_ttl =? 0); [done|].
  destruct (claim_str c _) as [exp|]; cbn [ok_or result_bind]; [|by intros [= <-]; left].
  destruct (parse_rfc3339 exp); cbn [ok_or result_bind]; [|by intros [= <-]; left].
  cbv zeta. destruct (_ || _); [by intros [= <-]; left|done].
Qed.

Lemma proxy_gates_cases config request t1 t2 :
  match gates config request t1 t2 with
  | Ok (client, remote) =>
      client = request_client config request ∧ request_ok config request t1 t2 remote
  | Err r => refusal r
  end.
Proof.
  unfold proxy_gates, refusal, request_ok. cbv zeta.
  destruct (origin_allowed _ _) eqn:E1; cbn [negb]; [|by do 2 right; left].
  destruct (host_allowed _ _) eqn:E2; cbn [negb]; [|by do 3 right; left].
  destruct (validate_token _ _ _ _ _ _ _ _) as [[]|err] eqn:E3.
  - destruct (parse_remote _) as [remote|e] eqn:E4; [|left; by exists e].
    destruct (check_policy _ _) as [[]|e] eqn:E5; [done|left; by exists e].
  - apply validate_token_errors in E3 as [->| ->];
      [rewrite bool_decide_false by done|rewrite bool_decide_true by done].
    + by do 4 right; left.
    + by do 5 right.
Qed.

(** A destination that a safe configuration lets through. *)
Lemma safe_policy config remote :
  hosting_safe config → check_policy remote (dest config) = Ok tt →
  ip_literal remote = None
  ∧ ∃ ports, allowed_ports (dest config) = Some ports ∧ port remote ∈ ports.
Proof.
  intros ([ports Hports] & Hpriv & Hlits & _). unfold check_policy, port_allowed.
  rewrite Hports, Hlits, Hpriv. cbn [negb]. rewrite andb_true_r.
  destruct (bool_decide (port remote ∈ ports)) eqn:Ep; [|done]. cbn [negb]. bool_to_prop.
  destruct (ip_literal remote) as [ip|] eqn:El; [by rewrite bool_decide_true|eauto].
Qed.

Lemma refusal_not_upgrade r conn tcp m f p : refusal r → r.1 ≠ Upgrade conn tcp m f p.
Proof. intros [[e ->]|[[e ->]|[->|[->|[->| ->]]]]]; done. Qed.
End handler_lemmas.

(** ** A sample request, for the witnesses *)

(** A library that refuses every token: the sample configuration is public. *)
#[export] Instance sample_library : TokenLibrary unit := {|
  Claims := unit; paseto_parse := λ _ _ _ _, None; claim_str := λ _ _, None;
  parse_rfc3339 := λ _, None |}.
Definition public_config : Config unit := {|
  bind_addr := lit "0.0.0.0"; listen_port := 9400; secret_key := None;
  metrics_auth_key := Some (lit "m"); metrics_bind := None; auth_mode := Public;
  ws_idle_timeout := from_secs 30; ws_write_timeout := from_secs 30;
  tcp_write_timeout := from_secs 30; tcp_connect_timeout := from_secs 30;
  dns_timeout := from_secs 5; dest := DestPolicy_default; limits := LimitsConfig_default;
  max_bytes_per_connection := 262144000; max_lifetime := from_secs 86400;
  trust_forwarded_client_ip := false; trusted_proxies := []; require_protocol_probe := true;
  allowed_origins := {[lit "https://app.example"]}; allowed_hosts := ∅;
  ws_max_message_bytes := 1048576; ws_max_frame_bytes := 262144;
  paseto_max_ttl := from_secs 3600 |}.
Definition sample_request (remote : str) : Request := {|
  r_query := {| q_token := []; q_remote := remote |};
  r_peer := SockAddr (V4 (v4_new 203 0 113 7)) 40000;
  r_headers := λ name, if bool_decide (name = lit "origin") then Some (lit "https://app.example")
                       else None |}.
Definition sample_lookup : Resolver := λ _ p, Some (Ok
  [SockAddr (V4 (v4_new 10 0 0 1)) p; SockAddr (V4 (v4_new 93 184 216 34)) p]).
Definition sample_connect (_ : nat) (a : SocketAddr) : option (result unit SocketAddr) := Some (Ok a).

(** The whole handler on the sample request. *)
Definition sample_run (remote : str) :
  Reply SocketAddr * list MetricOp * Inner * list SocketAddr :=
  proxy_handler false sample_lookup sample_connect
    public_config (sample_request remote) 0%Z 0%Z sample_limits 1 (λ g, g) 2.

(** ** The handler, case by case *)

Section handler_cases.
  Context {PasetoKey TcpStream : Type} `{L : TokenLibrary PasetoKey} (debug_assertions : bool)
    (lookup_host : Resolver)
    (connect : nat → SocketAddr → option (result unit TcpStream)).

#[local] Abbreviation handler := (proxy_handler debug_assertions
  lookup_host connect).
#[local] Abbreviation ok_request := (request_ok debug_assertions).

Lemma handler_cases (config : Config PasetoKey) request now_exp now_ttl g now1 others now2 :
  let '(reply, log, g', dialled) :=
    handler config request now_exp now_ttl g now1 others now2 in
  (dialled ≠ [] → ∃ remote addrs,
     ok_request config request now_exp now_ttl remote
     ∧ (record_attempt g (request_client config request) (dest_key remote) now1).1 = Ok tt
     ∧ resolve_filtered lookup_host remote (dest config) = Ok addrs ∧ dialled ⊆ addrs)
  ∧ match reply with
    | Upgrade conn tcp max_message max_frame protocol =>
        ∃ remote lease i a g1,
          dialled ≠ [] ∧ ok_request config request now_exp now_ttl remote
          ∧ conn = Connection_new remote (request_client config request) lease
          ∧ dialled !! i = Some a ∧ connect i a = Some (Ok tcp)
          ∧ acquire g1 (request_client config request) (dest_key remote) now2 = (Ok lease, g')
          ∧ g1 = others (record_attempt g (request_client config request) (dest_key remote) now1).2
          ∧ max_message = ws_max_message_bytes config ∧ max_frame = ws_max_frame_bytes config
          ∧ log = []
    | _ => True
    end.
Proof.
  unfold proxy_handler.
  pose proof (proxy_gates_cases (TcpStream:=TcpStream) debug_assertions config request now_exp
    now_ttl) as Hg.
  destruct (proxy_gates _ _ _ _ _) as [[client remote]|[reply log]].
  2: { split; [done|]. destruct reply; try done.
       by apply (refusal_not_upgrade _ conn tcp max_message max_frame protocol) in Hg. }
  destruct Hg as [-> Hok].
  destruct (record_attempt _ _ _ _) as [[[]|e] g1] eqn:Er; [|done].
  destruct (resolve_filtered _ _ _) as [addrs|e] eqn:Ea; [|done].
  pose proof (connect_addrs_inv connect addrs) as Hc.
  pose proof (λ a, dialled_subset connect addrs a) as Hsub.
  destruct (connect_addrs connect addrs) as [dialled r]. cbn [fst] in Hsub.
  assert (Hd : dialled ≠ [] → ∃ remote addrs, ok_request config request now_exp now_ttl remote
     ∧ (record_attempt g (request_client config request) (dest_key remote) now1).1 = Ok tt
     ∧ resolve_filtered lookup_host remote (dest config) = Ok addrs ∧ dialled ⊆ addrs).
  { intros _. exists remote, addrs. by rewrite Er. }
  destruct r as [tcp|e]; [|by split].
  unfold proxy_finish. destruct (acquire _ _ _ _) as [[lease|e] g2] eqn:El; cbn; (split; [done|]);
    [|done].
  destruct Hc as (pre & a & post & -> & -> & Hconn & _).
  exists remote, lease, (length pre), a, (others g1). rewrite Er.
  split_and!; try done; [by destruct pre|]. by apply list_lookup_middle.
Qed.

(** What a refusal or an upgrade leaves counted. *)
Definition reply_leases (reply : Reply TcpStream) : list ConnectionLease :=
  match reply with Upgrade conn _ _ _ _ => option_list (c_lease conn) | _ => [] end.

Lemma handler_accounts (config : Config PasetoKey) request now_exp now_ttl g now1 others now2
    ls ls' :
  accounts g ls → (∀ g1, accounts g1 ls → accounts (others g1) ls') → lenN ls' < U64_MAX →
  let '(reply, log, g', dialled) :=
    handler config request now_exp now_ttl g now1 others now2 in
  (accounts g' (reply_leases reply ++ ls) ∨ accounts g' (reply_leases reply ++ ls'))
  ∧ match reply with
    | Upgrade _ _ _ _ _ => log = []
    | _ => refusal (reply, log)
    end.
Proof.
  intros Ha Ho Hl. unfold proxy_handler.
  pose proof (proxy_gates_cases (TcpStream:=TcpStream) debug_assertions config request now_exp
    now_ttl) as Hg.
  assert (Hrl : ∀ r : Reply TcpStream * list MetricOp, refusal r → reply_leases r.1 = []
    ∧ match r.1 with Upgrade _ _ _ _ _ => r.2 = [] | _ => refusal r end).
  { intros [r log] Hr. pose proof Hr as [[e E]|[[e E]|[E|[E|[E|E]]]]]; injection E as -> ->; done. }
  destruct (proxy_gates _ _ _ _ _) as [[client remote]|[reply log]].
  2: { destruct (Hrl _ Hg) as [E H]. cbn in E. rewrite E. auto. }
  pose proof (record_attempt_counts g client (dest_key remote) now1) as Hc.
  destruct (record_attempt _ _ _ _) as [r g1]. cbn [snd] in Hc.
  apply (accounts_same _ _ _ Hc) in Ha. destruct r as [[]|e].
  2: { split; [by left|]. right; left. by exists e. }
  specialize (Ho _ Ha).
  destruct (resolve_filtered _ _ _) as [addrs|e]; [|split; [by right|left; by exists e]].
  destruct (connect_addrs connect addrs) as [dialled [tcp|e]];
    [|split; [by right|left; by exists e]].
  unfold proxy_finish.
  pose proof (acquire_accounts _ _ client (dest_key remote) now2 Ho Hl) as H. cbv zeta in H.
  destruct (acquire _ _ _ _) as [[lease|e] g2].
  - destruct H as (-> & _ & _ & _ & H). split; [by right|done].
  - destruct H as [H _]. split; [by right|]. right; left. by exists e.
Qed.
End handler_cases.

(** ** Properties *)

Section properties.
  Context {PasetoKey TcpStream : Type} `{L : TokenLibrary PasetoKey} (debug_assertions : bool)
    (lookup_host : Resolver)
    (connect : nat → SocketAddr → option (result unit TcpStream)).

Notation handler := (proxy_handler debug_assertions
  lookup_host connect).
Notation ok_request := (request_ok debug_assertions).

(** C19: Nothing is dialled and no slot is taken before every gate is passed.
    If the handler dials any address, then the origin, the host, the token,
    the destination and the policy were accepted, [record_attempt] counted the
    attempt against the client's address, and every address dialled is one
    that the filtered resolution returned; if it upgrades, the connection is
    for that destination and client, its stream is what the connect of an
    address it dialled returned, and [acquire] gave it its lease. *)
Theorem proxy_handler_gated (config : Config PasetoKey) request now_exp now_ttl g now1 others now2 :
  let '(reply, log, g', dialled) :=
    handler config request now_exp now_ttl g now1 others now2 in
  (dialled ≠ [] → ∃ remote addrs,
     ok_request config request now_exp now_ttl remote
     ∧ (record_attempt g (request_client config request) (dest_key remote) now1).1 = Ok tt
     ∧ resolve_filtered lookup_host remote (dest config) = Ok addrs ∧ dialled ⊆ addrs)
  ∧ match reply with
    | Upgrade conn tcp max_message max_frame protocol =>
        ∃ remote lease i a g1,
          dialled ≠ [] ∧ ok_request config request now_exp now_ttl remote
          ∧ conn = Connection_new remote (request_client config request) lease
          ∧ dialled !! i = Some a ∧ connect i a = Some (Ok tcp)
          ∧ acquire g1 (request_client config request) (dest_key remote) now2 = (Ok lease, g')
          ∧ g1 = others (record_attempt g (request_client config request) (dest_key remote) now1).2
          ∧ max_message = ws_max_message_bytes config ∧ max_frame = ws_max_frame_bytes config
          ∧ log = []
    | _ => True
    end.
Proof. apply handler_cases. Qed.

(** A request that is not upgraded leaves nothing behind but its
    rejection: whatever other tasks do to the limits during its awaits, a
    refusal holds no lease and an upgrade exactly the one its connection owns.
    A refusal is one of the documented replies and counts one reject under the
    reason it names, except the 500 of a missing key, which counts none; an
    upgrade counts none. *)
Theorem proxy_handler_accounts (config : Config PasetoKey) request now_exp now_ttl g now1 others
  now2 ls ls' :
  accounts g ls → (∀ g1, accounts g1 ls → accounts (others g1) ls') → lenN ls' < U64_MAX →
  let '(reply, log, g', dialled) :=
    handler config request now_exp now_ttl g now1 others now2 in
  (accounts g' (reply_leases reply ++ ls) ∨ accounts g' (reply_leases reply ++ ls'))
  ∧ match reply with
    | Upgrade _ _ _ _ _ => log = []
    | _ => refusal (reply, log)
    end.
Proof. apply handler_accounts. Qed.
End properties.

Lemma proxy_handler_gated_witness :
  ∃ remote addrs,
    resolve_filtered sample_lookup remote DestPolicy_default = Ok addrs
    ∧ (sample_run (lit "imap.example.com:993")).2 ⊆ addrs.
Proof.
  pose proof (proxy_handler_gated false sample_lookup
    sample_connect public_config (sample_request (lit "imap.example.com:993")) 0%Z 0%Z
    sample_limits 1 (λ g, g) 2) as H.
  assert (E : bool_decide ((sample_run (lit "imap.example.com:993")).2 = []) = false)
    by (vm_compute; reflexivity).
  apply bool_decide_eq_false in E. revert E. unfold sample_run.
  destruct (proxy_handler _ _ _ _ _ _ _ _ _ _ _) as [[[reply log] g'] dialled].
  intros E. destruct H as [H _]. destruct (H E) as (remote & addrs & _ & _ & H1 & H2).
  exists remote, addrs. split; [exact H1|exact H2].
Defined.

Lemma proxy_handler_accounts_witness :
  ∃ g', (sample_run (lit "8.8.8.8:993")).1.2 = g' ∧ accounts g' [].
Proof.
  pose proof (proxy_handler_accounts false sample_lookup
    sample_connect public_config (sample_request (lit "8.8.8.8:993")) 0%Z 0%Z
    sample_limits 1 (λ g, g) 2 [] []
    (wo_accounts _ _ (world_new_ok LimitsConfig_default 0)) (λ _ H, H) ltac:(by vm_compute)) as H.
  assert (E : match (sample_run (lit "8.8.8.8:993")).1.1.1 with Rejected _ _ _ => true | _ => false end
    = true) by (vm_compute; reflexivity).
  revert E. unfold sample_run.
  destruct (proxy_handler _ _ _ _ _ _ _ _ _ _ _) as [[[reply log] g'] dialled].
  cbn. intros E. destruct reply; try discriminate E. exists g'. split; [reflexivity|].
  destruct H as [[H|H] _]; exact H.
Defined.
