(* ===== verification/Http.v ===== *)
(** * The HTTP surface ([src/server.rs])

    What the listeners answer: the routes of [run_proxy], the extractors of the
    handlers' arguments, and the responses made of what the handlers return.
    The decoding of a query string and the tests of [WebSocketUpgrade] are
    [axum]'s and stay parameters; the two structs that a query is decoded into
    are deserialised field by field, as [serde] documents for a derived
    implementation: a missing field is an error unless it has a default or is
    an [Option], a repeated one is an error, an unknown one is ignored. *)

From Stdlib Require Import ZArith.
From stdpp Require Import sets.
From S2P Require Import Prelude RustStr Net Dest Proto Limits LimitsSpec Metrics.
From S2P Require Import Config Registry Auth Connection Server.
#[local] Open Scope N_scope.

Record HttpRequest := {
  h_method : str;
  h_path : str;
  h_query : str;
  h_peer : SocketAddr;
  h_headers : Headers;
}.

(** [axum]: the pairs of a query string, and the status with which
    [WebSocketUpgrade] refuses a request, if it does. *)
Class Axum := {
  query_pairs : str → list (str * str);
  upgrade_rejection : HttpRequest → option N;
}.

(** ** Queries *)

(** The values of a field, in order. *)
Definition field (name : str) (pairs : list (str * str)) : list str :=
  omap (λ kv, if bool_decide (kv.1 = name) then Some kv.2 else None) pairs.

Definition ProxyQuery_deserialize (pairs : list (str * str)) : option ProxyQuery :=
  match field (lit "token") pairs, field (lit "remote") pairs with
  | [], [remote] => Some {| q_token := []; q_remote := remote |}
  | [token], [remote] => Some {| q_token := token; q_remote := remote |}
  | _, _ => None
  end.

Record MetricsQuery := { mq_token : option str }.

Definition MetricsQuery_deserialize (pairs : list (str * str)) : option MetricsQuery :=
  match field (lit "token") pairs with
  | [] => Some {| mq_token := None |}
  | [token] => Some {| mq_token := Some token |}
  | _ => None
  end.

(** ** Responses *)

Definition as_u16 (s : StatusCode) : N :=
  match s with
  | OK => 200 | BAD_REQUEST => 400 | UNAUTHORIZED => 401 | FORBIDDEN => 403
  | TOO_MANY_REQUESTS => 429 | INTERNAL_SERVER_ERROR => 500 | BAD_GATEWAY => 502
  | SERVICE_UNAVAILABLE => 503
  end.

(** A text, a refusal of the router or of an extractor, whose body is
    [axum]'s, or the switch to a WebSocket. *)
Inductive Response (TcpStream : Type) :=
| Text (status : N) (body : str)
| Rejection (status : N)
| Switching (conn : Connection) (tcp : TcpStream) (max_message max_frame : N)
    (protocol : option str).
Arguments Text {TcpStream}.
Arguments Rejection {TcpStream}.
Arguments Switching {TcpStream}.

(** [into_response] *)
Definition respond {TcpStream} (r : Reply TcpStream) : Response TcpStream :=
  match r with
  | Rejected status _ msg => Text (as_u16 status) msg
  | Bare status => Text (as_u16 status) []
  | Upgrade conn tcp m f p => Switching conn tcp m f p
  end.

Section http.
  Context {PasetoKey TcpStream : Type} `{L : TokenLibrary PasetoKey} `{T : MetricTypes}
    {R : MetricRegistry} {A : Axum} (debug_assertions : bool) (lookup_host : Resolver)
    (connect : nat → SocketAddr → option (result unit TcpStream)) (config : Config PasetoKey).

Definition proxy_request (req : HttpRequest) (q : ProxyQuery) : Request :=
  {| r_query := q; r_peer := h_peer req; r_headers := h_headers req |}.

(** [GET /proxy]: the extractors in the order of the handler's arguments, then
    the handler. *)
Definition serve_proxy (req : HttpRequest) (now_exp now_ttl : Z) (g : Inner) (now1 : Instant)
  (others : Inner → Inner) (now2 : Instant)
  : Response TcpStream * list MetricOp * Inner * list SocketAddr :=
  match ProxyQuery_deserialize (query_pairs (h_query req)) with
  | None => (Rejection 400, [], g, [])
  | Some q =>
      match upgrade_rejection req with
      | Some status => (Rejection status, [], g, [])
      | None =>
          let '(reply, log, g, dialled) :=
            proxy_handler debug_assertions lookup_host connect config (proxy_request req q)
              now_exp now_ttl g now1 others now2 in
          (respond reply, log, g, dialled)
      end
  end.

(** [GET /metrics] *)
Definition serve_metrics (m : Metrics) (req : HttpRequest) : outcome unit (Response TcpStream) :=
  match MetricsQuery_deserialize (query_pairs (h_query req)) with
  | None => Ret (Rejection 400)
  | Some q =>
      let status := metrics_handler (metrics_auth_key config) (h_headers req) (mq_token q) in
      if bool_decide (status = OK) then let! page := Metrics_encode m in Ret (Text 200 page)
      else Ret (Text (as_u16 status) (lit "Unauthorized"))
  end.

(** [GET /health] *)
Definition serve_health : Response TcpStream := Text (as_u16 health_handler) (lit "ok").

(** A [Router] of [get(..)] routes; [get] answers [HEAD] too. *)
Definition find_route (routes : list (str * Route)) (path : str) : option Route :=
  match filter (λ pr, pr.1 = path) routes with
  | [] => None
  | pr :: _ => Some pr.2
  end.

Definition method_ok (method : str) : bool :=
  bool_decide (method = lit "GET") || bool_decide (method = lit "HEAD").

(** A request on a listener with these routes: the response, the metrics, the
    limits and the addresses dialled, or the panic of its handler. *)
Definition serve (routes : list (str * Route)) (m : Metrics) (req : HttpRequest)
  (now_exp now_ttl : Z) (g : Inner) (now1 : Instant) (others : Inner → Inner) (now2 : Instant)
  : outcome unit (Response TcpStream * list MetricOp * Inner * list SocketAddr) :=
  match find_route routes (h_path req) with
  | None => Ret (Rejection 404, [], g, [])
  | Some route =>
      if negb (method_ok (h_method req)) then Ret (Rejection 405, [], g, []) else
      match route with
      | RHealth => Ret (serve_health, [], g, [])
      | RMetrics => let! r := serve_metrics m req in Ret (r, [], g, [])
      | RProxy => Ret (serve_proxy req now_exp now_ttl g now1 others now2)
      end
  end.

(** The listeners of [run_proxy]: the public one, and that of the metrics. *)
Definition public_routes : list (str * Route) := (run_proxy config).1.
Definition metrics_routes : option (list (str * Route)) := snd <$> (run_proxy config).2.

(** ** Lemmas *)

Lemma find_route_cons p r routes path :
  find_route ((p, r) :: routes) path =
    if bool_decide (path = p) then Some r else find_route routes path.
Proof.
  unfold find_route. rewrite filter_cons. cbn [fst].
  destruct (decide (path = p)) as [->|H].
  - by rewrite decide_True, bool_decide_true.
  - by rewrite decide_False, bool_decide_false by congruence.
Qed.

Lemma find_public path :
  find_route public_routes path =
    if bool_decide (path = lit "/health") then Some RHealth
    else if bool_decide (path = lit "/proxy") then Some RProxy
    else if bool_decide (path = lit "/metrics") && bool_decide (metrics_bind config = None)
    then Some RMetrics else None.
Proof.
  unfold public_routes, run_proxy, proxy_router, metrics_router.
  destruct (metrics_bind config); cbn [fst app]; rewrite !find_route_cons.
  - by rewrite (bool_decide_false (Some _ = None)), andb_false_r.
  - by rewrite (bool_decide_true (None = None)), andb_true_r.
Qed.

Lemma find_metrics routes path :
  metrics_routes = Some routes →
  find_route routes path = if bool_decide (path = lit "/metrics") then Some RMetrics else None.
Proof.
  unfold metrics_routes, run_proxy. destruct (metrics_bind config); [|done]. intros [= <-].
  unfold metrics_router. by rewrite find_route_cons.
Qed.

(** A request that the metrics are shown to. *)
Definition may_read_metrics (req : HttpRequest) : Prop :=
  match metrics_auth_key config with
  | None => True
  | Some k =>
      match bearer_token (h_headers req) with
      | Some b => b = k
      | None => field (lit "token") (query_pairs (h_query req)) = [k]
      end
  end.

(** The fields of a query: a [remote], and a [token] which may be left out. *)
Definition remotes (req : HttpRequest) : list str := field (lit "remote") (query_pairs (h_query req)).
Definition tokens (req : HttpRequest) : list str := field (lit "token") (query_pairs (h_query req)).
Definition asks (req : HttpRequest) (remote token : str) : Prop :=
  remotes req = [remote] ∧ (tokens req = [] ∧ token = [] ∨ tokens req = [token]).

Lemma ProxyQuery_asks req q :
  ProxyQuery_deserialize (query_pairs (h_query req)) = Some q ↔ asks req (q_remote q) (q_token q).
Proof.
  unfold asks, remotes, tokens, ProxyQuery_deserialize. destruct q as [token remote].
  cbn [q_remote q_token].
  destruct (field (lit "token") _) as [|t [|]], (field (lit "remote") _) as [|r [|]]; naive_solver.
Qed.

Lemma ProxyQuery_none req :
  length (remotes req) ≠ 1%nat ∨ (1 < length (tokens req))%nat →
  ProxyQuery_deserialize (query_pairs (h_query req)) = None.
Proof.
  unfold remotes, tokens, ProxyQuery_deserialize.
  destruct (field (lit "token") _) as [|t [|]], (field (lit "remote") _) as [|r [|]];
    cbn [length]; (done || lia).
Qed.

(** *** The metrics *)

Definition metrics_page (m : Metrics) : outcome unit (Response TcpStream) :=
  let! page := Metrics_encode m in Ret (Text 200 page).

Lemma metrics_reply q m req :
  (match metrics_auth_key config with
   | None => True
   | Some k => match bearer_token (h_headers req) with Some b => b = k | None => q = Some k end
   end ↔ may_read_metrics req) →
  let status := metrics_handler (metrics_auth_key config) (h_headers req) q in
  let reply := if bool_decide (status = OK) then metrics_page m
    else Ret (Text (as_u16 status) (lit "Unauthorized")) in
  (may_read_metrics req ∧ reply = metrics_page m)
  ∨ (¬ may_read_metrics req ∧ reply = Ret (Text 401 (lit "Unauthorized"))).
Proof.
  rewrite <- metrics_handler_correct. intros H. cbv zeta.
  case_bool_decide as E; [left; by rewrite <- H|right]. split; [by rewrite <- H|].
  clear H. unfold metrics_handler in *. destruct (metrics_auth_key config); [|done].
  cbv zeta in *. by destruct (negb _).
Qed.

Lemma serve_metrics_cases m req :
  ((1 < length (tokens req))%nat ∧ serve_metrics m req = Ret (Rejection 400))
  ∨ ((length (tokens req) <= 1)%nat ∧ may_read_metrics req ∧ serve_metrics m req = metrics_page m)
  ∨ ((length (tokens req) <= 1)%nat ∧ ¬ may_read_metrics req
     ∧ serve_metrics m req = Ret (Text 401 (lit "Unauthorized"))).
Proof.
  pose proof (λ q, metrics_reply q m req) as H.
  unfold serve_metrics, MetricsQuery_deserialize, may_read_metrics in *. fold (tokens req) in *.
  destruct (tokens req) as [|t [|t' ts]]; cbn [length mq_token]; [| |left; split; [lia|done]].
  - right. destruct (H None) as [[? ?]|[? ?]]; [|left|right]; [|split_and!; (done || lia)..].
    destruct (metrics_auth_key config); [destruct (bearer_token _)|]; naive_solver.
  - right. destruct (H (Some t)) as [[? ?]|[? ?]]; [|left|right]; [|split_and!; (done || lia)..].
    destruct (metrics_auth_key config); [destruct (bearer_token _)|]; naive_solver.
Qed.

(** *** [/proxy] *)

Lemma serve_proxy_cases req t1 t2 g now1 others now2 :
  let handled reply log g' dialled remote token :=
    proxy_handler debug_assertions lookup_host connect config
      (proxy_request req {| q_token := token; q_remote := remote |}) t1 t2 g now1 others now2
    = (reply, log, g', dialled) in
  let '(resp, log, g', dialled) := serve_proxy req t1 t2 g now1 others now2 in
  (log = [] ∧ g' = g ∧ dialled = [] ∧ (∀ conn tcp a b p, resp ≠ Switching conn tcp a b p)
   ∨ upgrade_rejection req = None ∧ ∃ remote token reply, asks req remote token
       ∧ handled reply log g' dialled remote token ∧ resp = respond reply)
  ∧ (length (remotes req) ≠ 1%nat ∨ (1 < length (tokens req))%nat → resp = Rejection 400)
  ∧ ∀ remote token, asks req remote token →
      match upgrade_rejection req with
      | Some status => resp = Rejection status
      | None => ∃ reply, handled reply log g' dialled remote token ∧ resp = respond reply
      end.
Proof.
  cbv zeta. unfold serve_proxy. pose proof (ProxyQuery_none req) as Hnone.
  pose proof (λ q, ProxyQuery_asks req q) as Hasks.
  destruct (ProxyQuery_deserialize _) as [[token remote]|].
  2: { split; [by left|]. split; [done|]. intros remote token Ha.
       by apply (Hasks {| q_token := token; q_remote := remote |}) in Ha. }
  assert (Ha : asks req remote token) by (by apply (Hasks {| q_token := token; q_remote := remote |})).
  assert (Hsame : ∀ r t, asks req r t → r = remote ∧ t = token).
  { intros r t H. apply (Hasks {| q_token := t; q_remote := r |}) in H. by injection H. }
  destruct (upgrade_rejection req) as [status|].
  { split; [by left|]. split; [by intros ?%Hnone|]. done. }
  destruct (proxy_handler _ _ _ _ _ _ _ _ _ _ _) as [[[reply log] g'] dialled] eqn:E.
  split; [right; split; [done|]; by exists remote, token, reply|]. split; [by intros ?%Hnone|].
  intros r t [-> ->]%Hsame. by exists reply.
Qed.

(** *** The routes *)

(** What a listener serves under a path. *)
Definition served (routes : list (str * Route)) (path : str) (r : Route) : Prop :=
  match r with
  | RHealth => routes = public_routes ∧ path = lit "/health"
  | RProxy => routes = public_routes ∧ path = lit "/proxy"
  | RMetrics => path = lit "/metrics" ∧ (routes = public_routes → metrics_bind config = None)
  end.

Lemma find_served routes path r :
  routes = public_routes ∨ metrics_routes = Some routes →
  find_route routes path = Some r ↔ served routes path r.
Proof.
  intros [->|Hr].
  - rewrite find_public. unfold served.
    repeat case_bool_decide; cbn [andb]; destruct r; naive_solver.
  - rewrite (find_metrics _ _ Hr).
    assert (Hne : routes ≠ public_routes).
    { intros ->. pose proof (find_metrics _ (lit "/health") Hr) as H. by rewrite find_public in H. }
    unfold served. case_bool_decide; destruct r; naive_solver.
Qed.

(** C17: The whole surface.  A path that the listener does not serve is not
    found, and a method other than GET or HEAD is not allowed; the public
    listener serves the health check, which always answers, the proxy, and the
    metrics iff no address is configured for them, the other listener only the
    metrics.  The proxy refuses a query without exactly one [remote] and at most
    one [token], then a request that is not an upgrade; any other is answered by
    [proxy_handler].  The metrics refuse a query with several tokens; they are
    shown to the holder of the key, who gives it as a bearer token or, failing
    one, in the query, and everyone else is unauthorized.  Only [proxy_handler]
    counts anything, changes a limit, dials or upgrades, and the only panic is
    that of encoding the metrics for someone who may read them. *)
Theorem http_surface routes m req t1 t2 g now1 others now2 :
  routes = public_routes ∨ metrics_routes = Some routes →
  let serves := served routes (h_path req) in
  let handled reply log g' dialled remote token :=
    proxy_handler debug_assertions lookup_host connect config
      (proxy_request req {| q_token := token; q_remote := remote |}) t1 t2 g now1 others now2
    = (reply, log, g', dialled) in
  match serve routes m req t1 t2 g now1 others now2 with
  | Ret (resp, log, g', dialled) =>
      (log = [] ∧ g' = g ∧ dialled = [] ∧ (∀ conn tcp a b p, resp ≠ Switching conn tcp a b p)
       ∨ serves RProxy ∧ method_ok (h_method req) = true ∧ upgrade_rejection req = None
         ∧ ∃ remote token reply, asks req remote token
             ∧ handled reply log g' dialled remote token ∧ resp = respond reply)
      ∧ ((∀ r, ¬ serves r) → resp = Rejection 404)
      ∧ (∀ r, serves r → method_ok (h_method req) = false → resp = Rejection 405)
      ∧ (method_ok (h_method req) = true →
         (serves RHealth → resp = Text 200 (lit "ok"))
         ∧ (serves RProxy →
            (length (remotes req) ≠ 1%nat ∨ (1 < length (tokens req))%nat → resp = Rejection 400)
            ∧ ∀ remote token, asks req remote token →
              match upgrade_rejection req with
              | Some status => resp = Rejection status
              | None => ∃ reply, handled reply log g' dialled remote token ∧ resp = respond reply
              end)
         ∧ (serves RMetrics →
            ((1 < length (tokens req))%nat → resp = Rejection 400)
            ∧ ((length (tokens req) <= 1)%nat →
               (may_read_metrics req → ∃ page, Metrics_encode m = Ret page ∧ resp = Text 200 page)
               ∧ (¬ may_read_metrics req → resp = Text 401 (lit "Unauthorized")))))
  | Panic => serves RMetrics ∧ method_ok (h_method req) = true ∧ (length (tokens req) <= 1)%nat
      ∧ may_read_metrics req ∧ Metrics_encode m = Panic
  | _ => False
  end.
Proof.
  intros Hr. cbv zeta. pose proof (λ r, find_served routes (h_path req) r Hr) as Hf. unfold serve.
  destruct (find_route routes (h_path req)) as [route|] eqn:Er.
  2: { split; [by left|]. split; [done|]. split; [by intros r ?%Hf|].
       intros _. split; [by intros ?%Hf|]. split; [by intros ?%Hf|by intros ?%Hf]. }
  assert (Hroute : served routes (h_path req) route) by (by apply Hf).
  assert (Honly : ∀ r, served routes (h_path req) r → r = route)
    by (intros r Hs%Hf; by injection Hs).
  destruct (method_ok (h_method req)) eqn:Em; cbn [negb].
  2: { split; [by left|]. split; [by intros Hn; destruct (Hn route)|]. by split. }
  destruct route.
  - split; [by left|]. split; [by intros Hn; destruct (Hn RHealth)|]. split; [done|]. intros _.
    split; [done|]. split; by intros ?%Honly.
  - pose proof (serve_proxy_cases req t1 t2 g now1 others now2) as H.
    destruct (serve_proxy _ _ _ _ _ _ _) as [[[resp log] g'] dialled].
    destruct H as (H1 & H2 & H3). split.
    { destruct H1 as [H1|(Hu & remote & token & reply & H1)]; [by left|right].
      split_and!; [done..|]. by exists remote, token, reply. }
    split; [by intros Hn; destruct (Hn RProxy)|]. split; [done|]. intros _.
    split; [by intros ?%Honly|]. split; [done|by intros ?%Honly].
  - destruct (serve_metrics_cases m req) as [[Hl ->]|[(Hl & Ha & ->)|(Hl & Hn & ->)]];
      [|unfold metrics_page, Metrics_encode; destruct (encode_text _ _) as [page|]|];
      cbn [or_panic outcome_bind]; try done;
      (split; [by left|]); (split; [by intros Hs; destruct (Hs RMetrics)|]); (split; [done|]);
      intros _; (split; [by intros ?%Honly|]); (split; [by intros ?%Honly|]); intros _.
    + split; [done|lia].
    + split; [lia|]. split; [by exists page|done].
    + split; [lia|]. by split.
Qed.
End http.

(** ** A concrete query decoder, for the witnesses *)

Module ideal_axum.
#[export] Instance library : Axum := {|
  query_pairs s := omap (split_once "="%byte) (split "&"%byte s);
  upgrade_rejection req :=
    match h_headers req (lit "upgrade") with Some _ => None | None => Some 426 end |}.
End ideal_axum.

#[local] Existing Instances ideal_axum.library ideal_metrics.types ideal_metrics.registry.

Definition sample_http (path query : str) : HttpRequest := {|
  h_method := lit "GET"; h_path := path; h_query := query;
  h_peer := SockAddr (V4 (v4_new 203 0 113 7)) 50000;
  h_headers := λ name, if bool_decide (name = lit "upgrade") then Some (lit "websocket") else None |}.

Lemma http_surface_witness :
  ∃ m resp log g' dialled,
    Metrics_new 0 = Ret m
    ∧ serve (TcpStream:=SocketAddr) false sample_lookup sample_connect public_config
        (public_routes public_config) m
        (sample_http (lit "/proxy") (lit "token=t&remote=imap.example.com:993")) 0%Z 0%Z
        sample_limits 1 (λ g, g) 2 = Ret (resp, log, g', dialled)
    ∧ ∃ reply, proxy_handler false sample_lookup sample_connect public_config
        (proxy_request (sample_http (lit "/proxy") (lit "token=t&remote=imap.example.com:993"))
          {| q_token := lit "t"; q_remote := lit "imap.example.com:993" |}) 0%Z 0%Z
        sample_limits 1 (λ g, g) 2 = (reply, log, g', dialled) ∧ resp = respond reply.
Proof.
  destruct (Metrics_new 0) as [m| | |] eqn:Em; [|discriminate Em..]. exists m.
  pose proof (http_surface (TcpStream:=SocketAddr) false sample_lookup sample_connect public_config
    (public_routes public_config) m
    (sample_http (lit "/proxy") (lit "token=t&remote=imap.example.com:993")) 0%Z 0%Z
    sample_limits 1 (λ g, g) 2 (or_introl eq_refl)) as H. cbv zeta in H.
  assert (E : match serve (TcpStream:=SocketAddr) false sample_lookup sample_connect public_config
        (public_routes public_config) m
        (sample_http (lit "/proxy") (lit "token=t&remote=imap.example.com:993")) 0%Z 0%Z
        sample_limits 1 (λ g, g) 2 with Ret r => true | _ => false end = true)
    by (vm_compute; reflexivity).
  destruct (serve _ _ _ _ _ _ _ _ _ _ _ _ _) as [[[[resp log] g'] dialled]| | |]; try discriminate E.
  exists resp, log, g', dialled. split; [reflexivity|]. split; [reflexivity|].
  destruct H as (_ & _ & _ & H). destruct (H eq_refl) as (_ & Hp & _). clear H.
  assert (Hs : served public_config (public_routes public_config) (lit "/proxy") RProxy)
    by (split; reflexivity).
  destruct (Hp Hs) as [_ Hp']. apply (Hp' (lit "imap.example.com:993") (lit "t")).
  split; [by vm_compute|right; by vm_compute].
Defined.
