(* ===== verification/UnitTests.v ===== *)
(** * The unit tests of the program, run on the model

    The repository tests its components with [#[test]] functions.  Each is
    translated here as it stands, over the definitions of the model, and
    evaluated: a test is a computation that panics when an assertion fails.
    What the program's authors checked of the program is thereby checked of
    the model.  [std::thread::sleep] is a later clock reading; a resolver of
    [localhost] answers with the two loopback addresses. *)

From stdpp Require Import sets.
From S2P Require Import Prelude RustStr Net Dest Proto Limits Metrics Config Auth.
#[local] Open Scope N_scope.

(** ** Assertions *)

Definition Test : Type := outcome unit unit.

Definition assert (b : bool) : Test := if b then Ret tt else Panic.
Definition assert_eq {A} `{EqDecision A} (a b : A) : Test := assert (bool_decide (a = b)).
Definition unwrap {E A} (r : result E A) : outcome unit A :=
  match r with Ok a => Ret a | Err _ => Panic end.
Definition unwrap_err {E A} (r : result E A) : outcome unit E :=
  match r with Ok _ => Panic | Err e => Ret e end.
Definition unwrap_some {A} (o : option A) : outcome unit A :=
  match o with Some a => Ret a | None => Panic end.

Notation "t ;; k" := (outcome_bind t (λ _ : unit, k)) (at level 100, right associativity)
  : test_scope.
#[local] Open Scope test_scope.

(** [for x in l { f(x) }] *)
Fixpoint for_each {A} (l : list A) (f : A → Test) : Test :=
  match l with
  | [] => Ret tt
  | x :: l => f x;; for_each l f
  end.

Definition passes (t : Test) : bool := match t with Ret _ => true | _ => false end.

(** [str.parse::<IpAddr>().unwrap()] *)
Definition parse_ip (s : str) : outcome unit IpAddr := unwrap_some (parse_ip_addr s).

(** [str::repeat] *)
Fixpoint repeat_str (s : str) (n : nat) : str :=
  match n with O => [] | S n => s ++ repeat_str s n end.

(** [Config { auth_mode, secret_key, dest, limits, max_bytes_per_connection,
    max_lifetime, allowed_origins, ..c }] *)
Definition Config_with {K} (c : Config K) (mode : AuthMode) (key : option K) (policy : DestPolicy)
  (lim : LimitsConfig) (max_bytes : N) (lifetime : Duration) (origins : gset str) : Config K := {|
  bind_addr := bind_addr c; listen_port := listen_port c; secret_key := key;
  metrics_auth_key := metrics_auth_key c; metrics_bind := metrics_bind c; auth_mode := mode;
  ws_idle_timeout := ws_idle_timeout c; ws_write_timeout := ws_write_timeout c;
  tcp_write_timeout := tcp_write_timeout c; tcp_connect_timeout := tcp_connect_timeout c;
  dns_timeout := dns_timeout c; dest := policy; limits := lim;
  max_bytes_per_connection := max_bytes; max_lifetime := lifetime;
  trust_forwarded_client_ip := trust_forwarded_client_ip c; trusted_proxies := trusted_proxies c;
  require_protocol_probe := require_protocol_probe c; allowed_origins := origins;
  allowed_hosts := allowed_hosts c; ws_max_message_bytes := ws_max_message_bytes c;
  ws_max_frame_bytes := ws_max_frame_bytes c; paseto_max_ttl := paseto_max_ttl c |}.

(** ** [dest.rs] *)

Module dest_tests.

Definition parse_hostname_port : Test :=
  let! r := unwrap (parse_remote (lit "imap.gmail.com:993")) in
  assert_eq (host r) (lit "imap.gmail.com");;
  assert_eq (port r) 993;;
  assert_eq (ip_literal r) None.

Definition parse_normalizes_hostname : Test :=
  let! r := unwrap (parse_remote (lit "IMAP.Gmail.COM.:993")) in
  assert_eq (host r) (lit "imap.gmail.com").

Definition parse_ipv4 : Test :=
  let! r := unwrap (parse_remote (lit "8.8.8.8:993")) in
  assert_eq (ip_literal r) (Some (V4 (v4_new 8 8 8 8)));;
  assert_eq (port r) 993.

Definition parse_ipv6 : Test :=
  let! r := unwrap (parse_remote (lit "[2001:db8::1]:993")) in
  let! ip := unwrap_some (ip_literal r) in
  assert (negb (is_ipv4 ip));;
  assert_eq (port r) 993.

Definition parse_rejects_unbracketed_ipv6 : Test :=
  assert_eq (parse_remote (lit "::1:993")) (Err InvalidRemote).

Definition parse_rejects_missing_port : Test :=
  assert_eq (parse_remote (lit "imap.gmail.com")) (Err InvalidRemote).

Definition parse_rejects_port_zero : Test :=
  assert_eq (parse_remote (lit "imap.gmail.com:0")) (Err InvalidRemote).

Definition parse_loose_ipv4_forms_as_literals : Test :=
  for_each
    [(lit "134744072:993", lit "8.8.8.8");
     (lit "0x08080808:993", lit "8.8.8.8");
     (lit "0X8.8.8.8:993", lit "8.8.8.8");
     (lit "8.8.8:993", lit "8.8.0.8");
     (lit "1.2:993", lit "1.0.0.2");
     (lit "127.1:993", lit "127.0.0.1");
     (lit "0177.0.0.1:993", lit "127.0.0.1");
     (lit "0x7f.0.0.1:993", lit "127.0.0.1");
     (lit "0:993", lit "0.0.0.0");
     (lit "123:993", lit "0.0.0.123")]
    (λ '(raw, canon),
      let! r := unwrap (parse_remote raw) in
      assert_eq (host r) canon;;
      let! ip := unwrap_some (ip_literal r) in
      assert_eq (show_ip ip) canon).

Definition default_policy_rejects_loose_ipv4_literals : Test :=
  for_each [lit "134744072:993"; lit "127.1:993"; lit "0x08080808:993"; lit "8.8.8:993"]
    (λ raw,
      let! r := unwrap (parse_remote raw) in
      assert_eq (check_policy r DestPolicy_default) (Err IpLiteral)).

Definition parse_rejects_invalid_hostnames : Test :=
  for_each
    [lit "has space.com:993"; lit "has/slash.com:993"; lit "has@at.com:993";
     lit "-leading-hyphen.com:993"; lit "trailing-hyphen-.com:993"; lit "a..b.com:993";
     repeat_str (lit "a") 64 ++ lit ".com:993";
     repeat_str (repeat_str (lit "a") 50 ++ lit ".") 6 ++ lit ":993"]
    (λ raw, assert_eq (parse_remote raw) (Err InvalidRemote)).

Definition parse_accepts_punycode_and_localhost : Test :=
  let! r := unwrap (parse_remote (lit "xn--mnchen-3ya.de:993")) in
  assert_eq (host r) (lit "xn--mnchen-3ya.de");;
  assert_eq (ip_literal r) None;;
  let! r := unwrap (parse_remote (lit "localhost:993")) in
  assert_eq (host r) (lit "localhost").

Definition default_policy_allows_mail_ports_only : Test :=
  let p := DestPolicy_default in
  for_each DEFAULT_ALLOWED_PORTS (λ port,
    let! r := unwrap (parse_remote (lit "imap.example.com:" ++ show_dec port)) in
    assert (is_ok (check_policy r p)));;
  for_each [lit "imap.example.com:25"; lit "imap.example.com:22"; lit "imap.example.com:443"]
    (λ raw,
      let! r := unwrap (parse_remote raw) in
      assert_eq (check_policy r p) (Err BadPort)).

Definition default_policy_rejects_ip_literals : Test :=
  let! r := unwrap (parse_remote (lit "8.8.8.8:993")) in
  assert_eq (check_policy r DestPolicy_default) (Err IpLiteral).

Definition literals_policy : DestPolicy := {|
  allowed_ports := allowed_ports DestPolicy_default;
  allow_private_destinations := false;
  allow_ip_literals := true |}.

Definition private_literal_rejected_even_when_literals_allowed : Test :=
  for_each
    [lit "127.0.0.1:993"; lit "10.0.0.1:993"; lit "192.168.1.1:993"; lit "172.16.0.1:993";
     lit "169.254.169.254:993"; lit "100.64.0.1:993"; lit "[::1]:993"; lit "[fc00::1]:993";
     lit "[fe80::1]:993"; lit "[::ffff:127.0.0.1]:993"]
    (λ raw,
      let! r := unwrap (parse_remote raw) in
      assert_eq (check_policy r literals_policy) (Err PrivateIp)).

Definition public_literal_allowed_when_literals_on : Test :=
  let! r := unwrap (parse_remote (lit "8.8.8.8:993")) in
  assert (is_ok (check_policy r literals_policy)).

Definition global_unicast_classification : Test :=
  for_each
    [lit "0.0.0.1"; lit "127.0.0.1"; lit "10.1.2.3"; lit "192.168.0.1"; lit "172.31.255.255";
     lit "169.254.169.254"; lit "100.64.0.1"; lit "224.0.0.1"; lit "255.255.255.255";
     lit "192.0.2.1"; lit "198.18.0.1"; lit "240.0.0.1";
     lit "::1"; lit "fc00::1"; lit "fe80::1"; lit "2001:db8::1"; lit "::ffff:10.0.0.1";
     lit "2001::1"; lit "64:ff9b::a00:1"; lit "64:ff9b::7f00:1"; lit "64:ff9b:1::1";
     lit "2002:0a00:0001::1"]
    (λ s, let! ip := parse_ip s in assert (negb (is_global_unicast ip)));;
  for_each
    [lit "8.8.8.8"; lit "1.1.1.1"; lit "2001:4860:4860::8888"; lit "64:ff9b::808:808";
     lit "2002:0808:0808::1"]
    (λ s, let! ip := parse_ip s in assert (is_global_unicast ip)).

Definition localhost_resolver : Resolver := λ _ p,
  Some (Ok [SockAddr (V4 (v4_new 127 0 0 1)) p; SockAddr (V6 (v6_new 0 0 0 0 0 0 0 1)) p]).

Definition is_loopback (ip : IpAddr) : bool :=
  match ip with V4 a => v4_is_loopback a | V6 a => v6_is_loopback a end.

Definition resolve_localhost_private_denied : Test :=
  let! r := unwrap (parse_remote (lit "localhost:993")) in
  assert (is_ok (check_policy r DestPolicy_default));;
  let! e := unwrap_err (resolve_filtered localhost_resolver r DestPolicy_default) in
  assert_eq e PrivateIp.

Definition resolve_localhost_private_allowed : Test :=
  let! r := unwrap (parse_remote (lit "localhost:993")) in
  let! addrs := unwrap (resolve_filtered localhost_resolver r DestPolicy_unrestricted) in
  assert (existsb (λ a, is_loopback (sa_ip a)) addrs);;
  assert (forallb (λ a, sa_port a =? 993) addrs).

Definition all : list Test :=
  [parse_hostname_port; parse_normalizes_hostname; parse_ipv4; parse_ipv6;
   parse_rejects_unbracketed_ipv6; parse_rejects_missing_port; parse_rejects_port_zero;
   parse_loose_ipv4_forms_as_literals; default_policy_rejects_loose_ipv4_literals;
   parse_rejects_invalid_hostnames; parse_accepts_punycode_and_localhost;
   default_policy_allows_mail_ports_only; default_policy_rejects_ip_literals;
   private_literal_rejected_even_when_literals_allowed; public_literal_allowed_when_literals_on;
   global_unicast_classification; resolve_localhost_private_denied;
   resolve_localhost_private_allowed].

End dest_tests.

(** ** [proto.rs] *)

Module proto_tests.

Definition validates (r : outcome ProtoError unit) : bool :=
  match r with Ret _ => true | _ => false end.

Definition sni_roundtrip : Test :=
  let rec := client_hello_with_sni (lit "imap.gmail.com") in
  assert_eq (tls_record_needed rec) (Ret 0);;
  assert_eq (parse_sni rec) (Ret (Some (lit "imap.gmail.com")));;
  assert (validates (validate_tls_client_hello rec (lit "imap.gmail.com") false));;
  assert (validates (validate_tls_client_hello rec (lit "IMAP.GMAIL.COM.") false));;
  assert_eq (validate_tls_client_hello rec (lit "evil.example") false) (Throw SniMismatch).

Definition sni_skipped_for_ip_literal : Test :=
  let rec := client_hello_with_sni (lit "whatever") in
  assert (validates (validate_tls_client_hello rec (lit "8.8.8.8") true)).

Definition rejects_non_tls : Test :=
  assert_eq (tls_record_needed (lit "GET /")) (Throw NotTls);;
  assert_eq (tls_record_needed (lit "SSH-2.0")) (Throw NotTls).

Definition needed_grows_with_prefix : Test :=
  let rec := client_hello_with_sni (lit "localhost") in
  assert_eq (tls_record_needed []) (Ret 5);;
  assert (match tls_record_needed (take 3 rec) with Ret n => 0 <? n | _ => false end);;
  assert_eq (tls_record_needed rec) (Ret 0).

Definition crlf : str := ["013"%byte; "010"%byte].

Definition imap_greeting : Test :=
  assert (is_ok (validate_greeting (lit "* OK IMAP4rev1 ready" ++ crlf) ImapGreeting));;
  assert (is_ok (validate_greeting
    (lit "* OK [CAPABILITY IMAP4rev1] Dovecot ready" ++ crlf) ImapGreeting));;
  assert_eq (validate_greeting (lit "220 smtp.example.com" ++ crlf) ImapGreeting) (Err BadGreeting);;
  assert_eq (validate_greeting (lit "SSH-2.0-OpenSSH" ++ crlf) ImapGreeting) (Err BadGreeting).

Definition smtp_greeting : Test :=
  assert (is_ok (validate_greeting (lit "220 mail.example.com ESMTP" ++ crlf) SmtpGreeting));;
  assert (is_ok (validate_greeting (lit "220-mail.example.com" ++ crlf) SmtpGreeting));;
  assert_eq (validate_greeting (lit "* OK IMAP" ++ crlf) SmtpGreeting) (Err BadGreeting).

Definition greeting_complete_on_newline : Test :=
  assert (negb (greeting_complete (lit "220 mail")));;
  assert (greeting_complete (lit "220 mail" ++ ["010"%byte]));;
  assert (greeting_complete (repeat_str (lit "x") 512)).

Definition probe_ports : Test :=
  assert_eq (probe_for_port 993) (Some TlsSni);;
  assert_eq (probe_for_port 465) (Some TlsSni);;
  assert_eq (probe_for_port 143) (Some ImapGreeting);;
  assert_eq (probe_for_port 587) (Some SmtpGreeting);;
  assert_eq (probe_for_port 25) None;;
  assert_eq (probe_for_port 9400) None.

Definition all : list Test :=
  [sni_roundtrip; sni_skipped_for_ip_literal; rejects_non_tls; needed_grows_with_prefix;
   imap_greeting; smtp_greeting; greeting_complete_on_newline; probe_ports].

End proto_tests.

(** ** [config.rs] *)

Module config_tests.

Definition contains_at (c : Cidr) (s : str) : outcome unit bool :=
  let! ip := parse_ip s in Ret (contains c ip).

Definition parse_ports_default_and_any : Test :=
  assert_eq (parse_allowed_ports []) (Some (list_to_set DEFAULT_ALLOWED_PORTS));;
  assert_eq (parse_allowed_ports (lit "any")) None;;
  assert_eq (parse_allowed_ports (lit "*")) None;;
  assert_eq (parse_allowed_ports (lit "993, 587")) (Some {[993; 587]}).

Definition csv_set_and_origin_host_normalize : Test :=
  let set := parse_csv_set (lit " https://App.Example.com , * ") in
  assert (bool_decide (lit "https://App.Example.com" ∈ set));;
  assert (bool_decide (lit "*" ∈ set));;
  assert_eq (normalize_origin (lit "HTTPS://APP.EXAMPLE.COM")) (lit "https://app.example.com");;
  assert_eq (normalize_host (lit "Proxy.Example.COM:443")) (lit "proxy.example.com:443").

Definition cidr_parse_and_contains : Test :=
  let! c := unwrap_some (Cidr_parse (lit "10.0.0.0/8")) in
  let! b := contains_at c (lit "10.1.2.3") in assert b;;
  let! b := contains_at c (lit "11.0.0.1") in assert (negb b);;
  let! one := unwrap_some (Cidr_parse (lit "127.0.0.1")) in
  let! b := contains_at one (lit "127.0.0.1") in assert b;;
  let! b := contains_at one (lit "127.0.0.2") in assert (negb b);;
  let! v6 := unwrap_some (Cidr_parse (lit "2001:db8::/32")) in
  let! b := contains_at v6 (lit "2001:db8::1") in assert b;;
  let! b := contains_at v6 (lit "2001:db9::1") in assert (negb b).

Definition is_empty {A} (l : list A) : bool := match l with [] => true | _ => false end.

Definition default_config_is_public_safe : Test :=
  assert (is_empty (public_safety_errors (Config_default (PasetoKey := unit)))).

Definition test_config_is_not_public_safe : Test :=
  assert (negb (is_empty (public_safety_errors (Config_for_tests (PasetoKey := unit))))).

Definition public_with (origins : gset str) : Config unit :=
  let c : Config unit := Config_default in
  Config_with c Public (secret_key c) (dest c) (limits c) (max_bytes_per_connection c)
    (max_lifetime c) origins.

Definition public_auth_requires_origin_allowlist : Test :=
  let c := public_with (allowed_origins (Config_default : Config unit)) in
  assert (existsb (contains_str (lit "ALLOWED_ORIGINS")) (public_safety_errors c));;
  let c := public_with (allowed_origins c ∪ {[lit "https://app.example"]}) in
  assert (is_empty (public_safety_errors c)).

Definition all : list Test :=
  [parse_ports_default_and_any; csv_set_and_origin_host_normalize; cidr_parse_and_contains;
   default_config_is_public_safe; test_config_is_not_public_safe;
   public_auth_requires_origin_allowlist].

End config_tests.

(** ** [limits.rs] *)

Module limits_tests.

(** [LimitsConfig { fields, ..LimitsConfig::unlimited() }] *)
Inductive Field :=
| FGlobal (n : N) | FPerIp (n : N) | FPerDest (n : N)
| FConnects (n : N) (window : Duration) | FDests (n : N) | FDestsWindow (window : Duration)
| FGlobalConnects (n : N) (window : Duration) | FBytes (n : N) (window : Duration)
| FIpv4Prefix (n : N) | FIpv6Prefix (n : N) | FTracked (n : N).

Definition pick {A} (f : Field → option A) (base : A) (fields : list Field) : A :=
  match omap f fields with x :: _ => x | [] => base end.

Definition unlimited_with (fields : list Field) : LimitsConfig :=
  let c := LimitsConfig_unlimited in {|
  max_global_connections :=
    pick (λ f, match f with FGlobal n => Some n | _ => None end) (max_global_connections c) fields;
  max_conns_per_ip :=
    pick (λ f, match f with FPerIp n => Some n | _ => None end) (max_conns_per_ip c) fields;
  max_conns_per_dest :=
    pick (λ f, match f with FPerDest n => Some n | _ => None end) (max_conns_per_dest c) fields;
  connects_per_ip :=
    pick (λ f, match f with FConnects n _ => Some n | _ => None end) (connects_per_ip c) fields;
  connects_per_ip_window :=
    pick (λ f, match f with FConnects _ w => Some w | _ => None end)
      (connects_per_ip_window c) fields;
  distinct_dests_per_ip :=
    pick (λ f, match f with FDests n => Some n | _ => None end) (distinct_dests_per_ip c) fields;
  distinct_dests_window :=
    pick (λ f, match f with FDestsWindow w => Some w | _ => None end)
      (distinct_dests_window c) fields;
  global_connects :=
    pick (λ f, match f with FGlobalConnects n _ => Some n | _ => None end)
      (global_connects c) fields;
  global_connects_window :=
    pick (λ f, match f with FGlobalConnects _ w => Some w | _ => None end)
      (global_connects_window c) fields;
  max_bytes_per_ip :=
    pick (λ f, match f with FBytes n _ => Some n | _ => None end) (max_bytes_per_ip c) fields;
  bytes_window :=
    pick (λ f, match f with FBytes _ w => Some w | _ => None end) (bytes_window c) fields;
  ipv4_prefix :=
    pick (λ f, match f with FIpv4Prefix n => Some n | _ => None end) (ipv4_prefix c) fields;
  ipv6_prefix :=
    pick (λ f, match f with FIpv6Prefix n => Some n | _ => None end) (ipv6_prefix c) fields;
  max_tracked_ips :=
    pick (λ f, match f with FTracked n => Some n | _ => None end) (max_tracked_ips c) fields |}.

Definition from_millis (n : N) : Duration := n * 1000000.
Definition minute : Duration := from_secs 60.
Definition ip (n : N) : IpAddr := V4 (v4_new 203 0 113 n).
Definition v6 (host : N) : IpAddr := V6 (v6_new 0x2001 0x0db8 0 0 0 0 0 host).
Definition imap : str := lit "imap.example:993".

Definition per_ip_concurrent_cap : Test :=
  let g := LimitState_new (unlimited_with [FPerIp 2]) 0 in
  let '(r, g) := acquire g (ip 1) imap 0 in let! a := unwrap r in
  let '(r, g) := acquire g (ip 1) imap 0 in let! b := unwrap r in
  let '(r, g) := acquire g (ip 1) imap 0 in
  assert_eq r (Err PerIpFull);;
  let '(r, g) := acquire g (ip 2) imap 0 in let! c := unwrap r in
  let g := drop_lease g c 0 in
  let g := drop_lease g a 0 in
  let g := drop_lease g b 0 in
  let '(r, g) := acquire g (ip 1) imap 0 in
  assert (is_ok r).

Definition global_and_per_dest_caps : Test :=
  let g := LimitState_new (unlimited_with [FGlobal 2; FPerDest 1]) 0 in
  let '(r, g) := acquire g (ip 1) (lit "a:993") 0 in let! _ := unwrap r in
  let '(r, g) := acquire g (ip 2) (lit "a:993") 0 in
  assert_eq r (Err PerDestFull);;
  let '(r, g) := acquire g (ip 2) (lit "b:993") 0 in let! _ := unwrap r in
  let '(r, g) := acquire g (ip 3) (lit "c:993") 0 in
  assert_eq r (Err GlobalFull).

Definition connect_rate_per_ip : Test :=
  let g := LimitState_new (unlimited_with [FConnects 2 minute]) 0 in
  let '(r, g) := record_attempt g (ip 1) (lit "a:993") 0 in let! _ := unwrap r in
  let '(r, g) := record_attempt g (ip 1) (lit "a:993") 0 in let! _ := unwrap r in
  let '(r, g) := record_attempt g (ip 1) (lit "a:993") 0 in
  assert_eq r (Err ConnectRate);;
  let '(r, g) := record_attempt g (ip 2) (lit "a:993") 0 in
  assert (is_ok r).

Definition distinct_dests_per_ip : Test :=
  let g := LimitState_new (unlimited_with [FDests 2; FDestsWindow minute]) 0 in
  let '(r, g) := record_attempt g (ip 1) (lit "a:993") 0 in let! _ := unwrap r in
  let '(r, g) := record_attempt g (ip 1) (lit "b:993") 0 in let! _ := unwrap r in
  let '(r, g) := record_attempt g (ip 1) (lit "a:993") 0 in let! _ := unwrap r in
  let '(r, g) := record_attempt g (ip 1) (lit "c:993") 0 in
  assert_eq r (Err DistinctDests).

Definition global_connect_rate : Test :=
  let g := LimitState_new (unlimited_with [FGlobalConnects 2 minute]) 0 in
  let '(r, g) := record_attempt g (ip 1) (lit "a:993") 0 in let! _ := unwrap r in
  let '(r, g) := record_attempt g (ip 2) (lit "b:993") 0 in let! _ := unwrap r in
  let '(r, g) := record_attempt g (ip 3) (lit "c:993") 0 in
  assert_eq r (Err GlobalConnectRate).

Definition byte_cap_per_ip : Test :=
  let g := LimitState_new (unlimited_with [FBytes 10 (from_secs 3600)]) 0 in
  let '(r, g) := add_bytes g (ip 1) 7 0 0 in let! _ := unwrap r in
  let '(r, g) := add_bytes g (ip 1) 3 0 0 in let! _ := unwrap r in
  let '(r, g) := add_bytes g (ip 1) 1 0 0 in
  assert_eq r (Err ByteCap);;
  let '(r, g) := add_bytes g (ip 2) 10 0 0 in
  assert (is_ok r).

Definition ipv6_same_slash64_shares_budget : Test :=
  let g := LimitState_new (unlimited_with [FPerIp 1; FIpv6Prefix 64]) 0 in
  let '(r, g) := acquire g (v6 1) imap 0 in let! _ := unwrap r in
  let '(r, g) := acquire g (v6 2) imap 0 in
  assert_eq r (Err PerIpFull);;
  let '(r, g) := acquire g (V6 (v6_new 0x2001 0x0db8 1 0 0 0 0 1)) imap 0 in
  assert (is_ok r).

Definition ipv4_prefix_can_aggregate_slash24 : Test :=
  let window := connects_per_ip_window LimitsConfig_unlimited in
  let g := LimitState_new (unlimited_with [FConnects 1 window; FIpv4Prefix 24]) 0 in
  let '(r, g) := record_attempt g (ip 1) (lit "a:993") 0 in let! _ := unwrap r in
  let '(r, g) := record_attempt g (ip 99) (lit "a:993") 0 in
  assert_eq r (Err ConnectRate);;
  let '(r, g) := record_attempt g (V4 (v4_new 198 51 100 1)) (lit "a:993") 0 in
  assert (is_ok r).

Definition idle_attempt_rows_are_garbage_collected : Test :=
  let window := from_millis 40 in
  let g := LimitState_new (unlimited_with [FConnects 8 window; FDestsWindow window]) 0 in
  let '(r, g) := record_attempt g (ip 1) (lit "a:993") 0 in let! _ := unwrap r in
  assert_eq (tracked_ip_count g) 1;;
  let g := gc_idle g (from_millis 50) in
  assert_eq (tracked_ip_count g) 0.

Definition tracked_ip_cap_rejects_new_prefixes : Test :=
  let g := LimitState_new (unlimited_with [FTracked 2]) 0 in
  let '(r, g) := record_attempt g (ip 1) (lit "a:993") 0 in let! _ := unwrap r in
  let '(r, g) := record_attempt g (V4 (v4_new 198 51 100 1)) (lit "a:993") 0 in
  let! _ := unwrap r in
  let '(r, g) := record_attempt g (V4 (v4_new 192 0 2 1)) (lit "a:993") 0 in
  assert_eq r (Err GlobalConnectRate).

Definition rate_window_expires : Test :=
  let g := LimitState_new (unlimited_with [FConnects 1 (from_millis 40)]) 0 in
  let '(r, g) := record_attempt g (ip 1) (lit "a:993") 0 in let! _ := unwrap r in
  let '(r, g) := record_attempt g (ip 1) (lit "a:993") 0 in
  assert_eq r (Err ConnectRate);;
  let '(r, g) := record_attempt g (ip 1) (lit "a:993") (from_millis 50) in
  assert (is_ok r).

Definition all : list Test :=
  [per_ip_concurrent_cap; global_and_per_dest_caps; connect_rate_per_ip; distinct_dests_per_ip;
   global_connect_rate; byte_cap_per_ip; ipv6_same_slash64_shares_budget;
   ipv4_prefix_can_aggregate_slash24; idle_attempt_rows_are_garbage_collected;
   tracked_ip_cap_rejects_new_prefixes; rate_window_expires].

End limits_tests.

(** ** [server.rs]: the helpers *)

Module server_tests.

(** [HeaderMap::new()], and [insert], which replaces. *)
Definition HeaderMap_new : Headers := λ _, None.
Definition insert_header (headers : Headers) (name value : str) : Headers :=
  λ n, if bool_decide (n = name) then Some value else headers n.

Definition header (name value : str) : Headers := insert_header HeaderMap_new name value.

(** ["a.b.c.d:9".parse::<SocketAddr>().unwrap()] *)
Definition peer_at (s : str) : outcome unit SocketAddr :=
  let! ip := parse_ip s in Ret (SockAddr ip 9).

Definition client_ip_prefers_cf_when_trusted : Test :=
  let headers := header (lit "cf-connecting-ip") (lit "203.0.113.9") in
  let! peer := peer_at (lit "127.0.0.1") in
  let! loopback := unwrap_some (Cidr_parse (lit "127.0.0.1/32")) in
  assert_eq (show_ip (client_ip headers peer true [loopback])) (lit "203.0.113.9");;
  assert_eq (show_ip (client_ip headers peer true [])) (lit "127.0.0.1");;
  assert_eq (show_ip (client_ip headers peer false [loopback])) (lit "127.0.0.1");;
  let! other := unwrap_some (Cidr_parse (lit "10.0.0.0/8")) in
  assert_eq (show_ip (client_ip headers peer true [other])) (lit "127.0.0.1").

Definition client_ip_uses_x_forwarded_for_when_trusted : Test :=
  let headers := header (lit "x-forwarded-for") (lit "203.0.113.50, 10.1.2.3") in
  let! peer := peer_at (lit "10.0.0.2") in
  let! mesh := unwrap_some (Cidr_parse (lit "10.0.0.0/8")) in
  assert_eq (show_ip (client_ip headers peer true [mesh])) (lit "203.0.113.50");;
  assert_eq (show_ip (client_ip headers peer false [mesh])) (lit "10.0.0.2").

Definition token_eq_is_length_aware : Test :=
  assert (token_eq (lit "abc") (lit "abc"));;
  assert (negb (token_eq (lit "abc") (lit "abd")));;
  assert (negb (token_eq (lit "abc") (lit "ab")));;
  assert (negb (token_eq (lit "abc") (lit "abcd"))).

Definition bearer_token_parses_authorization : Test :=
  let headers := header (lit "authorization") (lit "Bearer s3cret") in
  assert_eq (bearer_token headers) (Some (lit "s3cret"));;
  let headers := insert_header headers (lit "authorization") (lit "bearer  also") in
  assert_eq (bearer_token headers) (Some (lit "also"));;
  assert_eq (bearer_token HeaderMap_new) None.

Definition protocol_token_accepts_bearer_and_paseto : Test :=
  let name := lit "sec-websocket-protocol" in
  let headers := header name (lit "bearer.v4.local.abc") in
  assert_eq (protocol_token headers) (Some (lit "v4.local.abc"));;
  let headers := insert_header headers name (lit "v4.local.xyz") in
  assert_eq (protocol_token headers) (Some (lit "v4.local.xyz"));;
  let headers := insert_header headers name (lit "chat, superchat") in
  assert_eq (protocol_token headers) None.

Definition origin_allowlist_rejects_foreign_browser : Test :=
  let allowed := {[lit "https://app.mailiner.net"]} in
  let headers := header (lit "origin") (lit "https://evil.example") in
  assert (negb (origin_allowed headers allowed));;
  let headers := insert_header headers (lit "origin") (lit "https://app.mailiner.net") in
  assert (origin_allowed headers allowed);;
  assert (origin_allowed HeaderMap_new allowed);;
  let headers := insert_header headers (lit "origin") (lit "https://evil.example") in
  assert (origin_allowed headers {[lit "*"]}).

Definition host_allowlist_matches_with_or_without_port : Test :=
  let allowed := {[lit "proxy.example.com"]} in
  let headers := header (lit "host") (lit "proxy.example.com:9400") in
  assert (host_allowed headers allowed);;
  let headers := insert_header headers (lit "host") (lit "evil.example") in
  assert (negb (host_allowed headers allowed));;
  assert (negb (host_allowed HeaderMap_new allowed));;
  assert (host_allowed HeaderMap_new ∅).

Definition all : list Test :=
  [client_ip_prefers_cf_when_trusted; client_ip_uses_x_forwarded_for_when_trusted;
   token_eq_is_length_aware; bearer_token_parses_authorization;
   protocol_token_accepts_bearer_and_paseto; origin_allowlist_rejects_foreign_browser;
   host_allowlist_matches_with_or_without_port].

End server_tests.

(** Every unit test of the repository passes on the model. *)
Definition unit_tests : list Test :=
  dest_tests.all ++ proto_tests.all ++ config_tests.all ++ limits_tests.all ++ server_tests.all.
