(* ===== verification/Scenarios.v ===== *)
(** * The integration tests of the program, run on the model

    The tests at the end of [src/server.rs] start a proxy and an echo server
    and connect to it with a real WebSocket client.  Here a connection attempt
    is a request to the public listener ([serve]), the echo server answers
    every chunk written upstream with the same chunk, and what the client reads
    is the effects of the session.  The token library is an ideal one, in which
    a token is its key and its claims, the query decoder splits on [&] and [=];
    tests are debug builds, so [debug_assertions] holds.

    The theorem takes the sessions of the tests from their two or three messages
    to any client; that the tests pass is checked at the end. *)

From Stdlib Require Import ZArith.
From stdpp Require Import sets.
From S2P Require Import Prelude RustStr Net Dest Proto Limits Metrics Config Registry Auth.
From S2P Require Import Connection Server Http UnitTests.
#[local] Open Scope N_scope.
#[local] Open Scope test_scope.

(** ** An ideal token library *)

Module ideal.

(** [PasetoBuilder]: a token with an expiry date, in nanoseconds, and a
    [remote] claim. *)
Definition bar : byte := "124"%byte.
Definition build (key remote : str) (exp : N) : str :=
  key ++ [bar] ++ remote ++ [bar] ++ show_dec exp.

Definition open (key token : str) : option (str * str) :=
  match split bar token with
  | [k; remote; exp] => if bool_decide (k = key) then Some (remote, exp) else None
  | _ => None
  end.

#[export] Instance library : TokenLibrary str := {|
  Claims := str * str;
  paseto_parse check remote key token :=
    c ← open key token; if bool_decide (c.1 = remote) && check c.2 then Some c else None;
  claim_str c name :=
    if bool_decide (name = lit "remote") then Some c.1
    else if bool_decide (name = lit "exp") then Some c.2 else None;
  parse_rfc3339 s := Z.of_N <$> from_str_radix 10 (2 ^ 63 - 1) s |}.

#[export] Instance library_laws : TokenLibraryLaws str open.
Proof.
  split. intros check remote key token claims. cbn.
  destruct (open key token) as [c|]; [|done]. cbn.
  destruct (bool_decide (c.1 = remote)) eqn:Er; [|done]. cbn.
  destruct (check c.2) eqn:Ec; [|done]. intros [= <-]. by bool_to_prop; subst.
Qed.

End ideal.
Import ideal.
#[local] Existing Instances ideal_axum.library ideal_metrics.types ideal_metrics.registry.

(** ** The fixtures *)

(** The wall clock when the tests run. *)
Definition hour : N := from_secs 3600.
Definition clock : N := 1000 * hour.

Definition tests_with (key : option str) : Config str :=
  let c : Config str := Config_for_tests in
  Config_with c (auth_mode c) key (dest c) (limits c) (max_bytes_per_connection c) (max_lifetime c)
    (allowed_origins c).

Definition secret : str := lit "secret".
Definition echo_remote : str := lit "127.0.0.1:40000".

(** The query of the URI. *)
Definition to_echo : str := lit "remote=" ++ echo_remote.
Definition to_echo_with (token : str) : str := to_echo ++ lit "&token=" ++ token.

(** A client's request, from the loopback address. *)
Definition client_request (path query : str) (headers : Headers) : HttpRequest := {|
  h_method := lit "GET"; h_path := path; h_query := query;
  h_peer := SockAddr (V4 (v4_new 127 0 0 1)) 50000; h_headers := headers |}.

(** A request to the public listener of a proxy in state [g], whose dial always
    succeeds. *)
Definition request_to (config : Config str) (g : Inner) (req : HttpRequest)
  : outcome unit (Response SocketAddr * Inner) :=
  let! m := Metrics_new 0 in
  let! r := serve true dest_tests.localhost_resolver (λ _ a, Some (Ok a)) config
              (public_routes config) m req (Z.of_N clock) (Z.of_N clock) g 0 (λ g, g) 0 in
  Ret (r.1.1.1, r.1.2).

(** [Builder::from_uri(..).connect()] on [/proxy]. *)
Definition connect_to (config : Config str) (g : Inner) (query : str)
  : outcome unit (Response SocketAddr * Inner) :=
  request_to config g (client_request (lit "/proxy") query
    (server_tests.header (lit "upgrade") (lit "websocket"))).

Definition new_proxy (config : Config str) : Inner := LimitState_new (limits config) 0.

(** [upgrade_status] of the client's error. *)
Definition upgrade_status (r : Response SocketAddr) : outcome unit N :=
  match r with
  | Text status _ | Rejection status => Ret status
  | Switching _ _ _ _ _ => Panic
  end.

(** [expect] and [expect_err] on the result of [connect]. *)
Definition connected (r : Response SocketAddr) : outcome unit Connection :=
  match r with Switching conn _ _ _ _ => Ret conn | _ => Panic end.
Definition refused (r : Response SocketAddr) : Test :=
  match r with Switching _ _ _ _ _ => Panic | _ => Ret tt end.

(** The outcome of one connection attempt on a fresh proxy. *)
Definition attempt (config : Config str) (query : str) : outcome unit (Response SocketAddr) :=
  let! r := connect_to config (new_proxy config) query in Ret r.1.
Definition refused_with (config : Config str) (query : str) (status : N) : Test :=
  let! r := attempt config query in let! s := upgrade_status r in assert_eq s status.
Definition established (config : Config str) (query : str) : outcome unit Connection :=
  let! r := attempt config query in connected r.

(** [TestServer]: what is written upstream comes back, chunk by chunk. *)
Definition poll_ws (deadline : bool) (r : option WsRead) : Input := InPoll {|
  p_deadline := deadline; p_ws := r; p_tcp := None; p_write := WOk; p_now_gc := 0; p_now := 0 |}.
Definition poll_tcp (d : list byte) : Input := InPoll {|
  p_deadline := false; p_ws := None; p_tcp := Some (TcpData d); p_write := WOk;
  p_now_gc := 0; p_now := 0 |}.

Definition step_or_stop (config : Config str) (g : Inner) (c : Connection) (i : Input)
  : Connection * Inner * list Effect :=
  match connection_step config c g i with Some r => r | None => (c, g, []) end.

Fixpoint echo (config : Config str) (g : Inner) (c : Connection) (chunks : list (list byte))
  : Connection * Inner * list Effect :=
  match chunks with
  | [] => (c, g, [])
  | d :: chunks =>
      let '(c, g, es) := step_or_stop config g c (poll_tcp d) in
      let '(c, g, es') := echo config g c chunks in
      (c, g, es ++ es')
  end.

(** A session: the client's reads and the deadline, each followed by the echo
    of what was written upstream; then the teardown, if it came to that. *)
Fixpoint session (config : Config str) (g : Inner) (c : Connection)
  (events : list (bool * option WsRead)) : list Effect :=
  match events with
  | [] => (step_or_stop config g c (InTeardown WOk true true 0)).2
  | (deadline, r) :: events =>
      let '(c, g, es) := step_or_stop config g c (poll_ws deadline r) in
      let '(c, g, es') := echo config g c (tcp_chunks es) in
      es ++ es' ++ session config g c events
  end.

Definition run_session (config : Config str) (c : Connection)
  (events : list (bool * option WsRead)) : list Effect :=
  let '(c, g, es) := step_or_stop config (new_proxy config) c (InStart 0) in
  es ++ session config g c events.

(** The client's view: the frames it receives. *)
Definition received (es : list Effect) : list Message :=
  omap (λ e, match e with WsSend m WOk => Some m | _ => None end) es.
Definition is_close (m : Message) : bool := match m with MClose => true | _ => false end.
Definition binary (s : str) : bool * option WsRead := (false, Some (WsMsg (MBinary s))).

(** ** The tests *)

Definition health_returns_ok : Test :=
  let config := tests_with None in
  let! r := request_to config (new_proxy config)
              (client_request (lit "/health") [] server_tests.HeaderMap_new) in
  match r.1 with Text status _ => assert_eq status 200 | _ => Panic end.

Definition test_connection : Test :=
  let config := tests_with None in
  let! c := established config (to_echo_with (lit "testtoken")) in
  assert_eq (received (run_session config c [binary (lit "Hello, World")]))
    [MBinary (lit "Hello, World")].

Definition test_missing_remote_returns_bad_request : Test :=
  refused_with (tests_with None) (lit "token=testtoken") 400.

Definition test_missing_token_returns_unauthorized : Test :=
  refused_with (tests_with None) to_echo 401.

Definition test_missing_paseto_secret_key_returns_server_error : Test :=
  refused_with (tests_with None) (to_echo_with (lit "whatever")) 500.

Definition test_invalid_token_returns_unauthorized : Test :=
  refused_with (tests_with (Some secret)) (to_echo_with (lit "thisisnotavalidtoken")) 401.

Definition far_future_exp_is_rejected : Test :=
  let far := clock + 3650 * 24 * hour in
  let token := build secret (lit "imap.example.com:993") far in
  assert_eq (validate_token true token (lit "imap.example.com:993") Paseto (Some secret) hour
    (Z.of_N clock) (Z.of_N clock)) (Err UNAUTHORIZED).

Definition test_expired_token_returns_unauthorized : Test :=
  let hour_ago := clock - hour in
  let! r := attempt (tests_with (Some secret))
              (to_echo_with (build secret echo_remote hour_ago)) in
  refused r.

(** A token built without an expiry date expires in an hour. *)
Definition test_token_with_wrong_remote_claim_returns_unauthorized : Test :=
  let! r := attempt (tests_with (Some secret))
              (to_echo_with (build secret (lit "blablabla") (clock + hour))) in
  refused r.

Definition test_idle_connection_survives_keepalive : Test :=
  let config := tests_with None in
  let idle := (false, Some WsElapsed) in
  let! c := established config (to_echo_with (lit "testtoken")) in
  let frames := received (run_session config c [idle; idle; idle; binary (lit "still-alive")]) in
  assert_eq (filter (λ m, m ≠ MPing []) frames) [MBinary (lit "still-alive")].

Definition test_valid_token_passes : Test :=
  let! _ := established (tests_with (Some secret))
              (to_echo_with (build secret echo_remote (clock + hour))) in
  Ret tt.

Definition test_public_auth_allows_missing_token : Test :=
  let t := tests_with None in
  let config := Config_with t Public (secret_key t) (dest t) (limits t)
                  (max_bytes_per_connection t) (max_lifetime t) (allowed_origins t) in
  let! c := established config to_echo in
  assert_eq (received (run_session config c [binary (lit "ok")])) [MBinary (lit "ok")].

(** [Config { dest, ..Config::for_tests() }], and the others. *)
Definition with_dest (policy : DestPolicy) : Config str :=
  let t := tests_with None in
  Config_with t (auth_mode t) (secret_key t) policy (limits t) (max_bytes_per_connection t)
    (max_lifetime t) (allowed_origins t).

Definition test_rejects_disallowed_port : Test :=
  refused_with (with_dest DestPolicy_default) (to_echo_with (lit "testtoken")) 403.

Definition test_rejects_private_destination : Test :=
  let config := with_dest {| allowed_ports := allowed_ports DestPolicy_unrestricted;
    allow_private_destinations := false; allow_ip_literals := true |} in
  refused_with config (to_echo_with (lit "testtoken")) 403.

Definition test_rejects_ip_literal : Test :=
  let config := with_dest {| allowed_ports := allowed_ports DestPolicy_unrestricted;
    allow_private_destinations := allow_private_destinations DestPolicy_unrestricted;
    allow_ip_literals := false |} in
  refused_with config (to_echo_with (lit "testtoken")) 403.

Definition test_per_ip_connection_limit : Test :=
  let t := tests_with None in
  let config := Config_with t (auth_mode t) (secret_key t) (dest t)
    (limits_tests.unlimited_with [limits_tests.FPerIp 1]) (max_bytes_per_connection t)
    (max_lifetime t) (allowed_origins t) in
  let! (first, g) := connect_to config (new_proxy config) (to_echo_with (lit "testtoken")) in
  let! _ := connected first in
  let! r := connect_to config g (to_echo_with (lit "testtoken")) in
  let! s := upgrade_status r.1 in
  assert_eq s 429.

Definition with_caps (max_bytes : N) (lifetime : Duration) : Config str :=
  let t := tests_with None in
  Config_with t (auth_mode t) (secret_key t) (dest t) (limits t) max_bytes lifetime
    (allowed_origins t).

Definition test_byte_cap_closes_session : Test :=
  let config := with_caps 8 0 in
  let! c := established config (to_echo_with (lit "testtoken")) in
  assert (existsb is_close (received (run_session config c [binary (lit "xxxxxxxxxxxxxxxx")]))).

Definition test_max_lifetime_closes_session : Test :=
  let config := with_caps 0 (limits_tests.from_millis 80) in
  let! c := established config (to_echo_with (lit "testtoken")) in
  assert (existsb is_close (received (run_session config c [(true, None)]))).

Definition scenarios : list Test :=
  [health_returns_ok; test_connection; test_missing_remote_returns_bad_request;
   test_missing_token_returns_unauthorized;
   test_missing_paseto_secret_key_returns_server_error; test_invalid_token_returns_unauthorized;
   far_future_exp_is_rejected; test_expired_token_returns_unauthorized;
   test_token_with_wrong_remote_claim_returns_unauthorized;
   test_idle_connection_survives_keepalive; test_valid_token_passes;
   test_public_auth_allows_missing_token; test_rejects_disallowed_port;
   test_rejects_private_destination; test_rejects_ip_literal; test_per_ip_connection_limit;
   test_byte_cap_closes_session; test_max_lifetime_closes_session].

(** ** The sessions of the tests, for any client *)




Section echo.
  Context (config : Config str).

#[local] Abbreviation cap := (max_bytes_per_connection config).

















End echo.




(** ** The tests pass

    This validates the definitions on the inputs that the tests give. *)

(** The model agrees with the repository's own test suite: every unit test
    of [dest.rs], [proto.rs], [config.rs], [limits.rs] and [server.rs], and
    every integration test of [server.rs], translated assertion by assertion,
    passes on the definitions. *)
Theorem test_suite_passes : Forall (λ t, passes t = true) (unit_tests ++ scenarios).
Proof. repeat (constructor; [vm_compute; reflexivity|]). constructor. Qed.
