(* ===== verification/System.v ===== *)
(** * The proxy as a whole

    A pool of tasks over one shared state of the limits.  A task is a request
    that awaits its resolution and dial, one that awaits the WebSocket
    handshake, or a connection that runs.  A step is any task's code from one
    await to the next, built from the same functions as [proxy_handler] and
    [Connection::run]; the relation therefore contains every interleaving that
    the runtime can produce.

    The system is shown to refine the worlds of [LimitsSpec], so that what is
    proved there of every interleaving of calls on the limits holds of the
    program; the traces that the tasks carry transport what [Connection]
    proves of one connection. *)

From Stdlib Require Import ZArith.
From stdpp Require Import sets.
From S2P Require Import Prelude RustStr Net Dest Proto Limits LimitsSpec Metrics.
From S2P Require Import Config Auth Connection Server.
#[local] Open Scope N_scope.

(** A connection comes with the inputs it took and the effects it had since
    its upgrade, from the request that made it. *)
Inductive Task :=
| TDial (request : Request) (client : IpAddr) (remote : Remote)
| TUpgrade (request : Request) (client : IpAddr) (remote : Remote) (lease : ConnectionLease)
| TRun (request : Request) (client : IpAddr) (remote : Remote) (lease : ConnectionLease)
    (ins : list Input) (es : list Effect) (c : Connection).

Definition task_lease (t : Task) : option ConnectionLease :=
  match t with
  | TDial _ _ _ => None
  | TUpgrade _ _ _ lease => Some lease
  | TRun _ _ _ _ _ _ c => c_lease c
  end.

(** [s_dialled] lists the addresses dialled so far, [s_history] the attempts
    and the charges that the limits accepted, and [s_log] the calls made on the
    metrics. *)
Record Sys := {
  s_limits : Inner;
  s_tasks : list Task;
  s_history : list Event;
  s_dialled : list SocketAddr;
  s_log : list MetricOp;
  s_now : Instant;
}.

(** The leases that live tasks own. *)
Definition sys_leases (s : Sys) : list ConnectionLease := omap task_lease (s_tasks s).

(** The clock readings of a connection's step. *)
Definition input_times (i : Input) (last : Instant) : Instant * Instant :=
  match i with
  | InPoll p => (p_now_gc p, p_now p)
  | InStart now | InTeardown _ _ _ now | InAbort _ _ now => (now, now)
  | InProbeWs _ _ | InProbeTcp _ _ => (last, last)
  end.

(** The cases of [sys_step], with their hypotheses named. *)
Ltac step_cases :=
  intros [request t1 t2 reply log Hg
    |request t1 t2 client remote now g Hpeer Hn Hg E
    |request t1 t2 client remote now e g Hpeer Hn Hg E
    |ts1 request client remote ts2 lookup e Hs Hl Hr
    |ts1 request client remote ts2 lookup connect addrs dialled e Hs Hl Hr Hc
    |ts1 request client remote ts2 lookup connect addrs dialled tcp now conn mm mf p log lease g
       Hn Hlen Hs Hl Hr Hc Hf Hlease
    |ts1 request client remote ts2 lookup connect addrs dialled tcp now status reason msg log g
       Hn Hlen Hs Hl Hr Hc Hf
    |ts1 request client remote ts2 lookup connect addrs dialled Hs Hl Hr Hc
    |ts1 request client remote lease ts2 now Hn Hs|ts1 request client remote lease ts2 Hs
    |ts1 request client remote lease ins es c ts2 i c' g es' H1 H2 Hs Hst].

Section system.
  Context {PasetoKey TcpStream : Type} `{L : TokenLibrary PasetoKey} (debug_assertions : bool)
    (config : Config PasetoKey).

(** The bytes that a step of a connection submits to the limits. *)
Definition step_charge (c : Connection) (i : Input) : N :=
  match c_phase c with
  | PRelay n =>
      let taken := match taken_ws config i with Some d => Some d | None => taken_tcp config i end in
      match taken with
      | Some d => if over_conn_bytes config (sat_add64 n (lenN d)) then 0 else lenN d
      | None => 0
      end
  | _ => 0
  end.

(** The attempt of a client, and the charge of a step if it is accepted. *)
Definition attempted (g : Inner) (client : IpAddr) (remote : Remote) (now : Instant) : Event :=
  Attempted now (limit_key client (ipv4_prefix (g_cfg g)) (ipv6_prefix (g_cfg g)))
    (dest_key remote).
Definition step_events (c : Connection) (g : Inner) (i : Input) (last : Instant) : list Event :=
  let n := step_charge c i in
  let '(now_gc, now) := input_times i last in
  if is_ok (add_bytes g (c_client_ip c) n now_gc now).1 && charged (g_cfg g) n
  then [Transferred now
          (limit_key (c_client_ip c) (ipv4_prefix (g_cfg g)) (ipv6_prefix (g_cfg g))) n]
  else [].

#[local] Abbreviation gates := (proxy_gates (TcpStream:=TcpStream) debug_assertions).
#[local] Abbreviation ok_request := (request_ok debug_assertions).

Inductive sys_step (s : Sys) : Sys → Prop :=
(** A request is refused before the limits are asked. *)
| sys_refused request t1 t2 reply log :
    gates config request t1 t2 = Err (reply, log) →
    sys_step s {| s_limits := s_limits s; s_tasks := s_tasks s; s_history := s_history s;
                  s_dialled := s_dialled s; s_log := s_log s ++ log; s_now := s_now s |}
(** A request passes the gates and is counted: it goes on to resolve and dial. *)
| sys_admitted request t1 t2 client remote now g :
    wf_ip (sa_ip (r_peer request)) →
    s_now s <= now →
    gates config request t1 t2 = Ok (client, remote) →
    record_attempt (s_limits s) client (dest_key remote) now = (Ok tt, g) →
    sys_step s {| s_limits := g; s_tasks := TDial request client remote :: s_tasks s;
                  s_history := s_history s ++ [attempted (s_limits s) client remote now];
                  s_dialled := s_dialled s;
                  s_log := s_log s; s_now := now |}
(** A request passes the gates and exceeds a rate. *)
| sys_limited request t1 t2 client remote now e g :
    wf_ip (sa_ip (r_peer request)) →
    s_now s <= now →
    gates config request t1 t2 = Ok (client, remote) →
    record_attempt (s_limits s) client (dest_key remote) now = (Err e, g) →
    sys_step s {| s_limits := g; s_tasks := s_tasks s; s_history := s_history s;
                  s_dialled := s_dialled s;
                  s_log := s_log s ++ (reject_limit (TcpStream:=TcpStream) e).2; s_now := now |}
(** The resolution fails. *)
| sys_unresolved ts1 request client remote ts2 lookup e :
    s_tasks s = ts1 ++ TDial request client remote :: ts2 → resolver_ok lookup →
    resolve_filtered lookup remote (dest config) = Err e →
    sys_step s {| s_limits := s_limits s; s_tasks := ts1 ++ ts2;
                  s_history := s_history s; s_dialled := s_dialled s;
                  s_log := s_log s ++ (reject_dest (TcpStream:=TcpStream) e).2; s_now := s_now s |}
(** Every connect fails. *)
| sys_dial_failed ts1 request client remote ts2 lookup connect addrs dialled e :
    s_tasks s = ts1 ++ TDial request client remote :: ts2 → resolver_ok lookup →
    resolve_filtered lookup remote (dest config) = Ok addrs →
    connect_addrs (TcpStream:=TcpStream) connect addrs = (dialled, Err e) →
    sys_step s {| s_limits := s_limits s; s_tasks := ts1 ++ ts2;
                  s_history := s_history s; s_dialled := s_dialled s ++ dialled;
                  s_log := s_log s ++ (reject_dest (TcpStream:=TcpStream) e).2; s_now := s_now s |}
(** A connect succeeds and a slot is free. *)
| sys_upgrading ts1 request client remote ts2 lookup connect addrs dialled tcp now conn
    max_message max_frame protocol log lease g :
    s_now s <= now → lenN (sys_leases s) < U64_MAX →
    s_tasks s = ts1 ++ TDial request client remote :: ts2 → resolver_ok lookup →
    resolve_filtered lookup remote (dest config) = Ok addrs →
    connect_addrs connect addrs = (dialled, Ok tcp) →
    proxy_finish (TcpStream:=TcpStream) config request (s_limits s) client remote tcp now
      = (Upgrade conn tcp max_message max_frame protocol, log, g) →
    c_lease conn = Some lease →
    sys_step s {| s_limits := g; s_tasks := TUpgrade request client remote lease :: ts1 ++ ts2;
                  s_history := s_history s; s_dialled := s_dialled s ++ dialled;
                  s_log := s_log s ++ log; s_now := now |}
(** ... or none is. *)
| sys_full ts1 request client remote ts2 lookup connect addrs dialled tcp now status reason msg
    log g :
    s_now s <= now → lenN (sys_leases s) < U64_MAX →
    s_tasks s = ts1 ++ TDial request client remote :: ts2 → resolver_ok lookup →
    resolve_filtered lookup remote (dest config) = Ok addrs →
    connect_addrs connect addrs = (dialled, Ok tcp) →
    proxy_finish (TcpStream:=TcpStream) config request (s_limits s) client remote tcp now
      = (Rejected status reason msg, log, g) →
    sys_step s {| s_limits := g; s_tasks := ts1 ++ ts2;
                  s_history := s_history s; s_dialled := s_dialled s ++ dialled;
                  s_log := s_log s ++ log; s_now := now |}
(** The client goes away: the handler is dropped at one of its awaits, with
    some of the addresses dialled. *)
| sys_cancelled ts1 request client remote ts2 lookup connect addrs dialled :
    s_tasks s = ts1 ++ TDial request client remote :: ts2 → resolver_ok lookup →
    resolve_filtered lookup remote (dest config) = Ok addrs →
    dialled `prefix_of` (connect_addrs (TcpStream:=TcpStream) connect addrs).1 →
    sys_step s {| s_limits := s_limits s; s_tasks := ts1 ++ ts2;
                  s_history := s_history s; s_dialled := s_dialled s ++ dialled;
                  s_log := s_log s; s_now := s_now s |}
(** The handshake fails, or completes. *)
| sys_upgrade_failed ts1 request client remote lease ts2 now :
    s_now s <= now →
    s_tasks s = ts1 ++ TUpgrade request client remote lease :: ts2 →
    sys_step s {| s_limits := (failed_upgrade (s_limits s) lease now).2; s_tasks := ts1 ++ ts2;
                  s_history := s_history s; s_dialled := s_dialled s;
                  s_log := s_log s ++ (failed_upgrade (s_limits s) lease now).1; s_now := now |}
| sys_upgraded ts1 request client remote lease ts2 :
    s_tasks s = ts1 ++ TUpgrade request client remote lease :: ts2 →
    sys_step s {| s_limits := s_limits s;
                  s_tasks := ts1 ++ TRun request client remote lease [] []
                               (Connection_new remote client lease) :: ts2;
                  s_history := s_history s; s_dialled := s_dialled s;
                  s_log := s_log s; s_now := s_now s |}
(** A connection advances. *)
| sys_connection ts1 request client remote lease ins es c ts2 i c' g es' :
    s_now s <= (input_times i (s_now s)).1 →
    (input_times i (s_now s)).1 <= (input_times i (s_now s)).2 →
    s_tasks s = ts1 ++ TRun request client remote lease ins es c :: ts2 →
    connection_step config c (s_limits s) i = Some (c', g, es') →
    sys_step s {| s_limits := g;
                  s_tasks := ts1 ++ TRun request client remote lease (ins ++ [i]) (es ++ es') c'
                               :: ts2;
                  s_history := s_history s ++ step_events c (s_limits s) i (s_now s);
                  s_dialled := s_dialled s;
                  s_log := s_log s ++ metrics_of es'; s_now := (input_times i (s_now s)).2 |}.

Definition sys_new (now : Instant) : Sys :=
  {| s_limits := LimitState_new (limits config) now; s_tasks := []; s_history := [];
     s_dialled := []; s_log := []; s_now := now |}.

Definition sys_reachable (s : Sys) : Prop := ∃ now, rtc sys_step (sys_new now) s.

(** What every task of a reachable system satisfies. *)
Definition task_ok (t : Task) : Prop :=
  match t with
  | TDial request client remote | TUpgrade request client remote _ =>
      client = request_client config request ∧ ∃ t1 t2, ok_request config request t1 t2 remote
  | TRun request client remote lease ins es c =>
      client = request_client config request
      ∧ (∃ t1 t2, ok_request config request t1 t2 remote)
      ∧ trace config (Connection_new remote client lease) ins es c
  end.

(** Dialled addresses comply with the policy. *)
Definition dialled_ok (a : SocketAddr) : Prop :=
  wf_ip (sa_ip a) ∧ port_allowed (dest config) (sa_port a) = true ∧ 1 <= sa_port a < 2 ^ 16
  ∧ (allow_private_destinations (dest config) = true ∨ global_spec (sa_ip a)).

(** The system as a world of [LimitsSpec]. *)
Definition sys_world (s : Sys) : World :=
  {| w_limits := s_limits s; w_leases := sys_leases s; w_history := s_history s;
     w_now := s_now s |}.

(** ** Lemmas *)

Lemma app_if_nil {A} (b : bool) (h l : list A) :
  h ++ (if b then l else []) = if b then h ++ l else h.
Proof. destruct b; [done|apply app_nil_r]. Qed.

Lemma leases_app ts ts' : omap task_lease (ts ++ ts') = omap task_lease ts ++ omap task_lease ts'.
Proof. apply omap_app. Qed.

(** What a connection's step does to the limits: it submits its bytes, none of
    them possibly, or drops the lease. *)
Inductive limits_effect (c c' : Connection) (g g' : Inner) (i : Input) (last : Instant) : Prop :=
| le_charge r :
    add_bytes g (c_client_ip c) (step_charge c i) (input_times i last).1 (input_times i last).2
      = (r, g') →
    c_lease c' = c_lease c → limits_effect c c' g g' i last
| le_drop lease :
    c_lease c = Some lease → c_lease c' = None → step_charge c i = 0 →
    g' = drop_lease g lease (input_times i last).2 → limits_effect c c' g g' i last.

Lemma forward_effect c g n d t1 t2 write ph g' es :
  forward config c g n d t1 t2 write = (ph, g', es) →
  g' = (add_bytes g (c_client_ip c)
          (if over_conn_bytes config (sat_add64 n (lenN d)) then 0 else lenN d) t1 t2).2.
Proof.
  unfold forward, account_bytes. cbv zeta.
  destruct (over_conn_bytes _ _); [by intros [= _ <- _]|].
  destruct (N.eqb_spec (lenN d) 0) as [->|]; [by intros [= _ <- _]|].
  by destruct (add_bytes g (c_client_ip c) (lenN d) t1 t2) as [[[]|e] g1]; intros [= _ <- _].
Qed.

Lemma relay_effect c g n p ph g' es :
  c_phase c = PRelay n → relay_step config c g n p = (ph, g', es) →
  g' = (add_bytes g (c_client_ip c) (step_charge c (InPoll p)) (p_now_gc p) (p_now p)).2.
Proof.
  unfold step_charge, relay_step, taken_ws, taken_tcp. intros ->. cbv zeta.
  destruct (_ && _); [by intros [= _ <- _]|].
  destruct (p_ws p) as [[[d|d|d|d|]| | |]|]; cbn [relay_ws payload];
    try (by intros [= _ <- _]); try (by apply forward_effect).
  - destruct (send_ws (MPong d) (p_write p)). by intros [= _ <- _].
  - destruct (send_ws (MPing []) (p_write p)). by intros [= _ <- _].
  - destruct (p_tcp p) as [[d| |]|]; cbn [relay_tcp]; try (by intros [= _ <- _]).
    destruct (lenN d =? 0); [by intros [= _ <- _]|by apply forward_effect].
Qed.

(** A step that submits nothing. *)
Lemma le_none c c' g i last :
  step_charge c i = 0 → c_lease c' = c_lease c → limits_effect c c' g g i last.
Proof. intros E El. apply (le_charge _ _ _ _ _ _ (Ok tt)); [by rewrite E|done]. Qed.

Lemma take_lease_effect c g now i last c' g' es :
  (input_times i last).2 = now → step_charge c i = 0 → take_lease c g now = (c', g', es) →
  limits_effect c c' g g' i last.
Proof.
  unfold take_lease. intros <- H0. destruct (c_lease c) as [lease|] eqn:E; intros [= <- <- <-].
  - by apply (le_drop _ _ _ _ _ _ lease).
  - by apply le_none.
Qed.

Lemma connection_effect c g i c' g' es last :
  connection_step config c g i = Some (c', g', es) → limits_effect c c' g g' i last.
Proof.
  assert (H0 : (∀ n, c_phase c ≠ PRelay n) → step_charge c i = 0).
  { intros H. unfold step_charge. destruct (c_phase c); try done. by destruct (H conn_bytes). }
  unfold connection_step, teardown, abort. destruct (c_phase c) eqn:Eph, i; try done; cbv zeta.
  - destruct (negb (c_tcp c)).
    + destruct (take_lease c g now) as [[c1 g1] es1] eqn:E. intros [= <- <- _].
      eapply take_lease_effect; [done|by apply H0|done].
    + destruct (run_start config c). intros [= <- <- _]. apply le_none; [by apply H0|done].
  - destruct (after_probe _ _). intros [= <- <- _]. apply le_none; [by apply H0|done].
  - destruct (after_probe _ _). intros [= <- <- _]. apply le_none; [by apply H0|done].
  - destruct (relay_step config c g conn_bytes p) as [[ph g1] es1] eqn:E. intros [= <- <- _].
    apply relay_effect in E as ->; [|done]. eapply le_charge; [apply surjective_pairing|done].
  - destruct (take_lease c g now) as [[c1 g1] es1] eqn:E. intros [= <- <- _].
    eapply take_lease_effect; [done|by apply H0|done].
  - destruct (take_lease c g now) as [[c1 g1] es1] eqn:E. intros [= <- <- _].
    eapply take_lease_effect; [done|by apply H0|done].
Qed.

Lemma proxy_finish_cases request g client remote (tcp : TcpStream) now :
  ∃ r g', acquire g client (dest_key remote) now = (r, g') ∧
  match r with
  | Ok lease => ∃ mm mf p, proxy_finish config request g client remote tcp now
      = (Upgrade (Connection_new remote client lease) tcp mm mf p, [], g')
  | Err e => proxy_finish config request g client remote tcp now = (reject_limit e, g')
  end.
Proof.
  unfold proxy_finish. destruct (acquire _ _ _ _) as [[lease|e] g'].
  - exists (Ok lease), g'. eauto.
  - by exists (Err e), g'.
Qed.

(** The step of a connection is one step of the limits. *)
Lemma connection_world s ts1 request client remote lease ins es c ts2 i c' g es' :
  let now := (input_times i (s_now s)).2 in
  s_now s <= (input_times i (s_now s)).1 → (input_times i (s_now s)).1 <= now →
  s_tasks s = ts1 ++ TRun request client remote lease ins es c :: ts2 →
  connection_step config c (s_limits s) i = Some (c', g, es') →
  limit_step (sys_world s) {|
    w_limits := g;
    w_leases := omap task_lease (ts1 ++ TRun request client remote lease (ins ++ [i]) (es ++ es') c'
                                   :: ts2);
    w_history := s_history s ++ step_events c (s_limits s) i (s_now s); w_now := now |}.
Proof.
  intros now H1 H2 Hs Hst. subst now. unfold sys_world, sys_leases.
  rewrite Hs, !leases_app. cbn [omap list_omap task_lease].
  unfold step_events. destruct (input_times i (s_now s)) as [t1 t2] eqn:Ei. cbn [fst snd] in *.
  destruct (connection_effect _ _ _ _ _ _ (s_now s) Hst) as [r Ea El|l El El' E0 ->];
    rewrite Ei in *; cbn [fst snd] in *.
  - rewrite El, Ea, app_if_nil.
    pose proof (step_add_bytes (sys_world s) _ _ _ _ _ _ H1 H2 Ea) as St.
    unfold sys_world, sys_leases in St. rewrite Hs, leases_app in St. exact St.
  - rewrite El, El', E0, andb_false_r, app_nil_r.
    assert (Hn : s_now s <= t2) by lia.
    pose proof (step_drop (sys_world s) (omap task_lease ts1) l (omap task_lease ts2)
      _ Hn) as St. unfold sys_world, sys_leases in St. rewrite Hs, leases_app in St.
    cbn [omap list_omap task_lease w_leases] in St. rewrite El in St. by apply St.
Qed.

(** Every step of the system is at most one step of the limits. *)
Lemma sys_step_world s s' :
  sys_step s s' → rtc limit_step (sys_world s) (sys_world s').
Proof.
  assert (Hstep : ∀ w w', limit_step w w' → rtc limit_step w w') by (intros; by apply rtc_once).
  step_cases;
    unfold sys_world, sys_leases; cbn [s_limits s_tasks s_now];
    try (rewrite Hs, ?leases_app; cbn [omap list_omap task_lease]; rewrite ?leases_app).
  - done.
  - apply Hstep. exact (step_record_attempt (sys_world s) _ _ _ _ _ Hn E).
  - apply Hstep. exact (step_record_attempt (sys_world s) _ _ _ _ _ Hn E).
  - done.
  - done.
  - destruct (proxy_finish_cases request (s_limits s) client remote tcp now)
      as ([lease'|e] & g' & Ha & H).
    2: { rewrite Hf in H. done. }
    destruct H as (mm' & mf' & p' & H). rewrite Hf in H. injection H as -> -> -> -> -> ->.
    injection Hlease as ->. apply Hstep.
    pose proof (step_acquire (sys_world s) _ _ _ _ _ Hn Hlen Ha) as St.
    unfold sys_world, sys_leases in St. rewrite Hs, leases_app in St. exact St.
  - destruct (proxy_finish_cases request (s_limits s) client remote tcp now)
      as ([lease'|e] & g' & Ha & H).
    { destruct H as (mm' & mf' & p' & H). by rewrite Hf in H. }
    rewrite Hf in H. injection H as _ _ _ _ ->. apply Hstep.
    pose proof (step_acquire (sys_world s) _ _ _ _ _ Hn Hlen Ha) as St.
    unfold sys_world, sys_leases in St. rewrite Hs, leases_app in St. exact St.
  - done.
  - apply Hstep.
    pose proof (step_drop (sys_world s) (omap task_lease ts1) lease (omap task_lease ts2) now Hn)
      as St. unfold sys_world, sys_leases in St. rewrite Hs, leases_app in St. by apply St.
  - done.
  - apply rtc_once. pose proof (connection_world _ _ _ _ _ _ _ _ _ _ _ _ _ _ H1 H2 Hs Hst) as St.
    unfold sys_world, sys_leases in St. rewrite Hs, !leases_app in St. exact St.
Qed.

Lemma sys_reachable_world s : sys_reachable s → reachable (limits config) (sys_world s).
Proof.
  intros [now Hr]. exists now.
  change (world_new (limits config) now) with (sys_world (sys_new now)).
  induction Hr as [|x y z Hxy _ IH]; [done|]. etrans; [by apply sys_step_world|exact IH].
Qed.

(** *** The tasks of a reachable system *)

Definition sys_ok (s : Sys) : Prop :=
  Forall task_ok (s_tasks s) ∧ Forall dialled_ok (s_dialled s).

Lemma Forall_prefix {A} (P : A → Prop) l k : l `prefix_of` k → Forall P k → Forall P l.
Proof. intros [l' ->] H. by apply Forall_app in H as [H _]. Qed.

Lemma gates_ok request t1 t2 client remote :
  gates config request t1 t2 = Ok (client, remote) →
  client = request_client config request ∧ ∃ t1 t2, ok_request config request t1 t2 remote.
Proof.
  intros E. pose proof (proxy_gates_cases (TcpStream:=TcpStream) debug_assertions config request
    t1 t2) as H.
  rewrite E in H. destruct H as [-> H]. eauto.
Qed.

Lemma dialled_all_ok lookup remote addrs connect dialled (r : result DestError TcpStream) request :
  resolver_ok lookup → resolve_filtered lookup remote (dest config) = Ok addrs →
  connect_addrs connect addrs = (dialled, r) →
  (∃ t1 t2, ok_request config request t1 t2 remote) → Forall dialled_ok dialled.
Proof.
  intros Hl Hr Hc (t1 & t2 & _ & _ & _ & Hp & Hpol%check_policy_port).
  pose proof (λ a, dialled_subset connect addrs a) as Hsub. rewrite Hc in Hsub. cbn in Hsub.
  apply resolved_ok in Hr; [|done|intros ip; by eapply parse_remote_literal_wf].
  apply parse_remote_inv in Hp as [Hp _]. rewrite Forall_forall in Hr.
  apply Forall_forall. intros a Ha%Hsub. destruct (Hr a Ha) as (Hw & Hport & Hg).
  unfold dialled_ok. by rewrite Hport.
Qed.

Lemma sys_step_ok s s' : sys_ok s → sys_step s s' → sys_ok s'.
Proof.
  intros [Ht Hd].
  step_cases;
    unfold sys_ok; cbn [s_tasks s_dialled];
    try (rewrite Hs in Ht; apply Forall_app in Ht as [Ht1 [Hhd Ht2]%Forall_cons]).
  - done.
  - split; [|done]. constructor; [by eapply gates_ok|done].
  - done.
  - split; [by apply Forall_app|done].
  - split; [by apply Forall_app|]. apply Forall_app. split; [done|].
    eapply dialled_all_ok; [done..|]. apply Hhd.
  - split; [constructor; [done|by apply Forall_app]|]. apply Forall_app. split; [done|].
    eapply dialled_all_ok; [done..|]. apply Hhd.
  - split; [by apply Forall_app|]. apply Forall_app. split; [done|].
    eapply dialled_all_ok; [done..|]. apply Hhd.
  - split; [by apply Forall_app|]. apply Forall_app. split; [done|].
    eapply Forall_prefix; [exact Hc|].
    destruct (connect_addrs connect addrs) as [all r] eqn:E.
    eapply dialled_all_ok; [done..|]. apply Hhd.
  - split; [by apply Forall_app|done].
  - split; [|done]. apply Forall_app. split; [done|]. constructor; [|done].
    destruct Hhd as [??]. split_and!; [done..|constructor].
  - split; [|done]. apply Forall_app. split; [done|]. constructor; [|done].
    destruct Hhd as (? & ? & Htr). split_and!; [done..|]. by eapply trace_snoc.
Qed.

Lemma sys_steps_ok s s' : sys_ok s → rtc sys_step s s' → sys_ok s'.
Proof. intros H Hr. revert H. induction Hr; eauto using sys_step_ok. Qed.

Lemma sys_reachable_ok s : sys_reachable s → sys_ok s.
Proof. intros [now Hr]. eapply sys_steps_ok; [|exact Hr]. by split. Qed.

(** *** Every task can finish *)

(** How far a connection is from its end. *)
Definition phase_rank (ph : Phase) : nat :=
  match ph with
  | PStart => 3
  | PProbeTls _ | PProbeGreeting _ _ | PRelay _ => 2
  | PTeardown | PAbort => 1
  | PDone => 0
  end.

(** A connection that is not over has a next step towards its end, at any
    time: the peers may hang up wherever it awaits them. *)
Lemma connection_progress (c : Connection) g now :
  c_phase c ≠ PDone → ∃ i c' g' es,
    input_times i now = (now, now) ∧ connection_step config c g i = Some (c', g', es)
    ∧ (phase_rank (c_phase c') < phase_rank (c_phase c))%nat.
Proof.
  assert (Htake : ∃ (c' : Connection) (g' : Inner) es,
      take_lease c g now = (c', g', es) ∧ c_phase c' = PDone).
  { unfold take_lease. destruct (c_lease c); eauto 10. }
  destruct Htake as (c' & g' & es & Htake & Hp).
  destruct (c_phase c) as [|hello|kind greet|n| | |] eqn:E; try done; intros _.
  - exists (InStart now). unfold connection_step. rewrite E. destruct (c_tcp c) eqn:Et; cbn [negb].
    + unfold run_start, probe. rewrite Et. cbn [negb].
      destruct (require_protocol_probe config); [destruct (probe_for_port _) as [[]|]|];
        (eexists _, _, _; split_and!; [done..|cbn; lia]).
    + rewrite Htake. eexists _, _, _. split_and!; [done..|rewrite Hp; cbn; lia].
  - exists (InProbeWs WsEnd WOk). unfold connection_step. rewrite E. cbn.
    eexists _, _, _. split_and!; [done..|]. cbn. lia.
  - exists (InProbeTcp TcpElapsed WOk). unfold connection_step. rewrite E. cbn.
    eexists _, _, _. split_and!; [done..|]. cbn. lia.
  - exists (InPoll {| p_deadline := false; p_ws := Some WsEnd; p_tcp := None; p_write := WOk;
      p_now_gc := now; p_now := now |}). unfold connection_step, relay_step. rewrite E. cbn.
    rewrite andb_false_r. eexists _, _, _. split_and!; [done..|]. cbn. lia.
  - exists (InTeardown WOk true true now). unfold connection_step, teardown. rewrite E, Htake.
    eexists _, _, _. split_and!; [done..|rewrite Hp; cbn; lia].
  - exists (InAbort WOk true now). unfold connection_step, abort. rewrite E, Htake.
    eexists _, _, _. split_and!; [done..|rewrite Hp; cbn; lia].
Qed.

Lemma connection_finishes s ts1 request client remote lease ins es c ts2 :
  s_tasks s = ts1 ++ TRun request client remote lease ins es c :: ts2 →
  ∃ s' ins' es' c', rtc sys_step s s'
    ∧ s_tasks s' = ts1 ++ TRun request client remote lease ins' es' c' :: ts2
    ∧ c_phase c' = PDone.
Proof.
  remember (phase_rank (c_phase c)) as n eqn:En. revert s ins es c En.
  induction n as [n IH] using lt_wf_ind. intros s ins es c -> Hs.
  assert (c_phase c = PDone ∨ c_phase c ≠ PDone) as [Hd|Hd] by (destruct (c_phase c); auto);
    [by eexists s, _, _, c|].
  destruct (connection_progress c (s_limits s) (s_now s) Hd) as (i & c1 & g1 & es1 & Hi & E & Hr).
  pose proof (sys_connection s ts1 request client remote lease ins es c ts2 i c1 g1 es1) as St.
  rewrite Hi in St. specialize (St (N.le_refl _) (N.le_refl _) Hs E).
  destruct (IH _ Hr {| s_limits := g1; s_tasks := ts1 ++ TRun request client remote lease
      (ins ++ [i]) (es ++ es1) c1 :: ts2;
      s_history := s_history s ++ step_events c (s_limits s) i (s_now s);
      s_dialled := s_dialled s; s_log := s_log s ++ metrics_of es1; s_now := s_now s |}
    _ _ c1 eq_refl eq_refl) as (s' & ins' & es' & c' & Hst & Ht & Hp).
  exists s', ins', es', c'. split_and!; [|exact Ht|done]. eapply rtc_l; [exact St|exact Hst].
Qed.

(** A connection that is over has given its lease back. *)
Lemma done_lease t :
  task_ok t → match t with TRun _ _ _ _ _ _ c => c_phase c = PDone | _ => False end →
  task_lease t = None.
Proof.
  destruct t as [| |request client remote lease ins es c]; try done.
  intros (_ & _ & Ht) Hp. destruct (stands_trace config _ _ _ _ _ _ Ht) as [[_ Hs] _].
  rewrite Hp in Hs. apply Hs.
Qed.

Lemma task_finishes s t ts2 ts1 :
  s_tasks s = ts1 ++ t :: ts2 → sys_ok s →
  ∃ s' ts', rtc sys_step s s' ∧ s_tasks s' = ts1 ++ ts' ++ ts2 ∧ omap task_lease ts' = [].
Proof.
  intros Hs Hok.
  destruct t as [request client remote|request client remote lease
    |request client remote lease ins es c].
  - assert (Hl : resolver_ok (λ _ _, None)) by done.
    destruct (resolve_filtered (λ _ _, None) remote (dest config)) as [addrs|e] eqn:E;
      eexists _, []; (split_and!; [apply rtc_once| |]).
    + eapply (sys_cancelled s ts1 request client remote ts2 _ (λ _ _, None) addrs []); try done.
      apply prefix_nil.
    + done.
    + done.
    + by eapply (sys_unresolved s ts1 request client remote ts2).
    + done.
    + done.
  - eexists _, []. split_and!; [apply rtc_once|..].
    + by eapply (sys_upgrade_failed s ts1 request client remote lease ts2 (s_now s)).
    + done.
    + done.
  - destruct (connection_finishes _ _ _ _ _ _ _ _ _ _ Hs) as (s' & ins' & es' & c' & Hst & Ht & Hp).
    eexists s', [_]. split_and!; [done|exact Ht|]. cbn.
    assert (Hok' : sys_ok s') by (by eapply sys_steps_ok).
    destruct Hok' as [Hok' _]. rewrite Ht in Hok'.
    apply Forall_app in Hok' as [_ [Htask _]%Forall_cons].
    apply done_lease in Htask; [|done]. cbn in Htask. by rewrite Htask.
Qed.

(** Every lease can be given back. *)
Lemma sys_drains s : sys_ok s → ∃ s', rtc sys_step s s' ∧ sys_leases s' = [].
Proof.
  enough (H : ∀ ts2 ts1 s, s_tasks s = ts1 ++ ts2 → omap task_lease ts1 = [] → sys_ok s →
    ∃ s', rtc sys_step s s' ∧ sys_leases s' = []) by (intros; by eapply (H (s_tasks s) [])).
  clear s. induction ts2 as [|t ts2 IH]; intros ts1 s Hs H1 Hok.
  - exists s. split; [done|]. unfold sys_leases. by rewrite Hs, app_nil_r.
  - destruct (task_finishes _ _ _ _ Hs Hok) as (s1 & ts' & Hst & Ht & Hl).
    rewrite app_assoc in Ht. destruct (IH _ _ Ht) as (s' & Hst' & Hd).
    + by rewrite leases_app, H1, Hl.
    + by eapply sys_steps_ok.
    + exists s'. split; [by etrans|done].
Qed.
End system.
