(* ===== verification/SystemState.v ===== *)
(** * The state of the whole proxy

    Two invariants of every state that [System] can reach: the limits and the
    tasks are well formed ([LimitsTyped]), and the metrics are a census of the
    tasks. *)

From Stdlib Require Import ZArith.
From stdpp Require Import sets.
From S2P Require Import Prelude RustStr Net Dest Proto Limits LimitsSpec LimitsTyped Metrics.
From S2P Require Import Config Auth Connection Server System.
#[local] Open Scope N_scope.

Lemma find_map_Some {A B} (f : A → option B) l y : find_map f l = Some y → ∃ x, f x = Some y.
Proof. induction l as [|x l IH]; [done|]. cbn. destruct (f x) eqn:E; naive_solver. Qed.

Lemma client_ip_wf headers peer trust trusted :
  wf_ip (sa_ip peer) → wf_ip (client_ip headers peer trust trusted).
Proof.
  intros Hw. unfold client_ip. destruct (_ && _); [|done].
  destruct (forwarded_client_ip headers) as [ip|] eqn:E; [|done].
  apply find_map_Some in E as [name E]. destruct (headers name); [|done].
  apply find_map_Some in E as [token E]. by eapply parse_ip_addr_wf.
Qed.

(** A step keeps the identity of its connection. *)
Lemma step_identity {K} (config : Config K) c g i c' g' es :
  connection_step config c g i = Some (c', g', es) →
  c_remote c' = c_remote c ∧ c_client_ip c' = c_client_ip c.
Proof.
  assert (Ht : ∀ now c' g' es, take_lease c g now = (c', g', es) →
    c_remote c' = c_remote c ∧ c_client_ip c' = c_client_ip c).
  { intros now c1 g1 es1. unfold take_lease. by destruct (c_lease c); intros [= <- _ _]. }
  unfold connection_step, teardown, abort. destruct (c_phase c), i; try done; cbv zeta.
  - destruct (negb (c_tcp c)).
    + destruct (take_lease c g now) as [[c1 g1] es1] eqn:E. intros [= <- _ _]. by eapply Ht.
    + destruct (run_start config c). by intros [= <- _ _].
  - destruct (after_probe _ _). by intros [= <- _ _].
  - destruct (after_probe _ _). by intros [= <- _ _].
  - destruct (relay_step _ _ _ _ _) as [[ph g1] es1]. by intros [= <- _ _].
  - destruct (take_lease c g now) as [[c1 g1] es1] eqn:E. intros [= <- _ _]. by eapply Ht.
  - destruct (take_lease c g now) as [[c1 g1] es1] eqn:E. intros [= <- _ _]. by eapply Ht.
Qed.

(** The relay counts its bytes in 64 bits. *)
Definition phase_typed (ph : Phase) : Prop :=
  match ph with PRelay n => n < 2 ^ 64 | _ => True end.

Lemma step_phase_typed {K} (config : Config K) c g i c' g' es :
  connection_step config c g i = Some (c', g', es) → phase_typed (c_phase c) →
  phase_typed (c_phase c').
Proof.
  intros E Hp. unfold connection_step, teardown, abort in E.
  assert (Ht : ∀ now c' g' es, take_lease c g now = (c', g', es) → phase_typed (c_phase c')).
  { intros now c1 g1 es1. unfold take_lease. by destruct (c_lease c); intros [= <- _ _]. }
  destruct (c_phase c), i; try done; cbv zeta in E.
  - destruct (negb (c_tcp c)).
    + destruct (take_lease c g now) as [[c1 g1] es1] eqn:El. injection E as <- _ _. by eapply Ht.
    + unfold run_start, probe in E. destruct (negb (c_tcp c)); [by injection E as <- _ _|].
      destruct (require_protocol_probe config); [destruct (probe_for_port _) as [[]|]|];
        by injection E as <- _ _.
  - pose proof (after_probe_phase PProbeTls (probe_tls_sni c hello r w)) as F.
    destruct (after_probe _ _) as [ph es1]. injection E as <- _ _.
    cbn in F. by destruct F as [[? ->]|[->| ->]].
  - pose proof (after_probe_phase (PProbeGreeting kind) (probe_greeting kind greet r w)) as F.
    destruct (after_probe _ _) as [ph es1]. injection E as <- _ _.
    cbn in F. by destruct F as [[? ->]|[->| ->]].
  - destruct (relay_step _ _ _ _ _) as [[ph g1] es1] eqn:El. injection E as <- _ _.
    apply relay_step_case in El. destruct El as [d ph es2 _ _ _ _ [->| ->]|d ph es2 _ _ _ _ [->| ->]| |];
      cbn; try done; apply sat_add64_lt.
  - destruct (take_lease c g now) as [[c1 g1] es1] eqn:El. injection E as <- _ _. by eapply Ht.
  - destruct (take_lease c g now) as [[c1 g1] es1] eqn:El. injection E as <- _ _. by eapply Ht.
Qed.

Section typed.
  Context {PasetoKey TcpStream : Type} `{L : TokenLibrary PasetoKey} (debug_assertions : bool)
    (config : Config PasetoKey).

#[local] Abbreviation step := (sys_step (TcpStream:=TcpStream) debug_assertions config).
#[local] Abbreviation cfg := (limits config).

(** The client of a task, its destination's port, its lease and its
    connection. *)
Definition task_typed (t : Task) : Prop :=
  match t with
  | TDial _ client remote => wf_ip client ∧ 1 <= port remote < 2 ^ 16
  | TUpgrade _ client remote lease =>
      wf_ip client ∧ 1 <= port remote < 2 ^ 16 ∧ lease_typed cfg lease
  | TRun _ client remote lease _ _ c =>
      wf_ip client ∧ 1 <= port remote < 2 ^ 16 ∧ lease_typed cfg lease
      ∧ c_client_ip c = client ∧ c_remote c = remote ∧ phase_typed (c_phase c)
  end.

Definition sys_typed (s : Sys) : Prop :=
  limits_typed cfg (s_limits s) ∧ Forall task_typed (s_tasks s).

Lemma gates_typed request t1 t2 client remote :
  proxy_gates (TcpStream:=TcpStream) debug_assertions config request t1 t2 = Ok (client, remote) →
  wf_ip (sa_ip (r_peer request)) → wf_ip client ∧ 1 <= port remote < 2 ^ 16.
Proof.
  intros E Hw. pose proof (proxy_gates_cases (TcpStream:=TcpStream) debug_assertions config request
    t1 t2) as H.
  rewrite E in H. destruct H as [-> (_ & _ & _ & [Hp _]%parse_remote_inv & _)].
  split; [by apply client_ip_wf|done].
Qed.

Lemma sys_step_typed s s' : sys_typed s → step s s' → sys_typed s'.
Proof.
  intros [Hty Ht]. step_cases;
    unfold sys_typed; cbn [s_tasks s_limits];
    try (rewrite Hs in Ht; apply Forall_app in Ht as [Ht1 [Hhd Ht2]%Forall_cons]);
    try (split; [done|by apply Forall_app]).
  - done.
  - split; [|constructor; [by eapply gates_typed|done]].
    destruct (gates_typed _ _ _ _ _ Hg Hpeer) as [Hw _].
    pose proof (typed_record_attempt cfg _ client (dest_key remote) now Hty Hw) as H.
    by rewrite E in H.
  - split; [|done]. destruct (gates_typed _ _ _ _ _ Hg Hpeer) as [Hw _].
    pose proof (typed_record_attempt cfg _ client (dest_key remote) now Hty Hw) as H.
    by rewrite E in H.
  - destruct Hhd as [Hw Hp].
    destruct (proxy_finish_cases config request (s_limits s) client remote tcp now)
      as ([lease'|e] & g' & Ha & H).
    2: { rewrite Hf in H. done. }
    destruct H as (mm' & mf' & p' & H). rewrite Hf in H. injection H as -> -> -> -> -> ->.
    injection Hlease as ->.
    destruct (typed_acquire cfg _ client (dest_key remote) now Hty Hw) as [Hg Hl'].
    rewrite Ha in Hg, Hl'. split; [done|]. constructor; [|by apply Forall_app].
    split; [done|]. split; [done|]. by apply Hl'.
  - destruct Hhd as [Hw Hp]. split; [|by apply Forall_app].
    destruct (proxy_finish_cases config request (s_limits s) client remote tcp now)
      as ([lease'|e] & g' & Ha & H).
    { destruct H as (mm' & mf' & p' & H). by rewrite Hf in H. }
    rewrite Hf in H. injection H as _ _ _ _ ->.
    pose proof (proj1 (typed_acquire cfg _ client (dest_key remote) now Hty Hw)) as Hg.
    by rewrite Ha in Hg.
  - split; [by apply typed_release|by apply Forall_app].
  - split; [done|]. apply Forall_app. split; [done|]. constructor; [|done].
    destruct Hhd as (Hw & [Hp1 Hp2] & Hl). by split_and!.
  - destruct Hhd as (Hw & [Hp1 Hp2] & Hl & Hid & Hr & Hph).
    destruct (step_identity _ _ _ _ _ _ _ Hst) as [Ir Ic].
    pose proof (step_phase_typed _ _ _ _ _ _ _ Hst Hph) as Hph'. split.
    + destruct (connection_effect _ _ _ _ _ _ _ (s_now s) Hst) as [r Ea El|l El El' E0 ->].
      * pose proof (typed_add_bytes cfg _ (c_client_ip c) (step_charge config c i)
          (input_times i (s_now s)).1 (input_times i (s_now s)).2 Hty) as Hg.
        rewrite Ea in Hg. apply Hg. by rewrite Hid.
      * by apply typed_release.
    + apply Forall_app. split; [done|]. constructor; [|done]. cbn.
      rewrite Ic, Ir. by split_and!.
Qed.

(** The lease that a task owns is the one it was given. *)
Lemma task_lease_typed t l :
  task_ok debug_assertions config t → task_typed t → task_lease t = Some l → lease_typed cfg l.
Proof.
  destruct t as [|request client remote lease|request client remote lease ins es c]; [done| |].
  - intros _ (_ & _ & H) [= <-]. done.
  - intros (_ & _ & Ht) (_ & _ & H & _) E. cbn [task_lease] in E.
    destruct (stands_trace config _ _ _ _ _ _ Ht) as [[_ Hs] _].
    destruct (c_phase c); destruct_and?; congruence.
Qed.

Lemma sys_reachable_typed s :
  sys_reachable (TcpStream:=TcpStream) debug_assertions config s → sys_typed s.
Proof.
  intros [now Hr]. assert (H0 : sys_typed (sys_new config now)) by (split; [apply typed_new|done]).
  revert H0. induction Hr; eauto using sys_step_typed.
Qed.
End typed.

(** ** The metrics *)

(** The operations that only sessions perform. *)
Definition session_op (op : MetricOp) : bool :=
  match op with ActiveInc | ActiveDec | ConnectionsInc _ | DurationObserve => true | _ => false end.

(** What a task has logged. *)
Definition task_log (t : Task) : list MetricOp :=
  match t with TRun _ _ _ _ _ es _ => metrics_of es | _ => [] end.

(** A connection that runs, one that has begun, one that has ended, and the
    class of its port. *)
Definition task_phase (t : Task) : option Phase :=
  match t with TRun _ _ _ _ _ _ c => Some (c_phase c) | _ => None end.
Definition running (t : Task) : bool :=
  match task_phase t with None | Some PStart | Some PDone => false | Some _ => true end.
Definition begun (t : Task) : bool :=
  match task_phase t with None | Some PStart => false | Some _ => true end.
Definition ended (t : Task) : bool :=
  match task_phase t with Some PDone => true | _ => false end.
Definition task_class (t : Task) : PortClass :=
  match t with
  | TDial _ _ remote | TUpgrade _ _ remote _ | TRun _ _ remote _ _ _ _ => from_port (port remote)
  end.

(** The number of tasks that satisfy [f]. *)
Definition tasks_with (f : Task → bool) (ts : list Task) : N := lenN (filter (λ t, f t = true) ts).

Definition logged (op : MetricOp) (ts : list Task) : N := sumN ((λ t, count op (task_log t)) <$> ts).

Lemma logged_app op a b : logged op (a ++ b) = logged op a + logged op b.
Proof. unfold logged. by rewrite fmap_app, sumN_app. Qed.

Lemma logged_cons op t ts : logged op (t :: ts) = count op (task_log t) + logged op ts.
Proof. done. Qed.

Lemma tasks_with_cons f t ts :
  tasks_with f (t :: ts) = (if f t : bool then 1 else 0) + tasks_with f ts.
Proof.
  unfold tasks_with. rewrite filter_cons. destruct (f t).
  - by rewrite decide_True, lenN_cons.
  - by rewrite decide_False.
Qed.

Lemma logged_tasks op f ts :
  (∀ t, t ∈ ts → count op (task_log t) = if f t : bool then 1 else 0) →
  logged op ts = tasks_with f ts.
Proof.
  induction ts as [|t ts IH]; intros H; [done|].
  rewrite logged_cons, H by set_solver. rewrite IH by set_solver.
  by rewrite <- tasks_with_cons.
Qed.

Lemma tasks_begun ts : tasks_with begun ts = tasks_with running ts + tasks_with ended ts.
Proof.
  induction ts as [|t ts IH]; [done|]. rewrite !tasks_with_cons, IH.
  unfold begun, running, ended. destruct (task_phase t) as [[]|]; lia.
Qed.

Lemma refusal_logs_none {T} op (r : Reply T * list MetricOp) :
  session_op op = true → refusal r → count op r.2 = 0.
Proof.
  intros Ho. assert (H : ∀ e, count op [RejectInc e] = 0) by (intros e; by destruct op).
  intros [[e ->]|[[e ->]|[->|[->|[->| ->]]]]]; try apply H. done.
Qed.

Section census.
  Context {PasetoKey TcpStream : Type} `{L : TokenLibrary PasetoKey} (debug_assertions : bool)
    (config : Config PasetoKey).

#[local] Abbreviation step := (sys_step (TcpStream:=TcpStream) debug_assertions config).
#[local] Abbreviation reachable_state :=
  (sys_reachable (TcpStream:=TcpStream) debug_assertions config).

(** The log is made of what the sessions logged, and of refusals. *)
Lemma sys_step_log op s s' :
  session_op op = true → count op (s_log s) = logged op (s_tasks s) → step s s' →
  count op (s_log s') = logged op (s_tasks s').
Proof.
  intros Ho Hlog.
  assert (Hrej : ∀ e, count op [RejectInc e] = 0) by (intros e; by destruct op).
  assert (Hws : ∀ e, count op [WsErrorInc e] = 0) by (intros e; by destruct op).
  step_cases; cbn [s_log s_tasks];
    try (rewrite Hs in Hlog); rewrite ?logged_cons, ?logged_app, ?logged_cons in *;
    cbn [task_log] in *;
    rewrite ?metrics_of_app, ?count_app; unfold reject_dest, reject_limit, reject, failed_upgrade;
    cbn [snd fst] in *; unfold inc_reject, inc_ws_error;
    rewrite ?Hrej, ?Hws; change (count op []) with 0 in *; try lia.
  - pose proof (proxy_gates_cases (TcpStream:=TcpStream) debug_assertions config request t1 t2) as H.
    rewrite Hg in H. apply (refusal_logs_none op) in H; [|done]. cbn in H. lia.
  - destruct (proxy_finish_cases config request (s_limits s) client remote tcp now)
      as ([lease'|e] & g' & Ha & H).
    2: { rewrite Hf in H. done. }
    destruct H as (mm' & mf' & p' & H). rewrite Hf in H. injection H as _ _ _ _ -> _.
    change (count op []) with 0. lia.
  - destruct (proxy_finish_cases config request (s_limits s) client remote tcp now)
      as ([lease'|e] & g' & Ha & H).
    { destruct H as (mm' & mf' & p' & H). by rewrite Hf in H. }
    rewrite Hf in H. injection H as _ _ _ -> _. rewrite Hrej. lia.
  - change (count op (metrics_of [])) with 0. lia.
Qed.

Lemma sys_reachable_log op s :
  session_op op = true → reachable_state s → count op (s_log s) = logged op (s_tasks s).
Proof.
  intros Ho [now Hr].
  assert (H0 : count op (s_log (sys_new config now)) = logged op (s_tasks (sys_new config now)))
    by done.
  revert H0. induction Hr; eauto using sys_step_log.
Qed.

(** What one task has logged, from where it stands. *)
Lemma task_logged t :
  task_ok debug_assertions config t → task_typed config t →
  count ActiveInc (task_log t) = (if begun t then 1 else 0)
  ∧ count ActiveDec (task_log t) = (if ended t then 1 else 0)
  ∧ count DurationObserve (task_log t) = (if ended t then 1 else 0)
  ∧ ∀ p, count (ConnectionsInc p) (task_log t)
         = if begun t && bool_decide (task_class t = p) then 1 else 0.
Proof.
  destruct t as [| |request client remote lease ins es c]; try done.
  intros (_ & _ & Ht) (_ & _ & _ & _ & Hr & _).
  destruct (stands_trace config _ _ _ _ _ _ Ht) as [[_ Hs] _].
  assert (Hop : ∀ p, opened (metrics_of es) = [from_port (port (c_remote c))] →
    count (ConnectionsInc p) (metrics_of es)
      = if bool_decide (from_port (port remote) = p) then 1 else 0).
  { intros p E. rewrite count_opened, E, Hr, filter_cons. case_bool_decide.
    - by rewrite decide_True.
    - by rewrite decide_False. }
  unfold begun, ended, task_phase. cbn [task_log task_class].
  destruct (c_phase c); [destruct Hs as [-> _]; by split_and!|..];
    [destruct Hs as (_ & _ & H1 & H2 & H3 & H4)..|destruct Hs as (_ & _ & H1 & H2 & H3 & H4 & _)];
    rewrite H1, H2, H3; split_and!; try done; intros p; by apply Hop.
Qed.

Lemma census s :
  reachable_state s →
  active_connections (s_log s) = Z.of_N (tasks_with running (s_tasks s))
  ∧ count DurationObserve (s_log s) = tasks_with ended (s_tasks s)
  ∧ ∀ p, count (ConnectionsInc p) (s_log s)
         = tasks_with (λ t, begun t && bool_decide (task_class t = p)) (s_tasks s).
Proof.
  intros Hr. pose proof (sys_reachable_ok _ _ _ Hr) as [Hok _].
  pose proof (sys_reachable_typed _ _ _ Hr) as [_ Hty].
  rewrite Forall_forall in Hok, Hty.
  assert (Hl : ∀ op, session_op op = true → count op (s_log s) = logged op (s_tasks s))
    by (intros op Ho; by apply sys_reachable_log).
  assert (Ht : ∀ t, t ∈ s_tasks s → _) by (intros t H; exact (task_logged t (Hok t H) (Hty t H))).
  split_and!.
  - unfold active_connections. rewrite !Hl by done.
    rewrite (logged_tasks ActiveInc begun), (logged_tasks ActiveDec ended) by (intros t H; by apply Ht).
    rewrite tasks_begun. lia.
  - rewrite Hl by done. apply logged_tasks. intros t H. by apply Ht.
  - intros p. rewrite Hl by done. apply logged_tasks. intros t H. by apply Ht.
Qed.
End census.
