(* ===== verification/SystemProps.v ===== *)
(** * The theorems of the whole proxy

    What holds of every state that the proxy of [System] can reach: the limits
    refine [LimitsSpec], a safe configuration keeps the proxy to its purpose,
    no slot is lost, every value fits the type that holds it, the metrics are a
    census of the tasks, and the handler is a run of the system. *)

From Stdlib Require Import ZArith.
From stdpp Require Import sets.
From S2P Require Import Prelude RustStr Net Dest Proto Limits LimitsSpec LimitsTyped Metrics.
From S2P Require Import Config Registry Auth Connection Server System SystemState.
#[local] Open Scope N_scope.

(** ** A sample run, for the witnesses *)

Definition sample_dest : str := lit "imap.example.com:993".
Definition sample_client : IpAddr := V4 (v4_new 203 0 113 7).
Definition sample_system_step : Sys → Sys → Prop :=
  sys_step (TcpStream:=SocketAddr) false public_config.
Definition sample_reachable : Sys → Prop :=
  sys_reachable (TcpStream:=SocketAddr) false public_config.

Definition sample_sys1 : Sys := {|
  s_limits := (record_attempt sample_limits sample_client sample_dest 1).2;
  s_tasks := [TDial (sample_request sample_dest) sample_client sample_remote];
  s_history := [attempted sample_limits sample_client sample_remote 1];
  s_dialled := []; s_log := []; s_now := 1 |}.
Definition sample_sys2 : Sys := {|
  s_limits := (acquire (s_limits sample_sys1) sample_client sample_dest 2).2;
  s_tasks := [TUpgrade (sample_request sample_dest) sample_client sample_remote sample_lease];
  s_history := s_history sample_sys1;
  s_dialled := [SockAddr (V4 (v4_new 93 184 216 34)) 993]; s_log := []; s_now := 2 |}.
Definition sample_sys3 : Sys := {|
  s_limits := s_limits sample_sys2;
  s_tasks := [TRun (sample_request sample_dest) sample_client sample_remote sample_lease
                [] [] sample_connection];
  s_history := s_history sample_sys2; s_dialled := s_dialled sample_sys2;
  s_log := []; s_now := 2 |}.

Lemma sample_resolver_ok : resolver_ok sample_lookup.
Proof. intros h q answer [= <-]. repeat constructor; by vm_compute. Qed.

Lemma sample_sys3_run : rtc sample_system_step (sys_new public_config 0) sample_sys3.
Proof.
  apply (rtc_l _ _ sample_sys1).
  { apply (sys_admitted _ _ (sys_new public_config 0) (sample_request sample_dest)
      0%Z 0%Z); [by vm_compute|done|by vm_compute|].
    rewrite (surjective_pairing (record_attempt _ _ _ _)). by f_equal. }
  apply (rtc_l _ _ sample_sys2).
  { apply (sys_upgrading _ _ sample_sys1 [] (sample_request sample_dest)
      sample_client sample_remote [] sample_lookup sample_connect
      [SockAddr (V4 (v4_new 93 184 216 34)) 993] [SockAddr (V4 (v4_new 93 184 216 34)) 993]
      (SockAddr (V4 (v4_new 93 184 216 34)) 993) 2 sample_connection
      (ws_max_message_bytes public_config) (ws_max_frame_bytes public_config) None []);
      try done. apply sample_resolver_ok. }
  apply rtc_once. by apply (sys_upgraded _ _ sample_sys2 []).
Qed.

Lemma sample_sys3_reachable : sample_reachable sample_sys3.
Proof. exists 0. apply sample_sys3_run. Qed.

(** The first task, a connection, takes an input. *)
Definition sample_advance (s : Sys) (i : Input) : Sys :=
  match s_tasks s with
  | TRun request client remote lease ins es c :: ts =>
      match connection_step public_config c (s_limits s) i with
      | Some (c', g', es') =>
          {| s_limits := g';
             s_tasks := TRun request client remote lease (ins ++ [i]) (es ++ es') c' :: ts;
             s_history := s_history s ++ step_events public_config c (s_limits s) i (s_now s);
             s_dialled := s_dialled s; s_log := s_log s ++ metrics_of es';
             s_now := (input_times i (s_now s)).2 |}
      | None => s
      end
  | _ => s
  end.

Lemma sample_advance_run s0 s i :
  s_now s <= (input_times i (s_now s)).1 →
  (input_times i (s_now s)).1 <= (input_times i (s_now s)).2 →
  rtc sample_system_step s0 s → rtc sample_system_step s0 (sample_advance s i).
Proof.
  intros H1 H2 H. unfold sample_advance.
  destruct (s_tasks s) as [|[| |request client remote lease ins es c] ts] eqn:Es; try done.
  destruct (connection_step _ _ _ _) as [[[c' g'] es']|] eqn:E; [|done].
  eapply rtc_r; [exact H|]. by apply (sys_connection _ _ s []).
Qed.

(** The connection starts: it is counted. *)
Definition sample_sys4 : Sys := sample_advance sample_sys3 (InStart 3).

Lemma sample_sys4_run : rtc sample_system_step (sys_new public_config 0) sample_sys4.
Proof. by apply sample_advance_run, sample_sys3_run. Qed.

Lemma sample_sys4_reachable : sample_reachable sample_sys4.
Proof. exists 0. apply sample_sys4_run. Qed.

(** ** Properties *)

Section properties.
  Context {PasetoKey TcpStream : Type} `{L : TokenLibrary PasetoKey} (debug_assertions : bool)
    (config : Config PasetoKey).

#[local] Abbreviation system_step := (sys_step (TcpStream:=TcpStream) debug_assertions config).
#[local] Abbreviation system_reachable :=
  (sys_reachable (TcpStream:=TcpStream) debug_assertions config).
#[local] Abbreviation ok_request := (request_ok debug_assertions).

(** C2: The whole proxy refines the abstract limits.  In every state that any
    interleaving of requests, dials, handshakes and connections can reach, the
    counters are exactly the leases that live tasks own, the connection caps
    hold of those leases, and the tables hold the live part of the history of
    accepted attempts and charged bytes, besides at most entries that have
    expired and are not yet pruned; the history is within the caps of every
    window; every further step is a step of the abstract limits. *)
Theorem system_refines_limits s :
  max_bytes_per_ip (limits config) < U64_MAX → system_reachable s →
  accounts (s_limits s) (sys_leases s)
  ∧ caps_respected (limits config) (sys_leases s)
  ∧ represents (limits config) (s_now s) (s_history s) (s_limits s)
  ∧ windows_respected (limits config) (s_history s)
  ∧ ∀ s', system_step s s' → rtc limit_step (sys_world s) (sys_world s').
Proof.
  intros Hb Hr%sys_reachable_world. destruct (reachable_ok _ Hb _ Hr) as [H1 H2 H3 H4].
  split_and!; [done..|]. apply sys_step_world.
Qed.

(** The whole proxy, configured safely, keeps to its purpose.  In every
    reachable state every address ever dialled is globally routable and on a
    configured port, and every connection was made by a request that passed all
    the checks, for a destination that is a name on a configured port; on a
    mail port it relayed nothing before its probe passed; and it dropped its
    lease at most once. *)
Theorem system_safe s :
  hosting_safe config → system_reachable s →
  Forall (λ a, global_spec (sa_ip a)
    ∧ ∃ ports, allowed_ports (dest config) = Some ports ∧ sa_port a ∈ ports) (s_dialled s)
  ∧ ∀ request client remote lease ins es c,
      TRun request client remote lease ins es c ∈ s_tasks s →
      client = request_client config request
      ∧ (∃ t1 t2, ok_request config request t1 t2 remote)
      ∧ ip_literal remote = None
      ∧ (∃ ports, allowed_ports (dest config) = Some ports ∧ port remote ∈ ports)
      ∧ (leases_dropped es = [] ∨ leases_dropped es = [lease])
      ∧ ∀ kind, probe_for_port (port remote) = Some kind → silent es ∨ passed remote kind ins es.
Proof.
  intros Hsafe [Ht Hd]%sys_reachable_ok.
  pose proof Hsafe as ([ports Hports] & Hpriv & _ & Hprobe & _). split.
  - eapply Forall_impl; [exact Hd|]. intros a (_ & Hp & _ & [?|?]); [congruence|].
    split; [done|]. exists ports. split; [done|].
    unfold port_allowed in Hp. rewrite Hports in Hp. by bool_to_prop.
  - intros request client remote lease ins es c Hin.
    rewrite Forall_forall in Ht. destruct (Ht _ Hin) as (Hc & (t1 & t2 & Hok) & Htr).
    destruct (safe_policy config remote Hsafe) as [Hlit Hallowed]; [apply Hok|].
    split_and!; [done|by exists t1, t2|done|done|by eapply trace_drops|].
    intros kind Hk. by eapply gate_trace.
Qed.

(** C3: No slot can be lost.  From every reachable state, whatever the tasks
    are in the middle of, there is a run in which they all end, and then
    nothing is counted: no global connection, none of any address, none of any
    destination. *)
Theorem system_drains s :
  max_bytes_per_ip (limits config) < U64_MAX → system_reachable s →
  ∃ s', rtc system_step s s' ∧ sys_leases s' = []
    ∧ g_global_connections (s_limits s') = 0 ∧ g_per_dest (s_limits s') = ∅
    ∧ ∀ k, st_connections (row (s_limits s') k) = 0.
Proof.
  intros Hb Hr. pose proof Hr as Hok%sys_reachable_ok.
  destruct (sys_drains (TcpStream:=TcpStream) _ _ _ Hok) as (s' & Hst & Hl).
  exists s'. split; [exact Hst|]. split; [done|]. apply accounts_nil. rewrite <- Hl.
  assert (Hr' : system_reachable s').
  { destruct Hr as [now Hr]. exists now. by etrans. }
  apply sys_reachable_world in Hr'. apply (reachable_ok _ Hb _ Hr').
Qed.

(** C20: The handler is a run of the system.  If what the other tasks do during
    its awaits is a run of the system that leaves the request's task in the
    pool, then one call of [proxy_handler] is a run of the system that ends in
    the limits it returns; an upgrade leaves in the pool the handshake of the
    connection it returns, and a refusal nothing. *)
Theorem proxy_handler_refines lookup (connect : nat → SocketAddr → option (result unit TcpStream))
    request t1 t2 s now1 others now2 ts
    reply log g' dialled :
  s_now s <= now1 → wf_ip (sa_ip (r_peer request)) → resolver_ok lookup →
  (∀ s1 client remote, system_step s s1 → s_now s1 = now1 →
     s_tasks s1 = TDial request client remote :: s_tasks s →
     ∃ s2, rtc system_step s1 s2 ∧ s_limits s2 = others (s_limits s1)
       ∧ s_tasks s2 = TDial request client remote :: ts
       ∧ s_now s2 <= now2 ∧ lenN (sys_leases s2) < U64_MAX) →
  proxy_handler debug_assertions lookup connect config request
    t1 t2 (s_limits s) now1 others now2 = (reply, log, g', dialled) →
  ∃ s', rtc system_step s s' ∧ s_limits s' = g' ∧ dialled `suffix_of` s_dialled s'
    ∧ log `suffix_of` s_log s'
    ∧ match reply with
      | Upgrade conn _ _ _ _ => ∃ client remote lease,
          s_tasks s' = TUpgrade request client remote lease :: ts
          ∧ conn = Connection_new remote client lease
      | _ => s_tasks s' = s_tasks s ∨ s_tasks s' = ts
      end.
Proof.
  intros Hn Hpeer Hl Ho. unfold proxy_handler.
  assert (Hnil : ∀ A (d : list A), [] `suffix_of` d)
    by (intros A d; by exists d; rewrite app_nil_r).
  destruct (proxy_gates _ _ _ _ _) as [[client remote]|[r0 log0]] eqn:Eg.
  2: { intros [= <- <- <- <-].
       eexists. split; [apply rtc_once; by eapply sys_refused|]. split_and!; [done..|by eexists|].
       pose proof (proxy_gates_cases (TcpStream:=TcpStream) debug_assertions config request
         t1 t2) as H. rewrite Eg in H.
       destruct r0 as [| |conn tcp m f p]; [by left..|].
       by apply (refusal_not_upgrade _ conn tcp m f p) in H. }
  destruct (record_attempt _ _ _ _) as [[[]|e] g1] eqn:Er.
  2: { intros [= <- <- <- <-].
       eexists. split; [apply rtc_once; by eapply sys_limited|].
       split_and!; [done..|by eexists|by left]. }
  pose proof (sys_admitted _ _ s request t1 t2 client remote now1 g1 Hpeer Hn Eg Er) as St.
  destruct (Ho _ client remote St eq_refl eq_refl) as (s2 & Hst & Hg2 & Ht2 & Hn2 & Hlen).
  cbn [s_limits] in Hg2. assert (Hs2 : rtc system_step s s2) by (by eapply rtc_l). clear St Hst Ho.
  rewrite <- Hg2.
  destruct (resolve_filtered _ _ _) as [addrs|e] eqn:Ea.
  2: { intros [= <- <- <- <-]. eexists. split; [eapply rtc_r; [exact Hs2|]|].
       - by apply (sys_unresolved _ _ s2 [] request client remote ts lookup e).
       - split_and!; [done..|by eexists|by right]. }
  destruct (connect_addrs connect addrs) as [d [tcp|e]] eqn:Ec.
  2: { intros [= <- <- <- <-]. eexists. split; [eapply rtc_r; [exact Hs2|]|].
       - by eapply (sys_dial_failed _ _ s2 [] request client remote ts lookup connect).
       - split_and!; [done|by eexists|by eexists|by right]. }
  destruct (proxy_finish_cases config request (s_limits s2) client remote tcp now2)
    as ([lease|e] & g & Hacq & H).
  - destruct H as (mm & mf & p & H). rewrite H. intros [= <- <- <- <-].
    eexists. split; [eapply rtc_r; [exact Hs2|]|].
    + by eapply (sys_upgrading _ _ s2 [] request client remote ts lookup connect).
    + split_and!; [done|by eexists|by eexists|by eexists _, _, _].
  - rewrite H. intros [= <- <- <- <-]. eexists. split; [eapply rtc_r; [exact Hs2|]|].
    + by eapply (sys_full _ _ s2 [] request client remote ts lookup connect).
    + split_and!; [done|by eexists|by eexists|by right].
Qed.

(** C14: Every value of the proxy's state fits the type that holds it.  In
    every reachable state the counters of the limits are below 2^64 and their
    rows stand under well-formed addresses masked to the configured prefixes;
    every lease is of such an address; every address dialled is well formed and
    has a 16-bit port other than 0; and the client, the port and the relayed
    bytes of every task are in the range of their types, and the client and the
    destination of a task are those of its connection. *)
Theorem system_typed s :
  system_reachable s →
  limits_typed (limits config) (s_limits s)
  ∧ Forall (lease_typed (limits config)) (sys_leases s)
  ∧ Forall (λ a, wf_ip (sa_ip a) ∧ 1 <= sa_port a < 2 ^ 16) (s_dialled s)
  ∧ Forall (task_typed config) (s_tasks s).
Proof.
  intros Hr. destruct (sys_reachable_typed _ _ _ Hr) as [Hl Ht].
  destruct (sys_reachable_ok _ _ _ Hr) as [Hok Hd]. split_and!; [done| | |done].
  - rewrite Forall_forall in Ht. rewrite Forall_forall in Hok. apply Forall_forall. intros l Hl'.
    apply list_elem_of_omap in Hl' as (t & Hin & E).
    by eapply (task_lease_typed debug_assertions), E; auto.
  - eapply Forall_impl; [exact Hd|]. by intros a (? & _ & ? & _).
Qed.

(** C5: The exposed metrics are a census of the connections.  In every
    reachable state, what the registry made at start holds after the calls that
    the tasks made on it is: as the gauge of active connections, the number of
    connections that have started and not ended; as durations observed, the
    number of those that have ended; and under the class of a port, the number
    of those that have started to a port of that class, modulo the width of
    their cells.  Every other family holds one counter for each label that was
    counted, with the number of its calls; and the registry encodes seven
    metrics under distinct names, each a reference to its field, the start time
    among them. *)
Theorem system_metrics `{T : MetricTypes} {R : MetricRegistry} s now m0 calls :
  system_reachable s → Metrics_new now = Ret m0 → calls.*1 = s_log s →
  let m := foldl perform m0 calls in
  Gauge_get (m_active_connections m) = wrap_i64 (Z.of_N (tasks_with running (s_tasks s)))
  ∧ Histogram_count (m_connection_duration m) = tasks_with ended (s_tasks s) mod 2 ^ 64
  ∧ tallies (m_connections m) (λ l,
      tasks_with (λ t, begun t && bool_decide (task_class t = label_port l)) (s_tasks s))
  ∧ exposes m (s_log s)
  ∧ (λ r, (r.1.1, r.2)) <$> registered (registry m) = metric_names ∧ NoDup (metric_names.*1)
  ∧ Gauge_get (m_process_start_time_seconds m) = wrap_i64 (now / 1000000000).
Proof.
  intros Hr Hm Hc m. pose proof (exposition_correct now) as H0. rewrite Hm in H0.
  destruct H0 as [_ H0]. destruct (H0 calls) as (Hreg & Hnd & He & Hst & _). rewrite Hc in He.
  pose proof He as [Ha Hd Hp _ _ _]. destruct (census _ _ _ Hr) as (Ca & Cd & Cp).
  rewrite Ca in Ha. rewrite Cd in Hd. split_and!; [done..| |done|done|done|done].
  eapply tallies_ext; [|exact Hp]. intros l. symmetry. apply Cp.
Qed.
End properties.

Lemma system_refines_limits_witness :
  accounts (s_limits sample_sys3) [sample_lease]
  ∧ windows_respected LimitsConfig_default (s_history sample_sys3).
Proof.
  destruct (system_refines_limits (TcpStream:=SocketAddr) false
    public_config sample_sys3) as (H1 & _ & _ & H4 & _);
    [by vm_compute|apply sample_sys3_reachable|].
  split; [exact H1|exact H4].
Defined.

Lemma system_safe_witness :
  Forall (λ a, global_spec (sa_ip a)
    ∧ ∃ ports : gset N, Some (list_to_set DEFAULT_ALLOWED_PORTS) = Some ports
                        ∧ sa_port a ∈ ports) (s_dialled sample_sys3)
  ∧ ip_literal sample_remote = None.
Proof.
  destruct (system_safe (TcpStream:=SocketAddr) false
    public_config sample_sys3) as (H1 & H2);
    [apply public_safety_errors_nil; vm_compute; reflexivity|apply sample_sys3_reachable|].
  split; [exact H1|].
  eapply (H2 (sample_request sample_dest) sample_client sample_remote sample_lease [] []
    sample_connection). left.
Defined.

Lemma system_drains_witness :
  g_global_connections (s_limits sample_sys3) = 1
  ∧ ∃ s', rtc sample_system_step sample_sys3 s' ∧ g_global_connections (s_limits s') = 0.
Proof.
  split; [by vm_compute|].
  destruct (system_drains (TcpStream:=SocketAddr) false
    public_config sample_sys3) as (s' & H1 & _ & H2 & _);
    [by vm_compute|apply sample_sys3_reachable|].
  exists s'. split; [exact H1|exact H2].
Defined.

Lemma system_typed_witness :
  limits_typed LimitsConfig_default (s_limits sample_sys3)
  ∧ Forall (task_typed public_config) (s_tasks sample_sys3).
Proof.
  destruct (system_typed (TcpStream:=SocketAddr) false public_config sample_sys3)
    as (H1 & _ & _ & H2); [apply sample_sys3_reachable|].
  split; [exact H1|exact H2].
Defined.

#[local] Existing Instances ideal_metrics.types ideal_metrics.registry.

Lemma system_metrics_witness :
  ∃ m0, Metrics_new 0 = Ret m0
    ∧ Gauge_get (m_active_connections (foldl perform m0 ((λ op, (op, 0)) <$> s_log sample_sys4)))
      = 1%Z.
Proof.
  eexists. split; [reflexivity|].
  etrans; [apply (system_metrics (TcpStream:=SocketAddr) false public_config sample_sys4 0);
           [apply sample_sys4_reachable|reflexivity|]|].
  - by vm_compute.
  - by vm_compute.
Defined.

Lemma proxy_handler_refines_witness :
  ∃ s', rtc sample_system_step (sys_new public_config 0) s' ∧ length (s_tasks s') = 1%nat.
Proof.
  destruct (sample_run sample_dest) as [[[reply log] g'] dialled] eqn:Er.
  assert (E : match reply with Upgrade _ _ _ _ _ => true | _ => false end = true)
    by (change reply with (reply, log, g', dialled).1.1.1; rewrite <- Er; by vm_compute).
  destruct (proxy_handler_refines false public_config
    sample_lookup sample_connect (sample_request sample_dest) 0%Z 0%Z
    (sys_new public_config 0) 1 (λ g, g) 2 [] reply log g' dialled) as (s' & H1 & _ & _ & _ & H4);
    [done|by vm_compute|apply sample_resolver_ok| |exact Er|].
  - intros s1 client remote _ Hn Ht. exists s1. split_and!; [done..| |].
    + rewrite Hn. by vm_compute.
    + unfold sys_leases. rewrite Ht. by vm_compute.
  - exists s'. split; [exact H1|]. destruct reply; try discriminate E.
    destruct H4 as (client & remote & lease & -> & _). reflexivity.
Defined.
