(* ===== verification/SystemBytes.v ===== *)
(** * The bytes that the limits charge and the bytes that the relay writes

    A connection charges a chunk before it writes it, in another function and
    on a state that every task shares.  That the two agree is a fact of whole
    runs: what the relay loops of all connections of an address have written
    is what the history of the limits holds for the address.  The chunk that a
    probe passes on is written before the relay begins, and is not charged. *)

From Stdlib Require Import ZArith.
From stdpp Require Import sets.
From S2P Require Import Prelude RustStr Net Dest Proto Limits LimitsSpec LimitsTyped Metrics.
From S2P Require Import Config Registry Auth Connection Server System SystemState SystemProps.
#[local] Open Scope N_scope.

(** ** What a session relayed *)

(** The data written in either direction, in order. *)
Definition chunks (es : list Effect) : list (list byte) :=
  omap (λ e, match e with TcpWrite d _ | WsSend (MBinary d) _ => Some d | _ => None end) es.

(** A session that takes an input of a probe writes what the probe read first. *)
Definition probe_input (i : Input) : bool :=
  match i with InProbeWs _ _ | InProbeTcp _ _ => true | _ => false end.
Definition probed (ins : list Input) : bool := existsb probe_input ins.

(** The bytes of the chunks that the relay loop wrote. *)
Definition relayed_len (ins : list Input) (es : list Effect) : N :=
  total_len (if probed ins then drop 1 (chunks es) else chunks es).

(** ** Lemmas *)

Lemma chunks_app a b : chunks (a ++ b) = chunks a ++ chunks b.
Proof. apply omap_app. Qed.

Lemma chunks_metric op : chunks [Metric op] = [].
Proof. done. Qed.

Lemma probed_snoc ins i : probed (ins ++ [i]) = probed ins || probe_input i.
Proof. unfold probed. rewrite existsb_app. cbn. by rewrite orb_false_r. Qed.

Lemma chunks_take_lease c g now c' g' es :
  take_lease c g now = (c', g', es) → chunks es = [] ∧ c_phase c' = PDone.
Proof. unfold take_lease. by destruct (c_lease c); intros [= <- _ <-]. Qed.

(** A probe that passes writes one chunk, and one that does not writes none. *)
Definition probe_writes (r : ProbeRes * list Effect) : Prop :=
  match r.1 with
  | ProbeMore _ => chunks r.2 = []
  | ProbeOk => ∃ d, chunks r.2 = [d]
  | ProbeErr _ => chunks r.2 = [] ∨ ∃ d, chunks r.2 = [d]
  end.

Lemma probe_tls_writes c hello r w : probe_writes (probe_tls_sni c hello r w).
Proof.
  unfold probe_writes, probe_tls_sni. cbv zeta.
  destruct r as [[d|d|d|d|]| | |]; cbn; eauto;
    (destruct (tls_record_needed _) as [n| | |]; cbn; eauto;
     destruct (negb (n =? 0)); [destruct (_ <? _); cbn; eauto|];
     destruct (validate_tls_client_hello _ _ _); cbn; eauto; destruct w; cbn; eauto).
Qed.

Lemma probe_greeting_writes kind greet r w : probe_writes (probe_greeting kind greet r w).
Proof.
  unfold probe_writes, probe_greeting. destruct r; cbn; eauto.
  destruct (_ =? 0); cbn; eauto. destruct (_ || _); cbn; eauto.
  destruct (validate_greeting _ _); cbn; eauto. destruct w; cbn; eauto.
Qed.

(** Before the relay nothing is written; in the relay the probe's chunk has
    been, if there was a probe. *)
Definition written (ins : list Input) (es : list Effect) (ph : Phase) : Prop :=
  match ph with
  | PStart => ins = [] ∧ es = []
  | PProbeTls _ | PProbeGreeting _ _ => chunks es = []
  | PRelay _ => probed ins = true → chunks es ≠ []
  | PTeardown | PAbort | PDone => True
  end.

(** A step of a probe. *)
Lemma after_probe_written more r ins es i :
  probe_writes r → probe_input i = true → chunks es = [] →
  (∀ b ins' es', chunks es' = [] → written ins' es' (more b)) →
  written (ins ++ [i]) (es ++ (after_probe more r).2) (after_probe more r).1
  ∧ relayed_len (ins ++ [i]) (es ++ (after_probe more r).2) = relayed_len ins es.
Proof.
  intros Hw Hi He Hm.
  assert (H0 : relayed_len ins es = 0) by (unfold relayed_len; rewrite He; by destruct (probed ins)).
  rewrite H0. unfold relayed_len. rewrite probed_snoc, Hi, orb_true_r.
  destruct r as [[b| |reason] es']; unfold probe_writes in Hw; cbn [fst snd after_probe] in *;
    rewrite ?chunks_app, He, ?chunks_app, ?chunks_metric; cbn [app].
  - rewrite Hw. split; [|done]. apply Hm. by rewrite chunks_app, He.
  - destruct Hw as [d Hd]. rewrite Hd. split; [|done]. intros _. by rewrite chunks_app, He, Hd.
  - rewrite app_nil_r. split; [done|]. by destruct Hw as [->|[d ->]].
Qed.

Section bytes.
  Context {PasetoKey : Type} (config : Config PasetoKey).

(** What a step adds to the bytes relayed. *)
Definition step_written (c : Connection) (es' : list Effect) : N :=
  match c_phase c with PRelay _ => total_len (chunks es') | _ => 0 end.

(** A step that is not the relay's writes nothing, but for a probe. *)
Lemma written_silent ins es i es' ph :
  probe_input i = false → chunks es' = [] → written (ins ++ [i]) (es ++ es') ph →
  written (ins ++ [i]) (es ++ es') ph
  ∧ relayed_len (ins ++ [i]) (es ++ es') = relayed_len ins es + 0.
Proof.
  intros Hi He H. split; [done|]. unfold relayed_len.
  by rewrite probed_snoc, Hi, orb_false_r, chunks_app, He, app_nil_r, N.add_0_r.
Qed.

(** The chunks of an iteration of the relay, and the charge that went before. *)
Lemma forward_written c g n d t1 t2 write ph g' es :
  chunks write.1 = [d] → forward config c g n d t1 t2 write = (ph, g', es) →
  (ph = PTeardown ∨ ∃ m, ph = PRelay m)
  ∧ let n := if over_conn_bytes config (sat_add64 n (lenN d)) then 0 else lenN d in
    total_len (chunks es) = (if is_ok (add_bytes g (c_client_ip c) n t1 t2).1 then n else 0).
Proof.
  intros Hw E. split; [by eapply forward_phase|]. revert E.
  unfold forward, account_bytes. cbv zeta.
  destruct (over_conn_bytes _ _); [intros [= _ _ <-]; by destruct (is_ok _)|].
  destruct (N.eqb_spec (lenN d) 0) as [E0|].
  { intros [= _ _ <-]. cbn [app]. rewrite Hw. unfold total_len. cbn [concat]. rewrite app_nil_r, E0.
    by destruct (is_ok _). }
  destruct (add_bytes g (c_client_ip c) (lenN d) t1 t2) as [[[]|e] g1]; intros [= _ _ <-];
    cbn [app fst is_ok]; [|done].
  rewrite Hw. unfold total_len. cbn [concat]. by rewrite app_nil_r.
Qed.

Lemma chunks_send_tcp d r : chunks (send_tcp d r).1 = [d].
Proof. by destruct r. Qed.
Lemma chunks_send_ws m r :
  chunks (send_ws m r).1 = match m with MBinary d => [d] | _ => [] end.
Proof. by destruct m, r. Qed.
(** The bytes that an iteration of the relay writes are the charge that the
    limits accepted. *)
Lemma relay_written c g n p ph g' es :
  c_phase c = PRelay n → relay_step config c g n p = (ph, g', es) →
  (ph = PTeardown ∨ ∃ m, ph = PRelay m)
  ∧ let n := step_charge config c (InPoll p) in
    total_len (chunks es)
    = (if is_ok (add_bytes g (c_client_ip c) n (p_now_gc p) (p_now p)).1 then n else 0).
Proof.
  assert (H0 : ∀ b : bool, total_len [] = if b then 0 else 0) by (by intros []).
  assert (Hf : ∀ d write, chunks write.1 = [d] →
    forward config c g n d (p_now_gc p) (p_now p) write = (ph, g', es) → _)
    by (intros d write; apply forward_written).
  unfold step_charge, relay_step, taken_ws, taken_tcp. intros ->. cbv zeta.
  destruct (_ && _); [intros [= <- _ <-]; split; [by left|apply H0]|].
  destruct (p_ws p) as [[[d|d|d|d|]| | |]|]; cbn [relay_ws payload];
    try (intros [= <- _ <-]; split; [by eauto|apply H0]);
    try (apply Hf, chunks_send_tcp).
  - rewrite (surjective_pairing (send_ws (MPong d) (p_write p))). intros [= <- _ <-].
    rewrite chunks_send_ws. split; [destruct (_ : bool); eauto|apply H0].
  - rewrite (surjective_pairing (send_ws (MPing []) (p_write p))). intros [= <- _ <-].
    rewrite chunks_send_ws. split; [destruct (_ : bool); eauto|apply H0].
  - destruct (p_tcp p) as [[d| |]|]; cbn [relay_tcp];
      try (intros [= <- _ <-]; split; [by eauto|apply H0]).
    destruct (lenN d =? 0); [intros [= <- _ <-]; split; [by left|apply H0]|].
    apply Hf, chunks_send_ws.
Qed.

(** An iteration of the relay adds what it writes. *)
Lemma relay_adds ins es p ph es' n :
  written ins es (PRelay n) → ph = PTeardown ∨ (∃ m, ph = PRelay m) →
  written (ins ++ [InPoll p]) (es ++ es') ph
  ∧ relayed_len (ins ++ [InPoll p]) (es ++ es') = relayed_len ins es + total_len (chunks es').
Proof.
  intros Hw Hph. unfold relayed_len. rewrite probed_snoc, orb_false_r, chunks_app.
  cbn [written] in Hw. split.
  - destruct Hph as [->|[m ->]]; [done|]. cbn [written]. rewrite probed_snoc, orb_false_r, chunks_app.
    intros H%Hw. by destruct (chunks es).
  - destruct (probed ins); [|apply total_len_app]. specialize (Hw eq_refl).
    destruct (chunks es); [done|]. apply total_len_app.
Qed.

Lemma start_written c :
  chunks (run_start config c).2 = []
  ∧ ∀ now, written [InStart now] (run_start config c).2 (run_start config c).1.
Proof.
  unfold run_start. destruct (negb (c_tcp c)); [done|].
  destruct (require_protocol_probe config); [|done].
  by destruct (probe_for_port _) as [[]|].
Qed.

Lemma relayed_len_step c g i c' g' es' ins es :
  connection_step config c g i = Some (c', g', es') → written ins es (c_phase c) →
  written (ins ++ [i]) (es ++ es') (c_phase c')
  ∧ relayed_len (ins ++ [i]) (es ++ es') = relayed_len ins es + step_written c es'.
Proof.
  unfold connection_step, step_written, teardown, abort. cbv zeta.
  destruct (c_phase c) eqn:Ep, i; try done; intros E Hw.
  - destruct Hw as [-> ->]. destruct (negb (c_tcp c)) eqn:Et.
    + destruct (take_lease c g now) as [[c1 g1] es1] eqn:El. injection E as <- _ <-.
      apply chunks_take_lease in El as [El ->]. apply written_silent; [done| |done].
      unfold run_start. rewrite Et. exact El.
    + destruct (start_written c) as [Hes Hph]. destruct (run_start config c) as [ph es1].
      injection E as <- _ <-. apply written_silent; [done|exact Hes|exact (Hph now)].
  - pose proof (after_probe_written PProbeTls _ ins es (InProbeWs r w)
      (probe_tls_writes c hello r w) eq_refl Hw (λ _ _ _ H, H)) as H.
    destruct (after_probe _ _) as [ph es1]. injection E as <- _ <-. by rewrite N.add_0_r.
  - pose proof (after_probe_written (PProbeGreeting kind) _ ins es (InProbeTcp r w)
      (probe_greeting_writes kind greet r w) eq_refl Hw (λ _ _ _ H, H)) as H.
    destruct (after_probe _ _) as [ph es1]. injection E as <- _ <-. by rewrite N.add_0_r.
  - destruct (relay_step config c g conn_bytes p) as [[ph g1] es1] eqn:Er. injection E as <- _ <-.
    apply relay_written in Er as [Hph _]; [|done]. by apply (relay_adds _ _ _ _ _ conn_bytes).
  - destruct (take_lease c g now) as [[c1 g1] es1] eqn:El. injection E as <- _ <-.
    apply chunks_take_lease in El as [El ->]. apply written_silent; [done| |done].
    assert (Hn : chunks (es1 ++ scope_drops) = []) by (by rewrite chunks_app, El).
    destruct send, close_ok, shutdown_ok; exact Hn.
  - destruct (take_lease c g now) as [[c1 g1] es1] eqn:El. injection E as <- _ <-.
    apply chunks_take_lease in El as [El ->]. apply written_silent; [done| |done].
    exact El.
Qed.
End bytes.

Lemma written_trace {K} (config : Config K) remote ip lease ins es c :
  trace config (Connection_new remote ip lease) ins es c → written ins es (c_phase c).
Proof.
  revert ins es c. apply (trace_forward config); [done|].
  intros ins es c g i c' g' es' Hw E. by eapply relayed_len_step.
Qed.

Section system.
  Context {PasetoKey TcpStream : Type} `{L : TokenLibrary PasetoKey} (debug_assertions : bool)
    (config : Config PasetoKey).

#[local] Abbreviation step := (sys_step (TcpStream:=TcpStream) debug_assertions config).
#[local] Abbreviation reachable_state :=
  (sys_reachable (TcpStream:=TcpStream) debug_assertions config).
#[local] Abbreviation key_of client :=
  (limit_key client (ipv4_prefix (limits config)) (ipv6_prefix (limits config))).

(** The bytes that the connections under the limit key [k] relayed. *)
Definition task_relayed (k : IpAddr) (t : Task) : N :=
  match t with
  | TRun _ client _ _ ins es _ =>
      if bool_decide (key_of client = k) then relayed_len ins es else 0
  | TDial _ _ _ | TUpgrade _ _ _ _ => 0
  end.
Definition relayed_by (k : IpAddr) (ts : list Task) : N := sumN (task_relayed k <$> ts).

(** The bytes that the limits charged to [k]. *)
Definition charged_to (k : IpAddr) (h : list Event) : N := sumN (bytes_of k h).*2.

Lemma relayed_by_app k a b : relayed_by k (a ++ b) = relayed_by k a + relayed_by k b.
Proof. unfold relayed_by. by rewrite fmap_app, sumN_app. Qed.

Lemma relayed_by_cons k t ts : relayed_by k (t :: ts) = task_relayed k t + relayed_by k ts.
Proof. done. Qed.

Lemma charged_to_app k a b : charged_to k (a ++ b) = charged_to k a + charged_to k b.
Proof. unfold charged_to, bytes_of. by rewrite omap_app, fmap_app, sumN_app. Qed.

Lemma charged_to_attempt k g client remote now :
  charged_to k [attempted g client remote now] = 0.
Proof. done. Qed.

(** The events of a step charge what the step wrote. *)
Lemma step_events_charge k c g i last c' g' es' :
  g_cfg g = limits config → max_bytes_per_ip (limits config) ≠ 0 →
  connection_step config c g i = Some (c', g', es') →
  charged_to k (step_events config c g i last)
  = if bool_decide (key_of (c_client_ip c) = k) then step_written c es' else 0.
Proof.
  intros Hg Hm E. unfold step_events, charged, step_written. rewrite Hg.
  assert (H0 : ∀ b : bool, 0 = if b then 0 else 0) by (by intros []).
  rewrite (proj2 (N.eqb_neq _ _) Hm). cbn [negb]. rewrite andb_true_r.
  destruct (c_phase c) eqn:Ep;
    try (unfold step_charge; rewrite Ep; destruct (input_times i last);
         rewrite andb_false_r; apply H0).
  unfold connection_step in E. rewrite Ep in E. destruct i as [| | |p| |]; try done.
  destruct (relay_step config c g conn_bytes p) as [[ph g1] es1] eqn:Er. injection E as _ _ <-.
  apply relay_written in Er as [_ ->]; [|done]. cbn [input_times].
  destruct (is_ok _); [|apply H0]. cbn [andb].
  destruct (N.eqb_spec (step_charge config c (InPoll p)) 0) as [->|_]; [apply H0|].
  cbn [negb]. unfold charged_to. cbn [bytes_of omap list_omap]. case_bool_decide; [|done].
  cbn. by rewrite N.add_0_r.
Qed.

Lemma sys_step_conserves k s s' :
  max_bytes_per_ip (limits config) ≠ 0 → reachable_state s → step s s' →
  relayed_by k (s_tasks s) = charged_to k (s_history s) →
  relayed_by k (s_tasks s') = charged_to k (s_history s').
Proof.
  intros Hm Hreach. pose proof (sys_reachable_ok _ _ _ Hreach) as [Hok _].
  destruct (sys_reachable_typed _ _ _ Hreach) as [Hlim Hty].
  step_cases; cbn [s_tasks s_history]; try (rewrite Hs in * );
    rewrite ?relayed_by_cons, ?relayed_by_app, ?relayed_by_cons, ?charged_to_app,
      ?charged_to_attempt; cbn [task_relayed]; try lia.
  - destruct (bool_decide _); change (relayed_len [] []) with 0; lia.
  - apply Forall_app in Hok as [_ [(_ & _ & Hw%written_trace) _]%Forall_cons].
    apply Forall_app in Hty as [_ [(_ & _ & _ & Hid & _) _]%Forall_cons].
    destruct (relayed_len_step config _ _ _ _ _ _ _ _ Hst Hw) as [_ ->].
    rewrite (step_events_charge k _ _ _ _ _ _ _ (lt_cfg _ _ Hlim) Hm Hst), Hid.
    destruct (bool_decide _); lia.
Qed.

Lemma sys_reachable_conserves k s :
  max_bytes_per_ip (limits config) ≠ 0 → reachable_state s →
  relayed_by k (s_tasks s) = charged_to k (s_history s).
Proof.
  intros Hm [now Hr]. revert s Hr. apply rtc_ind_r; [done|].
  intros x y Hx Hxy IH. apply (sys_step_conserves _ x); [done| |done..]. by exists now.
Qed.

(** ** Properties *)

(** C4: Every byte relayed is charged, and every byte charged was relayed.  With a
    byte cap per address, in every state that any interleaving of the tasks can
    reach, the bytes that the relay loops of all connections under an address,
    live or ended, have written or tried to write in both directions are exactly
    the bytes that the limits have charged to the address; and these keep to the
    cap in every window of time. *)
Theorem system_conserves s k :
  0 < max_bytes_per_ip (limits config) < U64_MAX → reachable_state s →
  relayed_by k (s_tasks s) = charged_to k (s_history s)
  ∧ ∀ a, sumN (within fst (bytes_window (limits config)) a (bytes_of k (s_history s))).*2
         <= max_bytes_per_ip (limits config).
Proof.
  intros [Hpos Hb] Hr. split; [apply sys_reachable_conserves; [lia|done]|]. intros a.
  apply sys_reachable_world in Hr. destruct (reachable_ok _ Hb _ Hr) as [_ _ _ Hw].
  destruct (Hw a) as [_ Hk]. destruct (Hk k) as (_ & _ & [?|H]); [lia|exact H].
Qed.
End system.

(** The sample connection passes its probe and relays one chunk each way. *)
Definition sample_relayed : Sys :=
  foldl sample_advance sample_sys4
    [ InProbeWs (WsMsg (MBinary (client_hello_with_sni (lit "imap.example.com")))) WOk;
      InPoll {| p_deadline := false; p_ws := Some (WsMsg (MText (lit "more"))); p_tcp := None;
                p_write := WOk; p_now_gc := 4; p_now := 4 |};
      InPoll {| p_deadline := false; p_ws := None; p_tcp := Some (TcpData (lit "reply"));
                p_write := WErr; p_now_gc := 5; p_now := 5 |} ].

Lemma sample_relayed_reachable : sample_reachable sample_relayed.
Proof.
  exists 0. unfold sample_relayed. cbn [foldl].
  do 3 (apply sample_advance_run; [by vm_compute|by vm_compute|]). apply sample_sys4_run.
Qed.

Lemma system_conserves_witness :
  charged_to sample_client (s_history sample_relayed) = 9
  ∧ relayed_by public_config sample_client (s_tasks sample_relayed)
    = charged_to sample_client (s_history sample_relayed).
Proof.
  split; [by vm_compute|].
  apply (system_conserves (TcpStream:=SocketAddr) false public_config sample_relayed
    sample_client); [by vm_compute|apply sample_relayed_reachable].
Defined.
