(* ===== verification/Process.v ===== *)
(** * The process ([src/main.rs], [src/server.rs])

    [main] from its arguments and its environment to the listeners, and the
    life of [run_proxy]: the task that binds and serves the metrics listener,
    the public listener over the tasks of [System], and the two waits for a
    shutdown signal.  A listener that a signal has reached drains; when the
    public one is closed [main] returns.

    [bind] and the delivery of signals are the environment.  How long draining
    takes, and that [axum] waits for requests in flight, is [axum]'s: the model
    lets the tasks go on while it drains and lets it end at any time. *)

From Stdlib Require Import ZArith.
From stdpp Require Import sets.
From S2P Require Import Prelude RustStr Net Dest Proto Limits LimitsSpec LimitsTyped Metrics.
From S2P Require Import Config Registry Auth Connection Server Http System SystemState SystemProps.
#[local] Open Scope N_scope.

(** ** Signals *)

(** What [ctrl_c()] completed with, if it did, and for SIGTERM whether the
    handler could be installed and has received. *)
Record Signals := {
  sg_ctrl_c : option (result unit unit);
  sg_terminate : result unit bool;
}.

(** [shutdown_signal]: whichever branch of its [select!] completes. *)
Definition shutdown_signal (s : Signals) : bool :=
  let ctrl_c := match sg_ctrl_c s with Some _ => true | None => false end in
  let terminate := match sg_terminate s with Ok received => received | Err _ => true end in
  ctrl_c || terminate.

(** A failure to install the handler of SIGTERM ends the wait, and with it the
    proxy, although no signal came. *)
Lemma shutdown_without_a_signal :
  shutdown_signal {| sg_ctrl_c := None; sg_terminate := Err tt |} = true.
Proof. done. Qed.

(** ** Listeners *)

(** The metrics listener starts unbound, in a task of its own. *)
Inductive Listener :=
| LUnbound (addr : str) (routes : list (str * Route))
| LServing (routes : list (str * Route))
| LDraining (routes : list (str * Route))
| LClosed.

Definition accepting (l : Listener) : bool :=
  match l with LServing _ | LDraining _ => true | LUnbound _ _ | LClosed => false end.

Definition routes_of (l : Listener) : list (str * Route) :=
  match l with LUnbound _ routes | LServing routes | LDraining routes => routes | LClosed => [] end.

Section process.
  Context {PasetoKey TcpStream Level : Type} `{L : TokenLibrary PasetoKey}
    (key_of_bytes : list byte → option PasetoKey) (level_from_str : str → option Level)
    (bind : str → result unit unit) (debug_assertions : bool).

Record Process := {
  p_config : Config PasetoKey;
  p_public : Listener;
  p_metrics : option Listener;
  p_sys : Sys;
}.

(** [run_proxy], on a listener that is bound. *)
Definition launch (config : Config PasetoKey) (now : Instant) : Process := {|
  p_config := config;
  p_public := LServing (run_proxy config).1;
  p_metrics := (λ '(addr, routes), LUnbound addr routes) <$> (run_proxy config).2;
  p_sys := sys_new config now;
|}.

(** [format!("{}:{}", config.bind_addr, config.listen_port)] *)
Definition listen_address (config : Config PasetoKey) : str :=
  bind_addr config ++ lit ":" ++ show_dec (listen_port config).

(** [main]: a panic of the startup, the error of the bind, or the process. *)
Definition main (env : Env) (args : Args) (now : Instant) : outcome unit Process :=
  let! config := startup key_of_bytes level_from_str debug_assertions env args in
  match bind (listen_address config) with
  | Err e => Throw e
  | Ok _ => Ret (launch config now)
  end.

Definition set_listeners (p : Process) (public : Listener) (metrics : option Listener) : Process :=
  {| p_config := p_config p; p_public := public; p_metrics := metrics; p_sys := p_sys p |}.

Inductive process_step (p : Process) : Process → Prop :=
(** A task runs. *)
| ps_task s' :
    accepting (p_public p) = true →
    sys_step (TcpStream:=TcpStream) debug_assertions (p_config p) (p_sys p) s' →
    process_step p {| p_config := p_config p; p_public := p_public p; p_metrics := p_metrics p;
                      p_sys := s' |}
(** The metrics listener is bound, or its bind fails, which is logged. *)
| ps_metrics_bound addr routes :
    accepting (p_public p) = true → p_metrics p = Some (LUnbound addr routes) → bind addr = Ok tt →
    process_step p (set_listeners p (p_public p) (Some (LServing routes)))
| ps_metrics_failed addr routes e :
    accepting (p_public p) = true → p_metrics p = Some (LUnbound addr routes) → bind addr = Err e →
    process_step p (set_listeners p (p_public p) (Some LClosed))
(** The shutdown signal of one listener, and of the other. *)
| ps_public_shutdown sig routes :
    p_public p = LServing routes → shutdown_signal sig = true →
    process_step p (set_listeners p (LDraining routes) (p_metrics p))
| ps_metrics_shutdown sig routes :
    accepting (p_public p) = true → p_metrics p = Some (LServing routes) →
    shutdown_signal sig = true →
    process_step p (set_listeners p (p_public p) (Some (LDraining routes)))
(** A drained listener closes. *)
| ps_public_closed routes :
    p_public p = LDraining routes → process_step p (set_listeners p LClosed (p_metrics p))
| ps_metrics_closed routes :
    accepting (p_public p) = true → p_metrics p = Some (LDraining routes) →
    process_step p (set_listeners p (p_public p) (Some LClosed)).

(** ** Lemmas *)

(** What every reachable process keeps. *)
Record process_ok (config : Config PasetoKey) (now : Instant) (p : Process) : Prop := {
  pk_config : p_config p = config;
  pk_sys : rtc (sys_step (TcpStream:=TcpStream) debug_assertions config) (sys_new config now) (p_sys p);
  pk_public : p_public p = LClosed
    ∨ accepting (p_public p) = true ∧ routes_of (p_public p) = public_routes config;
  pk_metrics :
    match p_metrics p with
    | None => metrics_bind config = None
    | Some l => metrics_bind config ≠ None
        ∧ (l = LClosed ∨ metrics_routes config = Some (routes_of l)
           ∧ (accepting l = true → ∃ addr, metrics_bind config = Some addr ∧ bind addr = Ok tt)
           ∧ (∀ addr routes, l = LUnbound addr routes → metrics_bind config = Some addr))
    end;
}.

Lemma launch_ok config now : process_ok config now (launch config now).
Proof.
  constructor; [done|constructor|by right|].
  unfold launch, run_proxy, metrics_routes. cbn [p_metrics].
  destruct (metrics_bind config) as [addr|] eqn:E; cbn [fmap option_fmap option_map snd]; [|done].
  split; [done|right]. unfold run_proxy. rewrite E. split_and!; [done..|]. congruence.
Qed.

Lemma process_step_ok config now p p' :
  process_ok config now p → process_step p p' → process_ok config now p'.
Proof.
  intros [Hc Hs Hp Hm] H.
  destruct H as [s' _ St|addr routes _ Em Eb|addr routes e _ Em Eb|sig routes Ep _
    |sig routes _ Em _|routes Ep|routes _ Em];
    constructor; unfold set_listeners; cbn [p_config p_sys p_public p_metrics]; try done;
    try (rewrite Em in Hm; destruct Hm as [Hb [Hm|(Hr & Ha & Hu)]]; [discriminate Hm|];
         split; [done|]); try (by left).
  - eapply rtc_r; [exact Hs|]. by rewrite <- Hc.
  - right. split; [done|]. split; [|done]. intros _. exists addr. split; [by eapply Hu|done].
  - right. rewrite Ep in Hp. destruct Hp as [?|[_ ?]]; [done|]. by split.
  - right. split; [done|]. split; [|done]. intros _. by apply Ha.
Qed.

Lemma process_reachable_ok config now p :
  rtc process_step (launch config now) p → process_ok config now p.
Proof.
  intros Hr. pose proof (launch_ok config now) as H0. revert H0.
  induction Hr; eauto using process_step_ok.
Qed.

(** The system has done only what it is for. *)
Definition on_purpose (config : Config PasetoKey) (s : Sys) : Prop :=
  Forall (λ a, global_spec (sa_ip a)
    ∧ ∃ ports, allowed_ports (dest config) = Some ports ∧ sa_port a ∈ ports) (s_dialled s)
  ∧ ∀ request client remote lease ins es c,
      TRun request client remote lease ins es c ∈ s_tasks s →
      client = request_client config request
      ∧ (∃ t1 t2, request_ok debug_assertions config request t1 t2 remote)
      ∧ ip_literal remote = None
      ∧ (∃ ports, allowed_ports (dest config) = Some ports ∧ port remote ∈ ports)
      ∧ (leases_dropped es = [] ∨ leases_dropped es = [lease])
      ∧ ∀ kind, probe_for_port (port remote) = Some kind → silent es ∨ passed remote kind ins es.
End process.

(** ** Properties *)

Section properties.
  Context {PasetoKey TcpStream Level : Type} `{L : TokenLibrary PasetoKey}
    (key_of_bytes : list byte → option PasetoKey) (level_from_str : str → option Level)
    (bind : str → result unit unit).

Lemma main_launch debug_assertions env args now p0 :
  main key_of_bytes level_from_str bind debug_assertions env args now = Ret p0 →
  startup key_of_bytes level_from_str debug_assertions env args = Ret (p_config p0)
  ∧ p0 = launch (p_config p0) now ∧ bind (listen_address (p_config p0)) = Ok tt.
Proof.
  unfold main. destruct (startup _ _ _ _ _) as [config| | |]; cbn [outcome_bind]; try done.
  destruct (bind (listen_address config)) as [[]|] eqn:E; [|done]. by intros [= <-].
Qed.

(** C1: A release build keeps to its purpose for as long as it runs.  Whatever
    its environment, unless [MAILINER_UNSAFE] is on, a process that [main]
    starts has a safe configuration and a key for its metrics; and in every
    state that it can reach, every address ever dialled is globally routable
    and on a configured port, and every connection was made by a request that
    passed all the checks, for a destination that is a name on a configured
    port, relayed nothing on a mail port before its probe passed, and dropped
    its lease at most once. *)
Theorem process_safe env args now p0 p :
  env_bool env (lit "MAILINER_UNSAFE") false = false →
  main key_of_bytes level_from_str bind false env args now = Ret p0 →
  rtc (process_step (TcpStream:=TcpStream) bind false) p0 p →
  hosting_safe (p_config p)
  ∧ (∃ token, env (lit "METRICS_AUTH_TOKEN") = Some token
              ∧ metrics_auth_key (p_config p) = Some token)
  ∧ on_purpose false (p_config p) (p_sys p).
Proof.
  intros Hu (Hs & E & _)%main_launch Hr. rewrite E in Hr. set (config := p_config p0) in *.
  destruct (process_reachable_ok bind false config now p Hr) as [-> Hsys _ _].
  destruct (startup_spec key_of_bytes level_from_str env args config) as [[H _] _].
  destruct (H Hs) as (_ & (token & Ht & Hc) & [Hsafe|Hbad] & _); [|congruence].
  split; [done|]. split; [exists token; split; [done|by rewrite Hc]|].
  apply (system_safe (TcpStream:=TcpStream)); [done|by exists now].
Qed.

(** C18: What a process serves, and where.  While the public listener accepts, it
    serves the proxy and the health check, and the metrics iff no address is
    configured for them; with an address configured the metrics are served only
    there, once its bind has succeeded.  Whatever becomes of the metrics
    listener, the proxy's tasks go on. *)
Theorem process_listeners debug_assertions env args now p0 p :
  main key_of_bytes level_from_str bind debug_assertions env args now = Ret p0 →
  rtc (process_step (TcpStream:=TcpStream) bind debug_assertions) p0 p →
  let config := p_config p in
  bind (listen_address config) = Ok tt
  ∧ (accepting (p_public p) = true →
     find_route (routes_of (p_public p)) (lit "/proxy") = Some RProxy
     ∧ find_route (routes_of (p_public p)) (lit "/health") = Some RHealth
     ∧ find_route (routes_of (p_public p)) (lit "/metrics")
       = (if bool_decide (metrics_bind config = None) then Some RMetrics else None)
     ∧ ∀ s', sys_step (TcpStream:=TcpStream) debug_assertions config (p_sys p) s' →
         ∃ p', process_step (TcpStream:=TcpStream) bind debug_assertions p p' ∧ p_sys p' = s')
  ∧ match p_metrics p with
    | None => metrics_bind config = None
    | Some l => accepting l = true → ∃ addr, metrics_bind config = Some addr ∧ bind addr = Ok tt
        ∧ ∀ path, find_route (routes_of l) path
                  = if bool_decide (path = lit "/metrics") then Some RMetrics else None
    end.
Proof.
  intros (_ & E & Hb)%main_launch Hr. rewrite E in Hr. set (c := p_config p0) in *.
  destruct (process_reachable_ok bind debug_assertions c now p Hr) as [Hc Hsys Hp Hm]. cbv zeta. rewrite Hc.
  split; [done|]. split.
  - intros Ha. destruct Hp as [Hp|[_ ->]]; [by rewrite Hp in Ha|]. rewrite !find_public.
    split_and!; [done..|]. intros s' Hst. eexists. split; [eapply ps_task; [done|by rewrite Hc]|done].
  - destruct (p_metrics p) as [l|]; [|done]. destruct Hm as [_ [->|(Hl & Hacc & _)]]; [done|].
    intros Ha. destruct (Hacc Ha) as (addr & H1 & H2). exists addr. split_and!; [done..|].
    intros path. by apply (find_metrics c).
Qed.
End properties.

(** ** Witnesses: a release build behind a metrics listener *)

Definition sample_env : Env := λ key,
  if bool_decide (key = lit "METRICS_AUTH_TOKEN") then Some (lit "m")
  else if bool_decide (key = lit "MAILINER_AUTH") then Some (lit "public")
  else if bool_decide (key = lit "MAILINER_ALLOWED_ORIGINS") then Some (lit "https://app.example")
  else if bool_decide (key = lit "MAILINER_METRICS_ADDR") then Some (lit "127.0.0.1:9100")
  else None.
Definition sample_args : Args :=
  {| arg_port := 9400; arg_bind := lit "0.0.0.0"; arg_log_level := lit "info" |}.
Definition sample_main : outcome unit (Process (PasetoKey:=unit)) :=
  main (λ _, None) (λ _, Some tt) (λ _, Ok tt) false sample_env sample_args 0.

(** Where it serves, a step after it was launched. *)
Definition sample_bound (p0 : Process (PasetoKey:=unit)) : Process :=
  match p_metrics p0 with
  | Some (LUnbound _ routes) => set_listeners p0 (p_public p0) (Some (LServing routes))
  | _ => p0
  end.

Lemma sample_bound_reachable p0 :
  sample_main = Ret p0 →
  rtc (process_step (TcpStream:=SocketAddr) (λ _, Ok tt) false) p0 (sample_bound p0).
Proof.
  intros (_ & E & _)%main_launch. unfold sample_bound.
  destruct (p_metrics p0) as [[addr routes| | |]|] eqn:Em; try done.
  apply rtc_once. eapply ps_metrics_bound; [by rewrite E|exact Em|done].
Qed.

Lemma process_safe_witness :
  ∃ p0, sample_main = Ret p0 ∧ auth_mode (p_config (sample_bound p0)) = Public
    ∧ hosting_safe (p_config (sample_bound p0)).
Proof.
  assert (E : match sample_main with
              | Ret p => bool_decide (auth_mode (p_config (sample_bound p)) = Public)
              | _ => false end = true) by (vm_compute; reflexivity).
  destruct sample_main as [p0| | |] eqn:Em; try discriminate E. exists p0.
  apply bool_decide_eq_true in E. split; [reflexivity|]. split; [exact E|].
  destruct (process_safe (TcpStream:=SocketAddr) (λ _, None) (λ _, Some tt) (λ _, Ok tt)
    sample_env sample_args 0 p0 (sample_bound p0)) as (H & _ & _);
    [by vm_compute|exact Em|by apply sample_bound_reachable|exact H].
Defined.

Lemma process_listeners_witness :
  ∃ p0, sample_main = Ret p0 ∧ accepting (p_public (sample_bound p0)) = true
    ∧ find_route (routes_of (p_public (sample_bound p0))) (lit "/proxy") = Some RProxy.
Proof.
  assert (E : match sample_main with
              | Ret p => accepting (p_public (sample_bound p))
              | _ => false end = true) by (vm_compute; reflexivity).
  destruct sample_main as [p0| | |] eqn:Em; try discriminate E. exists p0.
  split; [reflexivity|]. split; [exact E|].
  destruct (process_listeners (TcpStream:=SocketAddr) (λ _, None) (λ _, Some tt) (λ _, Ok tt) false
    sample_env sample_args 0 p0 (sample_bound p0)) as (_ & H & _);
    [exact Em|by apply sample_bound_reachable|].
  apply (H E).
Defined.
