(* ===== verification/Exit.v ===== *)
(** * The end of the process ([src/main.rs], the [Drop]s of [src/limits.rs] and
    [src/metrics.rs])

    When [main] returns, its runtime drops every task at the await where it
    stands, in an order of its own, and what a task owns is dropped with it: a
    handshake owns a lease, a connection that has been polled owns its two
    scope guards besides.  The awaits of a teardown all come before the lease
    is given back. *)

From Stdlib Require Import ZArith.
From stdpp Require Import sets.
From S2P Require Import Prelude RustStr Net Dest Proto Limits LimitsSpec LimitsTyped Metrics.
From S2P Require Import Config Registry Auth Connection Server Http System SystemState SystemProps Process.
#[local] Open Scope N_scope.

(** The future of [Connection::run], dropped: the locals go first, the
    [Connection] with its lease last. *)
Definition connection_drop (c : Connection) (g : Inner) (now : Instant) : Inner * list Effect :=
  let '(_, g, es) := take_lease c g now in
  match c_phase c with
  | PStart | PDone => (g, es)
  | PProbeTls _ | PProbeGreeting _ _ | PRelay _ | PTeardown | PAbort => (g, scope_drops ++ es)
  end.

Definition task_drop (t : Task) (g : Inner) (now : Instant) : Inner * list MetricOp :=
  match t with
  | TDial _ _ _ => (g, [])
  | TUpgrade _ _ _ lease => (drop_lease g lease now, [])
  | TRun _ _ _ _ _ _ c => let '(g, es) := connection_drop c g now in (g, metrics_of es)
  end.

(** The tasks in the order in which they are dropped, with the clock of each
    drop. *)
Fixpoint runtime_drop (drops : list (Task * Instant)) (g : Inner) (log : list MetricOp)
  : Inner * list MetricOp :=
  match drops with
  | [] => (g, log)
  | (t, now) :: drops =>
      let '(g, ops) := task_drop t g now in runtime_drop drops g (log ++ ops)
  end.

(** ** Lemmas *)

Lemma task_drop_accounts t g now ls :
  accounts g (option_list (task_lease t) ++ ls) → accounts (task_drop t g now).1 ls.
Proof.
  destruct t as [| |request client remote lease ins es c]; cbn [task_lease task_drop]; [done| |].
  - apply release_accounts.
  - unfold connection_drop, take_lease.
    destruct (c_lease c) as [l|]; cbn [option_list app]; intros H;
      destruct (c_phase c); try exact H; by apply release_accounts.
Qed.

Lemma task_drop_metrics t g now :
  let ops := (task_drop t g now).2 in
  count ActiveInc ops = 0
  ∧ count ActiveDec ops = (if running t then 1 else 0)
  ∧ count DurationObserve ops = (if running t then 1 else 0).
Proof.
  destruct t as [| |request client remote lease ins es c]; try done.
  unfold running. cbn [task_drop task_phase]. unfold connection_drop, take_lease.
  by destruct (c_lease c), (c_phase c).
Qed.

Lemma runtime_drop_accounts drops g log :
  accounts g (omap task_lease drops.*1) → accounts (runtime_drop drops g log).1 [].
Proof.
  revert g log. induction drops as [|[t now] drops IH]; intros g log; [done|].
  cbn [runtime_drop fmap list_fmap fst omap list_omap]. intros H.
  pose proof (task_drop_accounts t g now (omap task_lease drops.*1)) as Ht.
  destruct (task_drop t g now) as [g1 ops]. apply IH, Ht. by destruct (task_lease t).
Qed.

Lemma runtime_drop_metrics drops g log :
  let log' := (runtime_drop drops g log).2 in
  count ActiveInc log' = count ActiveInc log
  ∧ count ActiveDec log' = count ActiveDec log + tasks_with running drops.*1
  ∧ count DurationObserve log' = count DurationObserve log + tasks_with running drops.*1.
Proof.
  revert g log. induction drops as [|[t now] drops IH]; intros g log.
  { change (tasks_with running (@nil (Task * Instant)).*1) with 0. rewrite !N.add_0_r. done. }
  cbn [runtime_drop fmap list_fmap fst]. rewrite tasks_with_cons.
  pose proof (task_drop_metrics t g now) as Ht.
  destruct (task_drop t g now) as [g1 ops]. cbn [snd] in Ht.
  specialize (IH g1 (log ++ ops)). cbv zeta in *. rewrite !count_app in IH.
  destruct IH as (-> & -> & ->), Ht as (-> & -> & ->). destruct (running t); lia.
Qed.

Lemma tasks_with_perm f ts ts' : ts ≡ₚ ts' → tasks_with f ts = tasks_with f ts'.
Proof. intros H. unfold tasks_with, lenN. by rewrite H. Qed.

(** ** Properties *)

Section properties.
  Context {PasetoKey TcpStream Level : Type} `{L : TokenLibrary PasetoKey}
    (key_of_bytes : list byte → option PasetoKey) (level_from_str : str → option Level)
    (bind : str → result unit unit) (debug_assertions : bool).

(** C6: The process ends with nothing counted.  From any state that a process can
    reach, let its tasks run on for a while and then drop them all, in any order
    and each at any of its awaits: no connection stays counted, in all, for any
    address or for any destination, the gauge of active connections is back at
    zero, and every connection that had started has been observed once. *)
Theorem process_exit_clean env args now p0 p s drops g log :
  max_bytes_per_ip (limits (p_config p)) < U64_MAX →
  main key_of_bytes level_from_str bind debug_assertions env args now = Ret p0 →
  rtc (process_step (TcpStream:=TcpStream) bind debug_assertions) p0 p →
  rtc (sys_step (TcpStream:=TcpStream) debug_assertions (p_config p)) (p_sys p) s →
  drops.*1 ≡ₚ s_tasks s →
  runtime_drop drops (s_limits s) (s_log s) = (g, log) →
  g_global_connections g = 0 ∧ g_per_dest g = ∅ ∧ (∀ k, st_connections (row g k) = 0)
  ∧ active_connections log = 0%Z
  ∧ count DurationObserve log = tasks_with begun (s_tasks s).
Proof.
  intros Hb (_ & E & _)%main_launch Hr Hs Hp Ed. rewrite E in Hr.
  destruct (process_reachable_ok bind debug_assertions _ now p Hr) as [Hc Hsys _ _].
  rewrite <- Hc in Hsys. set (config := p_config p) in *.
  assert (Hreach : sys_reachable (TcpStream:=TcpStream) debug_assertions config s)
    by (exists now; by etrans).
  destruct (census _ _ _ Hreach) as (Ca & Cd & _).
  pose proof (runtime_drop_metrics drops (s_limits s) (s_log s)) as (M1 & M2 & M3).
  pose proof (runtime_drop_accounts drops (s_limits s) (s_log s)) as Ha.
  rewrite Ed in M1, M2, M3, Ha. cbn [fst snd] in *.
  rewrite (tasks_with_perm running _ _ Hp) in M2, M3.
  destruct (accounts_nil g) as (G1 & G2 & G3).
  { apply Ha. apply sys_reachable_world in Hreach.
    eapply accounts_perm; [|apply (reachable_ok _ Hb _ Hreach)].
    unfold sys_world, sys_leases. cbn [w_leases]. by rewrite Hp. }
  split_and!; [done..| |].
  - unfold active_connections in *. lia.
  - rewrite M3, Cd, tasks_begun. lia.
Qed.
End properties.

(** ** A witness: a session that the exit cuts short *)

Definition plain_env : Env := λ key,
  if bool_decide (key = lit "MAILINER_METRICS_ADDR") then None else sample_env key.
Definition plain_main : outcome unit (Process (PasetoKey:=unit)) :=
  main (λ _, None) (λ _, Some tt) (λ _, Ok tt) false plain_env sample_args 0.

Lemma plain_main_public : plain_main = Ret (launch public_config 0).
Proof. vm_compute. reflexivity. Qed.

Lemma process_exit_clean_witness :
  g_global_connections (s_limits sample_sys4) = 1
  ∧ active_connections (s_log sample_sys4) = 1%Z
  ∧ ∃ g log, runtime_drop ((λ t, (t, 9)) <$> s_tasks sample_sys4) (s_limits sample_sys4)
               (s_log sample_sys4) = (g, log)
      ∧ g_global_connections g = 0 ∧ active_connections log = 0%Z.
Proof.
  split; [by vm_compute|]. split; [by vm_compute|].
  destruct (runtime_drop _ _ _) as [g log] eqn:E. exists g, log. split; [reflexivity|].
  destruct (process_exit_clean (TcpStream:=SocketAddr) (λ _, None) (λ _, Some tt) (λ _, Ok tt) false
    plain_env sample_args 0 (launch public_config 0) (launch public_config 0) sample_sys4
    ((λ t, (t, 9)) <$> s_tasks sample_sys4) g log) as (H1 & _ & _ & H2 & _);
    [by vm_compute|exact plain_main_public|constructor| | |exact E|].
  - apply sample_sys4_run.
  - by vm_compute.
  - split; [exact H1|exact H2].
Defined.
